(** * Stage-based pipeline orchestrator: a shallow embedding

  The development follows [backend/pipeline/core/orchestrator.py]:
  variable expansion ([_expand]), the job record and the dependency graph
  ([Job], [JobDAG]), the job executors ([JobExecutor]) and the driver
  ([orchestrator]).  Python text is modelled by [string], dictionaries whose
  iteration order matters by association lists in insertion order, sets by
  [gset], and exceptions by an explicit result type. *)

From Stdlib Require Import Ascii String.
From stdpp Require Import gmap strings list.

Set Warnings "-clear-no-such-hyp".

(** ** Text helpers *)

Module Text.

(** [occurs c s]: the character [c] occurs somewhere in [s]. *)
Fixpoint occurs (c : ascii) (s : string) : bool :=
  match s with
  | "" => false
  | String d r => Ascii.eqb d c || occurs c r
  end.

(** The character class [[A-Za-z0-9_]]. *)
Definition is_word (c : ascii) : bool :=
  let n := nat_of_ascii c in
  (Nat.leb 65 n && Nat.leb n 90) || (Nat.leb 97 n && Nat.leb n 122)
  || (Nat.leb 48 n && Nat.leb n 57) || Nat.eqb n 95.

Fixpoint all_word (s : string) : bool :=
  match s with
  | "" => true
  | String c r => is_word c && all_word r
  end.

Definition nonempty (s : string) : bool :=
  match s with "" => false | String _ _ => true end.

(** [str.lower] on the ASCII letters. *)
Definition lower_char (c : ascii) : ascii :=
  let n := nat_of_ascii c in
  if Nat.leb 65 n && Nat.leb n 90 then ascii_of_nat (n + 32) else c.

Fixpoint lower (s : string) : string :=
  match s with
  | "" => ""
  | String c r => String (lower_char c) (lower r)
  end.

(** [p in s] *)
Fixpoint contains (p s : string) : bool :=
  String.prefix p s ||
  match s with
  | "" => false
  | String _ r => contains p r
  end.

End Text.

(** ** Variable expansion *)

Module Expand.
Import Text.

(** The environment is a mapping from names to values; a substitution
    inserts [str(value)], so the model keeps, for every name, the text that
    [str] renders. *)
Abbreviation Env := (gmap string string).

(** [env.get(name, "")] *)
Definition env_get (env : Env) (name : string) : string :=
  default "" (env !! name).

(** *** The two patterns, anchored at the head of the text

    A matcher returns group 1 and the length of the whole match. *)

(** The run of characters other than a closing brace that precedes the
    first closing brace, when there is one. *)
Fixpoint until_close (s : string) : option string :=
  match s with
  | "" => None
  | String c r =>
      if Ascii.eqb c "}" then Some ""
      else String c <$> until_close r
  end.

(** [_DOLLAR = re.compile(r"\$\{([^}]+)\}")] *)
Definition _DOLLAR (s : string) : option (string * nat) :=
  match s with
  | String c0 (String c1 r) =>
      if Ascii.eqb c0 "$" && Ascii.eqb c1 "{" then
        match until_close r with
        | Some (String c n) =>
            Some (String c n, 3 + String.length (String c n))
        | _ => None
        end
      else None
  | _ => None
  end.

(** The longest prefix made of word characters, and what follows it. *)
Fixpoint word_run (s : string) : string * string :=
  match s with
  | "" => ("", "")
  | String c r =>
      if is_word c then
        let '(w, rest) := word_run r in (String c w, rest)
      else ("", s)
  end.

(** [_BRACES = re.compile(r"\{([A-Za-z0-9_]+)\}")] *)
Definition _BRACES (s : string) : option (string * nat) :=
  match s with
  | String c0 r =>
      if Ascii.eqb c0 "{" then
        match word_run r with
        | (String c n, String d _) =>
            if Ascii.eqb d "}"
            then Some (String c n, 2 + String.length (String c n))
            else None
        | _ => None
        end
      else None
  | "" => None
  end.

(** [pattern.sub(repl, s)]: the text is scanned from the left; at a
    position where the pattern matches, the replacement of group 1 is
    emitted and the scan resumes after the match ([skip] counts the
    characters of the match still to be passed over); elsewhere the
    character is copied. *)
Fixpoint sub_from (pat : string → option (string * nat))
    (repl : string → string) (skip : nat) (s : string) : string :=
  match s with
  | "" => ""
  | String c r =>
      match skip with
      | S k => sub_from pat repl k r
      | O =>
          match pat s with
          | Some (g, len) => repl g +:+ sub_from pat repl (pred len) r
          | None => String c (sub_from pat repl 0 r)
          end
      end
  end.

Definition re_sub (pat : string → option (string * nat))
    (repl : string → string) (s : string) : string :=
  sub_from pat repl 0 s.

(** The [str] branch of [_expand]. *)
Definition expand_str (s : string) (env : Env) : string :=
  let s1 := re_sub _DOLLAR (env_get env) s in
  re_sub _BRACES (env_get env) s1.

(** Configuration values: [None], text, mappings, lists, tuples, and any
    other scalar (numbers, booleans), which expansion returns as it is. *)
#[warnings="-register-all"] Inductive pyobj : Type :=
| PNone
| PStr (s : string)
| PMapping (items : list (string * pyobj))
| PList (l : list pyobj)
| PTuple (l : list pyobj)
| PScalar (n : Z).

Fixpoint _expand (obj : pyobj) (env : Env) : pyobj :=
  match obj with
  | PNone => PNone
  | PStr s => PStr (expand_str s env)
  | PMapping items =>
      PMapping ((fix items_go (kvs : list (string * pyobj)) :=
                   match kvs with
                   | [] => []
                   | (k, v) :: kvs' => (k, _expand v env) :: items_go kvs'
                   end) items)
  | PList l =>
      PList ((fix list_go (vs : list pyobj) :=
                match vs with
                | [] => []
                | v :: vs' => _expand v env :: list_go vs'
                end) l)
  | PTuple l =>
      PTuple ((fix tuple_go (vs : list pyobj) :=
                 match vs with
                 | [] => []
                 | v :: vs' => _expand v env :: tuple_go vs'
                 end) l)
  | PScalar n => PScalar n
  end.

(** *** Templates: text written as literal runs and placeholders *)

Inductive segment : Type :=
| Lit (s : string)
| Dollar (name : string)
| Brace (name : string).

Definition seg_text (sg : segment) : string :=
  match sg with
  | Lit s => s
  | Dollar n => "${" +:+ n +:+ "}"
  | Brace n => "{" +:+ n +:+ "}"
  end.

Fixpoint render (t : list segment) : string :=
  match t with
  | [] => ""
  | sg :: t' => seg_text sg +:+ render t'
  end.

(** What a segment stands for once resolved against [env]: the value of a
    known name, nothing for an unknown one. *)
Definition seg_value (env : Env) (sg : segment) : string :=
  match sg with
  | Lit s => s
  | Dollar n | Brace n =>
      match env !! n with
      | Some v => v
      | None => ""
      end
  end.

Fixpoint substituted (env : Env) (t : list segment) : string :=
  match t with
  | [] => ""
  | sg :: t' => seg_value env sg +:+ substituted env t'
  end.

(** Literal runs hold neither a dollar sign nor an opening brace; a
    dollar placeholder names a non-empty text without closing brace whose
    value brings no opening brace; a brace placeholder names a non-empty
    run of word characters. *)
Definition seg_ok (env : Env) (sg : segment) : bool :=
  match sg with
  | Lit s => negb (occurs "$" s) && negb (occurs "{" s)
  | Dollar n =>
      nonempty n && negb (occurs "}" n) && negb (occurs "{" (env_get env n))
  | Brace n => nonempty n && all_word n
  end.

(** The template left by the dollar pass, and what the brace pass accepts. *)
Definition after_dollar (env : Env) (sg : segment) : segment :=
  match sg with
  | Dollar n => Lit (env_get env n)
  | _ => sg
  end.

Definition brace_ok (sg : segment) : bool :=
  match sg with
  | Lit s => negb (occurs "{" s)
  | Brace n => nonempty n && all_word n
  | Dollar _ => false
  end.

(** *** Text without placeholder *)

(** Some position of [s] starts a match of [pat]. *)
Fixpoint has_match (pat : string → option (string * nat)) (s : string)
    : bool :=
  match s with
  | "" => false
  | String c r => bool_decide (is_Some (pat s)) || has_match pat r
  end.

Definition placeholder_free (s : string) : bool :=
  negb (has_match _DOLLAR s) && negb (has_match _BRACES s).

Fixpoint cfg_placeholder_free (obj : pyobj) : bool :=
  match obj with
  | PStr s => placeholder_free s
  | PMapping items =>
      (fix items_go (kvs : list (string * pyobj)) :=
         match kvs with
         | [] => true
         | (_, v) :: kvs' => cfg_placeholder_free v && items_go kvs'
         end) items
  | PList l | PTuple l =>
      (fix list_go (vs : list pyobj) :=
         match vs with
         | [] => true
         | v :: vs' => cfg_placeholder_free v && list_go vs'
         end) l
  | PNone | PScalar _ => true
  end.

(** The string scalars of a configuration value, left to right. *)
Fixpoint scalars (obj : pyobj) : list string :=
  match obj with
  | PStr s => [s]
  | PMapping items =>
      (fix items_go (kvs : list (string * pyobj)) :=
         match kvs with
         | [] => []
         | (_, v) :: kvs' => scalars v ++ items_go kvs'
         end) items
  | PList l | PTuple l =>
      (fix list_go (vs : list pyobj) :=
         match vs with
         | [] => []
         | v :: vs' => scalars v ++ list_go vs'
         end) l
  | PNone | PScalar _ => []
  end.

(** What is left of a configuration value once the text of its string
    scalars is blanked: its nesting, its keys, and the other scalars. *)
Fixpoint skeleton (obj : pyobj) : pyobj :=
  match obj with
  | PStr _ => PStr ""
  | PMapping items =>
      PMapping ((fix items_go (kvs : list (string * pyobj)) :=
                   match kvs with
                   | [] => []
                   | (k, v) :: kvs' => (k, skeleton v) :: items_go kvs'
                   end) items)
  | PList l =>
      PList ((fix list_go (vs : list pyobj) :=
                match vs with
                | [] => []
                | v :: vs' => skeleton v :: list_go vs'
                end) l)
  | PTuple l =>
      PTuple ((fix tuple_go (vs : list pyobj) :=
                 match vs with
                 | [] => []
                 | v :: vs' => skeleton v :: tuple_go vs'
                 end) l)
  | PNone => PNone
  | PScalar n => PScalar n
  end.

End Expand.

(** ** Exceptions and results *)

Module Py.

(** The exceptions the modelled code raises itself, and [PluginError] for
    whatever a collaborator (reader, processor, runner, writer, database
    engine) raises. *)
Inductive exn : Type :=
| ValueError (msg : string)
| TypeError (msg : string)
| NameError (msg : string)
| PluginError (code : nat).

Inductive result (A : Type) : Type :=
| Ok (a : A)
| Raise (e : exn).
Arguments Ok {A} a.
Arguments Raise {A} e.

Definition is_raise {A : Type} (r : result A) : bool :=
  match r with
  | Ok _ => false
  | Raise _ => true
  end.

End Py.

(** ** Jobs and the dependency graph *)

Module Dag.
Import Py Expand.

(** [job.status]; every job starts as [pending]. *)
Inductive Status : Type :=
| pending
| running
| success
| failed
| skipped.

#[global] Instance Status_eq_dec : EqDecision Status.
Proof. solve_decision. Defined.

(** A processor description of the [processors] list: a bare name, a mapping
    with a name and options, or anything else. *)
Inductive proc_desc : Type :=
| ProcName (n : string)
| ProcDict (n : string) (options : pyobj)
| ProcOther.

(** The fields of [Job] that decide control flow.  [runner_type] is
    [runner_config.get("type", "")] and [output_table_name] is
    [config.get("output", {}).get("table")]; timing and reporting fields are
    left out. *)
Record Job : Type := mkJob {
  name : string;
  stage : string;
  runner : string;
  runner_type : string;
  depends_on : list string;
  processors : list proc_desc;
  output_table_name : option string;
  status : Status;
  output_table : option string;
  error : option exn
}.

(** [Job.__init__]: a fresh job is pending. *)
Definition new_job (n stg rn rt : string) (deps : list string)
    (procs : list proc_desc) (out : option string) : Job :=
  mkJob n stg rn rt deps procs out pending None None.

Definition with_status (s : Status) (j : Job) : Job :=
  mkJob (name j) (stage j) (runner j) (runner_type j) (depends_on j)
    (processors j) (output_table_name j) s (output_table j) (error j).

Definition with_error (e : exn) (j : Job) : Job :=
  mkJob (name j) (stage j) (runner j) (runner_type j) (depends_on j)
    (processors j) (output_table_name j) (status j) (output_table j) (Some e).

Definition with_output_table (t : string) (j : Job) : Job :=
  mkJob (name j) (stage j) (runner j) (runner_type j) (depends_on j)
    (processors j) (output_table_name j) (status j) (Some t) (error j).

(** [JobDAG.jobs] is a dictionary from job name to job.  The driver creates
    one job per key of the [jobs] section, so the names are distinct and the
    dictionary's values are the driver's job list, in the same order; the
    model keeps that list.  [job_names] are the dictionary's keys. *)
Definition job_names (jobs : list Job) : list string := map name jobs.

(** [self.jobs[job_name]] *)
Definition lookup_job (jobs : list Job) (n : string) : option Job :=
  List.find (λ j, bool_decide (name j = n)) jobs.

(** [JobDAG._build_graph]: the inner loop over [job.depends_on]. *)
Fixpoint add_edges (keys : list string) (jname : string) (deps : list string)
    (graph : gmap string (gset string)) : result (gmap string (gset string)) :=
  match deps with
  | [] => Ok graph
  | dep :: deps' =>
      if bool_decide (dep ∈ keys) then
        add_edges keys jname deps'
          (<[dep := default ∅ (graph !! dep) ∪ {[jname]}]> graph)
      else
        Raise (ValueError ("Job '" +:+ jname +:+ "' depends on unknown job '"
                           +:+ dep +:+ "'"))
  end.

(** The outer loop over [self.jobs.values()]. *)
Fixpoint build_from (keys : list string) (todo : list Job)
    (graph : gmap string (gset string)) : result (gmap string (gset string)) :=
  match todo with
  | [] => Ok graph
  | job :: todo' =>
      match add_edges keys (name job) (depends_on job) graph with
      | Ok graph' => build_from keys todo' graph'
      | Raise e => Raise e
      end
  end.

Definition _build_graph (jobs : list Job) : result (gmap string (gset string)) :=
  build_from (job_names jobs) jobs ∅.

(** [all(dep in completed for dep in job.depends_on)] *)
Definition deps_ready (completed : gset string) (job : Job) : bool :=
  forallb (λ dep, bool_decide (dep ∈ completed)) (depends_on job).

(** [JobDAG.get_ready_jobs] *)
Fixpoint get_ready_jobs (jobs : list Job) (stg : string)
    (completed : gset string) : list Job :=
  match jobs with
  | [] => []
  | job :: jobs' =>
      if bool_decide (stage job ≠ stg) then get_ready_jobs jobs' stg completed
      else if bool_decide (status job ≠ pending)
      then get_ready_jobs jobs' stg completed
      else if deps_ready completed job
      then job :: get_ready_jobs jobs' stg completed
      else get_ready_jobs jobs' stg completed
  end.

(** *** [JobDAG.topological_sort_within_stage] *)

Definition stage_job_names (jobs : list Job) (stg : string) : list string :=
  map name (filter (λ j, stage j = stg) jobs).

(** The loop over [job.depends_on] that fills [stage_graph] and
    [in_degree]. *)
Fixpoint count_deps (stage_jobs : list string) (job_name : string)
    (deps : list string)
    (acc : gmap string (list string) * gmap string Z)
    : gmap string (list string) * gmap string Z :=
  match deps with
  | [] => acc
  | dep :: deps' =>
      if bool_decide (dep ∈ stage_jobs) then
        count_deps stage_jobs job_name deps'
          (<[dep := default [] (acc.1 !! dep) ++ [job_name]]> acc.1,
           alter (λ d, d + 1)%Z job_name acc.2)
      else count_deps stage_jobs job_name deps' acc
  end.

Fixpoint in_degrees (jobs : list Job) (stage_jobs todo : list string)
    (acc : gmap string (list string) * gmap string Z)
    : gmap string (list string) * gmap string Z :=
  match todo with
  | [] => acc
  | job_name :: todo' =>
      match lookup_job jobs job_name with
      | Some job =>
          in_degrees jobs stage_jobs todo'
            (count_deps stage_jobs job_name (depends_on job) acc)
      | None => in_degrees jobs stage_jobs todo' acc
      end
  end.

(** The loop over [stage_graph[node]]: decrement, and enqueue on zero. *)
Fixpoint release (neighbors : list string) (in_degree : gmap string Z)
    (queue : list string) : gmap string Z * list string :=
  match neighbors with
  | [] => (in_degree, queue)
  | neighbor :: rest =>
      let in_degree' := alter (λ d, d - 1)%Z neighbor in_degree in
      if bool_decide (in_degree' !! neighbor = Some 0%Z)
      then release rest in_degree' (queue ++ [neighbor])
      else release rest in_degree' queue
  end.

(** [while queue: ...]; [None] when the fuel does not suffice. *)
Fixpoint kahn (fuel : nat) (stage_graph : gmap string (list string))
    (in_degree : gmap string Z) (queue result : list string)
    : option (list string) :=
  match queue with
  | [] => Some result
  | node :: queue' =>
      match fuel with
      | O => None
      | S fuel' =>
          let '(in_degree', queue'') :=
            release (default [] (stage_graph !! node)) in_degree queue' in
          kahn fuel' stage_graph in_degree' queue'' (result ++ [node])
      end
  end.

Definition topological_sort_within_stage (fuel : nat) (jobs : list Job)
    (stg : string) : option (result (list string)) :=
  let stage_jobs := stage_job_names jobs stg in
  let in_degree0 : gmap string Z := list_to_map (map (λ j, (j, 0%Z)) stage_jobs) in
  let '(stage_graph, in_degree) :=
    in_degrees jobs stage_jobs stage_jobs (∅, in_degree0) in
  let queue :=
    filter (λ j, in_degree !! j = Some 0%Z) stage_jobs in
  match kahn fuel stage_graph in_degree queue [] with
  | None => None
  | Some result =>
      if bool_decide (length result ≠ length stage_jobs)
      then Some (Raise (ValueError ("Circular dependency detected in stage '"
                                    +:+ stg +:+ "'")))
      else Some (Ok result)
  end.

End Dag.

(** ** The job executors and the driver *)

Module Run.
Import Text Py Expand Dag.

(** A [polars.DataFrame], as column names and rows. *)
Record DataFrame : Type := mkDataFrame {
  columns : list string;
  rows : list (list pyobj)
}.

(** [pipeline.plugins.api.Table]; a dataclass instance, hence truthy. *)
Record Table : Type := mkTable {
  t_name : string;
  t_df : DataFrame;
  t_meta : pyobj
}.

(** Connections are opaque handles, engines are known by name. *)
Abbreviation Handle := nat.
Abbreviation Engine := string.

(** What [processor.process(df, ctx)] does: return a data frame, return
    something else, raise [SkipTable], or raise another exception. *)
Inductive process_outcome : Type :=
| Returned (df : DataFrame)
| ReturnedOther
| SkipTable
| Failed (e : exn).

(** [databases.warehouse]: [db_type] is [get("type", "duckdb")], [db_path]
    is [get("path")], [schemas] is [get("schemas", [])]. *)
Record WarehouseCfg : Type := mkWarehouseCfg {
  db_type : string;
  db_path : option string;
  reset_on_start : bool;
  schemas : list string
}.

(** One entry of the [jobs] section. *)
Record JobCfg : Type := mkJobCfg {
  jc_stage : string;
  jc_runner : string;
  jc_depends_on : list string;
  jc_processors : list proc_desc;
  jc_output_table : option string
}.

(** The expanded pipeline configuration, as far as the driver reads it:
    [warehouse] is [None] when [databases.warehouse] is missing or empty,
    [runner_types] gives [runners[name].get("type", "")], [on_error] is
    [execution.on_error] with its default ["stop"]. *)
Record PipelineConfig : Type := mkPipelineConfig {
  warehouse : option WarehouseCfg;
  jobs_config : list (string * JobCfg);
  runner_types : gmap string string;
  stages_list : list string;
  on_error : string;
  reporting_enabled : bool
}.

(** What the run leaves behind, in order: each [get_ready_jobs] call with
    the names it returned, each job the driver loop takes up, each assignment
    to [job.status], each exception that reaches the driver's [except]
    clause, each [completed_jobs.add], and the database calls. *)
Inductive Event : Type :=
| EvReady (stg : string) (ready : list string)
| EvDispatch (job : string)
| EvStatus (job : string) (s : Status)
| EvFailed (job : string) (e : exn)
| EvCompleted (job : string)
| EvConnect (eng : Engine) (h : option Handle)
| EvEngineClose (eng : Engine) (h : Handle)
| EvLegacyClose (h : Handle).

(** The collaborators: readers, processors, runners, writers and database
    engines, acting on a world (files, database content) the model does not
    look into.  Each may raise. *)
Class Plugins : Type := {
  World : Type;
  (** [list(get_reader(cfg).read(cfg, Path(".")))] for an extract job *)
  read_source : Job → World → result (list Table) * World;
  (** the [PROCESSORS] registry *)
  PROCESSORS : string → option (pyobj → DataFrame → World → process_outcome * World);
  (** the body of a stage job, given the table cache and the connection *)
  stage_tables : Job → gmap string Table → option Handle → World → result unit * World;
  (** the body of a transform job; a runner may hand back another
      connection *)
  run_transform : Job → Handle → World → result Handle * World;
  (** the body of a load job *)
  write_output : Job → Handle → World → result unit * World;
  (** removing the backing store when a reset is asked for *)
  reset_store : string → World → result unit * World;
  get_database_engine : WarehouseCfg → World → result Engine * World;
  engine_connect : Engine → WarehouseCfg → World → result (option Handle) * World;
  create_schema : option Handle → string → World → result unit * World;
  engine_close : Engine → Handle → World → result unit * World;
  generate_pipeline_report : list Job → World → result unit * World
}.

Section Model.
Context `{P : Plugins}.

(** The mutable state of a run: the job objects, [completed_jobs],
    [in_memory_tables], the executor's connection, the world, and the
    events so far. *)
Record State : Type := mkState {
  jobs : list Job;
  completed_jobs : gset string;
  in_memory_tables : gmap string Table;
  exec_con : option Handle;
  world : World;
  trace : list Event
}.

(** Computations that read and write the state and may raise. *)
Definition M (A : Type) : Type := State → result A * State.

#[global] Instance M_ret : MRet M := λ A a st, (Ok a, st).

#[global] Instance M_bind : MBind M := λ A B k m st,
  match m st with
  | (Ok a, st') => k a st'
  | (Raise e, st') => (Raise e, st')
  end.

Definition raise {A : Type} (e : exn) : M A := λ st, (Raise e, st).

(** [try: body except Exception as e: handler(e)] *)
Definition try_except {A : Type} (body : M A) (handler : exn → M A) : M A :=
  λ st,
    match body st with
    | (Ok a, st') => (Ok a, st')
    | (Raise e, st') => handler e st'
    end.

(** A collaborator call. *)
Definition call {A : Type} (f : World → result A * World) : M A := λ st,
  let '(r, w) := f (world st) in
  (r, mkState (jobs st) (completed_jobs st) (in_memory_tables st)
        (exec_con st) w (trace st)).

Definition emit (ev : Event) : M unit := λ st,
  (Ok (), mkState (jobs st) (completed_jobs st) (in_memory_tables st)
            (exec_con st) (world st) (trace st ++ [ev])).

Definition update_job (n : string) (f : Job → Job) (js : list Job) : list Job :=
  map (λ j, if bool_decide (name j = n) then f j else j) js.

Definition modify_job (n : string) (f : Job → Job) : M unit := λ st,
  (Ok (), mkState (update_job n f (jobs st)) (completed_jobs st)
            (in_memory_tables st) (exec_con st) (world st) (trace st)).

(** [job.status = s] *)
Definition set_status (job : Job) (s : Status) : M unit :=
  _ ← modify_job (name job) (with_status s);
  emit (EvStatus (name job) s).

(** [completed_jobs.add(job.name)] *)
Definition add_completed (job : Job) : M unit := λ st,
  emit (EvCompleted (name job))
    (mkState (jobs st) (completed_jobs st ∪ {[name job]})
       (in_memory_tables st) (exec_con st) (world st) (trace st)).

(** [self.in_memory_tables[n] = t] *)
Definition store_table (n : string) (t : Table) : M unit := λ st,
  (Ok (), mkState (jobs st) (completed_jobs st) (<[n := t]> (in_memory_tables st))
            (exec_con st) (world st) (trace st)).

Definition set_exec_con (h : option Handle) : M unit := λ st,
  (Ok (), mkState (jobs st) (completed_jobs st) (in_memory_tables st)
            h (world st) (trace st)).

Definition get_exec_con : M (option Handle) := λ st, (Ok (exec_con st), st).

Definition get_tables : M (gmap string Table) := λ st, (Ok (in_memory_tables st), st).

(** The [except Exception] clause shared by the four executors. *)
Definition job_failed (job : Job) (e : exn) : M unit :=
  _ ← set_status job failed;
  _ ← modify_job (name job) (with_error e);
  raise e.

(** *** [JobExecutor] *)

(** [JobExecutor._normalize_processor] *)
Definition _normalize_processor (pdesc : proc_desc) : string * pyobj :=
  match pdesc with
  | ProcName n => (n, PMapping [])
  | ProcDict n options => (n, options)
  | ProcOther => ("", PMapping [])
  end.

(** The processor loop of [JobExecutor._apply_processors]; [None] is the
    [return None] of a skipped table. *)
Fixpoint process_chain (processors_config : list proc_desc) (df : DataFrame)
    : M (option DataFrame) :=
  match processors_config with
  | [] => mret (Some df)
  | proc_desc :: rest =>
      let '(proc_name, proc_opts) := _normalize_processor proc_desc in
      if nonempty proc_name then
        match PROCESSORS proc_name with
        | None => raise (ValueError ("Unknown processor: " +:+ proc_name))
        | Some processor =>
            out ← (λ st,
                     let '(o, w) := processor proc_opts df (world st) in
                     (Ok o, mkState (jobs st) (completed_jobs st)
                              (in_memory_tables st) (exec_con st) w (trace st)));
            match out with
            | Returned df' => process_chain rest df'
            | ReturnedOther =>
                raise (TypeError ("Processor '" +:+ proc_name
                                  +:+ "' must return polars.DataFrame"))
            | SkipTable => mret None
            | Failed e => raise e
            end
        end
      else process_chain rest df
  end.

Definition _apply_processors (table : Table)
    (processors_config : list proc_desc) : M (option Table) :=
  r ← process_chain processors_config (t_df table);
  match r with
  | Some df => mret (Some (mkTable (t_name table) df (t_meta table)))
  | None => mret None
  end.

(** The loop [for table in tables] of an extract job: the tables that
    survive their processors, in order. *)
Fixpoint keep_tables (job : Job) (tables : list Table) : M (list Table) :=
  match tables with
  | [] => mret []
  | table :: rest =>
      processed ← _apply_processors table (processors job);
      kept ← keep_tables job rest;
      match processed with
      | Some t => mret (t :: kept)
      | None => mret kept
      end
  end.

(** The end of an extract job: the first surviving table goes into the
    cache under the declared output name, when there is one. *)
Definition store_first (job : Job) (kept_tables : list Table) : M unit :=
  match kept_tables with
  | [] => set_status job success
  | first :: _ =>
      _ ← match output_table_name job with
          | Some output_table_name =>
              if nonempty output_table_name then
                _ ← store_table output_table_name first;
                modify_job (name job) (with_output_table output_table_name)
              else mret ()
          | None => mret ()
          end;
      set_status job success
  end.

(** What an extract job does with the tables its reader yielded. *)
Definition process_tables (job : Job) (tables : list Table) : M unit :=
  match tables with
  | [] => set_status job success
  | _ :: _ =>
      kept_tables ← keep_tables job tables;
      store_first job kept_tables
  end.

(** [JobExecutor.execute_extract_job] *)
Definition execute_extract_job (job : Job) : M unit :=
  _ ← set_status job running;
  try_except
    (tables ← call (read_source job);
     process_tables job tables)
    (job_failed job).

(** [JobExecutor.execute_stage_job] *)
Definition execute_stage_job (job : Job) : M unit :=
  _ ← set_status job running;
  try_except
    (tables ← get_tables;
     con ← get_exec_con;
     _ ← call (stage_tables job tables con);
     set_status job success)
    (job_failed job).

(** [JobExecutor.execute_transform_job] *)
Definition execute_transform_job (job : Job) : M unit :=
  _ ← set_status job running;
  try_except
    (con ← get_exec_con;
     match con with
     | None => raise (ValueError "Transform job requires DuckDB connection")
     | Some h =>
         h' ← call (run_transform job h);
         _ ← set_exec_con (Some h');
         set_status job success
     end)
    (job_failed job).

(** [JobExecutor.execute_load_job] *)
Definition execute_load_job (job : Job) : M unit :=
  _ ← set_status job running;
  try_except
    (con ← get_exec_con;
     match con with
     | None => raise (ValueError "Load job requires database connection")
     | Some h =>
         _ ← call (write_output job h);
         set_status job success
     end)
    (job_failed job).

(** *** [orchestrator] *)

(** The routing of a ready job: by runner type, else by stage name. *)
Definition dispatch (stg : string) (job : Job) : M unit :=
  let runner_type := runner_type job in
  if bool_decide (runner_type = "reader") then execute_extract_job job
  else if bool_decide (runner_type = "stager") then execute_stage_job job
  else if bool_decide (runner_type = "transformer") then execute_transform_job job
  else if bool_decide (runner_type = "writer") then execute_load_job job
  else
    let stage_lower := lower stg in
    if contains "extract" stage_lower then execute_extract_job job
    else if contains "stage" stage_lower || contains "stag" stage_lower
    then execute_stage_job job
    else if contains "transform" stage_lower then execute_transform_job job
    else if contains "load" stage_lower || contains "export" stage_lower
    then execute_load_job job
    else raise (ValueError ("Cannot determine job type for stage '" +:+ stg
                            +:+ "'. Runner '" +:+ runner job
                            +:+ "' has no 'type' field")).

(** The body of [for job in ready_jobs], with its error policy. *)
Definition run_ready_job (policy stg : string) (job : Job) : M unit :=
  _ ← emit (EvDispatch (name job));
  try_except
    (_ ← dispatch stg job;
     add_completed job)
    (λ e,
       _ ← emit (EvFailed (name job) e);
       if bool_decide (policy = "stop") then raise e
       else if bool_decide (policy = "continue") then
         _ ← set_status job failed;
         add_completed job
       else raise e).

Fixpoint for_ready_jobs (policy stg : string) (ready_jobs : list Job) : M unit :=
  match ready_jobs with
  | [] => mret ()
  | job :: rest =>
      _ ← run_ready_job policy stg job;
      for_ready_jobs policy stg rest
  end.

(** [while True: ready_jobs = dag.get_ready_jobs(...); if not ready_jobs:
    break; for job in ready_jobs: ...]; [None] when the fuel does not
    suffice. *)
Fixpoint while_ready (fuel : nat) (policy stg : string) (st : State)
    : option (result unit * State) :=
  let ready_jobs := get_ready_jobs (jobs st) stg (completed_jobs st) in
  let '(_, st1) := emit (EvReady stg (map name ready_jobs)) st in
  match ready_jobs with
  | [] => Some (Ok (), st1)
  | _ :: _ =>
      match fuel with
      | O => None
      | S fuel' =>
          match for_ready_jobs policy stg ready_jobs st1 with
          | (Ok _, st2) => while_ready fuel' policy stg st2
          | (Raise e, st2) => Some (Raise e, st2)
          end
      end
  end.

(** [for stage in stages_list: ...] *)
Fixpoint for_stages (fuel : nat) (policy : string) (stages : list string)
    (st : State) : option (result unit * State) :=
  match stages with
  | [] => Some (Ok (), st)
  | stg :: rest =>
      match filter (λ j, stage j = stg) (jobs st) with
      | [] => for_stages fuel policy rest st
      | _ :: _ =>
          match while_ready fuel policy stg st with
          | None => None
          | Some (Ok _, st') => for_stages fuel policy rest st'
          | Some (Raise e, st') => Some (Raise e, st')
          end
      end
  end.

(** The job objects the driver creates from the [jobs] section. *)
Definition create_jobs (cfg : PipelineConfig) : list Job :=
  map (λ '(job_name, job_cfg),
         new_job job_name (jc_stage job_cfg) (jc_runner job_cfg)
           (default "" (runner_types cfg !! jc_runner job_cfg))
           (jc_depends_on job_cfg) (jc_processors job_cfg)
           (jc_output_table job_cfg))
      (jobs_config cfg).

(** The loop that creates the declared schemas; a failure is logged and
    the loop goes on. *)
Fixpoint create_schemas (duckdb_con : option Handle) (names : list string)
    : M unit :=
  match names with
  | [] => mret ()
  | schema :: rest =>
      _ ← try_except (call (create_schema duckdb_con schema)) (λ _, mret ());
      create_schemas duckdb_con rest
  end.

(** The part of the driver that opens the database, before the [try]
    block: the values of [db_engine] and [duckdb_con] it leaves. *)
Definition open_database (cfg : PipelineConfig)
    : M (option Engine * option Handle) :=
  match warehouse cfg with
  | None => mret (None, None)
  | Some warehouse_cfg =>
      _ ← match db_path warehouse_cfg with
          | Some db_path =>
              if reset_on_start warehouse_cfg && nonempty db_path
                 && bool_decide (db_path ≠ ":memory:")
              then call (reset_store db_path)
              else mret ()
          | None => mret ()
          end;
      db_engine ← call (get_database_engine warehouse_cfg);
      duckdb_con ← call (engine_connect db_engine warehouse_cfg);
      _ ← emit (EvConnect db_engine duckdb_con);
      _ ← create_schemas duckdb_con (schemas warehouse_cfg);
      mret (Some db_engine, duckdb_con)
  end.

(** The [try] block. *)
Definition run_pipeline (fuel : nat) (cfg : PipelineConfig)
    (duckdb_con : option Handle) (st : State) : option (result unit * State) :=
  match jobs_config cfg with
  | [] => Some (Ok (), st)
  | _ :: _ =>
      let created := create_jobs cfg in
      match _build_graph created with
      | Raise e => Some (Raise e, st)
      | Ok _ =>
          let st1 := mkState created ∅ ∅ duckdb_con (world st) (trace st) in
          match for_stages fuel (on_error cfg) (stages_list cfg) st1 with
          | None => None
          | Some (Raise e, st2) => Some (Raise e, st2)
          | Some (Ok _, st2) =>
              if reporting_enabled cfg then
                Some (try_except (call (generate_pipeline_report (jobs st2)))
                        (λ _, mret ()) st2)
              else Some (Ok (), st2)
          end
      end
  end.

(** What the [finally] block does with [db_engine] and [duckdb_con]. *)
Inductive Cleanup : Type :=
| CloseThroughEngine (eng : Engine) (h : Handle)
| CloseQuietly (h : Handle)
| NoCleanup.

Definition cleanup_action (db_engine : option Engine)
    (duckdb_con : option Handle) : Cleanup :=
  match db_engine, duckdb_con with
  | Some eng, Some h => CloseThroughEngine eng h
  | None, Some h => CloseQuietly h
  | _, None => NoCleanup
  end.

(** The [finally] block; [close_quietly] is not defined in the module, so
    calling it raises [NameError]. *)
Definition cleanup (db_engine : option Engine) (duckdb_con : option Handle)
    : M unit :=
  match cleanup_action db_engine duckdb_con with
  | CloseThroughEngine eng h =>
      _ ← emit (EvEngineClose eng h);
      call (engine_close eng h)
  | CloseQuietly h =>
      _ ← emit (EvLegacyClose h);
      raise (NameError "name 'close_quietly' is not defined")
  | NoCleanup => mret ()
  end.

Definition initial_state (w : World) : State := mkState [] ∅ ∅ None w [].

(** [orchestrator]: open the database, run the [try] block, then the
    [finally] block whatever the outcome. *)
Definition orchestrator (fuel : nat) (cfg : PipelineConfig) (w : World)
    : option (result unit * State) :=
  match open_database cfg (initial_state w) with
  | (Raise e, st) => Some (Raise e, st)
  | (Ok (db_engine, duckdb_con), st) =>
      match run_pipeline fuel cfg duckdb_con st with
      | None => None
      | Some (r, st') =>
          match cleanup db_engine duckdb_con st' with
          | (Ok _, st'') => Some (r, st'')
          | (Raise e, st'') => Some (Raise e, st'')
          end
      end
  end.

End Model.

(** *** What one job leaves in the trace

    A job taken up by the driver loop either succeeds, or fails after an
    executor has set it running, or fails because no executor could be
    chosen for it. *)
Inductive job_outcome : Type :=
| Succeeded
| FailedRunning (e : exn)
| FailedUnrouted (e : exn).

Definition is_continue (policy : string) : bool :=
  bool_decide (policy = "continue").

Definition handler_events (policy n : string) : list Event :=
  if is_continue policy then [EvStatus n failed; EvCompleted n] else [].

Definition events_of (policy n : string) (o : job_outcome) : list Event :=
  match o with
  | Succeeded =>
      [EvDispatch n; EvStatus n running; EvStatus n success; EvCompleted n]
  | FailedRunning e =>
      [EvDispatch n; EvStatus n running; EvStatus n failed; EvFailed n e]
      ++ handler_events policy n
  | FailedUnrouted e =>
      [EvDispatch n; EvFailed n e] ++ handler_events policy n
  end.

Definition result_of (policy : string) (o : job_outcome) : result unit :=
  match o with
  | Succeeded => Ok ()
  | FailedRunning e | FailedUnrouted e =>
      if is_continue policy then Ok () else Raise e
  end.

Definition final_status (policy : string) (o : job_outcome) (before : Status)
    : Status :=
  match o with
  | Succeeded => success
  | FailedRunning _ => failed
  | FailedUnrouted _ => if is_continue policy then failed else before
  end.

Definition completes (policy : string) (o : job_outcome) : bool :=
  match o with
  | Succeeded => true
  | FailedRunning _ | FailedUnrouted _ => is_continue policy
  end.

(** The job an event is about, if any. *)
Definition event_job (ev : Event) : option string :=
  match ev with
  | EvDispatch n | EvStatus n _ | EvFailed n _ | EvCompleted n => Some n
  | EvReady _ _ | EvConnect _ _ | EvEngineClose _ _ | EvLegacyClose _ => None
  end.

(** The events of a trace that are about job [n]. *)
Definition about (n : string) (tr : list Event) : list Event :=
  filter (λ ev, event_job ev = Some n) tr.







Definition is_close (ev : Event) : bool :=
  match ev with
  | EvEngineClose _ _ | EvLegacyClose _ => true
  | _ => false
  end.

Definition is_failure (ev : Event) : bool :=
  match ev with
  | EvFailed _ _ => true
  | _ => false
  end.

(** *** Shapes of computations *)

Section Shapes.
Context `{P : Plugins}.

(** A function on jobs that keeps what identifies a job in the graph. *)
Definition static_fun (f : Job → Job) : Prop :=
  ∀ j, name (f j) = name j ∧ stage (f j) = stage j
       ∧ depends_on (f j) = depends_on j.

(** A computation that, whatever its result, leaves the trace and the
    completed-set alone and changes no job's status; among the jobs it
    touches only the one named [n]. *)
Definition quiet {A : Type} (n : string) (m : M A) : Prop :=
  ∀ st r st', m st = (r, st') →
    trace st' = trace st ∧ completed_jobs st' = completed_jobs st ∧
    ∃ f, static_fun f ∧ (∀ j, status (f j) = status j)
         ∧ jobs st' = update_job n f (jobs st).

(** The [try] part of an executor: quiet until it either raises, or sets
    the job to [success] as its last act. *)
Definition body_spec (n : string) (m : M unit) : Prop :=
  ∀ st r st', m st = (r, st') →
    completed_jobs st' = completed_jobs st ∧
    ∃ f, static_fun f ∧ jobs st' = update_job n f (jobs st) ∧
      match r with
      | Ok _ => (∀ j, status (f j) = success)
                ∧ trace st' = trace st ++ [EvStatus n success]
      | Raise _ => (∀ j, status (f j) = status j) ∧ trace st' = trace st
      end.

(** An executor: the job is set running, then ends as [success] when the
    executor returns and as [failed] when it raises. *)
Definition exec_spec (n : string) (m : M unit) : Prop :=
  ∀ st r st', m st = (r, st') →
    completed_jobs st' = completed_jobs st ∧
    ∃ f, static_fun f ∧ jobs st' = update_job n f (jobs st) ∧
      match r with
      | Ok _ => (∀ j, status (f j) = success)
                ∧ trace st' = trace st ++ [EvStatus n running; EvStatus n success]
      | Raise _ => (∀ j, status (f j) = failed)
                   ∧ trace st' = trace st ++ [EvStatus n running; EvStatus n failed]
      end.

(** A computation that changes nothing but the world. *)
Definition world_only {A : Type} (m : M A) : Prop :=
  ∀ st r st', m st = (r, st') →
    jobs st' = jobs st ∧ completed_jobs st' = completed_jobs st
    ∧ in_memory_tables st' = in_memory_tables st
    ∧ exec_con st' = exec_con st ∧ trace st' = trace st.


(** The state right after a [get_ready_jobs] call for a stage. *)
Definition polled (stg : string) (st : State) : State :=
  (emit (EvReady stg (map name (get_ready_jobs (jobs st) stg (completed_jobs st))))
     st).2.

(** The number of jobs that have not been taken up yet. *)
Definition pending_count (js : list Job) : nat :=
  length (filter (λ j, status j = pending) js).

(** *** The books of a run

    A job is fresh when nothing has happened to it; it is done with outcome
    [o] when the events about it are those of one turn of the driver loop
    with that outcome, its status is the one that turn leaves, and it is in
    the completed-set exactly when that turn adds it. *)
Definition job_fresh (st : State) (j : Job) : Prop :=
  about (name j) (trace st) = [] ∧ status j = pending
  ∧ name j ∉ completed_jobs st.

Definition job_done (policy : string) (st : State) (j : Job) (o : job_outcome)
    : Prop :=
  about (name j) (trace st) = events_of policy (name j) o
  ∧ status j = final_status policy o pending
  ∧ (name j ∈ completed_jobs st ↔ completes policy o = true).

(** While the loops go on, every job is fresh or done without having
    stopped the run. *)
Definition books_open (policy : string) (st : State) : Prop :=
  (∀ j, j ∈ jobs st →
     job_fresh st j ∨ ∃ o, job_done policy st j o ∧ result_of policy o = Ok ())
  ∧ (∀ n, about n (trace st) ≠ [] → n ∈ job_names (jobs st))
  ∧ (∀ n, n ∈ completed_jobs st ↔ EvCompleted n ∈ trace st).

(** When the loops are left, every job is fresh or done. *)
Definition books_closed (policy : string) (st : State) : Prop :=
  (∀ j, j ∈ jobs st → job_fresh st j ∨ ∃ o, job_done policy st j o)
  ∧ (∀ n, about n (trace st) ≠ [] → n ∈ job_names (jobs st))
  ∧ (∀ n, n ∈ completed_jobs st ↔ EvCompleted n ∈ trace st).

(** Two jobs make up a stage, each waits for the other, and neither has
    been taken up. *)
Definition blocked_pair (stg : string) (a b : Job) (st : State) : Prop :=
  filter (λ j, stage j = stg) (jobs st) = [a; b]
  ∧ status a = pending ∧ status b = pending
  ∧ name b ∈ depends_on a ∧ name a ∈ depends_on b
  ∧ (name a ∉ completed_jobs st) ∧ (name b ∉ completed_jobs st).

(** The polls of a stage recorded in a trace all came back empty. *)
Definition polls_empty (stg : string) (tr : list Event) : Prop :=
  ∀ ready, EvReady stg ready ∈ tr → ready = [].

End Shapes.

End Run.

(** ** Scheduling: what a run can be asked to respect *)

Module Sched.
Import Py Dag Run.

(** In a trace, every job taken up by the driver had each of its
    dependencies added to the completed-set before. *)
Definition deps_before (js : list Job) (tr : list Event) : Prop :=
  ∀ pre n post, tr = pre ++ EvDispatch n :: post →
    ∀ j dep, j ∈ js → name j = n → dep ∈ depends_on j →
             EvCompleted dep ∈ pre.

(** What identifies the jobs in the graph: name, stage and dependencies. *)
Definition graph_of (js : list Job) : list (string * (string * list string)) :=
  map (λ j, (name j, (stage j, depends_on j))) js.

(** [stages.index(s)]: the position of the first occurrence. *)
Fixpoint stage_index (stages : list string) (s : string) : option nat :=
  match stages with
  | [] => None
  | s' :: rest =>
      if bool_decide (s' = s) then Some 0 else S <$> stage_index rest s
  end.

(** Stage [s1] does not come after stage [s2] in the list of stages. *)
Definition not_later (stages : list string) (s1 s2 : string) : Prop :=
  ∃ i k, stage_index stages s1 = Some i ∧ stage_index stages s2 = Some k
         ∧ i ≤ k.

(** A job set that the stage loop can work off: every job belongs to a
    declared stage, every dependency is a job of the same or of an earlier
    stage, and the dependencies go down along [rank], so that they form no
    cycle. *)
Definition schedulable (stages : list string) (js : list Job)
    (rank : string → nat) : Prop :=
  ∀ j, j ∈ js →
    stage j ∈ stages
    ∧ ∀ dep, dep ∈ depends_on j →
        ∃ d, d ∈ js ∧ name d = dep ∧ rank dep < rank (name j)
             ∧ not_later stages (stage d) (stage j).

Section Invariants.
Context `{P : Plugins}.

(** The jobs are those of [js0], the completed-set holds only names whose
    completion the trace shows, and the trace respects the dependencies. *)
Definition ordered (js0 : list Job) (st : State) : Prop :=
  graph_of (jobs st) = graph_of js0
  ∧ (∀ n, n ∈ completed_jobs st → EvCompleted n ∈ trace st)
  ∧ deps_before js0 (trace st).

(** The books are open, the jobs are those of [js0], and the completed-set
    has lost nothing of [C]. *)
Definition live_inv (policy : string) (js0 : list Job) (C : gset string)
    (st : State) : Prop :=
  books_open policy st ∧ graph_of (jobs st) = graph_of js0
  ∧ C ⊆ completed_jobs st.

End Invariants.

End Sched.

(** ** The topological sort of a stage: what the loops maintain *)

Module Topo.
Import Py Dag.

(** [graph[dep]] of the [defaultdict(set)] that [_build_graph] fills. *)
Definition dependents (graph : gmap string (gset string)) (dep : string)
    : gset string :=
  default ∅ (graph !! dep).

(** The dependencies of the job named [n] that are jobs of the stage, as
    [topological_sort_within_stage] counts them: in the order of
    [depends_on], repetitions included. *)
Definition stage_deps (jobs : list Job) (stg : string) (n : string)
    : list string :=
  match lookup_job jobs n with
  | Some job => filter (λ d, d ∈ stage_job_names jobs stg) (depends_on job)
  | None => []
  end.

(** The entries of [deps] that are not in [result] yet. *)
Definition unresolved (deps result : list string) : nat :=
  length (filter (λ d, d ∉ result) deps).

(** The number of occurrences of [x] in [l]. *)
Definition cnt (x : string) (l : list string) : nat :=
  length (filter (λ y, y = x) l).

(** The dependencies between jobs of the stage form no cycle: they go
    down along a rank. *)
Definition stage_acyclic (jobs : list Job) (stg : string) : Prop :=
  ∃ rank : string → nat,
    ∀ job dep, job ∈ jobs → stage job = stg → dep ∈ depends_on job →
               dep ∈ stage_job_names jobs stg → rank dep < rank (name job).

(** The entries that job [n] adds to [stage_graph[d]]. *)
Definition arrows (jobs : list Job) (stg : string) (d n : string)
    : list string :=
  map (λ _, n) (filter (λ x, x = d) (stage_deps jobs stg n)).

(** What holds each time the [while queue] loop is entered. *)
Definition kahn_inv (jobs : list Job) (stg : string) (deg : gmap string Z)
    (queue result : list string) : Prop :=
  NoDup (result ++ queue)
  ∧ (∀ x, x ∈ result ++ queue → x ∈ stage_job_names jobs stg)
  ∧ (∀ v, v ∈ stage_job_names jobs stg →
          deg !! v = Some (Z.of_nat (unresolved (stage_deps jobs stg v) result)))
  ∧ (∀ v, v ∈ stage_job_names jobs stg →
          unresolved (stage_deps jobs stg v) result = 0 ↔ v ∈ result ++ queue)
  ∧ (∀ pre n post, result = pre ++ n :: post →
       ∀ d, d ∈ stage_deps jobs stg n → d ∈ pre).

(** What holds inside the loop over the neighbours of a node, [rest] being
    the neighbours still to come. *)
Definition release_inv (jobs : list Job) (stg : string) (result : list string)
    (deg : gmap string Z) (queue rest : list string) : Prop :=
  NoDup (result ++ queue)
  ∧ (∀ x, x ∈ (result ++ queue) ++ rest → x ∈ stage_job_names jobs stg)
  ∧ (∀ v, v ∈ stage_job_names jobs stg →
          deg !! v = Some (Z.of_nat (unresolved (stage_deps jobs stg v) result
                                     + cnt v rest)))
  ∧ (∀ v, v ∈ stage_job_names jobs stg →
          unresolved (stage_deps jobs stg v) result + cnt v rest = 0
          ↔ v ∈ result ++ queue).

End Topo.

(** ** The environment of a run *)

Module Vars.
Import Expand.

(** A value of the [variables] section: text, or any other value, which the
    environment keeps as it is and which is known here through the text that
    [str] renders for it. *)
Inductive var_value : Type :=
| VText (s : string)
| VOther (rendered : string).

(** The loop of [orchestrator] over [pipeline_vars.items()], started from
    [dict(os.environ)]: a text value is expanded against the environment
    built so far, any other value is stored as it is. *)
Fixpoint build_env (pipeline_vars : list (string * var_value)) (env : Env)
    : Env :=
  match pipeline_vars with
  | [] => env
  | (key, value) :: rest =>
      match value with
      | VText s => build_env rest (<[key := expand_str s env]> env)
      | VOther rendered => build_env rest (<[key := rendered]> env)
      end
  end.

(** What the loop stores for one entry, given the environment it meets. *)
Definition var_entry (value : var_value) (env : Env) : string :=
  match value with
  | VText s => expand_str s env
  | VOther rendered => rendered
  end.

End Vars.

(** ** Python's string methods

    In this part a [string] is read as the sequence of the characters of a
    Python [str] whose code points are below 256. *)

Module Str.
Import Text.

(** [c.isspace()] *)
Definition isspace (c : ascii) : bool :=
  let n := nat_of_ascii c in
  (Nat.leb 9 n && Nat.leb n 13) || (Nat.leb 28 n && Nat.leb n 32)
  || Nat.eqb n 133 || Nat.eqb n 160.

(** [c.isdigit()] *)
Definition isdigit (c : ascii) : bool :=
  let n := nat_of_ascii c in
  (Nat.leb 48 n && Nat.leb n 57) || Nat.eqb n 178 || Nat.eqb n 179
  || Nat.eqb n 185.

(** [s.lstrip()] *)
Fixpoint lstrip (s : string) : string :=
  match s with
  | "" => ""
  | String c r => if isspace c then lstrip r else s
  end.

(** [s.rstrip()] *)
Fixpoint rstrip (s : string) : string :=
  match s with
  | "" => ""
  | String c r =>
      match rstrip r with
      | "" => if isspace c then "" else String c ""
      | String d r' => String c (String d r')
      end
  end.

(** [s.strip()] *)
Definition strip (s : string) : string := rstrip (lstrip s).

(** [c.lower()] *)
Definition py_lower_char (c : ascii) : ascii :=
  let n := nat_of_ascii c in
  if (Nat.leb 65 n && Nat.leb n 90)
     || (Nat.leb 192 n && Nat.leb n 222 && negb (Nat.eqb n 215))
  then ascii_of_nat (n + 32) else c.

(** [s.lower()] *)
Fixpoint py_lower (s : string) : string :=
  match s with
  | "" => ""
  | String c r => String (py_lower_char c) (py_lower r)
  end.

(** [s.split(sep)] for a separator of one character: at least one part. *)
Fixpoint split_on (sep : ascii) (s : string) : list string :=
  match s with
  | "" => [""]
  | String c r =>
      if Ascii.eqb c sep then "" :: split_on sep r
      else match split_on sep r with
           | part :: parts => String c part :: parts
           | [] => [String c ""]
           end
  end.

(** [sep.join(parts)] *)
Fixpoint join (sep : string) (parts : list string) : string :=
  match parts with
  | [] => ""
  | part :: rest =>
      match rest with
      | [] => part
      | _ :: _ => part +:+ sep +:+ join sep rest
      end
  end.

(** [re.sub] of a class of single characters by a single character is a
    map over the characters. *)
Fixpoint map_chars (f : ascii → ascii) (s : string) : string :=
  match s with
  | "" => ""
  | String c r => String (f c) (map_chars f r)
  end.

End Str.

(** ** Dictionaries in insertion order *)

Module Dict.

(** [d.get(k)] *)
Fixpoint dict_get {A : Type} (d : list (string * A)) (k : string) : option A :=
  match d with
  | [] => None
  | (k', v) :: rest => if bool_decide (k' = k) then Some v else dict_get rest k
  end.

(** [d[k] = v]: an existing key keeps its place, a new key goes last. *)
Fixpoint dict_set {A : Type} (k : string) (v : A) (d : list (string * A))
    : list (string * A) :=
  match d with
  | [] => [(k, v)]
  | (k', v') :: rest =>
      if bool_decide (k' = k) then (k, v) :: rest
      else (k', v') :: dict_set k v rest
  end.

End Dict.

(** ** Database engines and their registry *)

Module Engines.
Import Text Str Py Dict.

(** [config.get("type")] of a database configuration: missing, [None], or a
    text. *)
Inductive type_entry : Type :=
| TypeMissing
| TypeNull
| TypeText (s : string).

(** A database configuration as the engines and the registry read it:
    its [type] entry, and the text [repr] renders for the mapping. *)
Record DbConfig : Type := mkDbConfig {
  cfg_type : type_entry;
  cfg_repr : string
}.

(** [str(config.get("type", ""))] *)
Definition type_text (config : DbConfig) : string :=
  match cfg_type config with
  | TypeMissing => ""
  | TypeNull => "None"
  | TypeText s => s
  end.

(** [DuckDBEngine.can_handle] *)
Definition duckdb_can_handle (config : DbConfig) : bool :=
  let db_type := py_lower (strip (type_text config)) in
  bool_decide (db_type ∈ ["duckdb"; "duck"; ""]).

(** [SQLiteEngine.can_handle] *)
Definition sqlite_can_handle (config : DbConfig) : bool :=
  let db_type := py_lower (strip (type_text config)) in
  bool_decide (db_type ∈ ["sqlite"; "sqlite3"]).

(** [DuckDBEngine._sanitize_name] and [SQLiteEngine._sanitize_name], which
    are the same function. *)
Definition _sanitize_name (name : string) : string :=
  if negb (nonempty name) then "table"
  else
    let s := map_chars (λ c, if is_word c then c else "_"%char) (strip name) in
    let s := match s with
             | String c _ => if isdigit c then "t_" +:+ s else s
             | "" => s
             end in
    if nonempty s then s else "table".

(** [DatabaseEngine.format_table_name] *)
Definition format_table_name (supports_schemas : bool) (schema table : string)
    : string :=
  if supports_schemas && nonempty schema then schema +:+ "." +:+ table
  else if nonempty schema then schema +:+ "_" +:+ table
  else table.

(** The name under which [register_table] stages a table:
    [format_table_name(schema, _sanitize_name(table.name or "table"))]. *)
Definition full_table (supports_schemas : bool) (schema table_name : string)
    : string :=
  format_table_name supports_schemas schema
    (_sanitize_name (if nonempty table_name then table_name else "table")).

(** A valid SQL identifier: not empty, made of [[A-Za-z0-9_]], not starting
    with a digit. *)
Definition identifier (s : string) : bool :=
  match s with
  | "" => false
  | String c _ => all_word s && negb (isdigit c)
  end.

(** An engine class as the registry sees it: its name, whether it has
    schemas, and [can_handle], which may raise. *)
Record EngineClass : Type := mkEngineClass {
  ec_name : string;
  ec_supports_schemas : bool;
  ec_can_handle : DbConfig → result bool
}.

Definition DuckDBEngine : EngineClass :=
  mkEngineClass "duckdb" true (λ config, Ok (duckdb_can_handle config)).

Definition SQLiteEngine : EngineClass :=
  mkEngineClass "sqlite" false (λ config, Ok (sqlite_can_handle config)).

(** [register_database_engine]: [DATABASE_ENGINES[cls.name] = cls] *)
Definition register_database_engine (cls : EngineClass)
    (DATABASE_ENGINES : list (string * EngineClass))
    : list (string * EngineClass) :=
  dict_set (ec_name cls) cls DATABASE_ENGINES.

(** The loop [for cls in DATABASE_ENGINES.values()]: the first class whose
    [can_handle] returns true; one that raises is passed over. *)
Fixpoint first_can_handle (classes : list EngineClass) (config : DbConfig)
    : option EngineClass :=
  match classes with
  | [] => None
  | cls :: rest =>
      match ec_can_handle cls config with
      | Ok true => Some cls
      | _ => first_can_handle rest config
      end
  end.

(** [str(config.get("type") or "duckdb")] *)
Definition type_or_default (config : DbConfig) : string :=
  match cfg_type config with
  | TypeText s => if nonempty s then s else "duckdb"
  | _ => "duckdb"
  end.

(** [registry.get_database_engine] *)
Definition pick_database_engine (DATABASE_ENGINES : list (string * EngineClass))
    (config : DbConfig) : result EngineClass :=
  let db_type := py_lower (strip (type_or_default config)) in
  match dict_get DATABASE_ENGINES db_type with
  | Some cls => Ok cls
  | None =>
      match first_can_handle (map snd DATABASE_ENGINES) config with
      | Some cls => Ok cls
      | None =>
          match dict_get DATABASE_ENGINES "duckdb" with
          | Some cls => Ok cls
          | None =>
              Raise (ValueError ("No database engine found for config: "
                                 +:+ cfg_repr config))
          end
      end
  end.

(** The registry once [bootstrap_discovery] has imported the two engine
    modules, DuckDB first. *)
Definition builtin_engines : list (string * EngineClass) :=
  register_database_engine SQLiteEngine
    (register_database_engine DuckDBEngine []).

End Engines.

(** ** The command line: overrides and the dry-run validation *)

Module Cli.
Import Text Str Py Expand Dict Dag Run.

(** The loop of [_set_dotted] over [parts[:-1]] and the final assignment.
    The configuration is a tree: no mapping is shared between two places of
    it, so the update in place is an update of the path. *)
Fixpoint set_path (parts : list string) (value : pyobj)
    (current : list (string * pyobj)) : list (string * pyobj) :=
  match parts with
  | [] => current
  | part :: rest =>
      match rest with
      | [] => dict_set part value current
      | _ :: _ =>
          let sub := match dict_get current part with
                     | Some (PMapping sub) => sub
                     | _ => []
                     end in
          dict_set part (PMapping (set_path rest value sub)) current
      end
  end.

(** [_set_dotted]; [yaml_load] is [yaml.safe_load], [None] when it
    raises. *)
Definition _set_dotted (yaml_load : string → option pyobj)
    (config : list (string * pyobj)) (dotted_key value : string)
    : list (string * pyobj) :=
  let parsed_value := default (PStr value) (yaml_load value) in
  set_path (split_on "." dotted_key) parsed_value config.

(** [config[p1][p2]...[pn]], when every step but the last meets a
    mapping. *)
Fixpoint get_path (parts : list string) (current : list (string * pyobj))
    : option pyobj :=
  match parts with
  | [] => None
  | part :: rest =>
      match rest with
      | [] => dict_get current part
      | _ :: _ =>
          match dict_get current part with
          | Some (PMapping sub) => get_path rest sub
          | _ => None
          end
      end
  end.

(** A job of the configuration file as [_validate_pipeline] reads it. *)
Record RawJob : Type := mkRawJob {
  rj_stage : option string;
  rj_runner : option string;
  rj_depends_on : list string
}.

(** The configuration file as [_validate_pipeline] reads it: the three
    sections, each missing or present, with the keys of [runners]. *)
Record RawConfig : Type := mkRawConfig {
  rc_stages : option (list string);
  rc_jobs : option (list (string * RawJob));
  rc_runners : option (list string)
}.

(** The body of [for job_name, job_config in jobs.items()]. *)
Definition check_job (stages runners : list string) (job_name : string)
    (job_config : RawJob) : result unit :=
  match rj_stage job_config with
  | None =>
      Raise (ValueError ("Job '" +:+ job_name
                         +:+ "' missing required field: stage"))
  | Some job_stage =>
      if bool_decide (job_stage ∉ stages) then
        Raise (ValueError ("Job '" +:+ job_name
                           +:+ "' references unknown stage: " +:+ job_stage))
      else
        match rj_runner job_config with
        | None =>
            Raise (ValueError ("Job '" +:+ job_name
                               +:+ "' missing required field: runner"))
        | Some runner_name =>
            if bool_decide (runner_name ∉ runners) then
              Raise (ValueError ("Job '" +:+ job_name
                                 +:+ "' references unknown runner: "
                                 +:+ runner_name))
            else Ok ()
        end
  end.

Fixpoint check_jobs (stages runners : list string)
    (jobs : list (string * RawJob)) : result unit :=
  match jobs with
  | [] => Ok ()
  | (job_name, job_config) :: rest =>
      match check_job stages runners job_name job_config with
      | Ok _ => check_jobs stages runners rest
      | Raise e => Raise e
      end
  end.

(** The loop [for dep in depends_on]. *)
Fixpoint check_deps (job_names : list string) (job_name : string)
    (depends_on : list string) : result unit :=
  match depends_on with
  | [] => Ok ()
  | dep :: rest =>
      if bool_decide (dep ∉ job_names) then
        Raise (ValueError ("Job '" +:+ job_name
                           +:+ "' depends on unknown job: " +:+ dep))
      else check_deps job_names job_name rest
  end.

Fixpoint check_dependencies (job_names : list string)
    (jobs : list (string * RawJob)) : result unit :=
  match jobs with
  | [] => Ok ()
  | (job_name, job_config) :: rest =>
      match check_deps job_names job_name (rj_depends_on job_config) with
      | Ok _ => check_dependencies job_names rest
      | Raise e => Raise e
      end
  end.

(** [cli._validate_pipeline] *)
Definition _validate_pipeline (config : RawConfig) : result unit :=
  match rc_stages config with
  | None => Raise (ValueError "Missing required section: stages")
  | Some stages =>
      match rc_jobs config with
      | None => Raise (ValueError "Missing required section: jobs")
      | Some jobs =>
          match rc_runners config with
          | None => Raise (ValueError "Missing required section: runners")
          | Some runners =>
              match stages with
              | [] => Raise (ValueError "No stages defined")
              | _ :: _ =>
                  match jobs with
                  | [] => Raise (ValueError "No jobs defined")
                  | _ :: _ =>
                      match check_jobs stages runners jobs with
                      | Ok _ => check_dependencies (map fst jobs) jobs
                      | Raise e => Raise e
                      end
                  end
              end
          end
      end
  end.

(** What the validation accepts. *)
Definition well_formed (config : RawConfig) : Prop :=
  ∃ stages jobs runners,
    rc_stages config = Some stages ∧ rc_jobs config = Some jobs
    ∧ rc_runners config = Some runners
    ∧ stages ≠ [] ∧ jobs ≠ []
    ∧ ∀ job_name job_config, (job_name, job_config) ∈ jobs →
        (∃ s, rj_stage job_config = Some s ∧ s ∈ stages)
        ∧ (∃ r, rj_runner job_config = Some r ∧ r ∈ runners)
        ∧ ∀ dep, dep ∈ rj_depends_on job_config → dep ∈ map fst jobs.

(** One file, two readers: the validation reads the mapping as it is
    loaded, the driver reads it into a [PipelineConfig].  [same_job] and
    [same_file] say that both have read the same entries: what the
    validation finds under a key is what the driver has taken from it. *)
Definition same_job (raw : string * RawJob) (job : string * JobCfg) : Prop :=
  raw.1 = job.1
  ∧ (∀ s, rj_stage raw.2 = Some s → jc_stage job.2 = s)
  ∧ (∀ r, rj_runner raw.2 = Some r → jc_runner job.2 = r)
  ∧ rj_depends_on raw.2 = jc_depends_on job.2.

Definition same_file (raw : RawConfig) (cfg : PipelineConfig) : Prop :=
  (∀ stages, rc_stages raw = Some stages → stages_list cfg = stages)
  ∧ (∀ jobs, rc_jobs raw = Some jobs → Forall2 same_job jobs (jobs_config cfg))
  ∧ (∀ runners, rc_runners raw = Some runners →
       ∀ r, r ∈ runners → is_Some (runner_types cfg !! r)).

End Cli.

(** ** What a job turn leaves alone *)

Module Flow.
Import Text Py Dag Run.

(** The four executors. *)
Inductive job_kind : Type :=
| KExtract
| KStage
| KTransform
| KLoad.

(** The executor the driver picks for a ready job: the tests of the
    [if]/[elif] chain, by runner type and then by stage name; [None] is the
    final [else], which raises. *)
Definition route (stg : string) (job : Job) : option job_kind :=
  let runner_type := runner_type job in
  if bool_decide (runner_type = "reader") then Some KExtract
  else if bool_decide (runner_type = "stager") then Some KStage
  else if bool_decide (runner_type = "transformer") then Some KTransform
  else if bool_decide (runner_type = "writer") then Some KLoad
  else
    let stage_lower := lower stg in
    if contains "extract" stage_lower then Some KExtract
    else if contains "stage" stage_lower || contains "stag" stage_lower
    then Some KStage
    else if contains "transform" stage_lower then Some KTransform
    else if contains "load" stage_lower || contains "export" stage_lower
    then Some KLoad
    else None.

(** A job that the driver hands to the transform or the load executor,
    the two that ask for the connection. *)
Definition needs_connection (job : Job) : Prop :=
  route (stage job) job = Some KTransform ∨ route (stage job) job = Some KLoad.

(** What an executor that raises [e] leaves of the job: set running, then
    failed, with the error recorded. *)
Definition failed_with (e : exn) (j : Job) : Job :=
  with_error e (with_status failed (with_status running j)).

(** A transform or load job that has failed with the error of its
    executor's test for the connection. *)
Definition starved (job : Job) : Prop :=
  status job = failed
  ∧ ((route (stage job) job = Some KTransform
      ∧ error job
        = Some (ValueError "Transform job requires DuckDB connection"))
     ∨ (route (stage job) job = Some KLoad
        ∧ error job
          = Some (ValueError "Load job requires database connection"))).

(** What a job is created with and no executor assigns to. *)
Definition statics (job : Job)
    : string * string * string * string * list string * list proc_desc
      * option string :=
  (name job, stage job, runner job, runner_type job, depends_on job,
   processors job, output_table_name job).

(** The jobs that a trace shows the driver taking up, in order. *)
Definition dispatched (tr : list Event) : list string :=
  omap (λ ev, match ev with EvDispatch n => Some n | _ => None end) tr.

(** Blocks of job names that follow a list of stages: the names of a block
    are names of jobs of the stage at the same place. *)
Definition by_stage (js : list Job) (blocks : list (list string))
    (stages : list string) : Prop :=
  Forall2 (λ block stg,
             ∀ n j, n ∈ block → j ∈ js → name j = n → stage j = stg)
    blocks stages.

(** [sum(1 for j in jobs if j.status == s)], the counts of the summary. *)
Definition count_status (s : Status) (js : list Job) : nat :=
  length (filter (λ j, status j = s) js).

Section Frames.
Context `{P : Plugins}.

Definition statics_of (st : State) := map statics (jobs st).

(** A computation that leaves a part [g] of the state as it found it,
    whatever its result. *)
Definition keeps {X A : Type} (g : State → X) (m : M A) : Prop :=
  ∀ st r st', m st = (r, st') → g st' = g st.

(** A part of the state that is read off the jobs, the table cache and the
    connection. *)
Definition local {X : Type} (g : State → X) : Prop :=
  ∀ js c t h w tr c' w' tr',
    g (mkState js c t h w tr) = g (mkState js c' t h w' tr').

(** Without a connection, the jobs of the transform and load executors
    are waiting or have failed for the lack of it. *)
Definition no_connection_inv (st : State) : Prop :=
  exec_con st = None
  ∧ ∀ j, j ∈ jobs st → needs_connection j → status j = pending ∨ starved j.

(** Every cached table stands under the declared output name of an
    extract job that has succeeded. *)
Definition cache_inv (st : State) : Prop :=
  ∀ k, is_Some (in_memory_tables st !! k) →
    ∃ j, j ∈ jobs st ∧ route (stage j) j = Some KExtract
         ∧ output_table_name j = Some k ∧ status j = success.

End Frames.

End Flow.

(** ** What the two substitution passes are meant to do *)

Module Substitution.
Import Text Expand.

(** The names a [${...}] placeholder accepts: a non-empty run of characters
    other than the closing brace. *)
Definition dollar_name (n : string) : bool :=
  nonempty n && negb (occurs "}" n).

(** The names a [{...}] placeholder accepts: a non-empty run of letters,
    digits and underscores. *)
Definition brace_name (n : string) : bool :=
  nonempty n && all_word n.

(** One pass over a text, read from the left: where a placeholder
    [opening NAME }] starts, it is replaced by the value of [NAME] when
    [NAME] is a key of the environment and by nothing when it is not, and
    the reading goes on after its closing brace; a character at which no
    placeholder starts is kept. *)
Inductive pass (opening : string) (is_name : string → bool) (env : Env)
    : string → string → Prop :=
| pass_end : pass opening is_name env "" ""
| pass_known (n v rest out : string) :
    is_name n = true → env !! n = Some v →
    pass opening is_name env rest out →
    pass opening is_name env (opening +:+ n +:+ "}" +:+ rest) (v +:+ out)
| pass_unknown (n rest out : string) :
    is_name n = true → env !! n = None →
    pass opening is_name env rest out →
    pass opening is_name env (opening +:+ n +:+ "}" +:+ rest) out
| pass_character (c : ascii) (r out : string) :
    (∀ n rest, is_name n = true →
               String c r ≠ opening +:+ n +:+ "}" +:+ rest) →
    pass opening is_name env r out →
    pass opening is_name env (String c r) (String c out).

(** The expansion of a text as the documentation describes it: the dollar
    placeholders are replaced first, then the brace placeholders of what
    that gave. *)
Definition expands_to (env : Env) (s out : string) : Prop :=
  ∃ s1, pass "${" dollar_name env s s1 ∧ pass "{" brace_name env s1 out.

End Substitution.

(** ** The tables an extract job keeps *)

Module Tables.
Import Py Dag Run.

Section Survivors.
Context `{P : Plugins}.


End Survivors.

End Tables.

(** ** Two runs of one configuration *)

Module Lockstep.
Import Py Dag Run Flow.

(** Two job objects that stand for one job of the configuration in two
    runs: they have the same name, stage and dependencies, and one is
    still pending exactly when the other is. *)
Definition same_progress (j1 j2 : Job) : Prop :=
  name j1 = name j2 ∧ stage j1 = stage j2 ∧ depends_on j1 = depends_on j2
  ∧ (status j1 = pending ↔ status j2 = pending).

(** Two runs, each with its own collaborators, that have come equally far:
    job by job the same progress, the same completed-set, and the same jobs
    taken up so far, in the same order. *)
Definition agree {P1 P2 : Plugins} (s1 : @State P1) (s2 : @State P2) : Prop :=
  Forall2 same_progress (jobs s1) (jobs s2)
  ∧ completed_jobs s1 = completed_jobs s2
  ∧ dispatched (trace s1) = dispatched (trace s2).

End Lockstep.

(** ** Sample inputs *)

Module Examples.
Import Py Expand Dag Run.

(** An environment whose value for [A] is itself a placeholder. *)
Definition chained_env : Env := <["A" := "{B}"]> (<["B" := "x"]> ∅).

Definition home_env : Env := <["HOME" := "/root"]> (<["NAME" := "t"]> ∅).

Definition sample_config : pyobj :=
  PMapping [("path", PStr "${HOME}/data/{NAME}.csv");
            ("tags", PList [PStr "{MISSING}x"; PScalar 3])].

Definition sample_templates : list (list segment) :=
  [[Dollar "HOME"; Lit "/data/"; Brace "NAME"; Lit ".csv"];
   [Brace "MISSING"; Lit "x"]].

(** Collaborators that never fail: the reader finds nothing, the engine is
    DuckDB and hands out connection 1. *)
Definition quiet_plugins : Plugins := {|
  World := unit;
  read_source := λ _ w, (Ok [], w);
  PROCESSORS := λ _, None;
  stage_tables := λ _ _ _ w, (Ok (), w);
  run_transform := λ _ h w, (Ok h, w);
  write_output := λ _ _ w, (Ok (), w);
  reset_store := λ _ w, (Ok (), w);
  get_database_engine := λ _ w, (Ok "duckdb", w);
  engine_connect := λ _ _ w, (Ok (Some 1), w);
  create_schema := λ _ _ w, (Ok (), w);
  engine_close := λ _ _ w, (Ok (), w);
  generate_pipeline_report := λ _ w, (Ok (), w)
|}.

Definition empty_table : Table :=
  mkTable "empty" (mkDataFrame ["id"] []) (PMapping []).

Definition first_table : Table :=
  mkTable "sheet1" (mkDataFrame ["id"] [[PScalar 1]]) (PMapping []).

Definition second_table : Table :=
  mkTable "sheet2" (mkDataFrame ["id"] [[PScalar 2]; [PScalar 3]]) (PMapping []).

(** A processor that drops tables without rows. *)
Definition drop_empty (_ : pyobj) (df : DataFrame) (w : unit)
    : process_outcome * unit :=
  match rows df with
  | [] => (SkipTable, w)
  | _ :: _ => (Returned df, w)
  end.

(** Collaborators whose reader yields three tables, the first one empty. *)
Definition sample_plugins : Plugins := {|
  World := unit;
  read_source := λ _ w, (Ok [empty_table; first_table; second_table], w);
  PROCESSORS := λ n, if bool_decide (n = "drop_empty") then Some drop_empty else None;
  stage_tables := λ _ _ _ w, (Ok (), w);
  run_transform := λ _ h w, (Ok h, w);
  write_output := λ _ _ w, (Ok (), w);
  reset_store := λ _ w, (Ok (), w);
  get_database_engine := λ _ w, (Ok "duckdb", w);
  engine_connect := λ _ _ w, (Ok (Some 1), w);
  create_schema := λ _ _ w, (Ok (), w);
  engine_close := λ _ _ w, (Ok (), w);
  generate_pipeline_report := λ _ w, (Ok (), w)
|}.



Definition job_cfg (stg : string) (deps : list string) : JobCfg :=
  mkJobCfg stg "r" deps [] None.

Definition duckdb_cfg : WarehouseCfg :=
  mkWarehouseCfg "duckdb" None false ["staging"].

(** Collaborators whose reader fails on the job [F]. *)
Definition failing_plugins : Plugins := {|
  World := unit;
  read_source := λ job w,
    if bool_decide (name job = "F") then (Raise (PluginError 1), w)
    else (Ok [], w);
  PROCESSORS := λ _, None;
  stage_tables := λ _ _ _ w, (Ok (), w);
  run_transform := λ _ h w, (Ok h, w);
  write_output := λ _ _ w, (Ok (), w);
  reset_store := λ _ w, (Ok (), w);
  get_database_engine := λ _ w, (Ok "duckdb", w);
  engine_connect := λ _ _ w, (Ok (Some 1), w);
  create_schema := λ _ _ w, (Ok (), w);
  engine_close := λ _ _ w, (Ok (), w);
  generate_pipeline_report := λ _ w, (Ok (), w)
|}.

(** Both jobs are extract jobs; [B] of the first stage waits for [F] of
    the second. *)
Definition stall_config : PipelineConfig :=
  mkPipelineConfig (Some duckdb_cfg)
    [("B", job_cfg "first" ["F"]); ("F", job_cfg "second" [])]
    {["r" := "reader"]} ["first"; "second"] "continue" false.


(** The same failure under the policy that stops the run. *)
Definition stop_config : PipelineConfig :=
  mkPipelineConfig (Some duckdb_cfg)
    [("A", job_cfg "extract" []); ("F", job_cfg "s2" []); ("G", job_cfg "s2" [])]
    ∅ ["extract"; "s2"] "stop" false.

(** Two jobs of one stage that wait for each other. *)
Definition cycle_config : PipelineConfig :=
  mkPipelineConfig (Some duckdb_cfg)
    [("A", job_cfg "extract" ["B"]); ("B", job_cfg "extract" ["A"]);
     ("G", job_cfg "load" [])]
    ∅ ["extract"; "load"] "stop" false.

Definition unknown_dep_config : PipelineConfig :=
  mkPipelineConfig (Some duckdb_cfg)
    [("A", job_cfg "extract" ["nowhere"])]
    ∅ ["extract"] "stop" false.

(** The run of [stop_config]: its result and its final state. *)
Definition stop_result : result unit :=
  match @orchestrator quiet_plugins 5 stop_config () with
  | Some (r, _) => r
  | None => Ok ()
  end.

Definition stop_state : @State quiet_plugins :=
  match @orchestrator quiet_plugins 5 stop_config () with
  | Some (_, st) => st
  | None => @initial_state quiet_plugins ()
  end.

Definition unrouted_error : exn :=
  ValueError "Cannot determine job type for stage 's2'. Runner 'r' has no 'type' field".

(** What a run shows: its result, the jobs with their dependencies and
    status, the completed-set and the trace. *)
Definition summary `{P : Plugins} (o : option (result unit * State))
    : option (result unit * list (string * list string * Status)
              * list string * list Event) :=
  match o with
  | Some (r, st) =>
      Some (r, map (λ j, (name j, depends_on j, status j)) (jobs st),
            elements (completed_jobs st), trace st)
  | None => None
  end.

End Examples.

(** ** More sample inputs *)

Module Samples.
Import Py Expand Dag Run Examples Vars.

(** Three extract jobs over two stages: [B] waits for [A], which the
    configuration lists after it, and [C] of the second stage waits for
    both. *)
Definition diamond_config : PipelineConfig :=
  mkPipelineConfig (Some duckdb_cfg)
    [("B", job_cfg "first" ["A"]); ("A", job_cfg "first" []);
     ("C", job_cfg "second" ["A"; "B"])]
    {["r" := "reader"]} ["first"; "second"] "stop" false.

Definition diamond_rank (n : string) : nat :=
  if bool_decide (n = "A") then 0 else if bool_decide (n = "B") then 1 else 2.

Definition diamond_result : result unit :=
  match @orchestrator quiet_plugins 5 diamond_config () with
  | Some (r, _) => r
  | None => Ok ()
  end.

Definition diamond_state : @State quiet_plugins :=
  match @orchestrator quiet_plugins 5 diamond_config () with
  | Some (_, st) => st
  | None => @initial_state quiet_plugins ()
  end.

Definition diamond_graph : gmap string (gset string) :=
  match _build_graph (create_jobs diamond_config) with
  | Ok graph => graph
  | Raise _ => ∅
  end.

(** Variables that refer to the process environment and to each other. *)
Definition sample_vars : list (string * var_value) :=
  [("BASE", VText "${HOME}/data"); ("OUT", VText "{BASE}/out/{LATER}");
   ("LATER", VOther "3")].

Import Engines Cli Flow.

(** The same three jobs as the dry-run validation reads them. *)
Definition diamond_raw : RawConfig :=
  mkRawConfig (Some ["first"; "second"])
    (Some [("B", mkRawJob (Some "first") (Some "r") ["A"]);
           ("A", mkRawJob (Some "first") (Some "r") []);
           ("C", mkRawJob (Some "second") (Some "r") ["A"; "B"])])
    (Some ["r"]).

(** Database configurations: SQLite by name, and a type that no engine
    knows. *)
Definition sqlite_db : DbConfig :=
  mkDbConfig (TypeText "SQLite") "{'type': 'SQLite'}".

Definition unknown_db : DbConfig :=
  mkDbConfig (TypeText "postgres") "{'type': 'postgres'}".

(** A configuration with an [execution] section, for an override. *)
Definition override_config : list (string * pyobj) :=
  [("stages", PList [PStr "extract"]);
   ("execution", PMapping [("on_error", PStr "stop")])].

(** A pipeline without a warehouse: an extract job that declares the
    output [sheets], and a transform job that waits for it. *)
Definition sheets_config : PipelineConfig :=
  mkPipelineConfig None
    [("read_sheets",
      mkJobCfg "extract" "excel" [] [ProcName "drop_empty"] (Some "sheets"));
     ("publish", mkJobCfg "transform" "sql" ["read_sheets"] [] None)]
    {["excel" := "reader"]} ["extract"; "transform"] "continue" false.

Definition sheets_result : result unit :=
  match @orchestrator sample_plugins 5 sheets_config () with
  | Some (r, _) => r
  | None => Ok ()
  end.

Definition sheets_state : @State sample_plugins :=
  match @orchestrator sample_plugins 5 sheets_config () with
  | Some (_, st) => st
  | None => @initial_state sample_plugins ()
  end.

(** The transform job as the run leaves it. *)
Definition publish_job : Job :=
  default (new_job "publish" "transform" "sql" "" ["read_sheets"] [] None)
    (lookup_job (jobs sheets_state) "publish").

End Samples.

(** A warehouse whose transform runner reopens the connection *)

Module Reopening.
Import Py Run Examples.

(** What happens to the connections, as the world records it. *)
Inductive conn_event : Type :=
| Opened (h : Handle)
| Closed (h : Handle).

(** Collaborators that record every opening and closing of a connection.
    The engine hands out connection 1; the transform runner does what
    [DBTRunner.read] does with [ctx["duckdb"]]: it closes the connection it
    is given and puts a newly opened one in its place. *)
Definition dbt_plugins : Plugins := {|
  World := list conn_event;
  read_source := λ _ w, (Ok [], w);
  PROCESSORS := λ _, None;
  stage_tables := λ _ _ _ w, (Ok (), w);
  run_transform := λ _ h w, (Ok (S h), w ++ [Closed h; Opened (S h)]);
  write_output := λ _ _ w, (Ok (), w);
  reset_store := λ _ w, (Ok (), w);
  get_database_engine := λ _ w, (Ok "duckdb", w);
  engine_connect := λ _ _ w, (Ok (Some 1), w ++ [Opened 1]);
  create_schema := λ _ _ w, (Ok (), w);
  engine_close := λ _ h w, (Ok (), w ++ [Closed h]);
  generate_pipeline_report := λ _ w, (Ok (), w)
|}.

(** A DuckDB warehouse and one transform job run by [dbt_runner]. *)
Definition dbt_config : PipelineConfig :=
  mkPipelineConfig (Some duckdb_cfg)
    [("models", mkJobCfg "transform" "dbt_runner" [] [] None)]
    {["dbt_runner" := "transformer"]} ["transform"] "stop" false.

End Reopening.

(** The two runs of [stall_config] *)

Module TwoRuns.
Import Py Run Examples.

(** The final state of the run in which the reader raises on [F]. *)
Definition failing_run : @State failing_plugins :=
  match @orchestrator failing_plugins 5 stall_config () with
  | Some (_, st) => st
  | None => @initial_state failing_plugins ()
  end.

(** The final state of the run in which no collaborator raises. *)
Definition quiet_run : @State quiet_plugins :=
  match @orchestrator quiet_plugins 5 stall_config () with
  | Some (_, st) => st
  | None => @initial_state quiet_plugins ()
  end.

End TwoRuns.

(** * Properties *)

(** ** Text *)

Module TextFacts.
Import Text.

Lemma app_nil (t : string) : "" +:+ t = t.
Proof. reflexivity. Qed.

Lemma app_cons (c : ascii) (s t : string) :
  String c s +:+ t = String c (s +:+ t).
Proof. reflexivity. Qed.

Lemma app_nil_r (s : string) : s +:+ "" = s.
Proof. induction s as [|c s IH]; [done|]. by rewrite app_cons, IH. Qed.

Lemma app_assoc (s t u : string) : (s +:+ t) +:+ u = s +:+ t +:+ u.
Proof. induction s as [|c s IH]; [done|]. by rewrite !app_cons, IH. Qed.

Lemma app_length (s t : string) :
  String.length (s +:+ t) = String.length s + String.length t.
Proof. induction s as [|c s IH]; [done|]. rewrite app_cons. simpl. lia. Qed.

Lemma occurs_app c s t : occurs c (s +:+ t) = occurs c s || occurs c t.
Proof.
  induction s as [|d s IH]; [done|].
  rewrite app_cons. simpl. rewrite IH. by rewrite orb_assoc.
Qed.

Lemma all_word_no_occurs c s :
  is_word c = false → all_word s = true → occurs c s = false.
Proof.
  intros Hc. induction s as [|d s IH]; [done|]. simpl.
  intros [Hd Hs]%andb_true_iff. rewrite (IH Hs), orb_false_r.
  destruct (Ascii.eqb d c) eqn:E; [|done].
  apply Ascii.eqb_eq in E. congruence.
Qed.

End TextFacts.

(** ** Variable expansion *)

Module ExpandFacts.
Import Text TextFacts Expand.

Section Scan.
Variable pat : string → option (string * nat).
Variable repl : string → string.

(** Passing over the characters of a match. *)
Lemma sub_from_skip (x r : string) :
  sub_from pat repl (String.length x) (x +:+ r) = sub_from pat repl 0 r.
Proof.
  induction x as [|c x IH]; [done|].
  rewrite app_cons. simpl. exact IH.
Qed.

(** A match at the head is replaced and the scan resumes after it. *)
Lemma re_sub_match (c : ascii) (x r g : string) :
  pat (String c x +:+ r) = Some (g, S (String.length x)) →
  re_sub pat repl (String c x +:+ r) = repl g +:+ re_sub pat repl r.
Proof.
  intros Hm. unfold re_sub. rewrite app_cons in *. simpl.
  rewrite Hm. simpl. by rewrite sub_from_skip.
Qed.

(** No match at the head: the character is copied. *)
Lemma re_sub_copy (c : ascii) (r : string) :
  pat (String c r) = None →
  re_sub pat repl (String c r) = String c (re_sub pat repl r).
Proof. intros Hm. unfold re_sub. simpl. by rewrite Hm. Qed.

(** Text in which the pattern matches nowhere is returned as it is. *)
Lemma re_sub_no_match (s : string) :
  has_match pat s = false → re_sub pat repl s = s.
Proof.
  induction s as [|c s IH]; [done|]. simpl.
  intros [Hh Ht]%orb_false_iff.
  apply bool_decide_eq_false in Hh.
  rewrite re_sub_copy, (IH Ht); [done|].
  destruct (pat (String c s)) eqn:E; [|done].
  exfalso. apply Hh. by eexists.
Qed.

End Scan.

Lemma _DOLLAR_head (c : ascii) (s : string) :
  Ascii.eqb c "$" = false → _DOLLAR (String c s) = None.
Proof. intros Hc. unfold _DOLLAR. destruct s; [done|]. by rewrite Hc. Qed.

Lemma _BRACES_head (c : ascii) (s : string) :
  Ascii.eqb c "{" = false → _BRACES (String c s) = None.
Proof. intros Hc. unfold _BRACES. by rewrite Hc. Qed.

Lemma until_close_name (n r : string) :
  occurs "}" n = false → until_close (n +:+ String "}" r) = Some n.
Proof.
  induction n as [|c n IH]; [done|].
  intros H. simpl in H. apply orb_false_iff in H as [Hc Hn].
  rewrite app_cons. simpl. by rewrite Hc, (IH Hn).
Qed.

Lemma word_run_name (n r : string) :
  all_word n = true → word_run (n +:+ String "}" r) = (n, String "}" r).
Proof.
  induction n as [|c n IH]; [done|].
  intros H. simpl in H. apply andb_true_iff in H as [Hc Hn].
  rewrite app_cons. simpl. by rewrite Hc, (IH Hn).
Qed.

Section Passes.
Variable repl : string → string.

Lemma dollar_literal (lit r : string) :
  occurs "$" lit = false →
  re_sub _DOLLAR repl (lit +:+ r) = lit +:+ re_sub _DOLLAR repl r.
Proof.
  induction lit as [|c lit IH]; [done|].
  intros H. simpl in H. apply orb_false_iff in H as [Hc Hl].
  rewrite !app_cons.
  rewrite re_sub_copy by (by apply _DOLLAR_head).
  by rewrite (IH Hl).
Qed.

Lemma dollar_placeholder (n r : string) :
  nonempty n = true → occurs "}" n = false →
  re_sub _DOLLAR repl ("${" +:+ n +:+ "}" +:+ r) = repl n +:+ re_sub _DOLLAR repl r.
Proof.
  intros Hne Hn.
  assert (Hm : _DOLLAR (String "$" (String "{" n +:+ "}") +:+ r)
               = Some (n, S (String.length (String "{" n +:+ "}")))).
  { rewrite !app_cons. unfold _DOLLAR. simpl.
    rewrite app_assoc. change ("}" +:+ r) with (String "}" r).
    rewrite until_close_name by done.
    destruct n as [|c n]; [done|].
    do 2 f_equal. rewrite app_cons. simpl. rewrite app_length. simpl. lia. }
  pose proof (re_sub_match _DOLLAR repl _ _ _ _ Hm) as Hs.
  rewrite <- Hs. f_equal.
  by rewrite ?app_cons, ?app_assoc, ?app_cons.
Qed.

Lemma braces_literal (lit r : string) :
  occurs "{" lit = false →
  re_sub _BRACES repl (lit +:+ r) = lit +:+ re_sub _BRACES repl r.
Proof.
  induction lit as [|c lit IH]; [done|].
  intros H. simpl in H. apply orb_false_iff in H as [Hc Hl].
  rewrite !app_cons.
  rewrite re_sub_copy by (by apply _BRACES_head).
  by rewrite (IH Hl).
Qed.

Lemma braces_placeholder (n r : string) :
  nonempty n = true → all_word n = true →
  re_sub _BRACES repl ("{" +:+ n +:+ "}" +:+ r) = repl n +:+ re_sub _BRACES repl r.
Proof.
  intros Hne Hn.
  assert (Hm : _BRACES (String "{" (n +:+ "}") +:+ r)
               = Some (n, S (String.length (n +:+ "}")))).
  { rewrite !app_cons. unfold _BRACES. simpl.
    rewrite app_assoc. change ("}" +:+ r) with (String "}" r).
    rewrite word_run_name by done.
    destruct n as [|c n]; [done|]. simpl.
    do 2 f_equal. rewrite app_length. simpl. lia. }
  pose proof (re_sub_match _BRACES repl _ _ _ _ Hm) as Hs.
  rewrite <- Hs. f_equal.
  by rewrite ?app_cons, ?app_assoc, ?app_cons.
Qed.

End Passes.

Lemma seg_value_get (env : Env) (n : string) :
  seg_value env (Brace n) = env_get env n.
Proof. reflexivity. Qed.

Lemma dollar_pass (env : Env) (t : list segment) :
  forallb (seg_ok env) t = true →
  re_sub _DOLLAR (env_get env) (render t) = render (map (after_dollar env) t).
Proof.
  induction t as [|sg t IH]; [done|].
  intros H. simpl in H. apply andb_true_iff in H as [Hsg Ht].
  specialize (IH Ht). simpl. destruct sg as [s|n|n]; simpl in *.
  - apply andb_true_iff in Hsg as [Hd _]. apply negb_true_iff in Hd.
    by rewrite dollar_literal, IH.
  - apply andb_true_iff in Hsg as [[Hne Hn]%andb_true_iff _].
    apply negb_true_iff in Hn.
    rewrite !app_assoc, dollar_placeholder, IH; done.
  - apply andb_true_iff in Hsg as [Hne Hn].
    rewrite dollar_literal, IH; [done|].
    rewrite !occurs_app. simpl.
    by rewrite (all_word_no_occurs "$" n).
Qed.

Lemma after_dollar_ok (env : Env) (t : list segment) :
  forallb (seg_ok env) t = true →
  forallb brace_ok (map (after_dollar env) t) = true.
Proof.
  induction t as [|sg t IH]; [done|].
  intros H. simpl in H. apply andb_true_iff in H as [Hsg Ht].
  simpl. rewrite (IH Ht), andb_true_r.
  destruct sg as [s|n|n]; simpl in *.
  - by apply andb_true_iff in Hsg as [_ ?].
  - by apply andb_true_iff in Hsg as [_ ?].
  - done.
Qed.

Lemma after_dollar_value (env : Env) (t : list segment) :
  substituted env (map (after_dollar env) t) = substituted env t.
Proof.
  induction t as [|sg t IH]; [done|]. simpl. rewrite IH.
  by destruct sg.
Qed.

Lemma braces_pass (env : Env) (t : list segment) :
  forallb brace_ok t = true →
  re_sub _BRACES (env_get env) (render t) = substituted env t.
Proof.
  induction t as [|sg t IH]; [done|].
  intros H. simpl in H. apply andb_true_iff in H as [Hsg Ht].
  specialize (IH Ht). simpl. destruct sg as [s|n|n]; simpl in *.
  - apply negb_true_iff in Hsg. by rewrite braces_literal, IH.
  - done.
  - apply andb_true_iff in Hsg as [Hne Hn].
    rewrite !app_assoc, braces_placeholder, IH; done.
Qed.

(** A well-formed template expands to the values of its segments. *)
Lemma expand_str_template (env : Env) (t : list segment) :
  forallb (seg_ok env) t = true →
  expand_str (render t) env = substituted env t.
Proof.
  intros Hok. unfold expand_str.
  rewrite dollar_pass by done.
  rewrite braces_pass by (by apply after_dollar_ok).
  apply after_dollar_value.
Qed.

(** *** Induction on configuration values *)

Section pyobj_induction.
Variable P : pyobj → Prop.
Hypothesis HNone : P PNone.
Hypothesis HStr : ∀ s, P (PStr s).
Hypothesis HMapping : ∀ items, Forall (λ kv, P kv.2) items → P (PMapping items).
Hypothesis HList : ∀ l, Forall P l → P (PList l).
Hypothesis HTuple : ∀ l, Forall P l → P (PTuple l).
Hypothesis HScalar : ∀ n, P (PScalar n).

Fixpoint pyobj_nested_ind (obj : pyobj) : P obj :=
  match obj with
  | PNone => HNone
  | PStr s => HStr s
  | PMapping items =>
      HMapping items
        ((fix go (kvs : list (string * pyobj)) : Forall (λ kv, P kv.2) kvs :=
            match kvs with
            | [] => List.Forall_nil _
            | (k, v) :: kvs' =>
                @List.Forall_cons _ _ (k, v) kvs' (pyobj_nested_ind v) (go kvs')
            end) items)
  | PList l =>
      HList l
        ((fix go (vs : list pyobj) : Forall P vs :=
            match vs with
            | [] => List.Forall_nil _
            | v :: vs' =>
                @List.Forall_cons _ _ v vs' (pyobj_nested_ind v) (go vs')
            end) l)
  | PTuple l =>
      HTuple l
        ((fix go (vs : list pyobj) : Forall P vs :=
            match vs with
            | [] => List.Forall_nil _
            | v :: vs' =>
                @List.Forall_cons _ _ v vs' (pyobj_nested_ind v) (go vs')
            end) l)
  | PScalar n => HScalar n
  end.

End pyobj_induction.

(** Expansion rewrites the string scalars and nothing else. *)
Lemma scalars_expand (obj : pyobj) (env : Env) :
  scalars (_expand obj env) = map (λ s, expand_str s env) (scalars obj).
Proof.
  induction obj as [|s|items IH|l IH|l IH|n] using pyobj_nested_ind;
    try done; simpl.
  - induction IH as [|[k v] kvs Hv _ IHkvs]; [done|].
    simpl in *. by rewrite map_app, Hv, IHkvs.
  - induction IH as [|v vs Hv _ IHvs]; [done|].
    simpl in *. by rewrite map_app, Hv, IHvs.
  - induction IH as [|v vs Hv _ IHvs]; [done|].
    simpl in *. by rewrite map_app, Hv, IHvs.
Qed.

(** Expansion keeps the nesting, the keys and the scalars that are not
    text. *)
Lemma skeleton_expand (obj : pyobj) (env : Env) :
  skeleton (_expand obj env) = skeleton obj.
Proof.
  induction obj as [|s|items IH|l IH|l IH|n] using pyobj_nested_ind;
    try done; simpl; f_equal.
  - induction IH as [|[k v] kvs Hv _ IHkvs]; [done|].
    simpl in *. by rewrite Hv, IHkvs.
  - induction IH as [|v vs Hv _ IHvs]; [done|].
    simpl in *. by rewrite Hv, IHvs.
  - induction IH as [|v vs Hv _ IHvs]; [done|].
    simpl in *. by rewrite Hv, IHvs.
Qed.

Lemma expand_str_fixed (s : string) (env : Env) :
  placeholder_free s = true → expand_str s env = s.
Proof.
  unfold placeholder_free, expand_str.
  intros [Hd Hb]%andb_true_iff.
  apply negb_true_iff in Hd. apply negb_true_iff in Hb. cbv zeta.
  rewrite (re_sub_no_match _DOLLAR) by done.
  by rewrite (re_sub_no_match _BRACES).
Qed.

(** A configuration without placeholder is a fixed point of expansion. *)
Lemma expand_fixed (obj : pyobj) (env : Env) :
  cfg_placeholder_free obj = true → _expand obj env = obj.
Proof.
  induction obj as [|s|items IH|l IH|l IH|n] using pyobj_nested_ind;
    try done; simpl.
  - intros H. by rewrite expand_str_fixed.
  - intros H. f_equal. induction IH as [|[k v] kvs Hv _ IHkvs]; [done|].
    simpl in *. apply andb_true_iff in H as [H1 H2].
    by rewrite (Hv H1), (IHkvs H2).
  - intros H. f_equal. induction IH as [|v vs Hv _ IHvs]; [done|].
    simpl in *. apply andb_true_iff in H as [H1 H2].
    by rewrite (Hv H1), (IHvs H2).
  - intros H. f_equal. induction IH as [|v vs Hv _ IHvs]; [done|].
    simpl in *. apply andb_true_iff in H as [H1 H2].
    by rewrite (Hv H1), (IHvs H2).
Qed.

End ExpandFacts.

(** ** The dependency graph *)

Module DagFacts.
Import Py Expand Dag.

Lemma deps_ready_spec (completed : gset string) (job : Job) :
  deps_ready completed job = true ↔ Forall (λ dep, dep ∈ completed) (depends_on job).
Proof.
  unfold deps_ready. rewrite forallb_forall, Forall_forall.
  split; intros H dep Hd.
  - apply list_elem_of_In, H in Hd. by apply bool_decide_eq_true in Hd.
  - apply bool_decide_eq_true, H. by apply list_elem_of_In.
Qed.

(** The ready jobs are the jobs that pass the three tests, in the order of
    the job dictionary. *)
Lemma get_ready_jobs_filter (jobs : list Job) (stg : string) (completed : gset string) :
  get_ready_jobs jobs stg completed
  = filter (λ job, stage job = stg ∧ status job = pending
                   ∧ Forall (λ dep, dep ∈ completed) (depends_on job)) jobs.
Proof.
  induction jobs as [|job jobs IH]; [done|]. simpl.
  rewrite filter_cons, <- IH.
  destruct (decide (stage job = stg)) as [Hs|Hs].
  - rewrite (bool_decide_eq_false_2 (stage job ≠ stg)) by auto.
    destruct (decide (status job = pending)) as [Hp|Hp].
    + rewrite (bool_decide_eq_false_2 (status job ≠ pending)) by auto.
      destruct (deps_ready completed job) eqn:Hd.
      * apply deps_ready_spec in Hd. by rewrite decide_True.
      * rewrite decide_False; [done|]. intros (_ & _ & H).
        apply deps_ready_spec in H. congruence.
    + rewrite (bool_decide_eq_true_2 (status job ≠ pending)) by done.
      rewrite decide_False; [done|]. by intros (_ & ? & _).
  - rewrite (bool_decide_eq_true_2 (stage job ≠ stg)) by done.
    rewrite decide_False; [done|]. by intros (? & _).
Qed.

Lemma get_ready_jobs_elem (jobs : list Job) (stg : string)
    (completed : gset string) (job : Job) :
  job ∈ get_ready_jobs jobs stg completed ↔
  job ∈ jobs ∧ stage job = stg ∧ status job = pending
  ∧ ∀ dep, dep ∈ depends_on job → dep ∈ completed.
Proof.
  rewrite get_ready_jobs_filter, list_elem_of_filter, Forall_forall.
  tauto.
Qed.

(** *** Graph construction *)

Lemma add_edges_ok (keys : list string) (jname : string) (deps : list string)
    (graph : gmap string (gset string)) :
  Forall (λ dep, dep ∈ keys) deps →
  ∃ graph', add_edges keys jname deps graph = Ok graph'.
Proof.
  revert graph. induction deps as [|dep deps IH]; intros graph Hall.
  - by eexists.
  - inversion Hall as [|?? Hd Hrest]; subst. simpl.
    rewrite bool_decide_eq_true_2 by done. by apply IH.
Qed.

Lemma add_edges_raise (keys : list string) (jname : string) (deps : list string)
    (graph : gmap string (gset string)) (e : exn) :
  add_edges keys jname deps graph = Raise e →
  ∃ dep, dep ∈ deps ∧ (dep ∉ keys)
         ∧ e = ValueError ("Job '" +:+ jname +:+ "' depends on unknown job '"
                           +:+ dep +:+ "'").
Proof.
  revert graph. induction deps as [|dep deps IH]; intros graph; simpl; [done|].
  case_bool_decide as Hd.
  - intros H. destruct (IH _ H) as (d & ? & ? & ?).
    exists d. split; [right|]; done.
  - intros [= <-]. exists dep. split; [left|]; done.
Qed.

Lemma build_from_ok (keys : list string) (todo : list Job)
    (graph : gmap string (gset string)) :
  Forall (λ job, Forall (λ dep, dep ∈ keys) (depends_on job)) todo →
  ∃ graph', build_from keys todo graph = Ok graph'.
Proof.
  revert graph. induction todo as [|job todo IH]; intros graph Hall.
  - by eexists.
  - inversion Hall as [|?? Hj Hrest]; subst. simpl.
    destruct (add_edges_ok keys (name job) _ graph Hj) as [g' ->].
    by apply IH.
Qed.

Lemma build_from_raise (keys : list string) (todo : list Job)
    (graph : gmap string (gset string)) (e : exn) :
  build_from keys todo graph = Raise e →
  ∃ job dep, job ∈ todo ∧ dep ∈ depends_on job ∧ (dep ∉ keys)
    ∧ e = ValueError ("Job '" +:+ name job +:+ "' depends on unknown job '"
                      +:+ dep +:+ "'").
Proof.
  revert graph. induction todo as [|job todo IH]; intros graph; simpl; [done|].
  destruct (add_edges keys (name job) (depends_on job) graph) as [g'|e'] eqn:Ha.
  - intros H. destruct (IH _ H) as (j & d & ? & ?).
    exists j, d. split; [right|]; done.
  - intros [= <-]. destruct (add_edges_raise _ _ _ _ _ Ha) as (d & ? & ? & ?).
    exists job, d. split; [left|]; done.
Qed.

Lemma add_edges_ok_inv (keys : list string) (jname : string) (deps : list string)
    (graph graph' : gmap string (gset string)) :
  add_edges keys jname deps graph = Ok graph' →
  Forall (λ dep, dep ∈ keys) deps.
Proof.
  revert graph. induction deps as [|dep deps IH]; intros graph; simpl; [done|].
  case_bool_decide as Hd; [|done].
  intros H. constructor; [done|]. by eapply IH.
Qed.

Lemma build_from_ok_inv (keys : list string) (todo : list Job)
    (graph graph' : gmap string (gset string)) :
  build_from keys todo graph = Ok graph' →
  Forall (λ job, Forall (λ dep, dep ∈ keys) (depends_on job)) todo.
Proof.
  revert graph. induction todo as [|job todo IH]; intros graph; simpl; [done|].
  destruct (add_edges keys (name job) (depends_on job) graph) as [g'|e'] eqn:Ha;
    [|done].
  intros H. constructor; [by eapply add_edges_ok_inv|by eapply IH].
Qed.

(** *** Topological order within a stage *)

(** The loop over the dependencies of one job raises that job's in-degree
    by the number of its dependencies that belong to the stage, and no other
    in-degree. *)
Lemma count_deps_in_degree (stage_jobs : list string) (job_name : string)
    (deps : list string) (acc : gmap string (list string) * gmap string Z) :
  (count_deps stage_jobs job_name deps acc).2
  = alter (λ d, d + Z.of_nat (length (filter (λ dep, dep ∈ stage_jobs) deps)))%Z
      job_name acc.2.
Proof.
  revert acc. induction deps as [|dep deps IH]; intros acc; simpl.
  - apply map_eq. intros k. rewrite lookup_alter.
    case_decide; [subst|done].
    destruct (acc.2 !! k); simpl; f_equal; lia.
  - rewrite filter_cons. case_bool_decide as Hd.
    + rewrite decide_True by done. rewrite IH. simpl.
      apply map_eq. intros k. rewrite !lookup_alter.
      case_decide; [subst|done].
      rewrite decide_True by done.
      destruct (acc.2 !! k) as [z|]; [|done].
      rewrite Nat2Z.inj_succ. simpl. f_equal. lia.
    + rewrite decide_False by done. apply IH.
Qed.

Lemma lookup_job_unique (jobs : list Job) (job : Job) :
  NoDup (job_names jobs) → job ∈ jobs → lookup_job jobs (name job) = Some job.
Proof.
  unfold lookup_job, job_names.
  induction jobs as [|j jobs IH]; intros Hnd Hin; [by inversion Hin|].
  simpl in *. apply NoDup_cons in Hnd as [Hj Hnd].
  case_bool_decide as Hn.
  - apply elem_of_cons in Hin as [->|Hin]; [done|].
    exfalso. apply Hj. rewrite Hn. by apply list_elem_of_fmap_2.
  - apply elem_of_cons in Hin as [->|Hin]; [done|]. by apply IH.
Qed.

Lemma stage_names_NoDup (jobs : list Job) (stg : string) :
  NoDup (job_names jobs) → NoDup (stage_job_names jobs stg).
Proof.
  unfold job_names, stage_job_names. intros Hnd.
  eapply sublist_NoDup; [exact Hnd|].
  apply (fmap_sublist name), sublist_filter.
Qed.

(** A stage made of two jobs that depend on each other has no topological
    order: no job has in-degree zero, the queue starts empty, and the result
    is shorter than the stage. *)
Lemma two_cycle_no_order (fuel : nat) (jobs : list Job) (stg : string) (a b : Job) :
  NoDup (job_names jobs) →
  filter (λ j, stage j = stg) jobs = [a; b] →
  name b ∈ depends_on a →
  name a ∈ depends_on b →
  topological_sort_within_stage fuel jobs stg
  = Some (Raise (ValueError ("Circular dependency detected in stage '"
                             +:+ stg +:+ "'"))).
Proof.
  intros Hnd Hst Hab Hba.
  assert (Ha : a ∈ jobs).
  { apply (list_elem_of_filter (λ j, stage j = stg)). rewrite Hst. left. }
  assert (Hb : b ∈ jobs).
  { apply (list_elem_of_filter (λ j, stage j = stg)). rewrite Hst. right. left. }
  pose proof (stage_names_NoDup jobs stg Hnd) as Hnd2.
  unfold topological_sort_within_stage.
  assert (Hnames : stage_job_names jobs stg = [name a; name b]).
  { unfold stage_job_names. by rewrite Hst. }
  rewrite Hnames in *.
  apply NoDup_cons in Hnd2 as [Hne _].
  assert (name a ≠ name b) as Hneq by (intros E; apply Hne; rewrite E; left).
  destruct (in_degrees jobs _ _ _) as [stage_graph in_degree] eqn:Hin.
  assert (Hdeg : in_degree = (in_degrees jobs [name a; name b] [name a; name b]
            (∅, list_to_map (map (λ j, (j, 0%Z)) [name a; name b]))).2)
    by (by rewrite Hin).
  simpl in Hdeg.
  rewrite (lookup_job_unique jobs a Hnd Ha) in Hdeg.
  rewrite (lookup_job_unique jobs b Hnd Hb) in Hdeg.
  rewrite !count_deps_in_degree in Hdeg. simpl in Hdeg.
  set (ca := length (filter (λ dep, dep ∈ [name a; name b]) (depends_on a))) in *.
  set (cb := length (filter (λ dep, dep ∈ [name a; name b]) (depends_on b))) in *.
  assert (0 < ca) as Hca.
  { assert (name b ∈ filter (λ dep, dep ∈ [name a; name b]) (depends_on a)) as Hx.
    { apply list_elem_of_filter. split; [right; left|done]. }
    unfold ca. destruct (filter _ (depends_on a)); [by inversion Hx|simpl; lia]. }
  assert (0 < cb) as Hcb.
  { assert (name a ∈ filter (λ dep, dep ∈ [name a; name b]) (depends_on b)) as Hx.
    { apply list_elem_of_filter. split; [left|done]. }
    unfold cb. destruct (filter _ (depends_on b)); [by inversion Hx|simpl; lia]. }
  assert (in_degree !! name a = Some (Z.of_nat ca)) as Hia.
  { rewrite Hdeg. rewrite lookup_alter_ne by done. rewrite lookup_alter_eq.
    by rewrite lookup_insert_eq. }
  assert (in_degree !! name b = Some (Z.of_nat cb)) as Hib.
  { rewrite Hdeg. rewrite lookup_alter_eq, lookup_alter_ne by done.
    rewrite lookup_insert_ne by done. by rewrite lookup_insert_eq. }
  rewrite !filter_cons, filter_nil, Hia, Hib.
  rewrite !decide_False by (intros [= ?]; lia).
  by destruct fuel.
Qed.

End DagFacts.

(** ** The executors and the driver *)

Module RunFacts.
Import Text Py Expand Dag Run DagFacts.

Section Monad.
Context `{P : Plugins}.

Lemma bind_inv {A B : Type} (m : M A) (k : A → M B) (st : State)
    (r : result B) (st' : State) :
  (m ≫= k) st = (r, st') →
  (∃ a st1, m st = (Ok a, st1) ∧ k a st1 = (r, st'))
  ∨ (∃ e, m st = (Raise e, st') ∧ r = Raise e).
Proof.
  unfold mbind, M_bind. destruct (m st) as [[a|e] st1].
  - intros H. left. by exists a, st1.
  - intros [= <- <-]. right. by exists e.
Qed.

Lemma try_inv {A : Type} (body : M A) (handler : exn → M A) (st : State)
    (r : result A) (st' : State) :
  try_except body handler st = (r, st') →
  (∃ a, body st = (Ok a, st') ∧ r = Ok a)
  ∨ (∃ e st1, body st = (Raise e, st1) ∧ handler e st1 = (r, st')).
Proof.
  unfold try_except. destruct (body st) as [[a|e] st1].
  - intros [= <- <-]. left. by exists a.
  - intros H. right. by exists e, st1.
Qed.

Lemma update_job_id (n : string) (f : Job → Job) (js : list Job) :
  (∀ j, name j = n → f j = j) → update_job n f js = js.
Proof.
  intros Hf. unfold update_job. induction js as [|j js IH]; [done|].
  simpl. rewrite IH. case_bool_decide; [by rewrite Hf|done].
Qed.

Lemma update_job_compose (n : string) (f g : Job → Job) (js : list Job) :
  static_fun f →
  update_job n g (update_job n f js) = update_job n (g ∘ f) js.
Proof.
  intros Hf. unfold update_job. rewrite <- list_fmap_compose.
  apply list_fmap_ext. intros _ j _. simpl.
  destruct (decide (name j = n)) as [Hn|Hn].
  - rewrite (bool_decide_eq_true_2 (name j = n)) by done.
    by rewrite bool_decide_eq_true_2 by (by rewrite (proj1 (Hf j))).
  - rewrite (bool_decide_eq_false_2 (name j = n)) by done.
    by rewrite bool_decide_eq_false_2.
Qed.

Lemma static_id : static_fun id.
Proof. done. Qed.

Lemma static_compose (f g : Job → Job) :
  static_fun f → static_fun g → static_fun (g ∘ f).
Proof.
  intros Hf Hg j. simpl.
  destruct (Hf j) as (? & ? & ?), (Hg (f j)) as (? & ? & ?).
  repeat split; congruence.
Qed.

Lemma static_with_status (s : Status) : static_fun (with_status s).
Proof. done. Qed.

Lemma static_with_error (e : exn) : static_fun (with_error e).
Proof. done. Qed.


Lemma job_names_update (n : string) (f : Job → Job) (js : list Job) :
  static_fun f → job_names (update_job n f js) = job_names js.
Proof.
  intros Hf. unfold job_names, update_job. rewrite <- list_fmap_compose.
  apply list_fmap_ext. intros _ j _. simpl.
  case_bool_decide; [apply Hf|done].
Qed.

Lemma elem_of_update_job_other (n : string) (f : Job → Job) (js : list Job)
    (job : Job) :
  name job ≠ n → job ∈ js → job ∈ update_job n f js.
Proof.
  intros Hn Hin. unfold update_job. apply list_elem_of_fmap.
  exists job. by rewrite bool_decide_eq_false_2.
Qed.

Lemma elem_of_update_job (n : string) (f : Job → Job) (js : list Job)
    (job' : Job) :
  job' ∈ update_job n f js →
  ∃ job, job ∈ js ∧ ((name job ≠ n ∧ job' = job) ∨ (name job = n ∧ job' = f job)).
Proof.
  unfold update_job. intros (job & -> & Hin)%list_elem_of_fmap.
  exists job. split; [done|]. case_bool_decide; auto.
Qed.

(** *** Quiet computations *)

Lemma quiet_ret {A : Type} (n : string) (a : A) : quiet n (mret a).
Proof.
  intros st r st' [= <- <-]. do 2 (split; [done|]).
  exists id. repeat split. by rewrite update_job_id.
Qed.

Lemma quiet_raise {A : Type} (n : string) (e : exn) : quiet n (@raise _ A e).
Proof.
  intros st r st' [= <- <-]. do 2 (split; [done|]).
  exists id. repeat split. by rewrite update_job_id.
Qed.

Lemma quiet_bind {A B : Type} (n : string) (m : M A) (k : A → M B) :
  quiet n m → (∀ a, quiet n (k a)) → quiet n (m ≫= k).
Proof.
  intros Hm Hk st r st' H.
  apply bind_inv in H as [(a & st1 & H1 & H2)|(e & H1 & ->)].
  - destruct (Hm _ _ _ H1) as (Ht1 & Hc1 & f & Hf & Hfs & Hj1).
    destruct (Hk a _ _ _ H2) as (Ht2 & Hc2 & g & Hg & Hgs & Hj2).
    split; [congruence|]. split; [congruence|].
    exists (g ∘ f). split; [by apply static_compose|]. split.
    + intros j. simpl. by rewrite Hgs, Hfs.
    + by rewrite Hj2, Hj1, update_job_compose.
  - by apply (Hm _ _ _ H1).
Qed.

Lemma quiet_try {A : Type} (n : string) (body : M A) (handler : exn → M A) :
  quiet n body → (∀ e, quiet n (handler e)) → quiet n (try_except body handler).
Proof.
  intros Hm Hk st r st' H.
  apply try_inv in H as [(a & H1 & ->)|(e & st1 & H1 & H2)].
  - by apply (Hm _ _ _ H1).
  - destruct (Hm _ _ _ H1) as (Ht1 & Hc1 & f & Hf & Hfs & Hj1).
    destruct (Hk e _ _ _ H2) as (Ht2 & Hc2 & g & Hg & Hgs & Hj2).
    split; [congruence|]. split; [congruence|].
    exists (g ∘ f). split; [by apply static_compose|]. split.
    + intros j. simpl. by rewrite Hgs, Hfs.
    + by rewrite Hj2, Hj1, update_job_compose.
Qed.

Lemma quiet_call {A : Type} (n : string) (f : World → result A * World) :
  quiet n (call f).
Proof.
  intros st r st'. unfold call. destruct (f (world st)) as [r' w].
  intros [= <- <-]. do 2 (split; [done|]).
  exists id. repeat split. by rewrite update_job_id.
Qed.

Lemma quiet_store_table (n k : string) (t : Table) : quiet n (store_table k t).
Proof.
  intros st r st' [= <- <-]. do 2 (split; [done|]).
  exists id. repeat split. by rewrite update_job_id.
Qed.

Lemma quiet_set_exec_con (n : string) (h : option Handle) :
  quiet n (set_exec_con h).
Proof.
  intros st r st' [= <- <-]. do 2 (split; [done|]).
  exists id. repeat split. by rewrite update_job_id.
Qed.

Lemma quiet_get_exec_con (n : string) : quiet n get_exec_con.
Proof.
  intros st r st' [= <- <-]. do 2 (split; [done|]).
  exists id. repeat split. by rewrite update_job_id.
Qed.

Lemma quiet_get_tables (n : string) : quiet n get_tables.
Proof.
  intros st r st' [= <- <-]. do 2 (split; [done|]).
  exists id. repeat split. by rewrite update_job_id.
Qed.

Lemma quiet_modify_job (n : string) (f : Job → Job) :
  static_fun f → (∀ j, status (f j) = status j) → quiet n (modify_job n f).
Proof.
  intros Hf Hs st r st' [= <- <-]. do 2 (split; [done|]). by exists f.
Qed.

End Monad.

Section Executors.
Context `{P : Plugins}.

Lemma quiet_process_chain (n : string) (procs : list proc_desc) (df : DataFrame) :
  quiet n (process_chain procs df).
Proof.
  revert df. induction procs as [|pd procs IH]; intros df; simpl.
  - apply quiet_ret.
  - destruct (_normalize_processor pd) as [proc_name proc_opts].
    destruct (nonempty proc_name); [|apply IH].
    destruct (PROCESSORS proc_name) as [processor|]; [|apply quiet_raise].
    apply quiet_bind.
    + intros st r st'. destruct (processor proc_opts df (world st)) as [o w].
      intros [= <- <-]. do 2 (split; [done|]).
      exists id. repeat split. by rewrite update_job_id.
    + intros [df'| | |e]; [apply IH|apply quiet_raise|apply quiet_ret|apply quiet_raise].
Qed.

Lemma quiet_apply_processors (n : string) (table : Table) (procs : list proc_desc) :
  quiet n (_apply_processors table procs).
Proof.
  apply quiet_bind; [apply quiet_process_chain|].
  intros [df|]; apply quiet_ret.
Qed.

Lemma quiet_keep_tables (n : string) (job : Job) (tables : list Table) :
  quiet n (keep_tables job tables).
Proof.
  induction tables as [|table tables IH]; simpl; [apply quiet_ret|].
  apply quiet_bind; [apply quiet_apply_processors|]. intros processed.
  apply quiet_bind; [apply IH|]. intros kept.
  destruct processed; apply quiet_ret.
Qed.

Lemma world_only_ret {A : Type} (a : A) : world_only (mret a).
Proof. by intros st r st' [= <- <-]. Qed.


Lemma world_only_call {A : Type} (f : World → result A * World) :
  world_only (call f).
Proof.
  intros st r st'. unfold call. destruct (f (world st)) as [r' w].
  by intros [= <- <-].
Qed.

Lemma world_only_bind {A B : Type} (m : M A) (k : A → M B) :
  world_only m → (∀ a, world_only (k a)) → world_only (m ≫= k).
Proof.
  intros Hm Hk st r st' H.
  apply bind_inv in H as [(a & st1 & H1 & H2)|(e & H1 & ->)].
  - destruct (Hm _ _ _ H1) as (? & ? & ? & ? & ?).
    destruct (Hk a _ _ _ H2) as (? & ? & ? & ? & ?).
    split_and!; congruence.
  - by apply (Hm _ _ _ H1).
Qed.




(** When the chain drops every table, no table is kept. *)
Lemma keep_tables_all_dropped (job : Job) (tables : list Table) (st : State) :
  Forall (λ table, ∀ s, ∃ s', _apply_processors table (processors job) s
                              = (Ok None, s')) tables →
  ∃ st', keep_tables job tables st = (Ok [], st').
Proof.
  intros Hall. revert st.
  induction Hall as [|table tables Ht _ IH]; intros st; [by eexists|].
  simpl. unfold mbind at 1, M_bind at 1.
  destruct (Ht st) as [s1 ->].
  unfold mbind at 1, M_bind at 1.
  destruct (IH s1) as [s2 ->]. by eexists.
Qed.

Lemma set_status_eq (job : Job) (s : Status) (st : State) :
  set_status job s st
  = (Ok (), mkState (update_job (name job) (with_status s) (jobs st))
              (completed_jobs st) (in_memory_tables st) (exec_con st)
              (world st) (trace st ++ [EvStatus (name job) s])).
Proof. reflexivity. Qed.

Lemma body_set_success (job : Job) :
  body_spec (name job) (set_status job success).
Proof.
  intros st r st'. rewrite set_status_eq. intros [= <- <-].
  split; [done|]. exists (with_status success). by repeat split.
Qed.

Lemma body_raise (n : string) (e : exn) : body_spec n (raise e).
Proof.
  intros st r st' [= <- <-]. split; [done|].
  exists id. repeat split. by rewrite update_job_id.
Qed.

Lemma body_bind {A : Type} (n : string) (m : M A) (k : A → M unit) :
  quiet n m → (∀ a, body_spec n (k a)) → body_spec n (m ≫= k).
Proof.
  intros Hm Hk st r st' H.
  apply bind_inv in H as [(a & st1 & H1 & H2)|(e & H1 & ->)].
  - destruct (Hm _ _ _ H1) as (Ht1 & Hc1 & f & Hf & Hfs & Hj1).
    destruct (Hk a _ _ _ H2) as (Hc2 & g & Hg & Hj2 & Hr).
    split; [congruence|].
    exists (g ∘ f). split; [by apply static_compose|]. split.
    { by rewrite Hj2, Hj1, update_job_compose. }
    destruct r as [[]|e]; destruct Hr as [Hgs Ht2]; split.
    + intros j. apply Hgs.
    + congruence.
    + intros j. simpl. by rewrite Hgs, Hfs.
    + congruence.
  - destruct (Hm _ _ _ H1) as (Ht1 & Hc1 & f & Hf & Hfs & Hj1).
    split; [done|]. by exists f.
Qed.

(** An executor is its body between [job.status = "running"] and the
    [except] clause that marks the job failed and raises again. *)
Lemma exec_of_body (job : Job) (body : M unit) :
  body_spec (name job) body →
  exec_spec (name job)
    (_ ← set_status job running; try_except body (job_failed job)).
Proof.
  intros Hb st r st' H.
  apply bind_inv in H as [([] & st1 & H1 & H2)|(e & H1 & _)];
    rewrite set_status_eq in H1; [|done].
  injection H1 as <-.
  apply try_inv in H2 as [([] & H2 & ->)|(e & st2 & H2 & H3)].
  - destruct (Hb _ _ _ H2) as (Hc & g & Hg & Hj & Hgs & Ht). simpl in *.
    split; [done|].
    exists (g ∘ with_status running).
    split; [by apply static_compose|].
    split; [by rewrite Hj, update_job_compose|].
    split; [intros j; apply Hgs|]. by rewrite Ht, <- app_assoc.
  - destruct (Hb _ _ _ H2) as (Hc & g & Hg & Hj & Hgs & Ht). simpl in *.
    unfold job_failed in H3.
    apply bind_inv in H3 as [([] & st3 & H3 & H4)|(e' & H3 & _)];
      rewrite set_status_eq in H3; [|done].
    injection H3 as <-.
    apply bind_inv in H4 as [([] & st4 & H4 & H5)|(e' & H4 & _)]; [|done].
    injection H4 as <-. injection H5 as <- <-. simpl.
    split; [done|].
    pose proof (static_compose _ _ (static_with_status running) Hg) as Hs1.
    pose proof (static_compose _ _ Hs1 (static_with_status failed)) as Hs2.
    pose proof (static_compose _ _ Hs2 (static_with_error e)) as Hs3.
    exists (with_error e ∘ (with_status failed ∘ (g ∘ with_status running))).
    split; [done|].
    split.
    { rewrite Hj. rewrite (update_job_compose _ (with_status running)) by done.
      rewrite (update_job_compose _ (g ∘ with_status running)) by done.
      by rewrite (update_job_compose _ (with_status failed ∘ _)) by done. }
    split; [done|]. by rewrite Ht, <- app_assoc.
Qed.

Lemma execute_extract_job_spec (job : Job) :
  exec_spec (name job) (execute_extract_job job).
Proof.
  apply exec_of_body.
  apply body_bind; [apply quiet_call|]. intros [|t tables].
  { apply body_set_success. }
  apply body_bind; [apply quiet_keep_tables|]. intros [|first kept].
  { apply body_set_success. }
  apply body_bind; [|intros; apply body_set_success].
  destruct (output_table_name job) as [tn|]; [|apply quiet_ret].
  destruct (nonempty tn); [|apply quiet_ret].
  apply quiet_bind; [apply quiet_store_table|]. intros _.
  by apply quiet_modify_job.
Qed.







Lemma execute_stage_job_spec (job : Job) :
  exec_spec (name job) (execute_stage_job job).
Proof.
  apply exec_of_body.
  apply body_bind; [apply quiet_get_tables|]. intros tables.
  apply body_bind; [apply quiet_get_exec_con|]. intros con.
  apply body_bind; [apply quiet_call|]. intros _.
  apply body_set_success.
Qed.

Lemma execute_transform_job_spec (job : Job) :
  exec_spec (name job) (execute_transform_job job).
Proof.
  apply exec_of_body.
  apply body_bind; [apply quiet_get_exec_con|]. intros [h|]; [|apply body_raise].
  apply body_bind; [apply quiet_call|]. intros h'.
  apply body_bind; [apply quiet_set_exec_con|]. intros _.
  apply body_set_success.
Qed.

Lemma execute_load_job_spec (job : Job) :
  exec_spec (name job) (execute_load_job job).
Proof.
  apply exec_of_body.
  apply body_bind; [apply quiet_get_exec_con|]. intros [h|]; [|apply body_raise].
  apply body_bind; [apply quiet_call|]. intros _.
  apply body_set_success.
Qed.

End Executors.

Section Driver.
Context `{P : Plugins}.

(** The routing either calls an executor or raises at once. *)
Lemma dispatch_cases (stg : string) (job : Job) :
  exec_spec (name job) (dispatch stg job)
  ∨ ∃ msg, dispatch stg job = raise (ValueError msg).
Proof.
  unfold dispatch.
  repeat (case_bool_decide;
          [left; first [apply execute_extract_job_spec
                       |apply execute_stage_job_spec
                       |apply execute_transform_job_spec
                       |apply execute_load_job_spec]|]).
  repeat (match goal with
          | |- context [if ?c then _ else _] =>
              destruct c;
              [left; first [apply execute_extract_job_spec
                           |apply execute_stage_job_spec
                           |apply execute_transform_job_spec
                           |apply execute_load_job_spec]|]
          end).
  right. by eexists.
Qed.

Lemma add_completed_eq (job : Job) (st : State) :
  add_completed job st
  = (Ok (), mkState (jobs st) (completed_jobs st ∪ {[name job]})
              (in_memory_tables st) (exec_con st) (world st)
              (trace st ++ [EvCompleted (name job)])).
Proof. reflexivity. Qed.

Lemma emit_eq (ev : Event) (st : State) :
  emit ev st
  = (Ok (), mkState (jobs st) (completed_jobs st) (in_memory_tables st)
              (exec_con st) (world st) (trace st ++ [ev])).
Proof. reflexivity. Qed.

Lemma is_continue_stop (policy : string) :
  policy = "stop" → is_continue policy = false.
Proof. intros ->. reflexivity. Qed.

(** What the [except] clause of the driver loop does once the exception of
    a job has reached it. *)
Lemma handler_spec (policy : string) (job : Job) (e : exn) (st : State)
    (r : result unit) (st' : State) :
  (_ ← emit (EvFailed (name job) e);
   if bool_decide (policy = "stop") then raise e
   else if bool_decide (policy = "continue") then
     _ ← set_status job failed; add_completed job
   else raise e) st = (r, st') →
  r = (if is_continue policy then Ok () else Raise e)
  ∧ jobs st' = (if is_continue policy
                then update_job (name job) (with_status failed) (jobs st)
                else jobs st)
  ∧ completed_jobs st' = (if is_continue policy
                          then completed_jobs st ∪ {[name job]}
                          else completed_jobs st)
  ∧ trace st' = trace st ++ [EvFailed (name job) e]
                ++ handler_events policy (name job).
Proof.
  intros H.
  apply bind_inv in H as [([] & st1 & H1 & H2)|(e' & H1 & _)];
    rewrite emit_eq in H1; [|done].
  injection H1 as <-. unfold handler_events.
  case_bool_decide as Hstop.
  { rewrite (is_continue_stop _ Hstop). by injection H2 as <- <-. }
  unfold is_continue. case_bool_decide as Hcont.
  - apply bind_inv in H2 as [([] & st2 & H2 & H3)|(e' & H2 & _)];
      rewrite set_status_eq in H2; [|done].
    injection H2 as <-. rewrite add_completed_eq in H3.
    injection H3 as <- <-. simpl. by rewrite <- !app_assoc.
  - by injection H2 as <- <-.
Qed.

(** One turn of the driver loop. *)
Lemma run_ready_job_spec (policy stg : string) (job : Job) (st : State)
    (r : result unit) (st' : State) :
  run_ready_job policy stg job st = (r, st') →
  ∃ o f,
    static_fun f
    ∧ (∀ j, status (f j) = final_status policy o (status j))
    ∧ jobs st' = update_job (name job) f (jobs st)
    ∧ completed_jobs st'
      = (if completes policy o then completed_jobs st ∪ {[name job]}
         else completed_jobs st)
    ∧ trace st' = trace st ++ events_of policy (name job) o
    ∧ r = result_of policy o.
Proof.
  unfold run_ready_job. intros H.
  apply bind_inv in H as [([] & st1 & H1 & H2)|(e' & H1 & _)];
    rewrite emit_eq in H1; [|done].
  injection H1 as <-.
  apply try_inv in H2 as [([] & H2 & ->)|(e & st2 & H2 & H3)].
  - (* the executor returned *)
    apply bind_inv in H2 as [([] & st2 & H2 & H3)|(e' & _ & ?)]; [|done].
    rewrite add_completed_eq in H3. injection H3 as <-.
    destruct (dispatch_cases stg job) as [Hx|[msg Hx]];
      [|by rewrite Hx in H2].
    destruct (Hx _ _ _ H2) as (Hc & f & Hf & Hj & Hs & Ht). simpl in *.
    exists Succeeded, f. simpl. rewrite Hc, Ht, <- !app_assoc.
    by split_and!.
  - (* an exception reached the except clause *)
    apply handler_spec in H3 as (-> & Hj3 & Hc3 & Ht3).
    apply bind_inv in H2 as [([] & st3 & H2 & H4)|(e' & H2 & [= <-])];
      [by rewrite add_completed_eq in H4|].
    destruct (dispatch_cases stg job) as [Hx|[msg Hx]].
    + destruct (Hx _ _ _ H2) as (Hc & f & Hf & Hj & Hs & Ht). simpl in *.
      exists (FailedRunning e). simpl.
      destruct (is_continue policy).
      * exists (with_status failed ∘ f).
        split; [by apply static_compose|]. split; [done|].
        split; [by rewrite Hj3, Hj, update_job_compose|].
        split; [by rewrite Hc3, Hc|].
        split; [|done]. rewrite Ht3, Ht. by rewrite <- !app_assoc.
      * exists f. split; [done|]. split; [done|].
        split; [by rewrite Hj3, Hj|].
        split; [by rewrite Hc3, Hc|].
        split; [|done]. rewrite Ht3, Ht. by rewrite <- !app_assoc.
    + rewrite Hx in H2. injection H2 as <- <-. simpl in *.
      exists (FailedUnrouted (ValueError msg)). simpl.
      destruct (is_continue policy).
      * exists (with_status failed). split; [done|]. split; [done|].
        split; [done|]. split; [done|].
        split; [|done]. rewrite Ht3. by rewrite <- !app_assoc.
      * exists id. split; [done|]. split; [done|].
        split; [by rewrite Hj3, update_job_id|]. split; [done|].
        split; [|done]. rewrite Ht3. by rewrite <- !app_assoc.
Qed.

Lemma result_ok_not_pending (policy : string) (o : job_outcome) (s : Status) :
  result_of policy o = Ok () → final_status policy o s ≠ pending.
Proof. destruct o; simpl; destruct (is_continue policy); done. Qed.

Lemma completed_grows (policy stg : string) (job : Job) (st : State)
    (r : result unit) (st' : State) :
  run_ready_job policy stg job st = (r, st') →
  completed_jobs st ⊆ completed_jobs st'.
Proof.
  intros H. apply run_ready_job_spec in H as (o & f & _ & _ & _ & -> & _).
  destruct (completes policy o); set_solver.
Qed.

Lemma ready_names_NoDup (js : list Job) (stg : string) (c : gset string) :
  NoDup (job_names js) → NoDup (map name (get_ready_jobs js stg c)).
Proof.
  intros Hnd. rewrite get_ready_jobs_filter.
  eapply sublist_NoDup; [exact Hnd|].
  apply (fmap_sublist name), sublist_filter.
Qed.

Lemma while_ready_unfold (fuel : nat) (policy stg : string) (st : State) :
  while_ready fuel policy stg st
  = match get_ready_jobs (jobs st) stg (completed_jobs st) with
    | [] => Some (Ok (), polled stg st)
    | job :: rest =>
        match fuel with
        | O => None
        | S fuel' =>
            match for_ready_jobs policy stg (job :: rest) (polled stg st) with
            | (Ok _, st2) => while_ready fuel' policy stg st2
            | (Raise e, st2) => Some (Raise e, st2)
            end
        end
    end.
Proof.
  unfold polled.
  destruct fuel; simpl;
    destruct (get_ready_jobs (jobs st) stg (completed_jobs st)); reflexivity.
Qed.

(** *** Invariants of the driver loops

    A property of the state that every [get_ready_jobs] call and every turn
    of the loop on a ready job preserve holds when the stages are done; when
    a turn raises, what that turn establishes holds when the loops are
    left. *)

Section LoopInvariant.
Variable policy : string.
Variable I : State → Prop.
Variable Q : exn → State → Prop.

Hypothesis I_poll : ∀ st stg,
  NoDup (job_names (jobs st)) → I st → I (polled stg st).

Hypothesis I_turn : ∀ st stg job r st',
  NoDup (job_names (jobs st)) → I st →
  job ∈ jobs st → stage job = stg → status job = pending →
  Forall (λ dep, dep ∈ completed_jobs st) (depends_on job) →
  run_ready_job policy stg job st = (r, st') →
  match r with
  | Ok _ => I st'
  | Raise e => Q e st'
  end.

Lemma for_ready_jobs_inv (stg : string) (ready : list Job) (st : State)
    (r : result unit) (st' : State) :
  NoDup (job_names (jobs st)) → I st →
  NoDup (map name ready) →
  Forall (λ job, job ∈ jobs st ∧ stage job = stg ∧ status job = pending
                 ∧ Forall (λ dep, dep ∈ completed_jobs st) (depends_on job))
    ready →
  for_ready_jobs policy stg ready st = (r, st') →
  NoDup (job_names (jobs st'))
  ∧ match r with
    | Ok _ => I st'
    | Raise e => Q e st'
    end.
Proof.
  revert st. induction ready as [|job rest IH]; intros st Hnd HI Hnr Hall H.
  - injection H as <- <-. done.
  - simpl in H. apply NoDup_cons in Hnr as [Hjob Hnr].
    apply Forall_cons in Hall as [(Hin & Hstg & Hpend & Hdeps) Hall].
    apply bind_inv in H as [([] & st1 & H1 & H2)|(e & H1 & ->)].
    + pose proof (I_turn _ _ _ _ _ Hnd HI Hin Hstg Hpend Hdeps H1) as HI1.
      pose proof (completed_grows _ _ _ _ _ _ H1) as Hsub.
      apply run_ready_job_spec in H1 as (o & f & Hf & _ & Hj & _).
      apply (IH st1); [by rewrite Hj, job_names_update|done|done| |done].
      apply Forall_forall. intros job' Hin'.
      rewrite Forall_forall in Hall.
      destruct (Hall _ Hin') as (Hin2 & ? & ? & Hd2).
      split_and!; [|done|done|].
      * rewrite Hj. apply elem_of_update_job_other; [|done].
        intros E. apply Hjob. rewrite <- E. by apply list_elem_of_fmap_2.
      * eapply Forall_impl; [exact Hd2|]. intros d Hd. by apply Hsub.
    + pose proof (I_turn _ _ _ _ _ Hnd HI Hin Hstg Hpend Hdeps H1) as HQ.
      apply run_ready_job_spec in H1 as (o & f & Hf & _ & Hj & _).
      split; [by rewrite Hj, job_names_update|done].
Qed.

Lemma while_ready_inv (fuel : nat) (stg : string) (st : State)
    (r : result unit) (st' : State) :
  NoDup (job_names (jobs st)) → I st →
  while_ready fuel policy stg st = Some (r, st') →
  NoDup (job_names (jobs st'))
  ∧ match r with
    | Ok _ => I st'
    | Raise e => Q e st'
    end.
Proof.
  revert st. induction fuel as [|fuel IH]; intros st Hnd HI;
    rewrite while_ready_unfold;
    destruct (get_ready_jobs (jobs st) stg (completed_jobs st))
      as [|job rest] eqn:Hready.
  - intros [= <- <-]. split; [done|]. by apply I_poll.
  - done.
  - intros [= <- <-]. split; [done|]. by apply I_poll.
  - destruct (for_ready_jobs policy stg (job :: rest) (polled stg st))
      as [[[]|e] st2] eqn:Hfor.
    + intros H.
      apply for_ready_jobs_inv in Hfor as [Hnd2 HI2]; [by apply (IH st2)|done| | |].
      * by apply I_poll.
      * rewrite <- Hready. by apply ready_names_NoDup.
      * rewrite <- Hready. apply Forall_forall. intros j Hj.
        apply get_ready_jobs_elem in Hj as (? & ? & ? & Hd).
        split_and!; [done..|]. by apply Forall_forall.
    + intros [= <- <-].
      apply for_ready_jobs_inv in Hfor; [done|done| | |].
      * by apply I_poll.
      * rewrite <- Hready. by apply ready_names_NoDup.
      * rewrite <- Hready. apply Forall_forall. intros j Hj.
        apply get_ready_jobs_elem in Hj as (? & ? & ? & Hd).
        split_and!; [done..|]. by apply Forall_forall.
Qed.

Lemma for_stages_inv (fuel : nat) (stages : list string) (st : State)
    (r : result unit) (st' : State) :
  NoDup (job_names (jobs st)) → I st →
  for_stages fuel policy stages st = Some (r, st') →
  NoDup (job_names (jobs st'))
  ∧ match r with
    | Ok _ => I st'
    | Raise e => Q e st'
    end.
Proof.
  revert st. induction stages as [|stg stages IH]; intros st Hnd HI; simpl.
  - by intros [= <- <-].
  - destruct (filter _ (jobs st)); [by apply IH|].
    destruct (while_ready fuel policy stg st) as [[[[]|e] st1]|] eqn:Hw; [| |done].
    + apply while_ready_inv in Hw as [Hnd1 HI1]; [|done..]. by apply IH.
    + intros [= <- <-]. by apply while_ready_inv in Hw.
Qed.

End LoopInvariant.

(** *** Observing traces *)

Lemma about_app (n : string) (tr1 tr2 : list Event) :
  about n (tr1 ++ tr2) = about n tr1 ++ about n tr2.
Proof. apply filter_app. Qed.

Lemma about_self (policy n : string) (o : job_outcome) :
  about n (events_of policy n o) = events_of policy n o.
Proof.
  unfold about. destruct o; simpl; unfold handler_events;
    destruct (is_continue policy); simpl;
    repeat (rewrite filter_cons, decide_True by done); done.
Qed.

Lemma about_other (policy n m : string) (o : job_outcome) :
  n ≠ m → about m (events_of policy n o) = [].
Proof.
  intros Hne. unfold about.
  assert (Some n ≠ Some m) by congruence.
  destruct o; simpl; unfold handler_events;
    destruct (is_continue policy); simpl;
    repeat (rewrite filter_cons, decide_False by done); done.
Qed.

Lemma about_polled (n stg : string) (st : State) :
  about n (trace (polled stg st)) = about n (trace st).
Proof.
  unfold polled. simpl. rewrite about_app. unfold about at 2.
  rewrite filter_cons, decide_False by done. by rewrite app_nil_r.
Qed.

Lemma elem_of_about (n : string) (ev : Event) (tr : list Event) :
  ev ∈ about n tr ↔ event_job ev = Some n ∧ ev ∈ tr.
Proof. apply (list_elem_of_filter (λ ev, event_job ev = Some n)). Qed.

Lemma same_name_same_job (js : list Job) (j1 j2 : Job) :
  NoDup (job_names js) → j1 ∈ js → j2 ∈ js → name j1 = name j2 → j1 = j2.
Proof.
  unfold job_names. induction js as [|j js IH]; intros Hnd H1 H2 Hn.
  { by inversion H1. }
  simpl in Hnd. apply NoDup_cons in Hnd as [Hj Hnd].
  apply elem_of_cons in H1 as [->|H1]; apply elem_of_cons in H2 as [->|H2].
  - done.
  - exfalso. apply Hj. rewrite Hn. by apply list_elem_of_fmap_2.
  - exfalso. apply Hj. rewrite <- Hn. by apply list_elem_of_fmap_2.
  - by apply IH.
Qed.

(** *** The books are kept *)

Lemma books_poll (policy stg : string) (st : State) :
  books_open policy st → books_open policy (polled stg st).
Proof.
  intros (Hjobs & Hknown & Hcomp). split_and!.
  - intros j Hj. destruct (Hjobs j Hj) as [(Ha & Hs & Hc)|(o & (Ha & Hs & Hc) & Hr)].
    + left. split_and!; [by rewrite about_polled|done|done].
    + right. exists o. split; [|done].
      split_and!; [by rewrite about_polled|done|done].
  - intros n. rewrite about_polled. apply Hknown.
  - intros n. rewrite Hcomp. unfold polled. simpl.
    rewrite elem_of_app, list_elem_of_singleton. split; [auto|].
    by intros [?|?].
Qed.

Lemma books_turn (policy stg : string) (job : Job) (st : State)
    (r : result unit) (st' : State) :
  NoDup (job_names (jobs st)) → books_open policy st →
  job ∈ jobs st → status job = pending →
  run_ready_job policy stg job st = (r, st') →
  books_closed policy st'
  ∧ (r = Ok () → books_open policy st').
Proof.
  intros Hnd (Hjobs & Hknown & Hcomp) Hin Hpend H.
  apply run_ready_job_spec in H as (o & f & Hf & Hs & Hj & Hc & Ht & ->).
  assert (Hfresh : job_fresh st job).
  { destruct (Hjobs _ Hin) as [?|(o' & (_ & Hs' & _) & Hr)]; [done|].
    exfalso. apply (result_ok_not_pending _ _ pending Hr). congruence. }
  destruct Hfresh as (Ha0 & _ & Hc0).
  assert (Hall : ∀ j', j' ∈ jobs st' →
            job_fresh st' j'
            ∨ ∃ o', job_done policy st' j' o'
                    ∧ (result_of policy o = Ok () → result_of policy o' = Ok ())).
  { intros j' Hj'. rewrite Hj in Hj'.
    apply elem_of_update_job in Hj' as (j0 & Hj0 & [[Hne ->]|[Heq ->]]).
    - destruct (Hjobs _ Hj0) as [(Ha & Hs0 & Hc1)|(o' & (Ha & Hs0 & Hc1) & Hr)].
      + left. split_and!; [|done|].
        * rewrite Ht, about_app, Ha. by apply about_other.
        * rewrite Hc. destruct (completes policy o); set_solver.
      + right. exists o'. split; [|done]. split_and!; [|done|].
        * rewrite Ht, about_app, Ha, about_other by done. by rewrite app_nil_r.
        * rewrite <- Hc1, Hc. destruct (completes policy o); set_solver.
    - assert (j0 = job) as -> by by apply (same_name_same_job (jobs st)).
      right. exists o. split; [|done].
      destruct (Hf job) as (Hn & _ & _). unfold job_done. rewrite Hn.
      split_and!.
      + by rewrite Ht, about_app, Ha0, about_self.
      + by rewrite Hs, Hpend.
      + rewrite Hc. destruct (completes policy o); set_solver. }
  assert (Hknown' : ∀ n, about n (trace st') ≠ [] → n ∈ job_names (jobs st')).
  { intros n. rewrite Hj, job_names_update, Ht, about_app by done.
    destruct (decide (name job = n)) as [<-|Hne].
    - intros _. by apply list_elem_of_fmap_2.
    - rewrite about_other, app_nil_r by done. apply Hknown. }
  assert (Hcomp' : ∀ n, n ∈ completed_jobs st' ↔ EvCompleted n ∈ trace st').
  { intros n. rewrite Hc, Ht, elem_of_app, <- Hcomp.
    destruct o; simpl; unfold handler_events;
      destruct (is_continue policy); simpl;
      rewrite ?elem_of_cons, ?elem_of_nil, ?elem_of_union, ?elem_of_singleton;
      naive_solver. }
  split.
  - split_and!; [|done|done]. intros j' Hj'.
    destruct (Hall j' Hj') as [?|(o' & ? & _)]; [by left|right; by exists o'].
  - intros Hr. split_and!; [|done|done]. intros j' Hj'.
    destruct (Hall j' Hj') as [?|(o' & ? & Ho')]; [by left|].
    right. exists o'. split; [done|]. apply Ho'. by rewrite Hr.
Qed.

Lemma books_open_closed (policy : string) (st : State) :
  books_open policy st → books_closed policy st.
Proof.
  intros (Hjobs & ? & ?). split_and!; [|done|done].
  intros j Hj. destruct (Hjobs j Hj) as [?|(o & ? & _)]; [by left|].
  right. by exists o.
Qed.

Lemma books_for_stages (fuel : nat) (policy : string) (stages : list string)
    (st : State) (r : result unit) (st' : State) :
  NoDup (job_names (jobs st)) → books_open policy st →
  for_stages fuel policy stages st = Some (r, st') →
  NoDup (job_names (jobs st')) ∧ books_closed policy st'
  ∧ (r = Ok () → books_open policy st').
Proof.
  intros Hnd Hb H.
  apply (for_stages_inv policy (books_open policy) (λ _, books_closed policy))
    in H as [Hnd' Hr]; [| | |done..].
  - split; [done|]. destruct r as [[]|e]; [|done].
    split; [by apply books_open_closed|done].
  - intros. by apply books_poll.
  - intros s stg job r0 s' Hn Hb0 Hin _ Hp _ Hrun.
    destruct (books_turn _ _ _ _ _ _ Hn Hb0 Hin Hp Hrun) as [Hcl Hop].
    destruct r0 as [[]|e]; [by apply Hop|done].
Qed.

(** *** Invariants of the trace alone

    A property of the trace that every poll and every turn preserve, no
    matter which job the turn is about. *)

Section TraceInvariant.
Variable policy : string.
Variable I : list Event → Prop.
Variable Q : exn → list Event → Prop.

Hypothesis I_poll : ∀ tr stg ready, I tr → I (tr ++ [EvReady stg ready]).

Hypothesis I_turn : ∀ tr n o,
  I tr →
  match result_of policy o with
  | Ok _ => I (tr ++ events_of policy n o)
  | Raise e => Q e (tr ++ events_of policy n o)
  end.

Lemma for_ready_jobs_trace (stg : string) (ready : list Job) (st : State)
    (r : result unit) (st' : State) :
  I (trace st) →
  for_ready_jobs policy stg ready st = (r, st') →
  match r with
  | Ok _ => I (trace st')
  | Raise e => Q e (trace st')
  end.
Proof.
  revert st. induction ready as [|job rest IH]; intros st HI H.
  - by injection H as <- <-.
  - simpl in H. apply bind_inv in H as [([] & st1 & H1 & H2)|(e & H1 & ->)].
    + apply run_ready_job_spec in H1 as (o & f & _ & _ & _ & _ & Ht & Hr).
      pose proof (I_turn (trace st) (name job) o HI) as Hturn.
      rewrite <- Hr, <- Ht in Hturn. by apply (IH st1).
    + apply run_ready_job_spec in H1 as (o & f & _ & _ & _ & _ & Ht & Hr).
      pose proof (I_turn (trace st) (name job) o HI) as Hturn.
      by rewrite <- Hr, <- Ht in Hturn.
Qed.

Lemma while_ready_trace (fuel : nat) (stg : string) (st : State)
    (r : result unit) (st' : State) :
  I (trace st) →
  while_ready fuel policy stg st = Some (r, st') →
  match r with
  | Ok _ => I (trace st')
  | Raise e => Q e (trace st')
  end.
Proof.
  revert st. induction fuel as [|fuel IH]; intros st HI;
    rewrite while_ready_unfold;
    destruct (get_ready_jobs (jobs st) stg (completed_jobs st))
      as [|job rest] eqn:Hready.
  - intros [= <- <-]. by apply I_poll.
  - done.
  - intros [= <- <-]. by apply I_poll.
  - destruct (for_ready_jobs policy stg (job :: rest) (polled stg st))
      as [[[]|e] st2] eqn:Hfor.
    + intros H. apply for_ready_jobs_trace in Hfor; [by apply (IH st2)|].
      by apply I_poll.
    + intros [= <- <-]. apply for_ready_jobs_trace in Hfor; [done|].
      by apply I_poll.
Qed.

Lemma for_stages_trace (fuel : nat) (stages : list string) (st : State)
    (r : result unit) (st' : State) :
  I (trace st) →
  for_stages fuel policy stages st = Some (r, st') →
  match r with
  | Ok _ => I (trace st')
  | Raise e => Q e (trace st')
  end.
Proof.
  revert st. induction stages as [|stg stages IH]; intros st HI; simpl.
  - by intros [= <- <-].
  - destruct (filter _ (jobs st)); [by apply IH|].
    destruct (while_ready fuel policy stg st) as [[[[]|e] st1]|] eqn:Hw; [| |done].
    + apply while_ready_trace in Hw; [|done]. by apply IH.
    + intros [= <- <-]. by apply while_ready_trace in Hw.
Qed.

End TraceInvariant.

(** *** Failures under a policy other than ["continue"] *)

Lemma no_failure_events (policy n : string) (o : job_outcome) :
  result_of policy o = Ok () → is_continue policy = false →
  List.filter is_failure (events_of policy n o) = [].
Proof.
  intros Hr Hc.
  destruct o; simpl in *; unfold handler_events; rewrite ?Hc in *; done.
Qed.

Lemma failure_is_last (policy n : string) (o : job_outcome) (e : exn) :
  result_of policy o = Raise e →
  ∃ evs, events_of policy n o = evs ++ [EvFailed n e]
         ∧ List.filter is_failure evs = [].
Proof.
  destruct o as [|e'|e']; simpl; unfold handler_events;
    destruct (is_continue policy); try done; intros [= ->].
  - by exists [EvDispatch n; EvStatus n running; EvStatus n failed].
  - by exists [EvDispatch n].
Qed.

(** Under such a policy the loops go on only while no job has failed, and
    are left with the failure as the last event. *)
Lemma failures_for_stages (fuel : nat) (policy : string) (stages : list string)
    (st : State) (r : result unit) (st' : State) :
  is_continue policy = false →
  List.filter is_failure (trace st) = [] →
  for_stages fuel policy stages st = Some (r, st') →
  match r with
  | Ok _ => List.filter is_failure (trace st') = []
  | Raise e => ∃ pre n, trace st' = pre ++ [EvFailed n e]
                        ∧ List.filter is_failure pre = []
  end.
Proof.
  intros Hpol Hno H.
  apply (for_stages_trace policy
           (λ tr, List.filter is_failure tr = [])
           (λ e tr, ∃ pre n, tr = pre ++ [EvFailed n e]
                             ∧ List.filter is_failure pre = []))
    in H; [done| | |done].
  - intros tr stg ready Hs. by rewrite List.filter_app, Hs.
  - intros tr n o Hs.
    destruct (result_of policy o) as [[]|e] eqn:Hres.
    + by rewrite List.filter_app, Hs, no_failure_events.
    + destruct (failure_is_last policy n o e Hres) as (evs & Hev & Hnf).
      exists (tr ++ evs), n.
      split; [by rewrite Hev, app_assoc|].
      by rewrite List.filter_app, Hs, Hnf.
Qed.

(** *** The loops close no connection *)

Lemma no_close_events (policy n : string) (o : job_outcome) :
  List.filter is_close (events_of policy n o) = [].
Proof.
  destruct o; simpl; unfold handler_events; by destruct (is_continue policy).
Qed.

Lemma closes_for_stages (fuel : nat) (policy : string) (stages : list string)
    (st : State) (r : result unit) (st' : State) :
  for_stages fuel policy stages st = Some (r, st') →
  List.filter is_close (trace st') = List.filter is_close (trace st).
Proof.
  intros H.
  apply (for_stages_trace policy
           (λ tr, List.filter is_close tr = List.filter is_close (trace st))
           (λ _ tr, List.filter is_close tr = List.filter is_close (trace st)))
    in H; [by destruct r| | |done].
  - intros tr stg ready Hs. by rewrite List.filter_app, Hs, app_nil_r.
  - intros tr n o Hs.
    assert (List.filter is_close (tr ++ events_of policy n o)
            = List.filter is_close (trace st)) as Hx
      by (by rewrite List.filter_app, Hs, no_close_events, app_nil_r).
    by destruct (result_of policy o).
Qed.

(** *** Termination: every turn of the inner loop takes up a pending job *)

Lemma pending_count_update_le (n : string) (f : Job → Job) (js : list Job) :
  (∀ j, status (f j) = pending → status j = pending) →
  pending_count (update_job n f js) ≤ pending_count js.
Proof.
  intros Hf. unfold pending_count, update_job.
  induction js as [|j js IH]; [done|]. simpl.
  rewrite !filter_cons.
  destruct (bool_decide (name j = n)).
  - destruct (decide (status (f j) = pending)) as [Hp|Hp].
    + rewrite decide_True by auto. simpl. lia.
    + destruct (decide (status j = pending)); simpl; lia.
  - destruct (decide (status j = pending)); simpl; lia.
Qed.

Lemma pending_count_update_lt (n : string) (f : Job → Job) (js : list Job)
    (job : Job) :
  (∀ j, status (f j) ≠ pending) →
  job ∈ js → name job = n → status job = pending →
  pending_count (update_job n f js) < pending_count js.
Proof.
  intros Hf Hin Hn Hp. unfold pending_count, update_job.
  induction js as [|j js IH]; [by inversion Hin|]. simpl.
  assert (Hle : pending_count (update_job n f js) ≤ pending_count js).
  { apply pending_count_update_le. intros j0 Hj0. by destruct (Hf j0). }
  unfold pending_count, update_job in Hle.
  rewrite !filter_cons.
  apply elem_of_cons in Hin as [<-|Hin].
  - rewrite bool_decide_eq_true_2 by done.
    rewrite decide_False by apply Hf. rewrite decide_True by done.
    simpl. lia.
  - specialize (IH Hin).
    destruct (bool_decide (name j = n)).
    + rewrite decide_False by apply Hf.
      destruct (decide (status j = pending)); simpl; lia.
    + destruct (decide (status j = pending)); simpl; lia.
Qed.

Lemma final_status_pending (policy : string) (o : job_outcome) (s : Status) :
  final_status policy o s = pending → s = pending.
Proof. destruct o; simpl; [done..|]. by destruct (is_continue policy). Qed.

Lemma turn_pending_le (policy stg : string) (job : Job) (st : State)
    (r : result unit) (st' : State) :
  run_ready_job policy stg job st = (r, st') →
  pending_count (jobs st') ≤ pending_count (jobs st).
Proof.
  intros H. apply run_ready_job_spec in H as (o & f & _ & Hs & -> & _).
  apply pending_count_update_le. intros j. rewrite Hs.
  apply final_status_pending.
Qed.

Lemma turn_pending_lt (policy stg : string) (job : Job) (st st' : State) :
  run_ready_job policy stg job st = (Ok (), st') →
  job ∈ jobs st → status job = pending →
  pending_count (jobs st') < pending_count (jobs st).
Proof.
  intros H Hin Hp.
  apply run_ready_job_spec in H as (o & f & _ & Hs & -> & _ & _ & Hr).
  apply (pending_count_update_lt _ _ _ job); [|done..].
  intros j. rewrite Hs. by apply result_ok_not_pending.
Qed.

Lemma for_ready_pending_le (policy stg : string) (ready : list Job) (st : State)
    (r : result unit) (st' : State) :
  for_ready_jobs policy stg ready st = (r, st') →
  pending_count (jobs st') ≤ pending_count (jobs st).
Proof.
  revert st. induction ready as [|job rest IH]; intros st H.
  - by injection H as <- <-.
  - simpl in H. apply bind_inv in H as [([] & st1 & H1 & H2)|(e & H1 & ->)].
    + apply turn_pending_le in H1. apply IH in H2. lia.
    + by apply turn_pending_le in H1.
Qed.

Lemma while_ready_terminates (policy stg : string) (fuel : nat) (st : State) :
  pending_count (jobs st) < fuel →
  ∃ r st', while_ready fuel policy stg st = Some (r, st')
           ∧ pending_count (jobs st') ≤ pending_count (jobs st).
Proof.
  revert st. induction fuel as [|fuel IH]; intros st Hlt; [lia|].
  rewrite while_ready_unfold.
  destruct (get_ready_jobs (jobs st) stg (completed_jobs st))
    as [|job rest] eqn:Hready.
  { by exists (Ok ()), (polled stg st). }
  destruct (for_ready_jobs policy stg (job :: rest) (polled stg st))
    as [[[]|e] st2] eqn:Hfor.
  - assert (pending_count (jobs st2) < pending_count (jobs st)) as Hdec.
    { simpl in Hfor.
      apply bind_inv in Hfor as [([] & st1 & H1 & H2)|(e & _ & ?)]; [|done].
      assert (job ∈ get_ready_jobs (jobs st) stg (completed_jobs st)) as Hj
        by (rewrite Hready; left).
      apply get_ready_jobs_elem in Hj as (Hin & _ & Hp & _).
      apply turn_pending_lt in H1; [|done..].
      apply for_ready_pending_le in H2. simpl in H1. lia. }
    destruct (IH st2) as (r & st' & Hw & Hle); [lia|].
    exists r, st'. split; [done|lia].
  - exists (Raise e), st2. split; [done|].
    by apply for_ready_pending_le in Hfor.
Qed.

Lemma for_stages_terminates (policy : string) (fuel : nat)
    (stages : list string) (st : State) :
  pending_count (jobs st) < fuel →
  ∃ r st', for_stages fuel policy stages st = Some (r, st').
Proof.
  revert st. induction stages as [|stg stages IH]; intros st Hlt; simpl.
  { by eexists _, _. }
  destruct (filter _ (jobs st)); [by apply IH|].
  destruct (while_ready_terminates policy stg fuel st Hlt)
    as ([[]|e] & st1 & -> & Hle).
  - apply IH. lia.
  - by eexists _, _.
Qed.

Lemma pending_count_length (js : list Job) : pending_count js ≤ length js.
Proof. apply length_filter. Qed.

Lemma run_pipeline_terminates (fuel : nat) (cfg : PipelineConfig)
    (duckdb_con : option Handle) (st : State) :
  length (jobs_config cfg) < fuel →
  ∃ r st', run_pipeline fuel cfg duckdb_con st = Some (r, st').
Proof.
  intros Hlt. unfold run_pipeline.
  assert (pending_count (create_jobs cfg) < fuel) as Hpc.
  { pose proof (pending_count_length (create_jobs cfg)) as Hle.
    unfold create_jobs in Hle at 2. rewrite length_map in Hle. lia. }
  destruct (jobs_config cfg) as [|jc jcs] eqn:Hjc; [by eexists _, _|].
  destruct (_build_graph (create_jobs cfg)) as [g|e]; [|by eexists _, _].
  match goal with
  | |- context [for_stages fuel ?p ?s ?st1] =>
      destruct (for_stages_terminates p fuel s st1 Hpc) as ([[]|e] & st2 & ->)
  end.
  - destruct (reporting_enabled cfg);
      [destruct (try_except _ _ _) as [r s]|]; by eexists _, _.
  - by eexists _, _.
Qed.

Lemma orchestrator_terminates (fuel : nat) (cfg : PipelineConfig) (w : World) :
  length (jobs_config cfg) < fuel →
  ∃ r st, orchestrator fuel cfg w = Some (r, st).
Proof.
  intros Hlt. unfold orchestrator.
  destruct (open_database cfg (initial_state w)) as [[[eng con]|e] st0];
    [|by eexists _, _].
  destruct (run_pipeline_terminates fuel cfg con st0 Hlt) as (r & st1 & ->).
  destruct (cleanup eng con st1) as [[[]|e] st2]; by eexists _, _.
Qed.

(** *** Opening and closing the database *)

Lemma world_only_try {A : Type} (body : M A) (handler : exn → M A) :
  world_only body → (∀ e, world_only (handler e)) →
  world_only (try_except body handler).
Proof.
  intros Hm Hk st r st' H.
  apply try_inv in H as [(a & H1 & ->)|(e & st1 & H1 & H2)].
  - by apply (Hm _ _ _ H1).
  - destruct (Hm _ _ _ H1) as (? & ? & ? & ? & ?).
    destruct (Hk e _ _ _ H2) as (? & ? & ? & ? & ?).
    split_and!; congruence.
Qed.

Lemma world_only_create_schemas (duckdb_con : option Handle)
    (names : list string) :
  world_only (create_schemas duckdb_con names).
Proof.
  induction names as [|schema names IH]; simpl; [apply world_only_ret|].
  apply world_only_bind; [|by intros].
  apply world_only_try; [apply world_only_call|].
  intros e. apply world_only_ret.
Qed.

(** A failing [CREATE SCHEMA] is logged, never raised. *)
Lemma create_schemas_returns (duckdb_con : option Handle) (names : list string)
    (st : State) :
  ∃ st', create_schemas duckdb_con names st = (Ok (), st').
Proof.
  revert st. induction names as [|schema names IH]; intros st; simpl.
  { by eexists. }
  unfold mbind at 1, M_bind at 1, try_except, call.
  destruct (create_schema duckdb_con schema (world st)) as [[[]|e] w];
    apply IH.
Qed.

(** What the part of the driver before the [try] block leaves: no engine
    and no connection when no warehouse is configured, an engine and what
    its [connect] returned otherwise; an exception there comes before any
    connection is recorded. *)
Lemma open_database_spec (cfg : PipelineConfig) (st : State)
    (r : result (option Engine * option Handle)) (st' : State) :
  open_database cfg st = (r, st') →
  jobs st' = jobs st ∧ completed_jobs st' = completed_jobs st
  ∧ match r with
    | Ok (db_engine, duckdb_con) =>
        match warehouse cfg with
        | None => db_engine = None ∧ duckdb_con = None ∧ trace st' = trace st
        | Some _ =>
            ∃ eng, db_engine = Some eng
                   ∧ trace st' = trace st ++ [EvConnect eng duckdb_con]
        end
    | Raise _ => trace st' = trace st
    end.
Proof.
  unfold open_database. destruct (warehouse cfg) as [wcfg|].
  2: { by intros [= <- <-]. }
  intros H.
  apply bind_inv in H as [([] & st1 & H1 & H)|(e & H1 & ->)].
  2: { assert (world_only (match db_path wcfg with
                           | Some db_path =>
                               if reset_on_start wcfg && nonempty db_path
                                  && bool_decide (db_path ≠ ":memory:")
                               then call (reset_store db_path)
                               else mret ()
                           | None => mret ()
                           end)) as Hw.
       { destruct (db_path wcfg) as [pth|]; [|apply world_only_ret].
         destruct (_ && _); [apply world_only_call|apply world_only_ret]. }
       destruct (Hw _ _ _ H1) as (? & ? & _ & _ & ?). done. }
  assert (jobs st1 = jobs st ∧ completed_jobs st1 = completed_jobs st
          ∧ trace st1 = trace st) as (Hj1 & Hc1 & Ht1).
  { assert (world_only (match db_path wcfg with
                        | Some db_path =>
                            if reset_on_start wcfg && nonempty db_path
                               && bool_decide (db_path ≠ ":memory:")
                            then call (reset_store db_path)
                            else mret ()
                        | None => mret ()
                        end)) as Hw.
    { destruct (db_path wcfg) as [pth|]; [|apply world_only_ret].
      destruct (_ && _); [apply world_only_call|apply world_only_ret]. }
    destruct (Hw _ _ _ H1) as (? & ? & _ & _ & ?). done. }
  apply bind_inv in H as [(eng & st2 & H2 & H)|(e & H2 & ->)];
    destruct (world_only_call _ _ _ _ H2) as (Hj2 & Hc2 & _ & _ & Ht2).
  2: { split_and!; congruence. }
  apply bind_inv in H as [(con & st3 & H3 & H)|(e & H3 & ->)];
    destruct (world_only_call _ _ _ _ H3) as (Hj3 & Hc3 & _ & _ & Ht3).
  2: { split_and!; congruence. }
  apply bind_inv in H as [([] & st4 & H4 & H)|(e & H4 & _)];
    rewrite emit_eq in H4; [|done].
  injection H4 as <-.
  apply bind_inv in H as [([] & st5 & H5 & H)|(e & H5 & _)].
  2: { destruct (create_schemas_returns con (schemas wcfg)
                   (mkState (jobs st3) (completed_jobs st3) (in_memory_tables st3)
                      (exec_con st3) (world st3)
                      (trace st3 ++ [EvConnect eng con]))) as [s Hs].
       congruence. }
  destruct (world_only_create_schemas _ _ _ _ _ H5) as (Hj5 & Hc5 & _ & _ & Ht5).
  injection H as <- <-. simpl in *.
  split_and!; [congruence|congruence|]. exists eng. split; [done|]. congruence.
Qed.

Lemma cleanup_spec (db_engine : option Engine) (duckdb_con : option Handle)
    (st : State) (r : result unit) (st' : State) :
  cleanup db_engine duckdb_con st = (r, st') →
  jobs st' = jobs st ∧ completed_jobs st' = completed_jobs st
  ∧ trace st' = trace st
      ++ match cleanup_action db_engine duckdb_con with
         | CloseThroughEngine eng h => [EvEngineClose eng h]
         | CloseQuietly h => [EvLegacyClose h]
         | NoCleanup => []
         end.
Proof.
  unfold cleanup. destruct (cleanup_action db_engine duckdb_con) as [eng h|h|].
  - intros H.
    apply bind_inv in H as [([] & st1 & H1 & H)|(e & H1 & _)];
      rewrite emit_eq in H1; [|done].
    injection H1 as <-.
    by destruct (world_only_call _ _ _ _ H) as (-> & -> & _ & _ & ->).
  - intros H.
    apply bind_inv in H as [([] & st1 & H1 & H)|(e & H1 & _)];
      rewrite emit_eq in H1; [|done].
    injection H1 as <-. by injection H as <- <-.
  - intros [= <- <-]. by rewrite app_nil_r.
Qed.

(** The [try] block: nothing happens without jobs; a graph that cannot be
    built raises before any job is created in the state; otherwise the
    stages run on fresh jobs, and the report changes neither jobs, nor
    completed-set, nor trace, nor the result. *)
Lemma run_pipeline_spec (fuel : nat) (cfg : PipelineConfig)
    (duckdb_con : option Handle) (st : State) (r : result unit) (st' : State) :
  run_pipeline fuel cfg duckdb_con st = Some (r, st') →
  (jobs_config cfg = [] ∧ r = Ok () ∧ st' = st)
  ∨ (jobs_config cfg ≠ []
     ∧ ∃ e, _build_graph (create_jobs cfg) = Raise e ∧ r = Raise e ∧ st' = st)
  ∨ (jobs_config cfg ≠ []
     ∧ ∃ g st2,
         _build_graph (create_jobs cfg) = Ok g
         ∧ for_stages fuel (on_error cfg) (stages_list cfg)
             (mkState (create_jobs cfg) ∅ ∅ duckdb_con (world st) (trace st))
           = Some (r, st2)
         ∧ jobs st' = jobs st2 ∧ completed_jobs st' = completed_jobs st2
         ∧ trace st' = trace st2).
Proof.
  unfold run_pipeline. intros H.
  destruct (jobs_config cfg) as [|jc jcs] eqn:Hjc.
  { injection H as <- <-. by left. }
  right.
  destruct (_build_graph (create_jobs cfg)) as [g|e] eqn:Hg.
  2: { injection H as <- <-. left. split; [done|]. by exists e. }
  right. split; [done|]. exists g.
  destruct (for_stages _ _ _ _) as [[[[]|e] st2]|] eqn:Hfor; [| |done].
  - destruct (reporting_enabled cfg).
    + injection H as H. exists st2. split; [done|].
      unfold try_except, call in H.
      destruct (generate_pipeline_report (jobs st2) (world st2)) as [[[]|e] w];
        by injection H as <- <-.
    + injection H as <- <-. by exists st2.
  - injection H as <- <-. by exists st2.
Qed.

Lemma orchestrator_spec (fuel : nat) (cfg : PipelineConfig) (w : World)
    (r : result unit) (st : State) :
  orchestrator fuel cfg w = Some (r, st) →
  (∃ e, open_database cfg (initial_state w) = (Raise e, st) ∧ r = Raise e)
  ∨ ∃ db_engine duckdb_con st0 r1 st1 rc,
      open_database cfg (initial_state w) = (Ok (db_engine, duckdb_con), st0)
      ∧ run_pipeline fuel cfg duckdb_con st0 = Some (r1, st1)
      ∧ cleanup db_engine duckdb_con st1 = (rc, st)
      ∧ r = match rc with
            | Ok _ => r1
            | Raise e => Raise e
            end.
Proof.
  unfold orchestrator. intros H.
  destruct (open_database cfg (initial_state w)) as [[[eng con]|e] st0] eqn:Ho.
  2: { injection H as <- <-. left. by exists e. }
  right.
  destruct (run_pipeline fuel cfg con st0) as [[r1 st1]|] eqn:Hr; [|done].
  destruct (cleanup eng con st1) as [rc st2] eqn:Hc.
  exists eng, con, st0, r1, st1, rc.
  destruct rc as [[]|e]; injection H as <- <-; done.
Qed.

(** The try block closes no connection. *)
Lemma run_pipeline_closes (fuel : nat) (cfg : PipelineConfig)
    (duckdb_con : option Handle) (st : State) (r : result unit) (st' : State) :
  run_pipeline fuel cfg duckdb_con st = Some (r, st') →
  List.filter is_close (trace st') = List.filter is_close (trace st).
Proof.
  intros H.
  apply run_pipeline_spec in H
    as [(_ & _ & ->)|[(_ & e & _ & _ & ->)|(_ & g & st2 & _ & Hfor & _ & _ & ->)]];
    [done..|].
  by apply closes_for_stages in Hfor.
Qed.

(** The closing events of a whole run: none, or the one call of the engine's
    [close] on the connection that was opened, as the last event. *)
Lemma orchestrator_closes (fuel : nat) (cfg : PipelineConfig) (w : World)
    (r : result unit) (st : State) :
  orchestrator fuel cfg w = Some (r, st) →
  (List.filter is_close (trace st) = []
   ∧ ∀ eng h st0, open_database cfg (initial_state w)
                  ≠ (Ok (Some eng, Some h), st0))
  ∨ ∃ eng h st0 pre,
      open_database cfg (initial_state w) = (Ok (Some eng, Some h), st0)
      ∧ trace st = pre ++ [EvEngineClose eng h]
      ∧ List.filter is_close pre = [].
Proof.
  intros H.
  apply orchestrator_spec in H
    as [(e & Ho & ->)|(eng & con & st0 & r1 & st1 & rc & Ho & Hr & Hc & _)].
  { left. apply open_database_spec in Ho as Hs. destruct Hs as (_ & _ & ->).
    split; [done|]. intros eng h st0. by rewrite Ho. }
  pose proof (open_database_spec _ _ _ _ Ho) as (_ & _ & Hopen).
  apply run_pipeline_closes in Hr.
  apply cleanup_spec in Hc as (_ & _ & Ht).
  assert (List.filter is_close (trace st0) = []) as Hno.
  { destruct (warehouse cfg).
    - destruct Hopen as (e & _ & ->). done.
    - by destruct Hopen as (_ & _ & ->). }
  rewrite Hno in Hr.
  destruct eng as [eng|], con as [h|]; simpl in Ht.
  - right. by exists eng, h, st0, (trace st1).
  - left. rewrite app_nil_r in Ht. rewrite Ht.
    split; [done|]. intros e h s. by rewrite Ho.
  - exfalso. destruct (warehouse cfg); [by destruct Hopen as (? & ? & _)|].
    by destruct Hopen as (_ & ? & _).
  - left. rewrite app_nil_r in Ht. rewrite Ht.
    split; [done|]. intros e h s. by rewrite Ho.
Qed.

(** *** The books of a whole run *)

Lemma job_names_create (cfg : PipelineConfig) :
  job_names (create_jobs cfg) = map fst (jobs_config cfg).
Proof.
  unfold job_names, create_jobs. rewrite map_map.
  apply map_ext. by intros [n jc].
Qed.

Lemma created_pending (cfg : PipelineConfig) (j : Job) :
  j ∈ create_jobs cfg → status j = pending.
Proof.
  unfold create_jobs. intros Hj. apply list_elem_of_In, in_map_iff in Hj.
  by destruct Hj as ([n jc] & <- & _).
Qed.

Lemma about_nobody (n : string) (evs : list Event) :
  Forall (λ ev, event_job ev = None) evs → about n evs = [].
Proof.
  unfold about. induction 1 as [|ev evs Hev _ IH]; [done|].
  rewrite filter_cons, decide_False by congruence. done.
Qed.

(** Appending events that are about no job, and are no addition to the
    completed-set, keeps the books. *)
Lemma books_closed_frame (policy : string) (st st' : State) (evs : list Event) :
  jobs st' = jobs st → completed_jobs st' = completed_jobs st →
  trace st' = trace st ++ evs →
  Forall (λ ev, event_job ev = None) evs →
  books_closed policy st → books_closed policy st'.
Proof.
  intros Hj Hc Ht Hevs (Hjobs & Hknown & Hcomp).
  assert (Hab : ∀ n, about n (trace st') = about n (trace st)).
  { intros n. by rewrite Ht, about_app, (about_nobody n evs), app_nil_r. }
  unfold books_closed, job_fresh, job_done. rewrite Hj, Hc.
  split_and!.
  - intros j Hin. setoid_rewrite Hab. by apply Hjobs.
  - intros n. rewrite Hab. apply Hknown.
  - intros n. rewrite Hcomp, Ht, elem_of_app. split; [auto|].
    intros [?|Hin]; [done|]. rewrite Forall_forall in Hevs.
    by specialize (Hevs _ Hin).
Qed.

Lemma run_pipeline_books (fuel : nat) (cfg : PipelineConfig)
    (duckdb_con : option Handle) (st : State) (r : result unit) (st' : State) :
  NoDup (map fst (jobs_config cfg)) →
  jobs st = [] → completed_jobs st = ∅ →
  Forall (λ ev, event_job ev = None) (trace st) →
  run_pipeline fuel cfg duckdb_con st = Some (r, st') →
  NoDup (job_names (jobs st')) ∧ books_closed (on_error cfg) st'.
Proof.
  intros Hnd Hj0 Hc0 Ht0 H.
  assert (Hab : ∀ n, about n (trace st) = [])
    by (intros n; by apply about_nobody).
  assert (Hnc : ∀ n, EvCompleted n ∉ trace st).
  { intros n Hin. rewrite Forall_forall in Ht0. by specialize (Ht0 _ Hin). }
  assert (Hempty : NoDup (job_names (jobs st)) ∧ books_closed (on_error cfg) st).
  { rewrite Hj0. split; [constructor|]. split_and!.
    - rewrite Hj0. intros j Hin. by inversion Hin.
    - intros n. by rewrite Hab.
    - intros n. rewrite Hc0. split; [set_solver|]. intros Hin. by destruct (Hnc n). }
  apply run_pipeline_spec in H
    as [(_ & _ & ->)|[(_ & e & _ & _ & ->)|(_ & g & st2 & _ & Hfor & Hj & Hc & Ht)]];
    [done..|].
  apply books_for_stages in Hfor as (Hnd2 & Hb2 & _).
  - rewrite Hj. split; [done|].
    apply (books_closed_frame _ st2 st' []); [done|done|by rewrite app_nil_r|done|done].
  - simpl. by rewrite job_names_create.
  - split_and!; simpl.
    + intros j Hin. left. unfold job_fresh. simpl.
      split_and!; [apply Hab|by eapply created_pending|set_solver].
    + intros n. by rewrite Hab.
    + intros n. split; [set_solver|]. intros Hin. by destruct (Hnc n).
Qed.

Lemma orchestrator_books (fuel : nat) (cfg : PipelineConfig) (w : World)
    (r : result unit) (st : State) :
  NoDup (map fst (jobs_config cfg)) →
  orchestrator fuel cfg w = Some (r, st) →
  NoDup (job_names (jobs st)) ∧ books_closed (on_error cfg) st.
Proof.
  intros Hnd H.
  assert (Hinit : ∀ st0 ro,
            open_database cfg (initial_state w) = (ro, st0) →
            jobs st0 = [] ∧ completed_jobs st0 = ∅
            ∧ Forall (λ ev, event_job ev = None) (trace st0)).
  { intros st0 ro Ho. apply open_database_spec in Ho as (Hj & Hc & Ht).
    split; [done|]. split; [done|].
    destruct ro as [[eng con]|e]; [|by rewrite Ht].
    destruct (warehouse cfg).
    - destruct Ht as (e & _ & ->). simpl. by repeat constructor.
    - destruct Ht as (_ & _ & ->). done. }
  apply orchestrator_spec in H
    as [(e & Ho & ->)|(eng & con & st0 & r1 & st1 & rc & Ho & Hr & Hc & _)].
  - destruct (Hinit _ _ Ho) as (Hj & Hc & Ht).
    rewrite Hj. split; [constructor|]. split_and!.
    + rewrite Hj. intros j Hin. by inversion Hin.
    + intros n Hn. exfalso. apply Hn. by apply about_nobody.
    + intros n. rewrite Hc. split; [set_solver|]. intros Hin.
      rewrite Forall_forall in Ht. by specialize (Ht _ Hin).
  - destruct (Hinit _ _ Ho) as (Hj & Hc0 & Ht).
    apply run_pipeline_books in Hr as [Hnd1 Hb1]; [|done..].
    apply cleanup_spec in Hc as (Hj2 & Hc2 & Ht2).
    rewrite Hj2. split; [done|].
    eapply books_closed_frame; [done|done|exact Ht2| |done].
    destruct (cleanup_action eng con); by repeat constructor.
Qed.

(** *** Reading the books *)







(** *** After a failure *)

Lemma failure_split (pre pre' post post' : list Event) (x y : Event) :
  is_failure x = true →
  List.filter is_failure pre' = [] → List.filter is_failure post' = [] →
  pre ++ x :: post = pre' ++ y :: post' →
  pre = pre' ∧ x = y ∧ post = post'.
Proof.
  intros Hx. revert pre'.
  induction pre as [|a pre IH]; intros [|c pre'] Hpre' Hpost' Heq; simpl in *.
  - by injection Heq as -> ->.
  - injection Heq as <- _. by rewrite Hx in Hpre'.
  - injection Heq as -> <-.
    rewrite List.filter_app in Hpost'. simpl in Hpost'. rewrite Hx in Hpost'.
    by destruct (List.filter is_failure pre).
  - injection Heq as <- Heq. destruct (is_failure a); [done|].
    by destruct (IH pre' Hpre' Hpost' Heq) as (-> & -> & ->).
Qed.

Lemma failure_in_trace (tr : list Event) (n : string) (e : exn) :
  List.filter is_failure tr = [] → EvFailed n e ∉ tr.
Proof.
  intros Hno Hin.
  assert (EvFailed n e ∈ List.filter is_failure tr) as Hc.
  { apply list_elem_of_In, List.filter_In. split; [by apply list_elem_of_In|done]. }
  rewrite Hno in Hc. by inversion Hc.
Qed.

(** Under a policy other than ["continue"], a failure is the last thing
    that happens in the try block, and its exception is the block's
    result. *)
Lemma run_pipeline_failure (fuel : nat) (cfg : PipelineConfig)
    (duckdb_con : option Handle) (st0 : State) (r : result unit) (st : State)
    (pre : list Event) (n : string) (e : exn) (post : list Event) :
  is_continue (on_error cfg) = false →
  List.filter is_failure (trace st0) = [] →
  run_pipeline fuel cfg duckdb_con st0 = Some (r, st) →
  trace st = pre ++ EvFailed n e :: post →
  r = Raise e ∧ post = [].
Proof.
  intros Hpol Hno H Hsplit.
  assert (Hin : EvFailed n e ∈ trace st).
  { rewrite Hsplit, elem_of_app, elem_of_cons. auto. }
  apply run_pipeline_spec in H
    as [(_ & _ & ->)|[(_ & e' & _ & _ & ->)|(_ & g & st2 & _ & Hfor & _ & _ & Ht)]].
  - by destruct (failure_in_trace _ n e Hno).
  - by destruct (failure_in_trace _ n e Hno).
  - apply failures_for_stages in Hfor; [|done..]. rewrite Ht in *.
    destruct r as [[]|e1].
    + by destruct (failure_in_trace _ n e Hfor).
    + destruct Hfor as (pre' & n' & Htr & Hpre').
      rewrite Htr in Hsplit.
      destruct (failure_split pre pre' post [] (EvFailed n e) (EvFailed n' e1)
                  eq_refl Hpre' eq_refl (eq_sym Hsplit))
        as (_ & [= _ ->] & ->).
      done.
Qed.

(** Seen from the whole run: the run ends with an exception, and after the
    failure nothing happens but the closing of the connection. *)
Lemma orchestrator_failure (fuel : nat) (cfg : PipelineConfig) (w : World)
    (r : result unit) (st : State)
    (pre : list Event) (n : string) (e : exn) (post : list Event) :
  is_continue (on_error cfg) = false →
  orchestrator fuel cfg w = Some (r, st) →
  trace st = pre ++ EvFailed n e :: post →
  is_raise r = true
  ∧ Forall (λ ev, is_close ev = true) post
  ∧ (post = [] → r = Raise e).
Proof.
  intros Hpol H Hsplit.
  apply orchestrator_spec in H
    as [(e' & Ho & ->)|(eng & con & st0 & r1 & st1 & rc & Ho & Hr & Hc & ->)].
  { apply open_database_spec in Ho as (_ & _ & Ht). rewrite Ht in Hsplit.
    by destruct pre. }
  apply open_database_spec in Ho as (_ & _ & Ht0).
  assert (List.filter is_failure (trace st0) = []) as Hno.
  { destruct (warehouse cfg).
    - by destruct Ht0 as (e0 & _ & ->).
    - by destruct Ht0 as (_ & _ & ->). }
  pose proof (cleanup_spec _ _ _ _ _ Hc) as (_ & _ & Ht).
  set (cl := match cleanup_action eng con with
             | CloseThroughEngine eng0 h => [EvEngineClose eng0 h]
             | CloseQuietly h => [EvLegacyClose h]
             | NoCleanup => []
             end) in Ht.
  assert (Hcl : Forall (λ ev, is_close ev = true) cl)
    by (unfold cl; destruct (cleanup_action eng con); by repeat constructor).
  assert (Hclf : List.filter is_failure cl = [])
    by (unfold cl; by destruct (cleanup_action eng con)).
  assert (Hfor : match r1 with
                 | Ok _ => List.filter is_failure (trace st1) = []
                 | Raise e1 => List.filter is_failure (trace st1) = []
                               ∨ ∃ pre' n', trace st1 = pre' ++ [EvFailed n' e1]
                                            ∧ List.filter is_failure pre' = []
                 end).
  { apply run_pipeline_spec in Hr
      as [(_ & -> & ->)|[(_ & e' & _ & -> & ->)
                        |(_ & g & st2 & _ & Hfor & _ & _ & Ht2)]];
      [done|by left|].
    apply failures_for_stages in Hfor; [|done..]. rewrite Ht2.
    destruct r1; [done|by right]. }
  assert (Hnone : List.filter is_failure (trace st1) = [] → False).
  { intros Hx. apply (failure_in_trace (trace st) n e).
    - by rewrite Ht, List.filter_app, Hx, Hclf.
    - rewrite Hsplit, elem_of_app, elem_of_cons. auto. }
  destruct r1 as [[]|e1]; [done|].
  destruct Hfor as [Hx|(pre' & n' & Htr & Hpre')]; [done|].
  rewrite Ht, Htr, <- app_assoc in Hsplit. simpl in Hsplit.
  symmetry in Hsplit.
  destruct (failure_split pre pre' post cl (EvFailed n e) (EvFailed n' e1)
              eq_refl Hpre' Hclf Hsplit)
    as (_ & [= _ ->] & ->).
  split; [by destruct rc|]. split; [done|].
  intros Hnil. destruct rc as [[]|e']; [done|].
  exfalso. revert Hc Hnil. unfold cl, cleanup.
  destruct (cleanup_action eng con); [done|done|]. by intros [= _ _].
Qed.

(** Under ["continue"], a job whose exception reached the driver ends as
    [failed] and is in the completed-set. *)
Lemma continue_marks_failed (fuel : nat) (cfg : PipelineConfig) (w : World)
    (r : result unit) (st : State) (n : string) (e : exn) :
  on_error cfg = "continue" →
  NoDup (map fst (jobs_config cfg)) →
  orchestrator fuel cfg w = Some (r, st) →
  EvFailed n e ∈ trace st →
  n ∈ completed_jobs st
  ∧ ∃ j, j ∈ jobs st ∧ name j = n ∧ status j = failed.
Proof.
  intros Hpol Hnd H Hin.
  apply orchestrator_books in H as [_ (Hjobs & Hknown & _)]; [|done].
  assert (Hab : EvFailed n e ∈ about n (trace st)) by (by apply elem_of_about).
  assert (n ∈ job_names (jobs st)) as Hn.
  { apply Hknown. intros Hnil. rewrite Hnil in Hab. by inversion Hab. }
  apply list_elem_of_fmap in Hn as (j & -> & Hj).
  destruct (Hjobs j Hj) as [(Hnil & _)|(o & Ha & Hs & Hc)].
  { rewrite Hnil in Hab. by inversion Hab. }
  rewrite Ha in Hab.
  assert (is_continue (on_error cfg) = true) as Hcont
    by (by rewrite Hpol).
  assert (completes (on_error cfg) o = true
          ∧ final_status (on_error cfg) o pending = failed) as [Hco Hfs].
  { destruct o; simpl in *; rewrite ?Hcont; [|done..].
    rewrite !elem_of_cons, elem_of_nil in Hab. naive_solver. }
  split; [by apply Hc|]. exists j. split; [done|]. split; [done|]. congruence.
Qed.

(** Under ["continue"] the inner loop of a stage never raises, and it ends
    only when no pending job of the stage has all its dependencies in the
    completed-set. *)
Lemma while_ready_drains (fuel : nat) (policy stg : string) (st : State)
    (r : result unit) (st' : State) :
  while_ready fuel policy stg st = Some (r, st') →
  (is_continue policy = true → r = Ok ())
  ∧ (r = Ok () →
     ∀ j, j ∈ jobs st' → stage j = stg → status j = pending →
          ∃ dep, dep ∈ depends_on j ∧ dep ∉ completed_jobs st').
Proof.
  intros H. split.
  - intros Hcont.
    apply (while_ready_trace policy (λ _, True) (λ _ _, False)) in H;
      [by destruct r as [[]|e]| | |done].
    + done.
    + intros tr n o _. destruct o; simpl; by rewrite ?Hcont.
  - intros ->. revert st H. induction fuel as [|fuel IH]; intros st;
      rewrite while_ready_unfold;
      destruct (get_ready_jobs (jobs st) stg (completed_jobs st))
        as [|job rest] eqn:Hready; try done.
    + intros [= <-] j Hj Hs Hp. simpl in *.
      destruct (decide (Forall (λ dep, dep ∈ completed_jobs st) (depends_on j)))
        as [Hall|Hnot].
      * assert (j ∈ get_ready_jobs (jobs st) stg (completed_jobs st)) as Hin.
        { apply get_ready_jobs_elem. split_and!; [done..|].
          by apply Forall_forall. }
        rewrite Hready in Hin. by inversion Hin.
      * apply not_Forall_Exists in Hnot; [|apply _].
        apply Exists_exists in Hnot as (dep & ? & ?). by exists dep.
    + intros [= <-] j Hj Hs Hp. simpl in *.
      destruct (decide (Forall (λ dep, dep ∈ completed_jobs st) (depends_on j)))
        as [Hall|Hnot].
      * assert (j ∈ get_ready_jobs (jobs st) stg (completed_jobs st)) as Hin.
        { apply get_ready_jobs_elem. split_and!; [done..|].
          by apply Forall_forall. }
        rewrite Hready in Hin. by inversion Hin.
      * apply not_Forall_Exists in Hnot; [|apply _].
        apply Exists_exists in Hnot as (dep & ? & ?). by exists dep.
    + destruct (for_ready_jobs policy stg (job :: rest) (polled stg st))
        as [[[]|e] st2] eqn:Hfor; [|done].
      apply IH.
Qed.


(** *** Two jobs that wait for each other *)

Lemma blocked_not_ready (stg : string) (a b : Job) (st : State) (job : Job)
    (stg' : string) :
  blocked_pair stg a b st →
  job ∈ get_ready_jobs (jobs st) stg' (completed_jobs st) →
  stage job ≠ stg.
Proof.
  intros (Hf & _ & _ & Hab & Hba & Hna & Hnb) Hin Hs.
  apply get_ready_jobs_elem in Hin as (Hj & _ & _ & Hd).
  assert (job ∈ filter (λ j, stage j = stg) (jobs st)) as Hin
    by (by apply list_elem_of_filter).
  rewrite Hf, !elem_of_cons, elem_of_nil in Hin.
  destruct Hin as [->|[->|[]]]; [by apply Hnb, Hd|by apply Hna, Hd].
Qed.

(** The inner loop of their stage: one poll that returns nothing, and the
    loop is left without raising, whatever the fuel and the policy. *)
Lemma blocked_loop (stg : string) (a b : Job) (st : State) (fuel : nat)
    (policy : string) :
  blocked_pair stg a b st →
  get_ready_jobs (jobs st) stg (completed_jobs st) = []
  ∧ while_ready fuel policy stg st = Some (Ok (), polled stg st).
Proof.
  intros Hb.
  assert (get_ready_jobs (jobs st) stg (completed_jobs st) = []) as Hr.
  { destruct (get_ready_jobs (jobs st) stg (completed_jobs st))
      as [|job rest] eqn:Hready; [done|].
    assert (job ∈ get_ready_jobs (jobs st) stg (completed_jobs st)) as Hin
      by (rewrite Hready; left).
    pose proof (blocked_not_ready _ _ _ _ _ _ Hb Hin) as Hne.
    apply get_ready_jobs_elem in Hin as (_ & Hs & _). done. }
  split; [done|]. by rewrite while_ready_unfold, Hr.
Qed.

Lemma filter_stage_update (stg n : string) (f : Job → Job) (js : list Job) :
  static_fun f →
  (∀ j, j ∈ js → name j = n → stage j ≠ stg) →
  filter (λ j, stage j = stg) (update_job n f js)
  = filter (λ j, stage j = stg) js.
Proof.
  intros Hf. unfold update_job.
  induction js as [|j js IH]; intros Hn; [done|]. simpl.
  rewrite !filter_cons, IH by (intros j' Hj'; apply Hn; by right).
  case_bool_decide as Hname; [|done].
  destruct (Hf j) as (_ & Hstage & _).
  rewrite !decide_False; [done|apply Hn; [left|done]|].
  rewrite Hstage. apply Hn; [left|done].
Qed.

(** The pair stays blocked through the stages, and every poll of its
    stage comes back empty. *)
Lemma blocked_for_stages (fuel : nat) (policy : string) (stages : list string)
    (stg : string) (a b : Job) (st : State) (r : result unit) (st' : State) :
  NoDup (job_names (jobs st)) →
  blocked_pair stg a b st → polls_empty stg (trace st) →
  for_stages fuel policy stages st = Some (r, st') →
  blocked_pair stg a b st' ∧ polls_empty stg (trace st').
Proof.
  intros Hnd Hb Hp H.
  apply (for_stages_inv policy
           (λ s, blocked_pair stg a b s ∧ polls_empty stg (trace s))
           (λ _ s, blocked_pair stg a b s ∧ polls_empty stg (trace s)))
    in H as [_ Hr]; [by destruct r| | |done..].
  - intros s stg' _ [Hbs Hps]. split; [done|].
    intros ready. unfold polled. simpl.
    rewrite elem_of_app, list_elem_of_singleton.
    intros [Hin|Heq]; [by apply Hps|].
    injection Heq as Hs ->. subst stg'.
    by rewrite (proj1 (blocked_loop _ _ _ _ 0 policy Hbs)).
  - intros s stg' job r0 s' Hnds [Hbs Hps] Hin Hstg Hpend Hdeps Hrun.
    assert (blocked_pair stg a b s' ∧ polls_empty stg (trace s')) as Hgoal;
      [|by destruct r0].
    destruct Hbs as (Hf & Hsa & Hsb & Hab & Hba & Hna & Hnb).
    assert (Ha : a ∈ jobs s).
    { apply (list_elem_of_filter (λ j, stage j = stg)). rewrite Hf. left. }
    assert (Hbj : b ∈ jobs s).
    { apply (list_elem_of_filter (λ j, stage j = stg)). rewrite Hf.
      right. left. }
    rewrite Forall_forall in Hdeps.
    assert (job ≠ a) as Hja by (intros ->; by apply Hnb, Hdeps).
    assert (job ≠ b) as Hjb by (intros ->; by apply Hna, Hdeps).
    assert (name job ≠ name a) as Hnja
      by (intros E; by apply Hja, (same_name_same_job (jobs s))).
    assert (name job ≠ name b) as Hnjb
      by (intros E; by apply Hjb, (same_name_same_job (jobs s))).
    apply run_ready_job_spec in Hrun as (o & f & Hfs & _ & Hj & Hc & Ht & _).
    split.
    + split_and!; try done.
      * rewrite Hj, filter_stage_update; [done..|].
        intros j Hjin Hname Hstage.
        assert (j ∈ filter (λ j, stage j = stg) (jobs s)) as Hjf
          by (by apply list_elem_of_filter).
        rewrite Hf, !elem_of_cons, elem_of_nil in Hjf.
        destruct Hjf as [->|[->|[]]]; congruence.
      * rewrite Hc. destruct (completes policy o); set_solver.
      * rewrite Hc. destruct (completes policy o); set_solver.
    + intros ready. rewrite Ht, elem_of_app. intros [?|Hev]; [by apply Hps|].
      exfalso. revert Hev.
      destruct o; simpl; unfold handler_events; destruct (is_continue policy);
        simpl; rewrite ?elem_of_cons, ?elem_of_nil; naive_solver.
Qed.

(** The try block of a configuration that declares such a pair, when its
    graph can be built: the pair is still blocked and pending at the end,
    and every poll of its stage came back empty. *)
Lemma blocked_run (fuel : nat) (cfg : PipelineConfig) (stg : string)
    (a b : Job) (duckdb_con : option Handle) (st0 : State)
    (g : gmap string (gset string)) (r : result unit) (st : State) :
  NoDup (map fst (jobs_config cfg)) →
  filter (λ j, stage j = stg) (create_jobs cfg) = [a; b] →
  name b ∈ depends_on a → name a ∈ depends_on b →
  _build_graph (create_jobs cfg) = Ok g →
  polls_empty stg (trace st0) →
  run_pipeline fuel cfg duckdb_con st0 = Some (r, st) →
  blocked_pair stg a b st ∧ polls_empty stg (trace st).
Proof.
  intros Hnd Hf Hab Hba Hg Hp Hrun.
  assert (Ha : a ∈ create_jobs cfg).
  { apply (list_elem_of_filter (λ j, stage j = stg)). rewrite Hf. left. }
  assert (Hbj : b ∈ create_jobs cfg).
  { apply (list_elem_of_filter (λ j, stage j = stg)). rewrite Hf.
    right. left. }
  apply run_pipeline_spec in Hrun
    as [(Hnil & _)|[(_ & e & He & _)|(_ & g' & st2 & _ & Hfor & Hj & Hc & Ht)]].
  - unfold create_jobs in Ha. rewrite Hnil in Ha. by inversion Ha.
  - congruence.
  - apply (blocked_for_stages _ _ _ stg a b) in Hfor as [Hb2 Hp2].
    + unfold blocked_pair, polls_empty. by rewrite Hj, Hc, Ht.
    + simpl. by rewrite job_names_create.
    + unfold blocked_pair. simpl.
      split_and!; [done|by eapply created_pending|by eapply created_pending
                  |done|done|set_solver|set_solver].
    + done.
Qed.

(** Seen from the whole run: it ends, every poll of the stage came back
    empty, and whatever jobs of the stage exist at the end are pending. *)
Lemma blocked_orchestrator (fuel : nat) (cfg : PipelineConfig) (stg : string)
    (a b : Job) (w : World) (r : result unit) (st : State) :
  NoDup (map fst (jobs_config cfg)) →
  filter (λ j, stage j = stg) (create_jobs cfg) = [a; b] →
  name b ∈ depends_on a → name a ∈ depends_on b →
  orchestrator fuel cfg w = Some (r, st) →
  polls_empty stg (trace st)
  ∧ ∀ j, j ∈ jobs st → stage j = stg → status j = pending.
Proof.
  intros Hnd Hf Hab Hba Hrun.
  apply orchestrator_spec in Hrun
    as [(e & Ho & ->)|(eng & con & st0 & r1 & st1 & rc & Ho & Hr & Hc & _)].
  { apply open_database_spec in Ho as (Hj & _ & Ht). rewrite Hj.
    split; [|intros j Hin; by inversion Hin].
    intros ready. rewrite Ht. intros Hin. by inversion Hin. }
  apply open_database_spec in Ho as (Hj0 & _ & Ht0).
  assert (Hp0 : polls_empty stg (trace st0)).
  { intros ready. destruct (warehouse cfg).
    - destruct Ht0 as (e0 & _ & ->). simpl.
      rewrite list_elem_of_singleton. done.
    - destruct Ht0 as (_ & _ & ->). intros Hin. by inversion Hin. }
  apply cleanup_spec in Hc as (Hj2 & _ & Ht2).
  assert (Hgoal : polls_empty stg (trace st1)
                  ∧ ∀ j, j ∈ jobs st1 → stage j = stg → status j = pending).
  { destruct (_build_graph (create_jobs cfg)) as [g|e] eqn:Hg.
    - destruct (blocked_run _ _ _ _ _ _ _ _ _ _ Hnd Hf Hab Hba Hg Hp0 Hr)
        as [(Hf1 & Hsa & Hsb & _) Hp1].
      split; [done|]. intros j Hin Hs.
      assert (j ∈ filter (λ j, stage j = stg) (jobs st1)) as Hjf
        by (by apply list_elem_of_filter).
      rewrite Hf1, !elem_of_cons, elem_of_nil in Hjf.
      by destruct Hjf as [->|[->|[]]].
    - apply run_pipeline_spec in Hr
        as [(_ & _ & ->)|[(_ & e' & _ & _ & ->)|(_ & g' & _ & Hg' & _)]].
      + split; [done|]. rewrite Hj0. intros j Hin. by inversion Hin.
      + split; [done|]. rewrite Hj0. intros j Hin. by inversion Hin.
      + congruence. }
  destruct Hgoal as [Hp1 Hs1]. rewrite Hj2. split; [|done].
  intros ready. rewrite Ht2, elem_of_app. intros [?|Hin]; [by apply Hp1|].
  exfalso. destruct (cleanup_action eng con);
    rewrite ?list_elem_of_singleton in Hin; [done|done|by inversion Hin].
Qed.

End Driver.

End RunFacts.

(** ** The order of a run *)

Module SchedFacts.
Import Text Py Expand Dag Run Sched.
Import DagFacts RunFacts.

Lemma graph_of_update (n : string) (f : Job → Job) (js : list Job) :
  static_fun f → graph_of (update_job n f js) = graph_of js.
Proof.
  intros Hf. unfold graph_of, update_job. rewrite <- list_fmap_compose.
  apply list_fmap_ext. intros _ j _. simpl.
  case_bool_decide; [|done]. by destruct (Hf j) as (-> & -> & ->).
Qed.

Lemma graph_of_names (js : list Job) : map fst (graph_of js) = job_names js.
Proof.
  unfold graph_of, job_names. rewrite map_map. done.
Qed.

Lemma NoDup_fst_agree {A B : Type} (l : list (A * B)) (x : A) (y1 y2 : B) :
  NoDup (map fst l) → (x, y1) ∈ l → (x, y2) ∈ l → y1 = y2.
Proof.
  induction l as [|[a b] l IH]; [by intros _ H; inversion H|].
  simpl. intros [Ha Hnd]%NoDup_cons H1 H2.
  apply elem_of_cons in H1 as [H1|H1]; apply elem_of_cons in H2 as [H2|H2].
  - congruence.
  - injection H1 as -> ->. destruct Ha. apply list_elem_of_fmap. by exists (a, y2).
  - injection H2 as -> ->. destruct Ha. apply list_elem_of_fmap. by exists (a, y1).
  - by apply IH.
Qed.

Lemma graph_of_agree (js js0 : list Job) (j j0 : Job) :
  graph_of js = graph_of js0 → NoDup (job_names js) →
  j ∈ js → j0 ∈ js0 → name j = name j0 →
  stage j = stage j0 ∧ depends_on j = depends_on j0.
Proof.
  intros Hg Hnd Hj Hj0 Hn.
  assert ((name j, (stage j, depends_on j)) ∈ graph_of js) as H1.
  { unfold graph_of. apply list_elem_of_fmap. by exists j. }
  assert ((name j0, (stage j0, depends_on j0)) ∈ graph_of js) as H2.
  { rewrite Hg. unfold graph_of. apply list_elem_of_fmap. by exists j0. }
  rewrite <- graph_of_names in Hnd. rewrite <- Hn in H2.
  by pose proof (NoDup_fst_agree _ _ _ _ Hnd H1 H2) as [= -> ->].
Qed.

Lemma graph_of_elem (js js0 : list Job) (j0 : Job) :
  graph_of js = graph_of js0 → j0 ∈ js0 →
  ∃ j, j ∈ js ∧ name j = name j0 ∧ stage j = stage j0
       ∧ depends_on j = depends_on j0.
Proof.
  intros Hg Hj0.
  assert ((name j0, (stage j0, depends_on j0)) ∈ graph_of js) as H2.
  { rewrite Hg. unfold graph_of. apply list_elem_of_fmap. by exists j0. }
  unfold graph_of in H2. apply list_elem_of_fmap in H2 as (j & [= -> -> ->] & Hj).
  by exists j.
Qed.

Lemma deps_before_app (js : list Job) (tr evs : list Event) :
  deps_before js tr →
  (∀ pre n post, evs = pre ++ EvDispatch n :: post →
     ∀ j dep, j ∈ js → name j = n → dep ∈ depends_on j →
              EvCompleted dep ∈ tr ++ pre) →
  deps_before js (tr ++ evs).
Proof.
  intros H1 H2 pre n post Heq j dep Hj Hn Hd.
  apply List.app_eq_app in Heq as [l [[-> Hl]|[-> Hl]]].
  - destruct l as [|x l]; simpl in Hl.
    + specialize (H2 [] n post (eq_sym Hl) j dep Hj Hn Hd).
      by rewrite !List.app_nil_r in H2.
    + injection Hl as <- ->.
      by eapply (H1 pre n l).
  - by eapply (H2 l n post).
Qed.

Lemma deps_before_quiet (js : list Job) (tr evs : list Event) :
  deps_before js tr →
  Forall (λ ev, ∀ n, ev ≠ EvDispatch n) evs →
  deps_before js (tr ++ evs).
Proof.
  intros H1 Hq. apply deps_before_app; [done|].
  intros pre n post -> j dep _ _ _.
  apply Forall_app in Hq as [_ Hq]. apply Forall_cons in Hq as [Hq _].
  by destruct (Hq n).
Qed.

Section Order.
Context `{P : Plugins}.

Lemma events_of_dispatch (policy n : string) (o : job_outcome)
    (pre : list Event) (m : string) (post : list Event) :
  events_of policy n o = pre ++ EvDispatch m :: post → pre = [] ∧ m = n.
Proof.
  unfold events_of, handler_events.
  intros H. destruct pre as [|x pre].
  - destruct o; simpl in H; by injection H as <-.
  - exfalso.
    destruct o, (is_continue policy); simpl in H; injection H as _ H;
      repeat (destruct pre as [|? pre]; simpl in H;
              [discriminate|injection H as _ H]);
      by destruct pre.
Qed.

Lemma completes_event (policy n : string) (o : job_outcome) :
  completes policy o = true → EvCompleted n ∈ events_of policy n o.
Proof.
  unfold events_of, handler_events.
  destruct o; simpl; intros H; rewrite ?H; simpl;
    rewrite !elem_of_cons; auto 10.
Qed.

Lemma ordered_poll (js0 : list Job) (stg : string) (st : State) :
  ordered js0 st → ordered js0 (polled stg st).
Proof.
  intros (Hg & Hc & Hd). split_and!; simpl; [done| |].
  - intros n Hn. apply elem_of_app. left. by apply Hc.
  - apply deps_before_quiet; [done|]. by repeat constructor.
Qed.

Lemma ordered_turn (js0 : list Job) (policy stg : string) (job : Job)
    (st : State) (r : result unit) (st' : State) :
  NoDup (job_names (jobs st)) → ordered js0 st →
  job ∈ jobs st →
  Forall (λ dep, dep ∈ completed_jobs st) (depends_on job) →
  run_ready_job policy stg job st = (r, st') →
  ordered js0 st'.
Proof.
  intros Hnd (Hg & Hc & Hd) Hjob Hdeps H.
  apply run_ready_job_spec in H as (o & f & Hf & _ & Hj & Hcs & Ht & _).
  split_and!.
  - by rewrite Hj, graph_of_update.
  - intros n. rewrite Hcs, Ht, elem_of_app.
    destruct (completes policy o) eqn:Hco.
    + rewrite elem_of_union, elem_of_singleton. intros [Hn| ->].
      * left. by apply Hc.
      * right. by apply completes_event.
    + intros Hn. left. by apply Hc.
  - rewrite Ht. apply deps_before_app; [done|].
    intros pre n post Heq j0 dep Hj0 Hn Hdep.
    apply events_of_dispatch in Heq as [-> ->].
    rewrite List.app_nil_r. apply Hc.
    destruct (graph_of_agree _ _ _ _ Hg Hnd Hjob Hj0 (eq_sym Hn)) as [_ Hdd].
    rewrite Forall_forall in Hdeps. apply Hdeps. by rewrite Hdd.
Qed.

Lemma ordered_for_stages (js0 : list Job) (fuel : nat) (policy : string)
    (stages : list string) (st : State) (r : result unit) (st' : State) :
  NoDup (job_names (jobs st)) → ordered js0 st →
  for_stages fuel policy stages st = Some (r, st') →
  ordered js0 st'.
Proof.
  intros Hnd HI H.
  apply (for_stages_inv policy (ordered js0) (λ _, ordered js0)) in H
    as [_ H]; [by destruct r| | |done|done].
  - intros. by apply ordered_poll.
  - intros st1 stg job r1 st1' Hnd1 HI1 Hin _ _ Hdeps Hrun.
    assert (ordered js0 st1') by (by eapply ordered_turn).
    by destruct r1.
Qed.

Lemma deps_before_nil (js : list Job) : deps_before js [].
Proof. intros pre n post H. by destruct pre. Qed.

Lemma deps_before_run_pipeline (fuel : nat) (cfg : PipelineConfig)
    (duckdb_con : option Handle) (st0 : State) (r : result unit) (st : State) :
  NoDup (map fst (jobs_config cfg)) →
  deps_before (create_jobs cfg) (trace st0) →
  run_pipeline fuel cfg duckdb_con st0 = Some (r, st) →
  deps_before (create_jobs cfg) (trace st).
Proof.
  intros Hnd H0 H.
  apply run_pipeline_spec in H
    as [(_ & _ & ->)|[(_ & e & _ & _ & ->)|(_ & g & st2 & _ & Hfor & _ & _ & ->)]];
    [done..|].
  apply (ordered_for_stages (create_jobs cfg)) in Hfor as (_ & _ & ?); [done| |].
  - simpl. by rewrite job_names_create.
  - split_and!; simpl; [done| |done]. set_solver.
Qed.

Lemma deps_before_orchestrator (fuel : nat) (cfg : PipelineConfig) (w : World)
    (r : result unit) (st : State) :
  NoDup (map fst (jobs_config cfg)) →
  orchestrator fuel cfg w = Some (r, st) →
  deps_before (create_jobs cfg) (trace st).
Proof.
  intros Hnd H.
  apply orchestrator_spec in H
    as [(e & Ho & ->)|(eng & con & st0 & r1 & st1 & rc & Ho & Hr & Hc & ->)].
  { apply open_database_spec in Ho as (_ & _ & ->). apply deps_before_nil. }
  apply open_database_spec in Ho as (_ & _ & Ht0).
  apply cleanup_spec in Hc as (_ & _ & ->).
  apply deps_before_quiet.
  - eapply deps_before_run_pipeline; [done| |done].
    destruct (warehouse cfg).
    + destruct Ht0 as (e0 & _ & ->). simpl.
      apply (deps_before_quiet _ []); [apply deps_before_nil|].
      by repeat constructor.
    + destruct Ht0 as (_ & _ & ->). apply deps_before_nil.
  - destruct (cleanup_action eng con); by repeat constructor.
Qed.

End Order.

(** *** Every job gets its turn *)

Lemma stage_index_first (done rest : list string) (s : string) :
  s ∉ done → stage_index (done ++ s :: rest) s = Some (length done).
Proof.
  induction done as [|s' done IH]; simpl; intros Hn.
  - by rewrite bool_decide_eq_true_2.
  - apply not_elem_of_cons in Hn as [Hne Hn].
    rewrite bool_decide_eq_false_2 by done. by rewrite IH.
Qed.

Lemma stage_index_early (done rest : list string) (s : string) (i : nat) :
  stage_index (done ++ rest) s = Some i → i < length done → s ∈ done.
Proof.
  revert i. induction done as [|s' done IH]; simpl; intros i H Hi; [lia|].
  case_bool_decide as Hs; [subst; left|].
  destruct (stage_index (done ++ rest) s) as [k|] eqn:Hk; [|done].
  injection H as <-. right. apply (IH k); [done|lia].
Qed.

Lemma stage_index_inj (stages : list string) (s1 s2 : string) (i : nat) :
  stage_index stages s1 = Some i → stage_index stages s2 = Some i → s1 = s2.
Proof.
  revert i. induction stages as [|s' stages IH]; simpl; intros i; [done|].
  repeat case_bool_decide; subst; try done.
  - destruct (stage_index stages s2); naive_solver.
  - destruct (stage_index stages s1); naive_solver.
  - destruct (stage_index stages s1) eqn:?, (stage_index stages s2) eqn:?;
      try done.
    simpl. intros [= <-] [= ->]. by eapply IH.
Qed.

Section Live.
Context `{P : Plugins}.
Variable policy : string.
Variable js0 : list Job.

Lemma ok_completes (o : job_outcome) :
  result_of policy o = Ok () → completes policy o = true.
Proof. destruct o; simpl; [done| |]; by destruct (is_continue policy). Qed.

Lemma live_while (fuel : nat) (stg : string) (st st' : State)
    (C : gset string) :
  NoDup (job_names (jobs st)) → live_inv policy js0 C st →
  while_ready fuel policy stg st = Some (Ok (), st') →
  NoDup (job_names (jobs st')) ∧ live_inv policy js0 C st'.
Proof.
  intros Hnd HI H.
  apply (while_ready_inv policy (live_inv policy js0 C) (λ _ _, True)) in H;
    [done| | |done|done].
  - intros s stg' _ (Hb & Hg & Hc). split_and!; [by apply books_poll|done..].
  - intros s stg' job r s' Hn (Hb & Hg & Hc) Hin _ Hp _ Hrun.
    destruct r as [[]|e]; [|done].
    destruct (books_turn _ _ _ _ _ _ Hn Hb Hin Hp Hrun) as [_ Hop].
    pose proof (completed_grows _ _ _ _ _ _ Hrun) as Hsub.
    apply run_ready_job_spec in Hrun as (o & f & Hf & _ & Hj & _).
    split_and!; [by apply Hop|by rewrite Hj, graph_of_update|set_solver].
Qed.

(** A job that is not in the completed-set has not been taken up. *)
Lemma open_pending (st : State) (j : Job) :
  books_open policy st → j ∈ jobs st → name j ∉ completed_jobs st →
  status j = pending.
Proof.
  intros (Hjobs & _) Hj Hn.
  destruct (Hjobs j Hj) as [(_ & ? & _)|(o & (_ & _ & Hc) & Hr)]; [done|].
  destruct Hn. apply Hc. by apply ok_completes.
Qed.

Lemma stage_done (stages done rest : list string) (stg : string)
    (rank : string → nat) (st : State) :
  stages = done ++ stg :: rest →
  schedulable stages js0 rank →
  NoDup (job_names (jobs st)) →
  books_open policy st → graph_of (jobs st) = graph_of js0 →
  (∀ j, j ∈ jobs st → stage j ∈ done → name j ∈ completed_jobs st) →
  (∀ j, j ∈ jobs st → stage j = stg → status j = pending →
        ∃ dep, dep ∈ depends_on j ∧ dep ∉ completed_jobs st) →
  ∀ j, j ∈ jobs st → stage j = stg → name j ∈ completed_jobs st.
Proof.
  intros Hst Hsch Hnd Hb Hg Hdone Hdrain.
  destruct (decide (stg ∈ done)) as [Hin|Hnotin].
  { intros j Hj <-. by apply Hdone. }
  assert (Hidx : stage_index stages stg = Some (length done))
    by (rewrite Hst; by apply stage_index_first).
  assert (Hind : ∀ k j, rank (name j) < k → j ∈ jobs st → stage j = stg →
                        name j ∈ completed_jobs st).
  { induction k as [|k IH]; intros j Hk Hj Hs; [lia|].
    destruct (decide (name j ∈ completed_jobs st)) as [|Hnc]; [done|].
    exfalso.
    pose proof (open_pending _ _ Hb Hj Hnc) as Hp.
    destruct (Hdrain j Hj Hs Hp) as (dep & Hdep & Hdn).
    destruct (graph_of_elem js0 (jobs st) j (eq_sym Hg) Hj)
      as (j0 & Hj0 & Hn0 & Hs0 & Hd0).
    destruct (Hsch j0 Hj0) as [_ Hdeps].
    rewrite Hd0 in Hdeps.
    destruct (Hdeps dep Hdep) as (d & Hd & Hdname & Hrank & i & k' & Hi & Hk' & Hle).
    destruct (graph_of_elem (jobs st) js0 d Hg Hd)
      as (d' & Hd' & Hn' & Hs' & _).
    rewrite Hs0, Hs, Hidx in Hk'. injection Hk' as <-.
    apply Hdn. rewrite <- Hdname, <- Hn'.
    destruct (decide (i = length done)) as [->|Hne].
    - apply IH; [rewrite Hn', Hdname, Hn0 in *; lia|done|].
      rewrite Hs'. by eapply stage_index_inj.
    - apply Hdone; [done|]. rewrite Hs'.
      rewrite Hst in Hi. eapply stage_index_early; [done|lia]. }
  intros j Hj Hs. by apply (Hind (S (rank (name j)))); [lia|..].
Qed.

End Live.

Section LiveRun.
Context `{P : Plugins}.

Lemma for_stages_live (fuel : nat) (policy : string) (js0 : list Job)
    (stages : list string) (rank : string → nat) :
  schedulable stages js0 rank →
  ∀ rest done st st',
    stages = done ++ rest →
    NoDup (job_names (jobs st)) →
    books_open policy st → graph_of (jobs st) = graph_of js0 →
    (∀ j, j ∈ jobs st → stage j ∈ done → name j ∈ completed_jobs st) →
    for_stages fuel policy rest st = Some (Ok (), st') →
    NoDup (job_names (jobs st')) ∧ books_open policy st'
    ∧ graph_of (jobs st') = graph_of js0
    ∧ ∀ j, j ∈ jobs st' → stage j ∈ stages → name j ∈ completed_jobs st'.
Proof.
  intros Hsch rest.
  induction rest as [|stg rest IH]; intros done st st' Hst Hnd Hb Hg Hdone H.
  - injection H as <-. rewrite List.app_nil_r in Hst. by subst.
  - simpl in H.
    assert (Hst' : stages = (done ++ [stg]) ++ rest)
      by (by rewrite <- List.app_assoc).
    destruct (filter (λ j, stage j = stg) (jobs st)) as [|j1 js1] eqn:Hf.
    + apply (IH (done ++ [stg]) st st'); [done..| |done].
      intros j Hj [Hin|Hin]%elem_of_app; [by apply Hdone|].
      apply list_elem_of_singleton in Hin.
      assert (j ∈ filter (λ j, stage j = stg) (jobs st)) as Hjf
        by (by apply list_elem_of_filter).
      rewrite Hf in Hjf. by inversion Hjf.
    + destruct (while_ready fuel policy stg st) as [[[[]|e] st1]|] eqn:Hw;
        [|done..].
      destruct (live_while policy js0 _ _ _ _ (completed_jobs st) Hnd
                  ltac:(by split_and!) Hw) as (Hnd1 & Hb1 & Hg1 & Hsub).
      destruct (while_ready_drains _ _ _ _ _ _ Hw) as [_ Hdrain].
      specialize (Hdrain eq_refl).
      assert (Hdone1 : ∀ j, j ∈ jobs st1 → stage j ∈ done →
                            name j ∈ completed_jobs st1).
      { intros j Hj Hs.
        destruct (graph_of_elem (jobs st) (jobs st1) j) as (j' & Hj' & Hn & Hs' & _);
          [congruence|done|].
        apply Hsub. rewrite <- Hn. apply Hdone; [done|]. by rewrite Hs'. }
      pose proof (stage_done policy js0 stages done rest stg rank st1
                    Hst Hsch Hnd1 Hb1 Hg1 Hdone1 Hdrain) as Hstage.
      apply (IH (done ++ [stg]) st1 st'); [done..| |done].
      intros j Hj [Hin|Hin]%elem_of_app; [by apply Hdone1|].
      apply list_elem_of_singleton in Hin. by apply Hstage.
Qed.

Lemma books_open_frame (policy : string) (st st' : State) (evs : list Event) :
  jobs st' = jobs st → completed_jobs st' = completed_jobs st →
  trace st' = trace st ++ evs →
  Forall (λ ev, event_job ev = None) evs →
  books_open policy st → books_open policy st'.
Proof.
  intros Hj Hc Ht Hevs (Hjobs & Hknown & Hcomp).
  assert (Hab : ∀ n, about n (trace st') = about n (trace st)).
  { intros n. by rewrite Ht, about_app, (about_nobody n evs), List.app_nil_r. }
  unfold books_open, job_fresh, job_done. rewrite Hj, Hc.
  split_and!.
  - intros j Hin. setoid_rewrite Hab. by apply Hjobs.
  - intros n. rewrite Hab. apply Hknown.
  - intros n. rewrite Hcomp, Ht, elem_of_app. split; [auto|].
    intros [?|Hin]; [done|]. rewrite Forall_forall in Hevs.
    by specialize (Hevs _ Hin).
Qed.

(** What the books say of a job of the completed-set. *)
Lemma open_status (policy : string) (st : State) (j : Job) :
  books_open policy st → j ∈ jobs st → name j ∈ completed_jobs st →
  (status j = success ∧ ∀ e, EvFailed (name j) e ∉ trace st)
  ∨ (policy = "continue" ∧ status j = failed
     ∧ ∃ e, EvFailed (name j) e ∈ trace st).
Proof.
  intros (Hjobs & _) Hj Hc.
  destruct (Hjobs j Hj) as [(_ & _ & ?)|(o & (Ha & Hs & _) & Hr)]; [done|].
  assert (Hin : ∀ ev, ev ∈ events_of policy (name j) o → ev ∈ trace st).
  { intros ev. rewrite <- Ha. by intros [_ ?]%elem_of_about. }
  assert (Hout : ∀ e, EvFailed (name j) e ∈ trace st →
                      EvFailed (name j) e ∈ events_of policy (name j) o).
  { intros e He. rewrite <- Ha. by apply elem_of_about. }
  destruct o as [|e|e]; simpl in *.
  - left. split; [done|]. intros e He%Hout.
    rewrite !elem_of_cons, elem_of_nil in He. naive_solver.
  - right. destruct (is_continue policy) eqn:Hco; [|done].
    apply bool_decide_eq_true in Hco. split; [done|]. split; [done|].
    exists e. apply Hin. rewrite !elem_of_cons. auto 10.
  - right. destruct (is_continue policy) eqn:Hco; [|done].
    apply bool_decide_eq_true in Hco. split; [done|]. split; [done|].
    exists e. apply Hin. rewrite !elem_of_cons. auto 10.
Qed.

Lemma run_pipeline_live (fuel : nat) (cfg : PipelineConfig)
    (duckdb_con : option Handle) (st0 st : State) (rank : string → nat) :
  NoDup (map fst (jobs_config cfg)) →
  schedulable (stages_list cfg) (create_jobs cfg) rank →
  jobs st0 = [] → completed_jobs st0 = ∅ →
  Forall (λ ev, event_job ev = None) (trace st0) →
  run_pipeline fuel cfg duckdb_con st0 = Some (Ok (), st) →
  job_names (jobs st) = map fst (jobs_config cfg)
  ∧ books_open (on_error cfg) st
  ∧ ∀ j, j ∈ jobs st → name j ∈ completed_jobs st.
Proof.
  intros Hnd Hsch Hj0 Hc0 Ht0 H.
  assert (Hab : ∀ n, about n (trace st0) = [])
    by (intros n; by apply about_nobody).
  assert (Hnc : ∀ n, EvCompleted n ∉ trace st0).
  { intros n Hin. rewrite Forall_forall in Ht0. by specialize (Ht0 _ Hin). }
  apply run_pipeline_spec in H
    as [(Hcfg & _ & ->)|[(_ & e & _ & ? & _)|(_ & g & st2 & _ & Hfor & Hj & Hc & Ht)]];
    [|done|].
  - rewrite Hj0, Hcfg. split; [done|]. split.
    + split_and!.
      * rewrite Hj0. intros j Hin. by inversion Hin.
      * intros n. by rewrite Hab.
      * intros n. rewrite Hc0. split; [set_solver|]. intros Hin.
        by destruct (Hnc n).
    + intros j Hin. by inversion Hin.
  - apply (for_stages_live _ _ (create_jobs cfg) _ rank Hsch _ []) in Hfor
      as (Hnd2 & Hb2 & Hg2 & Hall); [|done| | |done|].
    + split_and!.
      * rewrite Hj, <- graph_of_names, Hg2, graph_of_names.
        apply job_names_create.
      * apply (books_open_frame _ st2 st []);
          [done|done|by rewrite List.app_nil_r|done|done].
      * rewrite Hj, Hc. intros j Hin. apply Hall; [done|].
        destruct (graph_of_elem (create_jobs cfg) (jobs st2) j (eq_sym Hg2) Hin)
          as (j0 & Hin0 & _ & <- & _).
        by destruct (Hsch j0 Hin0).
    + simpl. by rewrite job_names_create.
    + split_and!; simpl.
      * intros j Hin. left. unfold job_fresh. simpl.
        split_and!; [apply Hab|by eapply created_pending|set_solver].
      * intros n. by rewrite Hab.
      * intros n. split; [set_solver|]. intros Hin. by destruct (Hnc n).
    + simpl. intros j _ Hin. by inversion Hin.
Qed.

Lemma orchestrator_live (fuel : nat) (cfg : PipelineConfig) (w : World)
    (st : State) (rank : string → nat) :
  NoDup (map fst (jobs_config cfg)) →
  schedulable (stages_list cfg) (create_jobs cfg) rank →
  orchestrator fuel cfg w = Some (Ok (), st) →
  job_names (jobs st) = map fst (jobs_config cfg)
  ∧ ∀ j, j ∈ jobs st →
      name j ∈ completed_jobs st
      ∧ ((status j = success ∧ ∀ e, EvFailed (name j) e ∉ trace st)
         ∨ (on_error cfg = "continue" ∧ status j = failed
            ∧ ∃ e, EvFailed (name j) e ∈ trace st)).
Proof.
  intros Hnd Hsch H.
  apply orchestrator_spec in H
    as [(e & _ & ?)|(eng & con & st0 & r1 & st1 & rc & Ho & Hr & Hc & Hrr)];
    [done|].
  destruct rc as [[]|e]; [|done]. subst r1.
  apply open_database_spec in Ho as (Hj0 & Hc0 & Ht0).
  apply run_pipeline_live with (rank := rank) in Hr
    as (Hnames & Hb & Hall); [|done..|].
  - apply cleanup_spec in Hc as (Hj2 & Hc2 & Ht2).
    assert (books_open (on_error cfg) st) as Hb'.
    { eapply books_open_frame; [done|done|exact Ht2| |done].
      destruct (cleanup_action eng con); by repeat constructor. }
    rewrite Hj2. split; [done|]. intros j Hj.
    assert (name j ∈ completed_jobs st) as Hin
      by (rewrite Hc2; by apply Hall).
    split; [done|]. apply open_status; [done|by rewrite Hj2|done].
  - destruct (warehouse cfg).
    + destruct Ht0 as (e & _ & ->). simpl. by repeat constructor.
    + by destruct Ht0 as (_ & _ & ->).
Qed.

End LiveRun.

(** *** Where an exception of a run comes from *)

Section Exceptions.
Context `{P : Plugins}.

Lemma for_stages_continue (fuel : nat) (policy : string)
    (stages : list string) (st : State) (r : result unit) (st' : State) :
  is_continue policy = true →
  for_stages fuel policy stages st = Some (r, st') → r = Ok ().
Proof.
  intros Hcont H.
  apply (for_stages_trace policy (λ _, True) (λ _ _, False)) in H;
    [by destruct r as [[]|e]| | |done].
  - done.
  - intros tr n o _. destruct o; simpl; by rewrite ?Hcont.
Qed.

Lemma cleanup_raises (db_engine : option Engine) (duckdb_con : option Handle)
    (st : State) (e : exn) (st' : State) :
  (db_engine = None → duckdb_con = None) →
  cleanup db_engine duckdb_con st = (Raise e, st') →
  ∃ eng h w0 w1, db_engine = Some eng ∧ duckdb_con = Some h
                 ∧ engine_close eng h w0 = (Raise e, w1).
Proof.
  intros Hnone. unfold cleanup, cleanup_action.
  destruct db_engine as [eng|], duckdb_con as [h|]; try done.
  - intros H.
    apply bind_inv in H as [([] & st1 & H1 & H)|(e' & H1 & _)];
      rewrite emit_eq in H1; [|done].
    injection H1 as <-. unfold call in H. simpl in H.
    destruct (engine_close eng h (world st)) as [r w1] eqn:Hc.
    injection H as -> _. by exists eng, h, (world st), w1.
  - by specialize (Hnone eq_refl).
Qed.

Lemma open_database_pair (cfg : PipelineConfig) (st : State)
    (db_engine : option Engine) (duckdb_con : option Handle) (st' : State) :
  open_database cfg st = (Ok (db_engine, duckdb_con), st') →
  db_engine = None → duckdb_con = None.
Proof.
  intros H. apply open_database_spec in H as (_ & _ & H).
  destruct (warehouse cfg).
  - by destruct H as (eng & -> & _).
  - by destruct H as (_ & -> & _).
Qed.

Lemma run_exceptions (fuel : nat) (cfg : PipelineConfig) (w : World)
    (e : exn) (st : State) :
  orchestrator fuel cfg w = Some (Raise e, st) →
  (∃ st0, open_database cfg (initial_state w) = (Raise e, st0))
  ∨ _build_graph (create_jobs cfg) = Raise e
  ∨ (∃ eng h w0 w1, engine_close eng h w0 = (Raise e, w1))
  ∨ (on_error cfg ≠ "continue" ∧ ∃ n, EvFailed n e ∈ trace st).
Proof.
  intros H.
  apply orchestrator_spec in H
    as [(e' & Ho & [= ->])|(eng & con & st0 & r1 & st1 & rc & Ho & Hr & Hc & Hrr)].
  { left. by exists st. }
  right. destruct rc as [[]|e'].
  - subst r1.
    apply run_pipeline_spec in Hr
      as [(_ & ? & _)|[(_ & e' & ? & [= ->] & _)|(_ & g & st2 & _ & Hfor & _ & _ & Ht)]];
      [done|by left|].
    right. right.
    destruct (decide (on_error cfg = "continue")) as [Hpol|Hpol].
    { apply for_stages_continue in Hfor; [done|]. by rewrite Hpol. }
    split; [done|].
    apply failures_for_stages in Hfor as (pre & n & Htr & _).
    + exists n. apply cleanup_spec in Hc as (_ & _ & ->).
      rewrite Ht, Htr, !elem_of_app, list_elem_of_singleton. auto.
    + by apply bool_decide_eq_false_2.
    + simpl. apply open_database_spec in Ho as (_ & _ & Ht0).
      destruct (warehouse cfg).
      * by destruct Ht0 as (e0 & _ & ->).
      * by destruct Ht0 as (_ & _ & ->).
  - injection Hrr as ->. right. left.
    apply cleanup_raises in Hc as (eng' & h & w0 & w1 & _ & _ & ?).
    + by exists eng', h, w0, w1.
    + by eapply open_database_pair.
Qed.

End Exceptions.

Section Processors.
Context `{P : Plugins}.

(** A chain of processors is run from left to right: the second part of a
    list works on what the first part returned, and not at all when the
    first part dropped the table. *)
Lemma process_chain_app (ps qs : list proc_desc) (df : DataFrame) (st : State) :
  process_chain (ps ++ qs) df st
  = match process_chain ps df st with
    | (Ok (Some df'), st1) => process_chain qs df' st1
    | (Ok None, st1) => (Ok None, st1)
    | (Raise e, st1) => (Raise e, st1)
    end.
Proof.
  revert df st. induction ps as [|pd ps IH]; intros df st; [done|].
  simpl. destruct (_normalize_processor pd) as [proc_name proc_opts].
  destruct (nonempty proc_name); [|apply IH].
  destruct (PROCESSORS proc_name) as [processor|]; [|done].
  unfold mbind, M_bind.
  destruct (processor proc_opts df (world st)) as [[df'| | |e] w];
    [apply IH|done..].
Qed.

Lemma apply_processors_app (table : Table) (ps qs : list proc_desc)
    (st : State) :
  _apply_processors table (ps ++ qs) st
  = match _apply_processors table ps st with
    | (Ok (Some t), st1) => _apply_processors t qs st1
    | (Ok None, st1) => (Ok None, st1)
    | (Raise e, st1) => (Raise e, st1)
    end.
Proof.
  unfold _apply_processors, mbind, M_bind. rewrite process_chain_app.
  by destruct (process_chain ps (t_df table) st) as [[[df|]|e] st1].
Qed.

Lemma apply_processors_keeps (table : Table) (ps : list proc_desc)
    (st : State) (t : Table) (st1 : State) :
  _apply_processors table ps st = (Ok (Some t), st1) →
  t_name t = t_name table ∧ t_meta t = t_meta table.
Proof.
  unfold _apply_processors, mbind, M_bind.
  destruct (process_chain ps (t_df table) st) as [[[df|]|e] st1']; [|done..].
  by intros [= <- _].
Qed.

End Processors.

End SchedFacts.

(** ** The dependency graph and the topological sort *)

Module TopoFacts.
Import Text Py Expand Dag Sched Topo.
Import DagFacts SchedFacts.

Lemma add_edges_content (keys : list string) (jname : string)
    (deps : list string) (graph graph' : gmap string (gset string)) :
  add_edges keys jname deps graph = Ok graph' →
  ∀ d, (∀ n, n ∈ dependents graph' d ↔
             n ∈ dependents graph d ∨ (n = jname ∧ d ∈ deps))
       ∧ (is_Some (graph' !! d) ↔ is_Some (graph !! d) ∨ d ∈ deps).
Proof.
  revert graph. induction deps as [|dep deps IH]; intros graph; simpl.
  - intros [= <-] d. split; [intros n|]; rewrite elem_of_nil; naive_solver.
  - case_bool_decide as Hd; [|done]. intros H d.
    destruct (IH _ H d) as [Hn Hk]. split.
    + intros n. rewrite Hn, elem_of_cons. unfold dependents.
      destruct (decide (d = dep)) as [->|Hne].
      * rewrite lookup_insert_eq. simpl.
        rewrite elem_of_union, elem_of_singleton. naive_solver.
      * rewrite lookup_insert_ne by done. naive_solver.
    + rewrite Hk, elem_of_cons.
      destruct (decide (d = dep)) as [->|Hne].
      * rewrite lookup_insert_eq. naive_solver.
      * rewrite lookup_insert_ne by done. naive_solver.
Qed.

Lemma build_from_content (keys : list string) (todo : list Job)
    (graph graph' : gmap string (gset string)) :
  build_from keys todo graph = Ok graph' →
  ∀ d, (∀ n, n ∈ dependents graph' d ↔
             n ∈ dependents graph d
             ∨ ∃ job, job ∈ todo ∧ name job = n ∧ d ∈ depends_on job)
       ∧ (is_Some (graph' !! d) ↔
          is_Some (graph !! d) ∨ ∃ job, job ∈ todo ∧ d ∈ depends_on job).
Proof.
  revert graph. induction todo as [|job todo IH]; intros graph; simpl.
  - intros [= <-] d. split; [intros n|]; split; auto.
    + intros [?|(j & Hj & _)]; [done|by inversion Hj].
    + intros [?|(j & Hj & _)]; [done|by inversion Hj].
  - destruct (add_edges keys (name job) (depends_on job) graph) as [g1|e] eqn:Ha;
      [|done].
    intros H d. destruct (IH _ H d) as [Hn Hk].
    destruct (add_edges_content _ _ _ _ _ Ha d) as [Hn1 Hk1]. split.
    + intros n. rewrite Hn, Hn1. split.
      * intros [[?|[-> ?]]|(j & Hj & ? & ?)]; [by left| |].
        -- right. exists job. split; [left|]; done.
        -- right. exists j. split; [by right|done].
      * intros [?|(j & Hj & Hjn & Hjd)]; [by left; left|].
        apply elem_of_cons in Hj as [->|Hj]; [by left; right|].
        right. by exists j.
    + rewrite Hk, Hk1. split.
      * intros [[?|?]|(j & Hj & ?)]; [by left| |].
        -- right. exists job. split; [left|]; done.
        -- right. exists j. split; [by right|done].
      * intros [?|(j & Hj & Hjd)]; [by left; left|].
        apply elem_of_cons in Hj as [->|Hj]; [by left; right|].
        right. by exists j.
Qed.

Lemma build_graph_content (jobs : list Job) (graph : gmap string (gset string)) :
  _build_graph jobs = Ok graph →
  ∀ dep, (∀ n, n ∈ dependents graph dep ↔
               ∃ job, job ∈ jobs ∧ name job = n ∧ dep ∈ depends_on job)
         ∧ (is_Some (graph !! dep) ↔
            ∃ job, job ∈ jobs ∧ dep ∈ depends_on job).
Proof.
  intros H dep. destruct (build_from_content _ _ _ _ H dep) as [Hn Hk]. split.
  - intros n. rewrite Hn. unfold dependents. rewrite lookup_empty. simpl.
    set_solver.
  - rewrite Hk, lookup_empty. split; [|auto].
    intros [[? ?]|?]; done.
Qed.

Lemma count_deps_graph (stage_jobs : list string) (job_name : string)
    (deps : list string) (acc : gmap string (list string) * gmap string Z)
    (d : string) :
  default [] ((count_deps stage_jobs job_name deps acc).1 !! d)
  = default [] (acc.1 !! d)
    ++ map (λ _, job_name)
         (filter (λ x, x = d) (filter (λ x, x ∈ stage_jobs) deps)).
Proof.
  revert acc. induction deps as [|dep deps IH]; intros acc; simpl.
  - by rewrite List.app_nil_r.
  - rewrite filter_cons. case_bool_decide as Hd.
    + rewrite decide_True by done. rewrite IH. simpl.
      rewrite filter_cons.
      destruct (decide (dep = d)) as [->|Hne].
      * rewrite lookup_insert_eq. simpl. by rewrite <- List.app_assoc.
      * by rewrite lookup_insert_ne.
    + rewrite decide_False by done. apply IH.
Qed.

Section Kahn.
Variable jobs : list Job.
Variable stg : string.

#[local] Abbreviation SJ := (stage_job_names jobs stg).
#[local] Abbreviation sdeps := (stage_deps jobs stg).
#[local] Abbreviation arr := (arrows jobs stg).

Lemma in_degrees_spec (todo : list string)
    (acc : gmap string (list string) * gmap string Z) :
  NoDup todo →
  (∀ k, (in_degrees jobs SJ todo acc).2 !! k
        = (λ z, z + Z.of_nat (if decide (k ∈ todo) then length (sdeps k) else 0))%Z
            <$> acc.2 !! k)
  ∧ (∀ d, default [] ((in_degrees jobs SJ todo acc).1 !! d)
          = default [] (acc.1 !! d) ++ flat_map (arr d) todo).
Proof.
  revert acc. induction todo as [|n todo IH]; intros acc Hnd.
  - split.
    + intros k. simpl. destruct (acc.2 !! k); simpl; f_equal; lia.
    + intros d. simpl. by rewrite List.app_nil_r.
  - apply NoDup_cons in Hnd as [Hn Hnd]. simpl.
    destruct (lookup_job jobs n) as [job|] eqn:Hl.
    + destruct (IH (count_deps SJ n (depends_on job) acc) Hnd) as [Hdeg Hg].
      assert (Hs : sdeps n = filter (λ d, d ∈ SJ) (depends_on job))
        by (unfold stage_deps; by rewrite Hl).
      split.
      * intros k. rewrite Hdeg, count_deps_in_degree, lookup_alter.
        destruct (decide (n = k)) as [->|Hne].
        -- rewrite decide_False by done. rewrite decide_True by left.
           rewrite Hs. destruct (acc.2 !! k); simpl; f_equal; lia.
        -- destruct (decide (k ∈ todo)) as [Hk|Hk].
           ++ by rewrite decide_True by (by right).
           ++ rewrite decide_False; [done|].
              intros [?|?]%elem_of_cons; congruence.
      * intros d. rewrite Hg, count_deps_graph, <- List.app_assoc.
        unfold arrows at 2. by rewrite Hs.
    + destruct (IH acc Hnd) as [Hdeg Hg].
      assert (Hs : sdeps n = []) by (unfold stage_deps; by rewrite Hl).
      split.
      * intros k. rewrite Hdeg.
        destruct (decide (n = k)) as [->|Hne].
        -- rewrite decide_False by done. rewrite decide_True by left.
           by rewrite Hs.
        -- destruct (decide (k ∈ todo)) as [Hk|Hk].
           ++ by rewrite decide_True by (by right).
           ++ rewrite decide_False; [done|].
              intros [?|?]%elem_of_cons; congruence.
      * intros d. rewrite Hg. unfold arrows at 2. by rewrite Hs.
Qed.

Lemma cnt_cons_eq (v : string) (l : list string) : cnt v (v :: l) = S (cnt v l).
Proof. unfold cnt. by rewrite filter_cons, decide_True. Qed.

Lemma cnt_cons_ne (w v : string) (l : list string) :
  w ≠ v → cnt w (v :: l) = cnt w l.
Proof. intros. unfold cnt. by rewrite filter_cons, decide_False. Qed.

Lemma cnt_app (v : string) (l1 l2 : list string) :
  cnt v (l1 ++ l2) = cnt v l1 + cnt v l2.
Proof. unfold cnt. by rewrite filter_app, length_app. Qed.

Lemma cnt_arrows_self (u v : string) : cnt v (arr u v) = cnt u (sdeps v).
Proof.
  unfold arrows, cnt at 2.
  induction (filter (λ x, x = u) (sdeps v)) as [|x l IH]; [done|].
  simpl. by rewrite cnt_cons_eq, IH.
Qed.

Lemma cnt_arrows_other (u n v : string) : n ≠ v → cnt v (arr u n) = 0.
Proof.
  intros Hne. unfold arrows.
  induction (filter (λ x, x = u) (sdeps n)) as [|x l IH]; [done|].
  simpl. by rewrite cnt_cons_ne.
Qed.

Lemma cnt_flat (u v : string) (L : list string) :
  NoDup L →
  cnt v (flat_map (arr u) L) = if decide (v ∈ L) then cnt u (sdeps v) else 0.
Proof.
  induction L as [|n L IH]; intros Hnd.
  - destruct (decide (v ∈ [])) as [H|H]; [by inversion H|done].
  - apply NoDup_cons in Hnd as [Hn Hnd]. cbn [flat_map].
    rewrite cnt_app, IH by done.
    destruct (decide (n = v)) as [->|Hne].
    + rewrite cnt_arrows_self, decide_False by done.
      rewrite decide_True by left. lia.
    + rewrite cnt_arrows_other by done.
      destruct (decide (v ∈ L)) as [Hv|Hv].
      * by rewrite decide_True by (by right).
      * rewrite decide_False; [done|]. intros [?|?]%elem_of_cons; congruence.
Qed.

Lemma elem_of_flat_arrows (u x : string) (L : list string) :
  x ∈ flat_map (arr u) L → x ∈ L.
Proof.
  induction L as [|n L IH]; simpl; [done|].
  intros [Hx|Hx]%elem_of_app; [|right; by apply IH].
  unfold arrows in Hx. apply list_elem_of_fmap in Hx as (? & -> & _). left.
Qed.

Lemma unresolved_zero (l r : list string) :
  unresolved l r = 0 ↔ ∀ d, d ∈ l → d ∈ r.
Proof.
  unfold unresolved. induction l as [|x l IH]; simpl.
  - split; [|done]. intros _ d Hd. by inversion Hd.
  - rewrite filter_cons. destruct (decide (x ∉ r)) as [Hx|Hx]; simpl.
    + split; [done|]. intros H. destruct Hx. apply H. left.
    + rewrite IH. apply dec_stable in Hx. split.
      * intros H d [->|Hd]%elem_of_cons; [done|by apply H].
      * intros H d Hd. apply H. by right.
Qed.

Lemma unresolved_snoc (l r : list string) (u : string) :
  u ∉ r → unresolved l r = unresolved l (r ++ [u]) + cnt u l.
Proof.
  intros Hu. unfold unresolved, cnt. induction l as [|x l IH]; [done|].
  rewrite !filter_cons.
  destruct (decide (x = u)) as [->|Hne].
  - rewrite decide_True by done.
    rewrite decide_False by (intros H; apply H; set_solver).
    simpl. lia.
  - destruct (decide (x ∉ r)) as [Hx|Hx].
    + rewrite decide_True by set_solver. simpl. lia.
    + rewrite decide_False; [done|]. intros H. apply Hx. set_solver.
Qed.


Lemma release_spec (result rest : list string) (deg : gmap string Z)
    (queue : list string) :
  release_inv jobs stg result deg queue rest →
  release_inv jobs stg result (release rest deg queue).1
    (release rest deg queue).2 [].
Proof.
  revert deg queue. induction rest as [|v rest IH]; intros deg queue HR; [done|].
  destruct HR as (Hnd & Hin & Hdeg & Hz).
  assert (Hv : v ∈ SJ).
  { apply Hin. apply elem_of_app. right. left. }
  simpl.
  set (deg' := alter (λ d, (d - 1)%Z) v deg).
  assert (Hdv : deg' !! v
                = Some (Z.of_nat (unresolved (sdeps v) result + cnt v rest))).
  { unfold deg'. rewrite lookup_alter_eq, (Hdeg v Hv), cnt_cons_eq. simpl.
    f_equal. lia. }
  assert (Hdw : ∀ w, w ∈ SJ → w ≠ v →
            deg' !! w
            = Some (Z.of_nat (unresolved (sdeps w) result + cnt w rest))).
  { intros w Hw Hne. unfold deg'.
    rewrite lookup_alter_ne by done. rewrite (Hdeg w Hw).
    by rewrite cnt_cons_ne. }
  assert (Hvq : v ∉ result ++ queue).
  { intros Hq. apply (Hz v Hv) in Hq. rewrite cnt_cons_eq in Hq. lia. }
  case_bool_decide as Hzero.
  - apply IH. rewrite Hdv in Hzero. injection Hzero as Hzero.
    assert (unresolved (sdeps v) result + cnt v rest = 0) as Hz0 by lia.
    split_and!.
    + rewrite List.app_assoc. apply NoDup_app. split; [done|].
      split; [|apply NoDup_singleton].
      intros x Hx ->%list_elem_of_singleton. done.
    + intros x. rewrite !elem_of_app, list_elem_of_singleton.
      intros [[?|[?| ->]]|?]; [| |done|];
        apply Hin; rewrite !elem_of_app, ?elem_of_cons; auto.
    + intros w Hw. destruct (decide (w = v)) as [->|Hne]; [done|by apply Hdw].
    + intros w Hw. rewrite List.app_assoc, elem_of_app, list_elem_of_singleton.
      destruct (decide (w = v)) as [->|Hne]; [by split; auto|].
      rewrite <- (Hz w Hw), cnt_cons_ne by done. naive_solver.
  - apply IH. rewrite Hdv in Hzero.
    assert (unresolved (sdeps v) result + cnt v rest ≠ 0) as Hz0.
    { intros E. apply Hzero. by rewrite E. }
    split_and!; [done| | |].
    + intros x Hx. apply Hin. rewrite elem_of_app in Hx |- *.
      destruct Hx as [?|?]; [by left|right; by right].
    + intros w Hw. destruct (decide (w = v)) as [->|Hne]; [done|by apply Hdw].
    + intros w Hw. destruct (decide (w = v)) as [->|Hne]; [by split|].
      by rewrite <- (Hz w Hw), cnt_cons_ne.
Qed.

Lemma release_start (stage_graph : gmap string (list string))
    (deg : gmap string Z) (u : string) (queue result : list string) :
  NoDup SJ →
  (∀ d, default [] (stage_graph !! d) = flat_map (arrows jobs stg d) SJ) →
  kahn_inv jobs stg deg (u :: queue) result →
  release_inv jobs stg (result ++ [u]) deg queue
    (default [] (stage_graph !! u)).
Proof.
  intros HndS Hg (Hnd & Hin & Hdeg & Hz & _).
  assert (Hu : u ∉ result).
  { apply NoDup_app in Hnd as (_ & Hd & _). intros Hr.
    apply (Hd u Hr). left. }
  assert (Heq : ∀ v, v ∈ SJ →
            unresolved (sdeps v) result
            = unresolved (sdeps v) (result ++ [u])
              + cnt v (default [] (stage_graph !! u))).
  { intros v Hv. rewrite Hg, cnt_flat, decide_True by done.
    by apply unresolved_snoc. }
  split_and!.
  - by rewrite <- List.app_assoc.
  - intros x. rewrite Hg, elem_of_app, <- List.app_assoc. simpl.
    intros [Hx|Hx]; [by apply Hin|]. by eapply elem_of_flat_arrows.
  - intros v Hv. by rewrite <- Heq, Hdeg.
  - intros v Hv. rewrite <- Heq by done. rewrite <- List.app_assoc. simpl.
    by apply Hz.
Qed.

Lemma release_end (deg deg' : gmap string Z) (u : string)
    (queue queue' result : list string) :
  kahn_inv jobs stg deg (u :: queue) result →
  release_inv jobs stg (result ++ [u]) deg' queue' [] →
  kahn_inv jobs stg deg' queue' (result ++ [u]).
Proof.
  intros (Hnd & Hin & _ & Hz & Hord) (Hnd' & Hin' & Hdeg' & Hz').
  split_and!; [done| | | |].
  - intros x Hx. apply Hin'. by rewrite List.app_nil_r.
  - intros v Hv. rewrite (Hdeg' v Hv). do 2 f_equal. unfold cnt. simpl. lia.
  - intros v Hv. rewrite <- (Hz' v Hv). unfold cnt. simpl. lia.
  - intros pre n post Heq d Hd.
    destruct (decide (post = [])) as [->|Hpost].
    + apply app_inj_tail in Heq as [<- <-].
      assert (u ∈ SJ) as Hu by (apply Hin; set_solver).
      apply (unresolved_zero (sdeps u) result); [|done].
      apply Hz; [done|]. set_solver.
    + destruct (exists_last Hpost) as (post' & x & ->).
      rewrite List.app_comm_cons, List.app_assoc in Heq.
      apply app_inj_tail in Heq as [Heq _].
      by eapply Hord.
Qed.

Lemma kahn_spec (stage_graph : gmap string (list string)) (fuel : nat)
    (deg : gmap string Z) (queue result : list string) :
  NoDup SJ →
  (∀ d, default [] (stage_graph !! d) = flat_map (arrows jobs stg d) SJ) →
  kahn_inv jobs stg deg queue result →
  length SJ ≤ fuel + length result →
  ∃ out deg', kahn fuel stage_graph deg queue result = Some out
              ∧ kahn_inv jobs stg deg' [] out.
Proof.
  intros HndS Hg. revert deg queue result.
  induction fuel as [|fuel IH]; intros deg queue result HI Hlen.
  - destruct queue as [|u queue]; [by exists result, deg|].
    exfalso. destruct HI as (Hnd & Hin & _).
    assert (length (result ++ u :: queue) ≤ length SJ) as Hle.
    { apply submseteq_length, NoDup_submseteq; [done|]. intros x. apply Hin. }
    rewrite length_app in Hle. simpl in *. lia.
  - destruct queue as [|u queue]; [by exists result, deg|].
    simpl.
    pose proof (release_spec _ _ _ _ (release_start _ _ _ _ _ HndS Hg HI)) as HR.
    destruct (release (default [] (stage_graph !! u)) deg queue)
      as [deg' queue'] eqn:Hrel.
    apply (IH deg' queue').
    + by eapply release_end.
    + rewrite length_app. simpl. lia.
Qed.

End Kahn.

Section KahnTop.
Variable jobs : list Job.
Variable stg : string.
Hypothesis Hnd : NoDup (job_names jobs).

#[local] Abbreviation SJ := (stage_job_names jobs stg).
#[local] Abbreviation sdeps := (stage_deps jobs stg).

Lemma zero_map_lookup (L : list string) (k : string) :
  k ∈ L →
  (list_to_map (map (λ j, (j, 0%Z)) L) : gmap string Z) !! k = Some 0%Z.
Proof.
  induction L as [|x L IH]; [by intros ?%elem_of_nil|].
  simpl. destruct (decide (x = k)) as [->|Hne].
  - by rewrite lookup_insert_eq.
  - intros [?|?]%elem_of_cons; [congruence|].
    rewrite lookup_insert_ne by done. by apply IH.
Qed.

Lemma unresolved_nil (l : list string) : unresolved l [] = length l.
Proof.
  unfold unresolved. induction l as [|x l IH]; [done|].
  rewrite filter_cons, decide_True by (by intros ?%elem_of_nil).
  rewrite !length_cons. by rewrite IH.
Qed.

Lemma stage_deps_job (job : Job) :
  job ∈ jobs →
  sdeps (name job) = filter (λ d, d ∈ SJ) (depends_on job).
Proof.
  intros Hj. unfold stage_deps. by rewrite (lookup_job_unique jobs job Hnd Hj).
Qed.

Lemma stage_job_elem (n : string) :
  n ∈ SJ ↔ ∃ job, job ∈ jobs ∧ stage job = stg ∧ name job = n.
Proof.
  unfold stage_job_names. rewrite list_elem_of_fmap. split.
  - intros (job & -> & [? ?]%list_elem_of_filter). by exists job.
  - intros (job & ? & ? & <-). exists job. split; [done|].
    by apply list_elem_of_filter.
Qed.

Lemma topo_init (stage_graph : gmap string (list string))
    (in_degree : gmap string Z) :
  in_degrees jobs SJ SJ (∅, list_to_map (map (λ j, (j, 0%Z)) SJ))
  = (stage_graph, in_degree) →
  (∀ d, default [] (stage_graph !! d) = flat_map (arrows jobs stg d) SJ)
  ∧ kahn_inv jobs stg in_degree
      (filter (λ j, in_degree !! j = Some 0%Z) SJ) [].
Proof.
  intros Hin.
  pose proof (stage_names_NoDup jobs stg Hnd) as HndS.
  destruct (in_degrees_spec jobs stg SJ
              (∅, list_to_map (map (λ j, (j, 0%Z)) SJ)) HndS) as [Hdeg Hg].
  rewrite Hin in Hdeg, Hg. simpl in Hdeg, Hg.
  assert (Hd : ∀ v, v ∈ SJ →
            in_degree !! v = Some (Z.of_nat (unresolved (sdeps v) []))).
  { intros v Hv. rewrite Hdeg, zero_map_lookup by done.
    rewrite decide_True by done. by rewrite unresolved_nil. }
  split.
  - intros d. by rewrite Hg, lookup_empty.
  - split_and!; simpl.
    + by apply NoDup_filter.
    + intros x Hx. by apply list_elem_of_filter in Hx as [_ ?].
    + done.
    + intros v Hv. rewrite list_elem_of_filter, (Hd v Hv). split.
      * intros ->. by split.
      * intros [[= E] _]. lia.
    + intros pre n post H. by destruct pre.
Qed.

Lemma kahn_partial (stage_graph : gmap string (list string)) (fuel : nat)
    (deg : gmap string Z) (queue result out : list string) :
  (∀ d, default [] (stage_graph !! d) = flat_map (arrows jobs stg d) SJ) →
  kahn_inv jobs stg deg queue result →
  kahn fuel stage_graph deg queue result = Some out →
  ∃ deg', kahn_inv jobs stg deg' [] out.
Proof.
  intros Hg. pose proof (stage_names_NoDup jobs stg Hnd) as HndS.
  revert deg queue result.
  induction fuel as [|fuel IH]; intros deg queue result HI;
    destruct queue as [|u queue]; simpl; try done.
  - intros [= <-]. by exists deg.
  - intros [= <-]. by exists deg.
  - pose proof (release_spec _ _ _ _ _ _
                  (release_start _ _ _ _ _ _ _ HndS Hg HI)) as HR.
    destruct (release (default [] (stage_graph !! u)) deg queue)
      as [deg' queue'] eqn:Hrel.
    apply (IH deg' queue'). by eapply release_end.
Qed.

(** The jobs of the stage that the loop has output are all of them once
    the queue is empty, provided the dependencies form no cycle. *)
Lemma kahn_complete (deg : gmap string Z) (out : list string) :
  stage_acyclic jobs stg →
  kahn_inv jobs stg deg [] out → ∀ n, n ∈ SJ → n ∈ out.
Proof.
  intros [rank Hrank] (_ & _ & _ & Hz & _).
  assert (Hind : ∀ k n, rank n < k → n ∈ SJ → n ∈ out).
  { induction k as [|k IH]; intros n Hk Hn; [lia|].
    rewrite <- (List.app_nil_r out). apply Hz; [done|].
    apply unresolved_zero. intros d Hd.
    apply stage_job_elem in Hn as (job & Hj & Hs & <-).
    rewrite stage_deps_job in Hd by done.
    apply list_elem_of_filter in Hd as [HdS Hd].
    apply IH; [|done]. specialize (Hrank job d Hj Hs Hd HdS). lia. }
  intros n Hn. apply (Hind (S (rank n))); [lia|done].
Qed.

End KahnTop.

Section KahnTheorems.
Variable jobs : list Job.
Variable stg : string.
Hypothesis Hnd : NoDup (job_names jobs).

#[local] Abbreviation SJ := (stage_job_names jobs stg).

Lemma stage_index_prefix (pre post : list string) (d : string) :
  d ∈ pre → ∃ i, stage_index (pre ++ post) d = Some i ∧ i < length pre.
Proof.
  induction pre as [|x pre IH]; [by intros ?%elem_of_nil|].
  simpl. case_bool_decide as Hx.
  - intros _. exists 0. split; [done|lia].
  - intros [?|Hd]%elem_of_cons; [congruence|].
    destruct (IH Hd) as (i & -> & Hi). exists (S i). split; [done|lia].
Qed.

Lemma topo_sound (fuel : nat) (order : list string) :
  topological_sort_within_stage fuel jobs stg = Some (Ok order) →
  order ≡ₚ SJ
  ∧ ∀ pre n post, order = pre ++ n :: post →
      ∀ job dep, job ∈ jobs → name job = n → dep ∈ depends_on job →
                 dep ∈ SJ → dep ∈ pre.
Proof.
  unfold topological_sort_within_stage. cbv zeta.
  destruct (in_degrees jobs SJ SJ _) as [stage_graph in_degree] eqn:Hin.
  destruct (topo_init jobs stg Hnd _ _ Hin) as [Hg HI].
  destruct (kahn fuel stage_graph in_degree _ []) as [out|] eqn:Hk; [|done].
  case_bool_decide as Hlen; [done|]. intros [= <-].
  destruct (kahn_partial jobs stg Hnd _ _ _ _ _ _ Hg HI Hk)
    as (deg' & Hnd' & Hsub & _ & _ & Hord).
  rewrite List.app_nil_r in Hnd', Hsub. split.
  - apply submseteq_length_Permutation; [|lia].
    by apply NoDup_submseteq.
  - intros pre n post Heq job dep Hj Hn Hd HdS.
    apply (Hord pre n post Heq). rewrite <- Hn, stage_deps_job by done.
    by apply list_elem_of_filter.
Qed.

Lemma topo_terminates (fuel : nat) :
  length SJ ≤ fuel →
  ∃ r, topological_sort_within_stage fuel jobs stg = Some r
       ∧ ∀ e, r = Raise e →
              e = ValueError ("Circular dependency detected in stage '"
                              +:+ stg +:+ "'").
Proof.
  intros Hfuel. unfold topological_sort_within_stage. cbv zeta.
  destruct (in_degrees jobs SJ SJ _) as [stage_graph in_degree] eqn:Hin.
  destruct (topo_init jobs stg Hnd _ _ Hin) as [Hg HI].
  destruct (kahn_spec jobs stg stage_graph fuel in_degree _ []
              (stage_names_NoDup jobs stg Hnd) Hg HI) as (out & deg' & -> & _).
  { simpl. lia. }
  case_bool_decide; eexists; (split; [done|]); [by intros e [= <-]|done].
Qed.

Lemma topo_acyclic (fuel : nat) :
  length SJ ≤ fuel → stage_acyclic jobs stg →
  ∃ order, topological_sort_within_stage fuel jobs stg = Some (Ok order).
Proof.
  intros Hfuel Hac. unfold topological_sort_within_stage. cbv zeta.
  destruct (in_degrees jobs SJ SJ _) as [stage_graph in_degree] eqn:Hin.
  destruct (topo_init jobs stg Hnd _ _ Hin) as [Hg HI].
  destruct (kahn_spec jobs stg stage_graph fuel in_degree _ []
              (stage_names_NoDup jobs stg Hnd) Hg HI) as (out & deg' & -> & HI').
  { simpl. lia. }
  pose proof (kahn_complete jobs stg Hnd deg' out Hac HI') as Hall.
  destruct HI' as (Hnd' & Hsub & _).
  rewrite List.app_nil_r in Hnd', Hsub.
  assert (out ≡ₚ SJ) as Hperm.
  { apply NoDup_Permutation; [done|by apply stage_names_NoDup|].
    intros x. split; [apply Hsub|apply Hall]. }
  rewrite bool_decide_eq_false_2; [by eexists|].
  intros Hne. apply Hne. by rewrite Hperm.
Qed.

Lemma topo_order_acyclic (fuel : nat) (order : list string) :
  topological_sort_within_stage fuel jobs stg = Some (Ok order) →
  stage_acyclic jobs stg.
Proof.
  intros H. destruct (topo_sound _ _ H) as [Hperm Hord].
  exists (λ n, default 0 (stage_index order n)).
  intros job dep Hj Hs Hd HdS.
  assert (name job ∈ order) as Hn.
  { rewrite Hperm. apply stage_job_elem. by exists job. }
  apply list_elem_of_split in Hn as (pre & post & Heq).
  assert (name job ∉ pre) as Hnpre.
  { assert (NoDup order) as Hno
      by (rewrite Hperm; by apply stage_names_NoDup).
    rewrite Heq in Hno. apply NoDup_app in Hno as (_ & Hno & _).
    intros Hin. apply (Hno _ Hin). left. }
  pose proof (Hord pre _ post Heq job dep Hj eq_refl Hd HdS) as Hpre.
  destruct (stage_index_prefix pre (name job :: post) dep Hpre) as (i & Hi & Hlt).
  rewrite Heq at 1. rewrite Hi. rewrite Heq.
  rewrite stage_index_first by done. simpl. lia.
Qed.

End KahnTheorems.

End TopoFacts.

(** ** The environment *)

Module VarsFacts.
Import Expand Vars.

Lemma build_env_app (pre post : list (string * var_value)) (env : Env) :
  build_env (pre ++ post) env = build_env post (build_env pre env).
Proof.
  revert env. induction pre as [|[k [s|r]] pre IH]; intros env; simpl; auto.
Qed.

Lemma build_env_other (vars : list (string * var_value)) (env : Env)
    (k : string) :
  k ∉ map fst vars → build_env vars env !! k = env !! k.
Proof.
  revert env. induction vars as [|[k' [s|r]] vars IH]; intros env; simpl;
    [done| |].
  - intros [Hne Hk]%not_elem_of_cons. rewrite IH by done.
    by rewrite lookup_insert_ne.
  - intros [Hne Hk]%not_elem_of_cons. rewrite IH by done.
    by rewrite lookup_insert_ne.
Qed.

Lemma build_env_entry (pre post : list (string * var_value)) (k : string)
    (value : var_value) (env : Env) :
  NoDup (map fst (pre ++ (k, value) :: post)) →
  build_env (pre ++ (k, value) :: post) env !! k
  = Some (var_entry value (build_env pre env)).
Proof.
  rewrite map_app. simpl. intros Hnd.
  apply NoDup_app in Hnd as (_ & _ & [Hk _]%NoDup_cons).
  rewrite build_env_app. simpl.
  destruct value as [s|r]; simpl; rewrite build_env_other by done;
    by rewrite lookup_insert_eq.
Qed.

End VarsFacts.

(** ** Python's string methods *)

Module StrFacts.
Import Text Str TextFacts.

Lemma word_not_space (c : ascii) : is_word c = true → isspace c = false.
Proof. destruct c as [[] [] [] [] [] [] [] []]; by vm_compute. Qed.

Lemma word_digit (c : ascii) :
  is_word c = true →
  isdigit c = (Nat.leb 48 (nat_of_ascii c) && Nat.leb (nat_of_ascii c) 57).
Proof. destruct c as [[] [] [] [] [] [] [] []]; by vm_compute. Qed.

Lemma lstrip_word (s : string) : all_word s = true → lstrip s = s.
Proof.
  destruct s as [|c r]; [done|]. simpl. intros [Hc _]%andb_true_iff.
  by rewrite word_not_space.
Qed.

Lemma rstrip_word (s : string) : all_word s = true → rstrip s = s.
Proof.
  induction s as [|c r IH]; [done|]. simpl. intros [Hc Hr]%andb_true_iff.
  rewrite IH by done. destruct r; [|done]. by rewrite word_not_space.
Qed.

Lemma strip_word (s : string) : all_word s = true → strip s = s.
Proof. intros H. unfold strip. by rewrite lstrip_word, rstrip_word. Qed.

Lemma split_on_cons (sep : ascii) (s : string) :
  ∃ part parts, split_on sep s = part :: parts.
Proof.
  induction s as [|c r (part & parts & IH)]; simpl; [by eexists _, _|].
  destruct (Ascii.eqb c sep); [by eexists _, _|].
  rewrite IH. by eexists _, _.
Qed.

Lemma join_cons (sep part part' : string) (parts : list string) :
  join sep (part :: part' :: parts) = part +:+ sep +:+ join sep (part' :: parts).
Proof. reflexivity. Qed.

(** Joining the parts of a split gives the text back. *)
Lemma join_split (sep : ascii) (s : string) :
  join (String sep "") (split_on sep s) = s.
Proof.
  induction s as [|c r IH]; [done|]. simpl.
  destruct (split_on_cons sep r) as (part & parts & Hs).
  rewrite Hs in IH |- *.
  destruct (Ascii.eqb c sep) eqn:Hc.
  - apply Ascii.eqb_eq in Hc as ->. by rewrite join_cons, IH.
  - destruct parts as [|part' parts].
    + simpl in IH |- *. by rewrite IH.
    + rewrite join_cons in IH |- *. by rewrite <- IH.
Qed.

Lemma map_chars_all (f : ascii → ascii) (s : string) :
  (∀ c, is_word (f c) = true) → all_word (map_chars f s) = true.
Proof.
  intros Hf. induction s as [|c r IH]; [done|]. simpl. by rewrite Hf, IH.
Qed.

Lemma map_chars_id (f : ascii → ascii) (s : string) :
  (∀ c, is_word c = true → f c = c) → all_word s = true → map_chars f s = s.
Proof.
  intros Hf. induction s as [|c r IH]; [done|]. simpl.
  intros [Hc Hr]%andb_true_iff. by rewrite Hf, IH.
Qed.

End StrFacts.

(** ** Table names and the choice of an engine *)

Module EnginesFacts.
Import Text Str Py Dict Engines TextFacts StrFacts.

Lemma keep_word (c : ascii) : is_word (if is_word c then c else "_"%char) = true.
Proof. by destruct (is_word c) eqn:Hc. Qed.

Lemma identifier_word (s : string) : identifier s = true → all_word s = true.
Proof. destruct s as [|c r]; [done|]. by intros [? _]%andb_true_iff. Qed.

(** Whatever the name of a table, the sanitized name is an identifier. *)
Lemma sanitize_identifier (name : string) :
  identifier (_sanitize_name name) = true.
Proof.
  unfold _sanitize_name. destruct (nonempty name); [|done]. simpl.
  pose proof (map_chars_all (λ c, if is_word c then c else "_"%char)
                (strip name) keep_word) as Hall.
  destruct (map_chars _ (strip name)) as [|c r] eqn:Hs; [done|].
  simpl in Hall. destruct (isdigit c) eqn:Hd.
  - simpl. by rewrite Hall.
  - simpl. by rewrite Hall, Hd.
Qed.

(** An identifier is left as it is. *)
Lemma sanitize_fixed (name : string) :
  identifier name = true → _sanitize_name name = name.
Proof.
  intros Hid. pose proof (identifier_word _ Hid) as Hall.
  unfold _sanitize_name. destruct name as [|c r]; [done|].
  cbn [nonempty negb]. rewrite strip_word by done.
  rewrite map_chars_id; [|intros c' Hc'; by rewrite Hc'|done].
  apply andb_true_iff in Hid as [_ Hd]. apply negb_true_iff in Hd.
  by rewrite Hd.
Qed.

Lemma all_word_app (s t : string) :
  all_word (s +:+ t) = all_word s && all_word t.
Proof.
  induction s as [|c r IH]; [done|]. simpl. rewrite IH.
  by rewrite andb_assoc.
Qed.

Lemma identifier_app (s t : string) :
  identifier s = true → all_word t = true → identifier (s +:+ t) = true.
Proof.
  destruct s as [|c r]; [done|]. unfold identifier. simpl.
  intros [[Hc Hr]%andb_true_iff Hd]%andb_true_iff Ht.
  by rewrite Hc, all_word_app, Hr, Ht, Hd.
Qed.

(** *** Dictionaries *)

Lemma dict_get_set_eq {A : Type} (k : string) (v : A) (d : list (string * A)) :
  dict_get (dict_set k v d) k = Some v.
Proof.
  induction d as [|[k' v'] d IH]; simpl.
  - by rewrite bool_decide_eq_true_2.
  - case_bool_decide as Hk; simpl.
    + by rewrite bool_decide_eq_true_2.
    + by rewrite bool_decide_eq_false_2.
Qed.

Lemma dict_get_set_ne {A : Type} (k k' : string) (v : A)
    (d : list (string * A)) :
  k' ≠ k → dict_get (dict_set k v d) k' = dict_get d k'.
Proof.
  intros Hne. induction d as [|[k0 v0] d IH]; simpl.
  - by rewrite bool_decide_eq_false_2.
  - case_bool_decide as Hk; simpl.
    + subst. by rewrite !bool_decide_eq_false_2.
    + by rewrite IH.
Qed.

Lemma dict_get_elem {A : Type} (d : list (string * A)) (k : string) (v : A) :
  dict_get d k = Some v → (k, v) ∈ d.
Proof.
  induction d as [|[k' v'] d IH]; simpl; [done|].
  case_bool_decide as Hk.
  - intros [= ->]. subst. left.
  - intros H. right. by apply IH.
Qed.

Lemma dict_set_keys {A : Type} (k : string) (v : A) (d : list (string * A)) :
  map fst (dict_set k v d)
  = if bool_decide (k ∈ map fst d) then map fst d else map fst d ++ [k].
Proof.
  induction d as [|[k' v'] d IH]; [done|]. cbn [dict_set map fst].
  destruct (decide (k' = k)) as [->|Hk].
  - rewrite (bool_decide_eq_true_2 (k = k)) by done.
    by rewrite bool_decide_eq_true_2 by apply list_elem_of_here.
  - rewrite (bool_decide_eq_false_2 (k' = k)) by done. cbn [map fst].
    rewrite IH. destruct (decide (k ∈ map fst d)) as [Hin|Hin].
    + rewrite (bool_decide_eq_true_2 (k ∈ map fst d)) by done.
      by rewrite bool_decide_eq_true_2 by (by apply list_elem_of_further).
    + rewrite (bool_decide_eq_false_2 (k ∈ map fst d)) by done.
      rewrite bool_decide_eq_false_2; [done|].
      intros [?|?]%elem_of_cons; congruence.
Qed.

(** *** The choice of an engine *)

Lemma first_can_handle_elem (classes : list EngineClass) (config : DbConfig)
    (cls : EngineClass) :
  first_can_handle classes config = Some cls →
  cls ∈ classes ∧ ec_can_handle cls config = Ok true.
Proof.
  induction classes as [|c classes IH]; simpl; [done|].
  destruct (ec_can_handle c config) as [[]|e] eqn:Hc.
  - intros [= <-]. split; [left|done].
  - intros H. destruct (IH H). split; [by right|done].
  - intros H. destruct (IH H). split; [by right|done].
Qed.

Lemma first_can_handle_none (classes : list EngineClass) (config : DbConfig) :
  first_can_handle classes config = None →
  ∀ cls, cls ∈ classes → ec_can_handle cls config ≠ Ok true.
Proof.
  induction classes as [|c classes IH]; simpl.
  - intros _ cls Hin. by inversion Hin.
  - destruct (ec_can_handle c config) as [[]|e] eqn:Hc; [done| |];
      intros H cls [->|Hin]%elem_of_cons; try (by apply IH); congruence.
Qed.

Lemma pick_registered (reg : list (string * EngineClass)) (config : DbConfig)
    (cls : EngineClass) :
  pick_database_engine reg config = Ok cls → cls ∈ map snd reg.
Proof.
  unfold pick_database_engine. cbv zeta.
  destruct (dict_get reg _) as [c|] eqn:Hn.
  { intros [= <-]. apply dict_get_elem in Hn.
    apply list_elem_of_fmap. by exists (py_lower (strip (type_or_default config)), c). }
  destruct (first_can_handle _ config) as [c|] eqn:Hf.
  { intros [= <-]. by apply first_can_handle_elem in Hf as [? _]. }
  destruct (dict_get reg "duckdb") as [c|] eqn:Hd; [|done].
  intros [= <-]. apply dict_get_elem in Hd.
  apply list_elem_of_fmap. by exists ("duckdb", c).
Qed.

Lemma pick_with_duckdb (reg : list (string * EngineClass)) (config : DbConfig) :
  is_Some (dict_get reg "duckdb") →
  ∃ cls, pick_database_engine reg config = Ok cls.
Proof.
  intros [c Hd]. unfold pick_database_engine. cbv zeta. rewrite Hd.
  destruct (dict_get reg (py_lower _)) as [c1|]; [by eexists|].
  destruct (first_can_handle _ config) as [c2|]; by eexists.
Qed.

Lemma pick_by_name (reg : list (string * EngineClass)) (config : DbConfig)
    (cls : EngineClass) :
  dict_get reg (py_lower (strip (type_or_default config))) = Some cls →
  pick_database_engine reg config = Ok cls.
Proof. intros H. unfold pick_database_engine. cbv zeta. by rewrite H. Qed.

Lemma pick_raise (reg : list (string * EngineClass)) (config : DbConfig)
    (e : exn) :
  pick_database_engine reg config = Raise e →
  e = ValueError ("No database engine found for config: " +:+ cfg_repr config)
  ∧ dict_get reg "duckdb" = None
  ∧ ∀ cls, cls ∈ map snd reg → ec_can_handle cls config ≠ Ok true.
Proof.
  unfold pick_database_engine. cbv zeta.
  destruct (dict_get reg _) as [c|]; [done|].
  destruct (first_can_handle _ config) as [c|] eqn:Hf; [done|].
  destruct (dict_get reg "duckdb") as [c|]; [done|].
  intros [= <-]. split; [done|]. split; [done|].
  by apply first_can_handle_none.
Qed.

(** With the two engines of the repository registered, the choice depends
    on the normalised type only. *)
Lemma pick_builtin (config : DbConfig) :
  pick_database_engine builtin_engines config
  = Ok (if bool_decide (py_lower (strip (type_or_default config))
                        ∈ ["sqlite"; "sqlite3"])
        then SQLiteEngine else DuckDBEngine).
Proof.
  unfold pick_database_engine, builtin_engines, register_database_engine.
  cbv zeta. simpl.
  assert (Htext : type_or_default config ≠ "duckdb" →
                  type_text config = type_or_default config).
  { unfold type_text, type_or_default.
    destruct (cfg_type config) as [| |s]; [done|done|].
    by destruct s. }
  set (db := py_lower (strip (type_or_default config))) in *.
  case_bool_decide as H1.
  { subst db. rewrite <- H1.
    by rewrite bool_decide_eq_false_2 by (by rewrite !elem_of_cons, elem_of_nil;
                                           intros [?|[?|?]]). }
  case_bool_decide as H2.
  { rewrite <- H2. by rewrite bool_decide_eq_true_2 by left. }
  assert (Hdb : py_lower (strip (type_text config)) = db).
  { unfold db. rewrite Htext; [done|]. intros E. apply H1. unfold db.
    by rewrite E. }
  unfold duckdb_can_handle, sqlite_can_handle. cbv zeta. rewrite Hdb.
  clearbody db. clear Hdb Htext.
  case_bool_decide as H3.
  { rewrite bool_decide_eq_false_2; [done|].
    intros H5. set_unfold.
    destruct H3 as [?|[?|[?|[]]]], H5 as [?|[?|[]]]; simplify_eq. }
  by case_bool_decide.
Qed.

Lemma pick_after_register (reg : list (string * EngineClass))
    (config : DbConfig) (cls : EngineClass) :
  py_lower (strip (type_or_default config)) = ec_name cls →
  pick_database_engine (register_database_engine cls reg) config = Ok cls.
Proof.
  intros Hn. apply pick_by_name. rewrite Hn. apply dict_get_set_eq.
Qed.

(** *** The names of staged tables *)

Lemma sanitize_idempotent (name : string) :
  _sanitize_name (_sanitize_name name) = _sanitize_name name.
Proof. apply sanitize_fixed, sanitize_identifier. Qed.

Lemma full_table_plain (supports_schemas : bool) (table_name : string) :
  identifier (full_table supports_schemas "" table_name) = true.
Proof.
  unfold full_table, format_table_name. rewrite andb_false_r. simpl.
  apply sanitize_identifier.
Qed.

Lemma full_table_prefixed (schema table_name : string) :
  identifier schema = true →
  identifier (full_table false schema table_name) = true.
Proof.
  intros Hid. unfold full_table, format_table_name.
  destruct schema as [|c r]; [done|]. cbn [andb nonempty].
  apply identifier_app; [done|]. rewrite (all_word_app "_"). simpl.
  apply identifier_word, sanitize_identifier.
Qed.

Lemma full_table_qualified (schema table_name : string) :
  nonempty schema = true →
  ∃ table, identifier table = true
           ∧ full_table true schema table_name = schema +:+ "." +:+ table.
Proof.
  intros Hne. unfold full_table, format_table_name. rewrite Hne.
  eexists. split; [|done]. apply sanitize_identifier.
Qed.

End EnginesFacts.

(** ** Overrides and the dry-run validation *)

Module CliFacts.
Import Text Str Py Expand Dict Dag Run Cli StrFacts EnginesFacts DagFacts RunFacts.

Lemma split_on_nonempty (sep : ascii) (s : string) : split_on sep s ≠ [].
Proof. by destruct (split_on_cons sep s) as (part & parts & ->). Qed.

Lemma get_path_empty (parts : list string) : get_path parts [] = None.
Proof. by destruct parts as [|part [|part' rest]]. Qed.

Lemma get_set_path (parts : list string) (value : pyobj)
    (current : list (string * pyobj)) :
  parts ≠ [] → get_path parts (set_path parts value current) = Some value.
Proof.
  revert current. induction parts as [|part rest IH]; intros current Hne; [done|].
  destruct rest as [|part' rest].
  - simpl. apply dict_get_set_eq.
  - cbn [set_path get_path]. rewrite dict_get_set_eq. by apply IH.
Qed.

Lemma set_path_deep (part part' : string) (rest : list string) (value : pyobj)
    (current : list (string * pyobj)) :
  set_path (part :: part' :: rest) value current
  = dict_set part
      (PMapping (set_path (part' :: rest) value
                   match dict_get current part with
                   | Some (PMapping sub) => sub
                   | _ => []
                   end)) current.
Proof. done. Qed.

Lemma get_path_deep (part part' : string) (rest : list string)
    (current : list (string * pyobj)) :
  get_path (part :: part' :: rest) current
  = match dict_get current part with
    | Some (PMapping sub) => get_path (part' :: rest) sub
    | _ => None
    end.
Proof. done. Qed.

Lemma set_path_frame (common : list string) (a b : string)
    (p q : list string) (value : pyobj) (current : list (string * pyobj)) :
  a ≠ b →
  get_path (common ++ b :: q) (set_path (common ++ a :: p) value current)
  = get_path (common ++ b :: q) current.
Proof.
  intros Hab. revert current.
  induction common as [|part common IH]; intros current.
  - cbn [app]. destruct p as [|a' p], q as [|b' q]; cbn [set_path get_path];
      by rewrite dict_get_set_ne by done.
  - cbn [app].
    destruct (common ++ a :: p) as [|x xs] eqn:Ep;
      [by destruct common|].
    destruct (common ++ b :: q) as [|y ys] eqn:Eq;
      [by destruct common|].
    rewrite set_path_deep, !get_path_deep, dict_get_set_eq.
    rewrite IH.
    destruct (dict_get current part) as [[]|]; try apply get_path_empty. done.
Qed.

Lemma set_path_keys (parts : list string) (value : pyobj)
    (current : list (string * pyobj)) :
  map fst (set_path parts value current)
  = match parts with
    | [] => map fst current
    | part :: _ =>
        if bool_decide (part ∈ map fst current) then map fst current
        else map fst current ++ [part]
    end.
Proof.
  destruct parts as [|part [|part' rest]]; [done|..]; cbn [set_path];
    apply dict_set_keys.
Qed.

Lemma check_jobs_ok (stages runners : list string)
    (jobs : list (string * RawJob)) :
  check_jobs stages runners jobs = Ok ()
  ↔ ∀ job_name job_config, (job_name, job_config) ∈ jobs →
      (∃ s, rj_stage job_config = Some s ∧ s ∈ stages)
      ∧ (∃ r, rj_runner job_config = Some r ∧ r ∈ runners).
Proof.
  induction jobs as [|[n jc] rest IH]; simpl.
  - split; [|done]. intros _ ?? H. by apply elem_of_nil in H.
  - unfold check_job.
    destruct (rj_stage jc) as [s|] eqn:Hs.
    2: { split; [done|]. intros H.
         destruct (H n jc) as [(s & Hs' & _) _]; [left|]. congruence. }
    case_bool_decide as Hin.
    { split; [done|]. intros H.
      destruct (H n jc) as [(s' & Hs' & ?) _]; [left|]. congruence. }
    destruct (rj_runner jc) as [r|] eqn:Hr.
    2: { split; [done|]. intros H.
         destruct (H n jc) as [_ (r & Hr' & _)]; [left|]. congruence. }
    case_bool_decide as Hin'.
    { split; [done|]. intros H.
      destruct (H n jc) as [_ (r' & Hr' & ?)]; [left|]. congruence. }
    rewrite IH. split.
    + intros H n' jc' [[= -> ->]|Hrest]%elem_of_cons; [|by apply (H n' jc')].
      split; eauto.
    + intros H n' jc' Hrest. apply (H n' jc'). by right.
Qed.

Lemma check_deps_ok (job_names : list string) (job_name : string)
    (depends_on : list string) :
  check_deps job_names job_name depends_on = Ok ()
  ↔ ∀ dep, dep ∈ depends_on → dep ∈ job_names.
Proof.
  induction depends_on as [|dep rest IH]; simpl.
  - split; [|done]. intros _ ? H. by apply elem_of_nil in H.
  - case_bool_decide as Hin.
    + split; [done|]. intros H. destruct Hin. apply H. by left.
    + rewrite IH. split.
      * by intros H d [->|?]%elem_of_cons; [|apply H].
      * intros H d ?. apply H. by right.
Qed.

Lemma check_dependencies_ok (job_names : list string)
    (jobs : list (string * RawJob)) :
  check_dependencies job_names jobs = Ok ()
  ↔ ∀ job_name job_config, (job_name, job_config) ∈ jobs →
      ∀ dep, dep ∈ rj_depends_on job_config → dep ∈ job_names.
Proof.
  induction jobs as [|[n jc] rest IH]; simpl.
  - split; [|done]. intros _ ?? H. by apply elem_of_nil in H.
  - destruct (check_deps job_names n (rj_depends_on jc)) as [[]|e] eqn:Hc.
    + pose proof (proj1 (check_deps_ok _ _ _) Hc) as Hc'. rewrite IH. split.
      * by intros H n' jc' [[= -> ->]|?]%elem_of_cons; [|apply (H n' jc')].
      * intros H n' jc' ?. apply (H n' jc'). by right.
    + split; [done|]. intros H.
      assert (check_deps job_names n (rj_depends_on jc) = Ok ()) as Hok;
        [|congruence].
      apply check_deps_ok. apply (H n jc). by left.
Qed.

Lemma validate_ok (config : RawConfig) :
  _validate_pipeline config = Ok () ↔ well_formed config.
Proof.
  unfold _validate_pipeline, well_formed.
  destruct (rc_stages config) as [stages|];
    [|split; [done|by intros (? & ? & ? & ? & _)]].
  destruct (rc_jobs config) as [jobs|];
    [|split; [done|by intros (? & ? & ? & _ & ? & _)]].
  destruct (rc_runners config) as [runners|];
    [|split; [done|by intros (? & ? & ? & _ & _ & ? & _)]].
  destruct stages as [|stg stages];
    [split; [done|intros (? & ? & ? & [= <-] & _ & _ & ? & _); done]|].
  destruct jobs as [|job jobs];
    [split; [done|intros (? & ? & ? & _ & [= <-] & _ & _ & ? & _); done]|].
  destruct (check_jobs (stg :: stages) runners (job :: jobs)) as [[]|e] eqn:Hc.
  - rewrite check_dependencies_ok. rewrite check_jobs_ok in Hc. split.
    + intros Hd. exists (stg :: stages), (job :: jobs), runners.
      split_and!; [done..|]. intros n jc Hin.
      destruct (Hc n jc Hin) as [? ?]. split_and!; [done..|].
      by apply (Hd n jc).
    + intros (? & ? & ? & [= <-] & [= <-] & [= <-] & _ & _ & H) n jc Hin.
      by apply (H n jc).
  - split; [done|].
    intros (? & ? & ? & [= <-] & [= <-] & [= <-] & _ & _ & H).
    assert (check_jobs (stg :: stages) runners (job :: jobs) = Ok ()) as Hok;
      [|congruence].
    apply check_jobs_ok. intros n jc Hin. by destruct (H n jc Hin) as (? & ? & _).
Qed.

Lemma same_jobs_names (jobs : list (string * RawJob))
    (jobs_config : list (string * JobCfg)) :
  Forall2 same_job jobs jobs_config → map fst jobs = map fst jobs_config.
Proof.
  induction 1 as [|raw job ?? (Hn & _) _ IH]; [done|]. simpl. by rewrite Hn, IH.
Qed.

Lemma same_jobs_elem (jobs : list (string * RawJob))
    (jobs_config : list (string * JobCfg)) (job : string * JobCfg) :
  Forall2 same_job jobs jobs_config → job ∈ jobs_config →
  ∃ raw, raw ∈ jobs ∧ same_job raw job.
Proof.
  induction 1 as [|raw job' ?? Hs _ IH]; intros Hin.
  - by apply elem_of_nil in Hin.
  - apply elem_of_cons in Hin as [->|Hin].
    + exists raw. split; [left|]; done.
    + destruct (IH Hin) as (raw' & ? & ?). exists raw'. split; [right|]; done.
Qed.

Lemma validated_jobs (raw : RawConfig) (cfg : PipelineConfig) :
  same_file raw cfg → _validate_pipeline raw = Ok () →
  jobs_config cfg ≠ []
  ∧ ∀ job, job ∈ create_jobs cfg →
      stage job ∈ stages_list cfg
      ∧ is_Some (runner_types cfg !! runner job)
      ∧ Forall (λ dep, dep ∈ job_names (create_jobs cfg)) (depends_on job).
Proof.
  intros (Hstages & Hjobs & Hrunners) Hv.
  apply validate_ok in Hv
    as (stages & jobs & runners & Hs & Hj & Hr & _ & Hne & Hall).
  specialize (Hstages _ Hs). specialize (Hjobs _ Hj).
  specialize (Hrunners _ Hr). split.
  - intros E. rewrite E in Hjobs. by inversion Hjobs.
  - intros job Hin. unfold create_jobs in Hin.
    apply list_elem_of_fmap in Hin as ([n jc] & -> & Hin).
    destruct (same_jobs_elem _ _ _ Hjobs Hin)
      as ([n' rj] & Hraw & Hn & Hst & Hrn & Hdeps).
    simpl in Hn, Hst, Hrn, Hdeps. subst n'.
    destruct (Hall _ _ Hraw) as ((s & Hs' & Hsin) & (r & Hr' & Hrin) & Hd).
    simpl. split_and!.
    + rewrite (Hst _ Hs'). by rewrite Hstages.
    + rewrite (Hrn _ Hr'). by apply Hrunners.
    + fold (create_jobs cfg). rewrite job_names_create.
      rewrite <- (same_jobs_names _ _ Hjobs), <- Hdeps.
      apply Forall_forall. intros dep. apply Hd.
Qed.

End CliFacts.

(** ** What a job turn leaves alone *)

Module FlowFacts.
Import Text Py Expand Dag Run Sched Flow TextFacts DagFacts RunFacts SchedFacts.

Section Frames.
Context `{P : Plugins}.

Lemma dispatch_route (stg : string) (job : Job) :
  dispatch stg job
  = match route stg job with
    | Some KExtract => execute_extract_job job
    | Some KStage => execute_stage_job job
    | Some KTransform => execute_transform_job job
    | Some KLoad => execute_load_job job
    | None =>
        raise (ValueError ("Cannot determine job type for stage '" +:+ stg
                           +:+ "'. Runner '" +:+ runner job
                           +:+ "' has no 'type' field"))
    end.
Proof.
  unfold dispatch, route. cbv zeta.
  repeat (case_bool_decide; [done|]).
  repeat (match goal with
          | |- context [if ?c then _ else _] => destruct c; [done|]
          end).
  done.
Qed.

Section Keeps.
Context {X : Type}.
Variable g : State → X.
Hypothesis g_local : local g.
Hypothesis g_modify : ∀ st n f,
  (∀ j, statics (f j) = statics j) →
  g (mkState (update_job n f (jobs st)) (completed_jobs st)
       (in_memory_tables st) (exec_con st) (world st) (trace st)) = g st.

Lemma keeps_ret {A : Type} (a : A) : keeps g (mret a).
Proof. by intros st r st' [= <- <-]. Qed.

Lemma keeps_raise {A : Type} (e : exn) : keeps g (@raise _ A e).
Proof. by intros st r st' [= <- <-]. Qed.

Lemma keeps_bind {A B : Type} (m : M A) (k : A → M B) :
  keeps g m → (∀ a, keeps g (k a)) → keeps g (m ≫= k).
Proof.
  intros Hm Hk st r st' H.
  apply bind_inv in H as [(a & st1 & H1 & H2)|(e & H1 & ->)].
  - rewrite (Hk _ _ _ _ H2). by apply (Hm _ _ _ H1).
  - by apply (Hm _ _ _ H1).
Qed.

Lemma keeps_try {A : Type} (body : M A) (handler : exn → M A) :
  keeps g body → (∀ e, keeps g (handler e)) → keeps g (try_except body handler).
Proof.
  intros Hb Hh st r st' H.
  apply try_inv in H as [(a & H1 & ->)|(e & st1 & H1 & H2)].
  - by apply (Hb _ _ _ H1).
  - rewrite (Hh _ _ _ _ H2). by apply (Hb _ _ _ H1).
Qed.

Lemma keeps_call {A : Type} (f : World → result A * World) : keeps g (call f).
Proof.
  intros st r st'. unfold call. destruct (f (world st)) as [r' w].
  intros [= <- <-]. destruct st. apply g_local.
Qed.

Lemma keeps_emit (ev : Event) : keeps g (emit ev).
Proof. intros st r st' [= <- <-]. destruct st. apply g_local. Qed.

Lemma keeps_add_completed (job : Job) : keeps g (add_completed job).
Proof. intros st r st' [= <- <-]. destruct st. apply g_local. Qed.

Lemma keeps_get_tables : keeps g get_tables.
Proof. by intros st r st' [= <- <-]. Qed.

Lemma keeps_get_exec_con : keeps g get_exec_con.
Proof. by intros st r st' [= <- <-]. Qed.

Lemma keeps_modify_job (n : string) (f : Job → Job) :
  (∀ j, statics (f j) = statics j) → keeps g (modify_job n f).
Proof. intros Hf st r st' [= <- <-]. by apply g_modify. Qed.

Lemma keeps_set_status (job : Job) (s : Status) : keeps g (set_status job s).
Proof.
  apply keeps_bind; [by apply keeps_modify_job|]. intros _. apply keeps_emit.
Qed.

Lemma keeps_job_failed (job : Job) (e : exn) : keeps g (job_failed job e).
Proof.
  apply keeps_bind; [apply keeps_set_status|]. intros _.
  apply keeps_bind; [by apply keeps_modify_job|]. intros _.
  apply keeps_raise.
Qed.

Lemma keeps_process_chain (procs : list proc_desc) (df : DataFrame) :
  keeps g (process_chain procs df).
Proof.
  revert df. induction procs as [|pd procs IH]; intros df; simpl.
  - apply keeps_ret.
  - destruct (_normalize_processor pd) as [proc_name proc_opts].
    destruct (nonempty proc_name); [|apply IH].
    destruct (PROCESSORS proc_name) as [processor|]; [|apply keeps_raise].
    apply keeps_bind.
    + intros st r st'. destruct (processor proc_opts df (world st)) as [o w].
      intros [= <- <-]. destruct st. apply g_local.
    + intros [df'| | |e];
        [apply IH|apply keeps_raise|apply keeps_ret|apply keeps_raise].
Qed.

Lemma keeps_keep_tables (job : Job) (tables : list Table) :
  keeps g (keep_tables job tables).
Proof.
  induction tables as [|table tables IH]; simpl; [apply keeps_ret|].
  apply keeps_bind.
  { apply keeps_bind; [apply keeps_process_chain|].
    intros [df|]; apply keeps_ret. }
  intros processed. apply keeps_bind; [apply IH|]. intros kept.
  destruct processed; apply keeps_ret.
Qed.

(** The exception handler of the driver loop. *)
Lemma keeps_handler (policy : string) (job : Job) (e : exn) :
  keeps g (_ ← emit (EvFailed (name job) e);
           if bool_decide (policy = "stop") then raise e
           else if bool_decide (policy = "continue") then
             _ ← set_status job failed; add_completed job
           else raise e).
Proof.
  apply keeps_bind; [apply keeps_emit|]. intros _.
  case_bool_decide; [apply keeps_raise|].
  case_bool_decide; [|apply keeps_raise].
  apply keeps_bind; [apply keeps_set_status|]. intros _.
  apply keeps_add_completed.
Qed.

Lemma keeps_stage (job : Job) : keeps g (execute_stage_job job).
Proof.
  apply keeps_bind; [apply keeps_set_status|]. intros _.
  apply keeps_try; [|apply keeps_job_failed].
  apply keeps_bind; [apply keeps_get_tables|]. intros tables.
  apply keeps_bind; [apply keeps_get_exec_con|]. intros con.
  apply keeps_bind; [apply keeps_call|]. intros _.
  apply keeps_set_status.
Qed.

Lemma keeps_load (job : Job) : keeps g (execute_load_job job).
Proof.
  apply keeps_bind; [apply keeps_set_status|]. intros _.
  apply keeps_try; [|apply keeps_job_failed].
  apply keeps_bind; [apply keeps_get_exec_con|]. intros [h|];
    [|apply keeps_raise].
  apply keeps_bind; [apply keeps_call|]. intros _.
  apply keeps_set_status.
Qed.

Lemma keeps_extract (job : Job) :
  (∀ n t, keeps g (store_table n t)) → keeps g (execute_extract_job job).
Proof.
  intros Hstore.
  apply keeps_bind; [apply keeps_set_status|]. intros _.
  apply keeps_try; [|apply keeps_job_failed].
  apply keeps_bind; [apply keeps_call|]. intros tables.
  unfold process_tables. destruct tables as [|table tables];
    [apply keeps_set_status|].
  apply keeps_bind; [apply keeps_keep_tables|]. intros kept.
  unfold store_first. destruct kept as [|first kept]; [apply keeps_set_status|].
  apply keeps_bind; [|intros _; apply keeps_set_status].
  destruct (output_table_name job) as [k|]; [|apply keeps_ret].
  destruct (nonempty k); [|apply keeps_ret].
  apply keeps_bind; [apply Hstore|]. intros _. by apply keeps_modify_job.
Qed.

Lemma keeps_transform (job : Job) :
  (∀ h, keeps g (set_exec_con h)) → keeps g (execute_transform_job job).
Proof.
  intros Hcon.
  apply keeps_bind; [apply keeps_set_status|]. intros _.
  apply keeps_try; [|apply keeps_job_failed].
  apply keeps_bind; [apply keeps_get_exec_con|]. intros [h|];
    [|apply keeps_raise].
  apply keeps_bind; [apply keeps_call|]. intros h'.
  apply keeps_bind; [apply Hcon|]. intros _.
  apply keeps_set_status.
Qed.

Lemma keeps_create_schemas (duckdb_con : option Handle) (names : list string) :
  keeps g (create_schemas duckdb_con names).
Proof.
  induction names as [|schema names IH]; simpl; [apply keeps_ret|].
  apply keeps_bind; [|by intros _].
  apply keeps_try; [apply keeps_call|]. intros _. apply keeps_ret.
Qed.

Lemma keeps_open_database (cfg : PipelineConfig) : keeps g (open_database cfg).
Proof.
  unfold open_database. destruct (warehouse cfg) as [wcfg|]; [|apply keeps_ret].
  apply keeps_bind.
  { destruct (db_path wcfg) as [pth|]; [|apply keeps_ret].
    destruct (_ && _); [apply keeps_call|apply keeps_ret]. }
  intros _. apply keeps_bind; [apply keeps_call|]. intros db_engine.
  apply keeps_bind; [apply keeps_call|]. intros duckdb_con.
  apply keeps_bind; [apply keeps_emit|]. intros _.
  apply keeps_bind; [apply keeps_create_schemas|]. intros _. apply keeps_ret.
Qed.

Lemma keeps_cleanup (db_engine : option Engine) (duckdb_con : option Handle) :
  keeps g (cleanup db_engine duckdb_con).
Proof.
  unfold cleanup. destruct (cleanup_action db_engine duckdb_con).
  - apply keeps_bind; [apply keeps_emit|]. intros _. apply keeps_call.
  - apply keeps_bind; [apply keeps_emit|]. intros _. apply keeps_raise.
  - apply keeps_ret.
Qed.

End Keeps.

Lemma local_statics : local statics_of.
Proof. done. Qed.

Lemma local_exec_con : local exec_con.
Proof. done. Qed.

Lemma local_tables : local in_memory_tables.
Proof. done. Qed.

Lemma statics_update_job (n : string) (f : Job → Job) (js : list Job) :
  (∀ j, statics (f j) = statics j) →
  map statics (update_job n f js) = map statics js.
Proof.
  intros Hf. unfold update_job. rewrite map_map. apply map_ext.
  intros j. by case_bool_decide.
Qed.

Lemma statics_update_inv (n : string) (f : Job → Job) (js : list Job)
    (j : Job) :
  map statics (update_job n f js) = map statics js →
  j ∈ js → name j = n → statics (f j) = statics j.
Proof.
  unfold update_job. induction js as [|j' js IH]; intros Heq Hin Hn.
  - by apply elem_of_nil in Hin.
  - pose proof (f_equal head Heq) as Hhd.
    pose proof (f_equal tail Heq) as Htl. simpl in Hhd, Htl.
    apply (inj Some) in Hhd.
    apply elem_of_cons in Hin as [->|Hin]; [|by apply IH].
    by rewrite bool_decide_eq_true_2 in Hhd.
Qed.

Lemma route_statics (stg : string) (j j' : Job) :
  statics j' = statics j → route stg j' = route stg j.
Proof. unfold statics, route. intros [= _ _ _ -> _ _ _]. done. Qed.

(** No executor assigns to what a job was created with. *)
Lemma statics_dispatch (stg : string) (job : Job) :
  keeps statics_of (dispatch stg job).
Proof.
  assert (Hmod : ∀ st n f, (∀ j, statics (f j) = statics j) →
            statics_of (mkState (update_job n f (jobs st)) (completed_jobs st)
                          (in_memory_tables st) (exec_con st) (world st)
                          (trace st)) = statics_of st).
  { intros st n f Hf. by apply statics_update_job. }
  rewrite dispatch_route. destruct (route stg job) as [[]|].
  - apply keeps_extract; [apply local_statics|done|].
    by intros n t st r st' [= <- <-].
  - by apply keeps_stage; [apply local_statics|].
  - apply keeps_transform; [apply local_statics|done|].
    by intros h st r st' [= <- <-].
  - by apply keeps_load; [apply local_statics|].
  - by intros st r st' [= <- <-].
Qed.

(** A turn of the driver loop: the routed executor runs after the
    dispatch is noted; then the job is marked completed, or the exception
    goes to the handler. *)
Lemma run_ready_job_inv (policy stg : string) (job : Job) (st : State)
    (r : result unit) (st' : State) :
  run_ready_job policy stg job st = (r, st') →
  ∃ r1 st1,
    dispatch stg job (emit (EvDispatch (name job)) st).2 = (r1, st1)
    ∧ match r1 with
      | Ok _ => add_completed job st1 = (r, st')
      | Raise e =>
          (_ ← emit (EvFailed (name job) e);
           if bool_decide (policy = "stop") then raise e
           else if bool_decide (policy = "continue") then
             _ ← set_status job failed; add_completed job
           else raise e) st1 = (r, st')
      end.
Proof.
  unfold run_ready_job. intros H.
  apply bind_inv in H as [([] & st0 & H0 & H)|(e' & H0 & _)];
    rewrite emit_eq in H0; [|done].
  injection H0 as <-. rewrite emit_eq. cbn [snd].
  apply try_inv in H as [([] & H & ->)|(e & st1 & H & Hh)].
  - apply bind_inv in H as [([] & st1 & H1 & H2)|(e' & _ & ?)]; [|done].
    by exists (Ok ()), st1.
  - apply bind_inv in H as [([] & st2 & H1 & H2)|(e' & H1 & [= <-])].
    + by rewrite add_completed_eq in H2.
    + by exists (Raise e), st1.
Qed.

Lemma Forall_update_job (Φ : Job → Prop) (n : string) (f : Job → Job)
    (js : list Job) :
  Forall Φ js → (∀ j, j ∈ js → name j = n → Φ (f j)) →
  Forall Φ (update_job n f js).
Proof.
  intros Hall Hf. unfold update_job. apply Forall_fmap, Forall_forall.
  intros j Hj. simpl. case_bool_decide; [by apply Hf|].
  rewrite Forall_forall in Hall. by apply Hall.
Qed.

Lemma run_ready_job_frame (policy stg : string) (job : Job) (st : State)
    (r : result unit) (st' : State) :
  run_ready_job policy stg job st = (r, st') →
  ∃ r1 st1,
    dispatch stg job (emit (EvDispatch (name job)) st).2 = (r1, st1)
    ∧ exec_con st' = exec_con st1
    ∧ in_memory_tables st' = in_memory_tables st1
    ∧ (jobs st' = jobs st1
       ∨ (is_raise r1 = true
          ∧ jobs st' = update_job (name job) (with_status failed) (jobs st1))).
Proof.
  intros H. apply run_ready_job_inv in H as (r1 & st1 & Hd & H).
  exists r1, st1. split; [done|]. destruct r1 as [[]|e].
  - rewrite add_completed_eq in H. injection H as <- <-. simpl. auto.
  - pose proof (keeps_handler exec_con local_exec_con
                  (λ _ _ _ _, eq_refl) policy job e _ _ _ H) as Hc.
    pose proof (keeps_handler in_memory_tables local_tables
                  (λ _ _ _ _, eq_refl) policy job e _ _ _ H) as Ht.
    apply handler_spec in H as (_ & Hj & _).
    split_and!; [done..|]. destruct (is_continue policy); auto.
Qed.

(** *** A run without a connection *)

Lemma job_failed_eq (job : Job) (e : exn) (st : State) :
  job_failed job e st
  = (Raise e,
     mkState (update_job (name job) (with_error e)
                (update_job (name job) (with_status failed) (jobs st)))
       (completed_jobs st) (in_memory_tables st) (exec_con st) (world st)
       (trace st ++ [EvStatus (name job) failed])).
Proof. reflexivity. Qed.

Lemma job_failed_jobs (job : Job) (e : exn) (js : list Job) :
  update_job (name job) (with_error e)
    (update_job (name job) (with_status failed)
       (update_job (name job) (with_status running) js))
  = update_job (name job) (failed_with e) js.
Proof. by rewrite !update_job_compose. Qed.

Lemma transform_no_con (job : Job) (st : State) (r : result unit)
    (st' : State) :
  exec_con st = None → execute_transform_job job st = (r, st') →
  r = Raise (ValueError "Transform job requires DuckDB connection")
  ∧ exec_con st' = None
  ∧ jobs st'
    = update_job (name job)
        (failed_with (ValueError "Transform job requires DuckDB connection"))
        (jobs st).
Proof.
  intros Hcon H. unfold execute_transform_job in H.
  apply bind_inv in H as [([] & st1 & H1 & H)|(e & H1 & _)];
    rewrite set_status_eq in H1; [|done].
  injection H1 as <-.
  apply try_inv in H as [(a & H & ->)|(e & st2 & H & Hh)];
    unfold mbind, M_bind, get_exec_con in H; simpl in H; rewrite Hcon in H;
    [done|].
  injection H as <- <-. rewrite job_failed_eq in Hh. injection Hh as <- <-.
  simpl. by rewrite job_failed_jobs.
Qed.

Lemma load_no_con (job : Job) (st : State) (r : result unit) (st' : State) :
  exec_con st = None → execute_load_job job st = (r, st') →
  r = Raise (ValueError "Load job requires database connection")
  ∧ exec_con st' = None
  ∧ jobs st'
    = update_job (name job)
        (failed_with (ValueError "Load job requires database connection"))
        (jobs st).
Proof.
  intros Hcon H. unfold execute_load_job in H.
  apply bind_inv in H as [([] & st1 & H1 & H)|(e & H1 & _)];
    rewrite set_status_eq in H1; [|done].
  injection H1 as <-.
  apply try_inv in H as [(a & H & ->)|(e & st2 & H & Hh)];
    unfold mbind, M_bind, get_exec_con in H; simpl in H; rewrite Hcon in H;
    [done|].
  injection H as <- <-. rewrite job_failed_eq in Hh. injection Hh as <- <-.
  simpl. by rewrite job_failed_jobs.
Qed.

Lemma dispatch_no_con (stg : string) (job : Job) (st : State)
    (r : result unit) (st' : State) :
  exec_con st = None → dispatch stg job st = (r, st') →
  exec_con st' = None.
Proof.
  intros Hcon. rewrite dispatch_route. destruct (route stg job) as [[]|]; intros H.
  - rewrite <- Hcon.
    revert H. apply keeps_extract; [apply local_exec_con|done|].
    by intros n t s r' s' [= <- <-].
  - rewrite <- Hcon.
    revert H. by apply keeps_stage; [apply local_exec_con|].
  - by apply transform_no_con in H as (_ & ? & _).
  - by apply load_no_con in H as (_ & ? & _).
  - by injection H as <- <-.
Qed.

(** The job of a turn after its executor has run without a connection:
    when it is a transform or load job, it has failed for the lack of the
    connection, and nothing was returned. *)
Lemma dispatch_starved (stg : string) (job : Job) (st : State)
    (r : result unit) (st' : State) :
  NoDup (job_names (jobs st)) → exec_con st = None →
  job ∈ jobs st → stage job = stg →
  dispatch stg job st = (r, st') →
  ∃ f, static_fun f ∧ jobs st' = update_job (name job) f (jobs st)
       ∧ (needs_connection (f job) → is_raise r = true ∧ starved (f job)).
Proof.
  intros Hnd Hcon Hin Hstg Hd.
  pose proof (statics_dispatch stg job _ _ _ Hd) as Hstat.
  unfold statics_of in Hstat.
  pose proof Hd as Hd0. rewrite dispatch_route in Hd.
  destruct (route stg job) as [[]|] eqn:Hroute.
  1, 2, 5: clear Hd; rename Hd0 into Hd;
    assert (∃ f, static_fun f
                 ∧ jobs st' = update_job (name job) f (jobs st))
      as (f & Hsf & Hj);
    [destruct (dispatch_cases stg job) as [Hx|[msg Hx]];
      [destruct (Hx _ _ _ Hd) as (_ & f & ? & Hj & _); by exists f
      |rewrite Hx in Hd; injection Hd as <- <-; exists id;
       split; [apply static_id|]; symmetry; by apply update_job_id]
    |exists f; split; [done|]; split; [done|]; rewrite Hj in Hstat;
     pose proof (statics_update_inv _ _ _ _ Hstat Hin eq_refl) as Hsj;
     unfold needs_connection; rewrite (route_statics _ _ _ Hsj);
     assert (stage (f job) = stg) as ->
       by (by injection Hsj as _ -> _ _ _ _ _);
     rewrite Hroute; by intros [|]].
  - apply transform_no_con in Hd as (-> & _ & Hj); [|done].
    eexists. split; [|split; [exact Hj|]]; [done|]. intros _. split; [done|].
    split; [done|]. left. split; [|done]. simpl. by rewrite Hstg.
  - apply load_no_con in Hd as (-> & _ & Hj); [|done].
    eexists. split; [|split; [exact Hj|]]; [done|]. intros _. split; [done|].
    split; [done|]. right. split; [|done]. simpl. by rewrite Hstg.
Qed.

Lemma no_connection_turn (policy : string) (st : State) (stg : string)
    (job : Job) (r : result unit) (st' : State) :
  NoDup (job_names (jobs st)) → no_connection_inv st →
  job ∈ jobs st → stage job = stg → status job = pending →
  run_ready_job policy stg job st = (r, st') →
  no_connection_inv st'.
Proof.
  intros Hnd [Hcon Hst] Hin Hstg Hpend H.
  apply run_ready_job_frame in H as (r1 & st1 & Hd & Hc' & _ & Hj').
  rewrite emit_eq in Hd. cbn [snd] in Hd.
  pose proof Hd as Hd2.
  apply dispatch_no_con in Hd2 as Hcon1; [|exact Hcon].
  apply dispatch_starved in Hd as (f & Hsf & Hj & Hf); [|done..].
  cbn [jobs] in Hj.
  split; [congruence|].
  apply (Forall_forall (λ j, needs_connection j →
                             status j = pending ∨ starved j)).
  destruct Hj' as [->|[Hr ->]]; rewrite Hj.
  - apply Forall_update_job; [by apply Forall_forall|].
    intros j Hjin Hn Hneed.
    assert (j = job) as -> by by apply (same_name_same_job (jobs st)).
    right. by apply Hf.
  - rewrite update_job_compose by done.
    apply Forall_update_job; [by apply Forall_forall|].
    intros j Hjin Hn Hneed.
    assert (j = job) as -> by by apply (same_name_same_job (jobs st)).
    right. destruct (Hf Hneed) as (_ & Hs & He). split; [done|]. exact He.
Qed.

(** *** The table cache *)

Lemma process_tables_cache (job : Job) (tables : list Table) (st : State)
    (r : result unit) (st' : State) :
  process_tables job tables st = (r, st') →
  in_memory_tables st' = in_memory_tables st
  ∨ (r = Ok ()
     ∧ ∃ k t, output_table_name job = Some k
              ∧ in_memory_tables st' = <[k := t]> (in_memory_tables st)).
Proof.
  unfold process_tables. destruct tables as [|table tables].
  { rewrite set_status_eq. intros [= <- <-]. by left. }
  intros H. apply bind_inv in H as [(kept & st1 & H1 & H2)|(e & H1 & ->)].
  2: { left. revert H1. apply keeps_keep_tables. apply local_tables. }
  pose proof (keeps_keep_tables in_memory_tables local_tables
                job _ _ _ _ H1) as Hk.
  unfold store_first in H2. destruct kept as [|first kept].
  { rewrite set_status_eq in H2. injection H2 as <- <-. by left. }
  destruct (output_table_name job) as [k|] eqn:Hout.
  2: { unfold mbind, M_bind in H2. simpl in H2. rewrite set_status_eq in H2.
       injection H2 as <- <-. by left. }
  destruct (nonempty k).
  - unfold mbind, M_bind, store_table, modify_job in H2. simpl in H2.
    rewrite set_status_eq in H2. injection H2 as <- <-.
    right. split; [done|]. exists k, first. simpl. by rewrite Hk.
  - unfold mbind, M_bind in H2. simpl in H2. rewrite set_status_eq in H2.
    injection H2 as <- <-. by left.
Qed.

Lemma extract_cache (job : Job) (st : State) (r : result unit) (st' : State) :
  execute_extract_job job st = (r, st') →
  in_memory_tables st' = in_memory_tables st
  ∨ (r = Ok ()
     ∧ ∃ k t, output_table_name job = Some k
              ∧ in_memory_tables st' = <[k := t]> (in_memory_tables st)).
Proof.
  unfold execute_extract_job. intros H.
  apply bind_inv in H as [([] & st1 & H1 & H)|(e & H1 & _)];
    rewrite set_status_eq in H1; [|done].
  injection H1 as <-.
  apply try_inv in H as [([] & H & ->)|(e & st2 & H & Hh)].
  - apply bind_inv in H as [(tables & st2 & H1 & H2)|(e & _ & ?)]; [|done].
    pose proof (keeps_call in_memory_tables local_tables _ _ _ _ H1) as Hc.
    apply process_tables_cache in H2 as [H2|(_ & k & t & ? & H2)].
    + left. by rewrite H2, Hc.
    + right. split; [done|]. exists k, t. by rewrite H2, Hc.
  - rewrite job_failed_eq in Hh. injection Hh as <- <-. left. simpl.
    apply bind_inv in H as [(tables & st3 & H1 & H2)|(e' & H1 & _)].
    + pose proof (keeps_call in_memory_tables local_tables _ _ _ _ H1) as Hc.
      apply process_tables_cache in H2 as [H2|([=] & _)]. by rewrite H2, Hc.
    + by rewrite (keeps_call in_memory_tables local_tables _ _ _ _ H1).
Qed.

Lemma dispatch_cache (stg : string) (job : Job) (st : State)
    (r : result unit) (st' : State) :
  dispatch stg job st = (r, st') →
  in_memory_tables st' = in_memory_tables st
  ∨ (r = Ok () ∧ route stg job = Some KExtract
     ∧ ∃ k t, output_table_name job = Some k
              ∧ in_memory_tables st' = <[k := t]> (in_memory_tables st)).
Proof.
  rewrite dispatch_route. destruct (route stg job) as [[]|]; intros H.
  - apply extract_cache in H as [?|(? & ?)]; auto.
  - left. revert H. by apply keeps_stage; [apply local_tables|].
  - left. revert H. apply keeps_transform; [apply local_tables|done|].
    by intros h s r' s' [= <- <-].
  - left. revert H. by apply keeps_load; [apply local_tables|].
  - injection H as <- <-. by left.
Qed.

Lemma cache_turn (policy : string) (st : State) (stg : string)
    (job : Job) (r : result unit) (st' : State) :
  NoDup (job_names (jobs st)) → cache_inv st →
  job ∈ jobs st → stage job = stg → status job = pending →
  run_ready_job policy stg job st = (r, st') →
  cache_inv st'.
Proof.
  intros Hnd Hinv Hin Hstg Hpend H.
  apply run_ready_job_frame in H as (r1 & st1 & Hd & _ & Ht' & Hj').
  rewrite emit_eq in Hd. cbn [snd] in Hd.
  pose proof (statics_dispatch stg job _ _ _ Hd) as Hstat.
  unfold statics_of in Hstat. cbn [jobs] in Hstat.
  assert (∃ f, jobs st1 = update_job (name job) f (jobs st)
               ∧ (r1 = Ok () → status (f job) = success)) as (f & Hj & Hs).
  { destruct (dispatch_cases stg job) as [Hx|[msg Hx]].
    - destruct (Hx _ _ _ Hd) as (_ & f & _ & Hj & Hs). exists f.
      split; [done|]. intros ->. apply Hs.
    - rewrite Hx in Hd. injection Hd as <- <-. exists id.
      split; [|done]. simpl. symmetry. by apply update_job_id. }
  assert (Hold : ∀ j, j ∈ jobs st → status j = success → j ∈ jobs st').
  { intros j Hjin Hsucc.
    assert (name j ≠ name job) as Hne.
    { intros E. rewrite (same_name_same_job _ _ _ Hnd Hjin Hin E) in Hsucc.
      congruence. }
    destruct Hj' as [->|[_ ->]]; rewrite Hj;
      repeat apply elem_of_update_job_other; done. }
  intros k Hk. rewrite Ht' in Hk.
  apply dispatch_cache in Hd as [Hd|(-> & Hr & k0 & t & Hout & Hd)];
    cbn [in_memory_tables] in Hd; rewrite Hd in Hk.
  - destruct (Hinv k Hk) as (j & ? & ? & ? & ?). exists j. auto.
  - apply lookup_insert_is_Some in Hk as [<-|[_ Hk]].
    2: { destruct (Hinv k Hk) as (j & ? & ? & ? & ?). exists j. auto. }
    destruct Hj' as [Hj'|[? _]]; [|done].
    rewrite Hj in Hstat.
    pose proof (statics_update_inv _ _ _ _ Hstat Hin eq_refl) as Hsj.
    exists (f job). split_and!.
    + rewrite Hj', Hj. unfold update_job. apply list_elem_of_fmap.
      exists job. by rewrite bool_decide_eq_true_2.
    + rewrite (route_statics _ _ _ Hsj).
      injection Hsj as _ -> _ _ _ _ _. by rewrite Hstg.
    + injection Hsj as _ _ _ _ _ _ ->. done.
    + by apply Hs.
Qed.

(** *** Whole runs *)

Lemma run_pipeline_frames (fuel : nat) (cfg : PipelineConfig)
    (duckdb_con : option Handle) (st : State) (r : result unit) (st' : State) :
  run_pipeline fuel cfg duckdb_con st = Some (r, st') →
  st' = st
  ∨ ∃ st2,
      for_stages fuel (on_error cfg) (stages_list cfg)
        (mkState (create_jobs cfg) ∅ ∅ duckdb_con (world st) (trace st))
      = Some (r, st2)
      ∧ jobs st' = jobs st2 ∧ in_memory_tables st' = in_memory_tables st2.
Proof.
  unfold run_pipeline. intros H.
  destruct (jobs_config cfg) as [|jc jcs] eqn:Hjc.
  { injection H as <- <-. by left. }
  destruct (_build_graph (create_jobs cfg)) as [graph|e].
  2: { injection H as <- <-. by left. }
  right.
  destruct (for_stages _ _ _ _) as [[[[]|e] st2]|] eqn:Hfor; [| |done].
  - exists st2. destruct (reporting_enabled cfg).
    + injection H as H. unfold try_except, call in H.
      destruct (generate_pipeline_report (jobs st2) (world st2)) as [[[]|e] w];
        by injection H as <- <-.
    + by injection H as <- <-.
  - injection H as <- <-. by exists st2.
Qed.

Lemma orchestrator_frames (fuel : nat) (cfg : PipelineConfig) (w : World)
    (r : result unit) (st : State) :
  orchestrator fuel cfg w = Some (r, st) →
  (jobs st = [] ∧ in_memory_tables st = ∅)
  ∨ ∃ duckdb_con w0 tr0 r1 st2,
      (warehouse cfg = None → duckdb_con = None)
      ∧ for_stages fuel (on_error cfg) (stages_list cfg)
          (mkState (create_jobs cfg) ∅ ∅ duckdb_con w0 tr0) = Some (r1, st2)
      ∧ jobs st = jobs st2 ∧ in_memory_tables st = in_memory_tables st2.
Proof.
  intros H.
  apply orchestrator_spec in H
    as [(e & Ho & ->)|(eng & con & st0 & r1 & st1 & rc & Ho & Hr & Hc & ->)].
  { left.
    pose proof (keeps_open_database in_memory_tables local_tables
                  cfg _ _ _ Ho) as Ht.
    by apply open_database_spec in Ho as (-> & _). }
  pose proof (keeps_open_database in_memory_tables local_tables
                cfg _ _ _ Ho) as Ht0.
  pose proof (keeps_cleanup in_memory_tables local_tables _ _ _ _ _ Hc) as Htc.
  apply open_database_spec in Ho as (Hj0 & _ & Hw).
  apply cleanup_spec in Hc as (Hjc & _).
  apply run_pipeline_frames in Hr as [->|(st2 & Hfor & Hj & Ht)].
  - left. by rewrite Hjc, Hj0, Htc, Ht0.
  - right. exists con, (world st0), (trace st0), r1, st2.
    split_and!; [|done|congruence..].
    intros Hnone. rewrite Hnone in Hw. by destruct Hw as (_ & -> & _).
Qed.

Lemma no_connection_orchestrator (fuel : nat) (cfg : PipelineConfig)
    (w : World) (r : result unit) (st : State) :
  NoDup (map fst (jobs_config cfg)) → warehouse cfg = None →
  orchestrator fuel cfg w = Some (r, st) →
  ∀ j, j ∈ jobs st → needs_connection j →
       status j = pending ∨ starved j.
Proof.
  intros Hnd Hnone H.
  apply orchestrator_frames in H
    as [[-> _]|(con & w0 & tr0 & r1 & st2 & Hcon & Hfor & -> & _)].
  { intros j Hj. by apply elem_of_nil in Hj. }
  rewrite (Hcon Hnone) in Hfor.
  apply (for_stages_inv (on_error cfg) no_connection_inv
           (λ _, no_connection_inv)) in Hfor as [_ Hinv].
  - by destruct r1; destruct Hinv.
  - intros s stg _ Hs. exact Hs.
  - intros s stg job r' s' Hnd' Hs Hin Hstg Hpend _ Hrun.
    pose proof (no_connection_turn _ _ _ _ _ _ Hnd' Hs Hin Hstg Hpend Hrun).
    by destruct r'.
  - simpl. by rewrite job_names_create.
  - split; [done|]. simpl. intros j Hj _. left. by eapply created_pending.
Qed.

Lemma cache_orchestrator (fuel : nat) (cfg : PipelineConfig) (w : World)
    (r : result unit) (st : State) :
  NoDup (map fst (jobs_config cfg)) →
  orchestrator fuel cfg w = Some (r, st) →
  cache_inv st.
Proof.
  intros Hnd H.
  apply orchestrator_frames in H
    as [[_ Ht]|(con & w0 & tr0 & r1 & st2 & _ & Hfor & Hj & Ht)].
  { intros k Hk. rewrite Ht, lookup_empty in Hk. by destruct Hk. }
  apply (for_stages_inv (on_error cfg) cache_inv (λ _, cache_inv))
    in Hfor as [_ Hinv].
  - unfold cache_inv. rewrite Hj, Ht. by destruct r1.
  - intros s stg _ Hs. exact Hs.
  - intros s stg job r' s' Hnd' Hs Hin Hstg Hpend _ Hrun.
    pose proof (cache_turn _ _ _ _ _ _ Hnd' Hs Hin Hstg Hpend Hrun).
    by destruct r'.
  - simpl. by rewrite job_names_create.
  - intros k Hk. simpl in Hk. rewrite lookup_empty in Hk. by destruct Hk.
Qed.

End Frames.

(** *** Stage after stage *)

Section StageOrder.
Context `{P : Plugins}.

Lemma dispatched_app (tr evs : list Event) :
  dispatched (tr ++ evs) = dispatched tr ++ dispatched evs.
Proof. apply omap_app. Qed.

Lemma dispatched_events_of (policy n : string) (o : job_outcome) :
  dispatched (events_of policy n o) = [n].
Proof.
  unfold events_of, handler_events.
  by destruct o, (is_continue policy).
Qed.

(** The loop of one stage keeps what every turn of that stage keeps. *)
Section OneStage.
Variables policy stg : string.
Variable I : State → Prop.

Hypothesis I_poll : ∀ st, I st → I (polled stg st).

Hypothesis I_turn : ∀ st job r st',
  NoDup (job_names (jobs st)) → I st →
  job ∈ jobs st → stage job = stg →
  run_ready_job policy stg job st = (r, st') → I st'.

Lemma for_ready_jobs_stage (ready : list Job) (st : State)
    (r : result unit) (st' : State) :
  NoDup (job_names (jobs st)) → I st →
  NoDup (map name ready) →
  Forall (λ job, job ∈ jobs st ∧ stage job = stg) ready →
  for_ready_jobs policy stg ready st = (r, st') →
  NoDup (job_names (jobs st')) ∧ I st'.
Proof.
  revert st. induction ready as [|job rest IH]; intros st Hnd HI Hnr Hall H.
  - by injection H as <- <-.
  - simpl in H. apply NoDup_cons in Hnr as [Hjob Hnr].
    apply Forall_cons in Hall as [[Hin Hstg] Hall].
    apply bind_inv in H as [([] & st1 & H1 & H2)|(e & H1 & ->)].
    + pose proof (I_turn _ _ _ _ Hnd HI Hin Hstg H1) as HI1.
      apply run_ready_job_spec in H1 as (o & f & Hf & _ & Hj & _).
      apply (IH st1); [by rewrite Hj, job_names_update|done|done| |done].
      apply Forall_forall. intros job' Hin'.
      rewrite Forall_forall in Hall. destruct (Hall _ Hin') as [Hin2 ?].
      split; [|done]. rewrite Hj. apply elem_of_update_job_other; [|done].
      intros E. apply Hjob. rewrite <- E. by apply list_elem_of_fmap_2.
    + pose proof (I_turn _ _ _ _ Hnd HI Hin Hstg H1) as HI1.
      apply run_ready_job_spec in H1 as (o & f & Hf & _ & Hj & _).
      split; [by rewrite Hj, job_names_update|done].
Qed.

Lemma while_ready_stage (fuel : nat) (st : State) (r : result unit)
    (st' : State) :
  NoDup (job_names (jobs st)) → I st →
  while_ready fuel policy stg st = Some (r, st') →
  NoDup (job_names (jobs st')) ∧ I st'.
Proof.
  revert st. induction fuel as [|fuel IH]; intros st Hnd HI;
    rewrite while_ready_unfold;
    destruct (get_ready_jobs (jobs st) stg (completed_jobs st))
      as [|job rest] eqn:Hready.
  - intros [= <- <-]. split; [done|]. by apply I_poll.
  - done.
  - intros [= <- <-]. split; [done|]. by apply I_poll.
  - assert (NoDup (job_names (jobs (polled stg st)))
            ∧ I (polled stg st)
            ∧ NoDup (map name (job :: rest))
            ∧ Forall (λ j, j ∈ jobs (polled stg st) ∧ stage j = stg)
                (job :: rest)) as (Hnd0 & HI0 & Hnr & Hall).
    { split_and!; [done|by apply I_poll| |].
      - rewrite <- Hready. by apply ready_names_NoDup.
      - rewrite <- Hready. apply Forall_forall. intros j Hj.
        by apply get_ready_jobs_elem in Hj as (? & ? & _). }
    destruct (for_ready_jobs policy stg (job :: rest) (polled stg st))
      as [[[]|e] st2] eqn:Hfor.
    + intros H.
      apply for_ready_jobs_stage in Hfor as [Hnd2 HI2]; [|done..].
      by apply (IH st2).
    + intros [= <- <-]. by apply for_ready_jobs_stage in Hfor.
Qed.

End OneStage.

Lemma while_ready_block (js0 : list Job) (fuel : nat) (policy stg : string)
    (st : State) (r : result unit) (st' : State) :
  NoDup (job_names (jobs st)) → graph_of (jobs st) = graph_of js0 →
  while_ready fuel policy stg st = Some (r, st') →
  NoDup (job_names (jobs st')) ∧ graph_of (jobs st') = graph_of js0
  ∧ ∃ block, dispatched (trace st') = dispatched (trace st) ++ block
             ∧ ∀ n j, n ∈ block → j ∈ js0 → name j = n → stage j = stg.
Proof.
  intros Hnd Hg H.
  apply (while_ready_stage policy stg
           (λ s, graph_of (jobs s) = graph_of js0
                 ∧ ∃ block,
                     dispatched (trace s) = dispatched (trace st) ++ block
                     ∧ ∀ n j, n ∈ block → j ∈ js0 → name j = n →
                              stage j = stg)) in H; [done| | |done|].
  - intros s (Hgs & block & Hb & Hall). split; [done|].
    exists block. split; [|done]. simpl.
    by rewrite dispatched_app, Hb, List.app_nil_r.
  - intros s job r1 s' Hnds (Hgs & block & Hb & Hall) Hin Hstg Hrun.
    apply run_ready_job_spec in Hrun as (o & f & Hf & _ & Hj & _ & Ht & _).
    split; [by rewrite Hj, graph_of_update|].
    exists (block ++ [name job]). split.
    + by rewrite Ht, dispatched_app, dispatched_events_of, Hb, List.app_assoc.
    + intros n j [Hn|Hn]%elem_of_app Hj0 Hname; [by eapply Hall|].
      apply list_elem_of_singleton in Hn. subst n.
      destruct (graph_of_agree _ _ _ _ Hgs Hnds Hin Hj0) as [<- _]; done.
  - split; [done|]. exists []. split; [by rewrite List.app_nil_r|].
    intros n j Hn. by apply elem_of_nil in Hn.
Qed.

Lemma for_stages_blocks (js0 : list Job) (fuel : nat) (policy : string)
    (stages : list string) (st : State) (r : result unit) (st' : State) :
  NoDup (job_names (jobs st)) → graph_of (jobs st) = graph_of js0 →
  for_stages fuel policy stages st = Some (r, st') →
  ∃ blocks,
    dispatched (trace st') = dispatched (trace st) ++ concat blocks
    ∧ by_stage js0 blocks (take (length blocks) stages)
    ∧ (r = Ok () → length blocks = length stages).
Proof.
  revert st. induction stages as [|stg stages IH]; intros st Hnd Hg; simpl.
  { intros [= <- <-]. exists []. split_and!; [|constructor|done].
    by rewrite List.app_nil_r. }
  destruct (filter _ (jobs st)).
  { intros H. destruct (IH st Hnd Hg H) as (blocks & Hd & Hb & Hlen).
    exists ([] :: blocks). simpl. split_and!; [done| |by intros ->%Hlen].
    constructor; [|done]. intros n j Hn. by apply elem_of_nil in Hn. }
  destruct (while_ready fuel policy stg st) as [[[[]|e] st1]|] eqn:Hw; [| |done].
  - apply (while_ready_block js0) in Hw
      as (Hnd1 & Hg1 & block & Hd1 & Hblock); [|done..].
    intros H. destruct (IH st1 Hnd1 Hg1 H) as (blocks & Hd & Hb & Hlen).
    exists (block :: blocks). simpl. split_and!.
    + by rewrite Hd, Hd1, List.app_assoc.
    + by constructor.
    + by intros ->%Hlen.
  - intros [= <- <-].
    apply (while_ready_block js0) in Hw
      as (_ & _ & block & Hd1 & Hblock); [|done..].
    exists [block]. simpl. split_and!; [by rewrite List.app_nil_r| |done].
    constructor; [done|]. rewrite take_0. constructor.
Qed.

Lemma stages_orchestrator (fuel : nat) (cfg : PipelineConfig) (w : World)
    (r : result unit) (st : State) :
  NoDup (map fst (jobs_config cfg)) →
  orchestrator fuel cfg w = Some (r, st) →
  ∃ blocks,
    dispatched (trace st) = concat blocks
    ∧ by_stage (create_jobs cfg) blocks
        (take (length blocks) (stages_list cfg)).
Proof.
  intros Hnd H.
  assert (Hquiet : ∀ db_engine duckdb_con,
            dispatched match cleanup_action db_engine duckdb_con with
                       | CloseThroughEngine eng h => [EvEngineClose eng h]
                       | CloseQuietly h => [EvLegacyClose h]
                       | NoCleanup => []
                       end = []).
  { intros eng con. by destruct (cleanup_action eng con). }
  apply orchestrator_spec in H
    as [(e & Ho & ->)|(eng & con & st0 & r1 & st1 & rc & Ho & Hr & Hc & ->)].
  { apply open_database_spec in Ho as (_ & _ & Ht). rewrite Ht.
    exists []. split; [done|]. constructor. }
  apply open_database_spec in Ho as (_ & _ & Ht0).
  assert (dispatched (trace st0) = []) as Hd0.
  { destruct (warehouse cfg).
    - by destruct Ht0 as (e0 & _ & ->).
    - by destruct Ht0 as (_ & _ & ->). }
  apply cleanup_spec in Hc as (_ & _ & ->).
  rewrite dispatched_app, Hquiet, List.app_nil_r.
  apply run_pipeline_spec in Hr
    as [(_ & _ & ->)|[(_ & e & _ & _ & ->)|(_ & g & st2 & _ & Hfor & _ & _ & ->)]].
  1, 2: exists []; split; [by rewrite Hd0|constructor].
  apply (for_stages_blocks (create_jobs cfg)) in Hfor
    as (blocks & Hd & Hb & _); [| |done].
  - exists blocks. split; [|done]. simpl in Hd. by rewrite Hd, Hd0.
  - simpl. by rewrite job_names_create.
Qed.

End StageOrder.

(** *** The summary of a run *)

Section Summary.
Context `{P : Plugins}.

Lemma count_status_cons (s : Status) (j : Job) (js : list Job) :
  count_status s (j :: js)
  = (if bool_decide (status j = s) then 1 else 0) + count_status s js.
Proof.
  unfold count_status. rewrite filter_cons.
  destruct (decide (status j = s)).
  - by rewrite bool_decide_eq_true_2.
  - by rewrite bool_decide_eq_false_2.
Qed.

Lemma counts_add_up (js : list Job) :
  Forall (λ j, status j = pending ∨ status j = success ∨ status j = failed) js →
  count_status success js + count_status failed js + count_status pending js
  = length js.
Proof.
  induction 1 as [|j js Hj _ IH]; [done|].
  rewrite !count_status_cons. simpl. rewrite <- IH.
  destruct Hj as [-> | [-> | ->]]; simpl; lia.
Qed.

Lemma count_status_none (s : Status) (js : list Job) :
  Forall (λ j, status j ≠ s) js → count_status s js = 0.
Proof.
  induction 1 as [|j js Hj _ IH]; [done|].
  by rewrite count_status_cons, bool_decide_eq_false_2, IH.
Qed.

Lemma for_stages_statuses (fuel : nat) (policy : string)
    (stages : list string) (st : State) (st' : State) :
  NoDup (job_names (jobs st)) →
  Forall (λ j, status j = pending) (jobs st) →
  for_stages fuel policy stages st = Some (Ok (), st') →
  job_names (jobs st') = job_names (jobs st)
  ∧ Forall (λ j, status j = pending ∨ status j = success
                 ∨ (status j = failed ∧ is_continue policy = true))
      (jobs st').
Proof.
  intros Hnd Hall H.
  apply (for_stages_inv policy
           (λ s, job_names (jobs s) = job_names (jobs st)
                 ∧ Forall (λ j, status j = pending ∨ status j = success
                                ∨ (status j = failed
                                   ∧ is_continue policy = true)) (jobs s))
           (λ _ _, True)) in H as [_ H]; [done| | |done|].
  - intros s stg _ Hs. exact Hs.
  - intros s stg job r s' Hnds [Hn Hs] Hin Hstg Hpend _ Hrun.
    apply run_ready_job_spec in Hrun as (o & f & Hf & Hst & Hj & _ & _ & ->).
    destruct (result_of policy o) as [[]|e] eqn:Hr; [|done].
    split; [by rewrite Hj, job_names_update|].
    rewrite Hj. apply Forall_update_job; [done|].
    intros j _ _. rewrite Hst. unfold result_of in Hr.
    destruct o; simpl; auto; destruct (is_continue policy); auto; done.
  - split; [done|]. eapply Forall_impl; [exact Hall|]. intros j ?. by left.
Qed.

Lemma summary_orchestrator (fuel : nat) (cfg : PipelineConfig) (w : World)
    (st : State) :
  NoDup (map fst (jobs_config cfg)) →
  orchestrator fuel cfg w = Some (Ok (), st) →
  job_names (jobs st) = map fst (jobs_config cfg)
  ∧ count_status success (jobs st) + count_status failed (jobs st)
    + count_status pending (jobs st) = length (jobs st)
  ∧ (on_error cfg ≠ "continue" → count_status failed (jobs st) = 0).
Proof.
  intros Hnd H.
  apply orchestrator_spec in H
    as [(e & _ & ?)|(eng & con & st0 & r1 & st1 & rc & Ho & Hr & Hc & Hrr)];
    [done|].
  destruct rc as [[]|e]; [|done]. subst r1.
  apply open_database_spec in Ho as (Hj0 & _ & _).
  apply cleanup_spec in Hc as (-> & _ & _).
  apply run_pipeline_spec in Hr
    as [(Hcfg & _ & ->)|[(_ & e & _ & ? & _)|(_ & g & st2 & _ & Hfor & -> & _)]];
    [|done|].
  { rewrite Hj0, Hcfg. simpl. split_and!; done. }
  apply for_stages_statuses in Hfor as [Hnames Hall].
  - simpl in Hnames. rewrite job_names_create in Hnames. split_and!; [done| |].
    + apply counts_add_up. eapply Forall_impl; [exact Hall|].
      intros j [?|[?|[? _]]]; auto.
    + intros Hpol. apply count_status_none.
      eapply Forall_impl; [exact Hall|].
      intros j [-> | [-> | [_ Hc]]]; [done|done|].
      unfold is_continue in Hc. by apply bool_decide_eq_true_1 in Hc.
  - simpl. by rewrite job_names_create.
  - simpl. apply Forall_forall. intros j Hj. by eapply created_pending.
Qed.

End Summary.

End FlowFacts.

(** ** The tables an extract job keeps *)

Module TablesFacts.
Import Py Dag Run Tables RunFacts.

Section Survivors.
Context `{P : Plugins}.



End Survivors.

End TablesFacts.

(** ** The two substitution passes *)

Module SubstitutionFacts.
Import Text TextFacts Expand ExpandFacts Substitution.

Lemma until_close_inv (s n : string) :
  until_close s = Some n →
  ∃ rest, s = n +:+ String "}" rest ∧ occurs "}" n = false.
Proof.
  revert n. induction s as [|c r IH]; intros n H; [done|].
  simpl in H. destruct (Ascii.eqb c "}") eqn:Ec.
  - injection H as <-. apply Ascii.eqb_eq in Ec as ->. by exists r.
  - destruct (until_close r) as [m|] eqn:Er; [|done].
    injection H as <-. destruct (IH m eq_refl) as (rest & -> & Hm).
    exists rest. split; [done|]. simpl. by rewrite Ec.
Qed.

Lemma word_run_inv (s w rest : string) :
  word_run s = (w, rest) → s = w +:+ rest ∧ all_word w = true.
Proof.
  revert w rest. induction s as [|c r IH]; intros w rest H.
  - by injection H as <- <-.
  - simpl in H. destruct (is_word c) eqn:Ec.
    + destruct (word_run r) as [w' rest'] eqn:Er.
      injection H as <- <-. destruct (IH w' rest' eq_refl) as [-> Hw].
      split; [done|]. simpl. by rewrite Ec.
    + by injection H as <- <-.
Qed.

(** [_DOLLAR] matches at the head of a text exactly when the text starts
    with [${], a name and a closing brace. *)
Lemma _DOLLAR_spec (s g : string) (len : nat) :
  _DOLLAR s = Some (g, len)
  ↔ ∃ rest, s = "${" +:+ g +:+ "}" +:+ rest ∧ dollar_name g = true
            ∧ len = String.length "${" + String.length g + 1.
Proof.
  split.
  - unfold _DOLLAR. destruct s as [|c0 [|c1 r]]; [done..|].
    destruct (Ascii.eqb c0 "$") eqn:E0; [|done].
    destruct (Ascii.eqb c1 "{") eqn:E1; [|done]. simpl.
    destruct (until_close r) as [[|c n]|] eqn:Er; [done| |done].
    intros [= <- <-].
    apply Ascii.eqb_eq in E0 as ->. apply Ascii.eqb_eq in E1 as ->.
    apply until_close_inv in Er as (rest & -> & Hn).
    exists rest. split; [done|]. split.
    + unfold dollar_name. by rewrite Hn.
    + simpl. lia.
  - intros (rest & -> & Hn & ->).
    unfold dollar_name in Hn. apply andb_true_iff in Hn as [Hne Hn].
    apply negb_true_iff in Hn.
    change ("${" +:+ g +:+ "}" +:+ rest)
      with (String "$" (String "{" (g +:+ String "}" rest))).
    unfold _DOLLAR. cbn [Ascii.eqb Bool.eqb andb].
    rewrite (until_close_name g rest Hn).
    destruct g as [|c n]; [done|]. do 2 f_equal. simpl. lia.
Qed.

(** [_BRACES] matches at the head of a text exactly when the text starts
    with an opening brace, a name and a closing brace. *)
Lemma _BRACES_spec (s g : string) (len : nat) :
  _BRACES s = Some (g, len)
  ↔ ∃ rest, s = "{" +:+ g +:+ "}" +:+ rest ∧ brace_name g = true
            ∧ len = String.length "{" + String.length g + 1.
Proof.
  split.
  - unfold _BRACES. destruct s as [|c0 r]; [done|].
    destruct (Ascii.eqb c0 "{") eqn:E0; [|done].
    destruct (word_run r) as [[|c n] [|d rest]] eqn:Er; [done..|].
    destruct (Ascii.eqb d "}") eqn:Ed; [|done].
    intros [= <- <-].
    apply Ascii.eqb_eq in E0 as ->. apply Ascii.eqb_eq in Ed as ->.
    apply word_run_inv in Er as [-> Hw].
    exists rest. split; [done|]. split.
    + unfold brace_name. by rewrite Hw.
    + simpl. lia.
  - intros (rest & -> & Hn & ->).
    unfold brace_name in Hn. apply andb_true_iff in Hn as [Hne Hn].
    change ("{" +:+ g +:+ "}" +:+ rest)
      with (String "{" (g +:+ String "}" rest)).
    unfold _BRACES. cbn [Ascii.eqb Bool.eqb andb].
    rewrite (word_run_name g rest Hn).
    destruct g as [|c n]; [done|]. cbn [Ascii.eqb Bool.eqb andb].
    do 2 f_equal. simpl. lia.
Qed.

Section Pass.
Variable pat : string → option (string * nat).
Variable opening : string.
Variable is_name : string → bool.
Variable env : Env.
Hypothesis opening_nonempty : opening ≠ "".
Hypothesis pat_spec : ∀ s g len,
  pat s = Some (g, len)
  ↔ ∃ rest, s = opening +:+ g +:+ "}" +:+ rest ∧ is_name g = true
            ∧ len = String.length opening + String.length g + 1.

(** A placeholder at the head is replaced and the scan resumes after it. *)
Lemma re_sub_placeholder (n rest : string) :
  is_name n = true →
  re_sub pat (env_get env) (opening +:+ n +:+ "}" +:+ rest)
  = env_get env n +:+ re_sub pat (env_get env) rest.
Proof.
  intros Hn.
  assert (pat (opening +:+ n +:+ "}" +:+ rest)
          = Some (n, String.length opening + String.length n + 1)) as Hm.
  { apply pat_spec. by exists rest. }
  destruct opening as [|c o] eqn:Eo; [done|].
  replace (String c o +:+ n +:+ "}" +:+ rest)
    with (String c (o +:+ n +:+ "}") +:+ rest) in *
    by (by rewrite !app_cons, !app_assoc).
  apply re_sub_match. rewrite Hm. do 2 f_equal.
  rewrite !app_length. simpl. lia.
Qed.

(** The scan of [re.sub] is a pass. *)
Lemma re_sub_pass (s : string) :
  pass opening is_name env s (re_sub pat (env_get env) s).
Proof.
  remember (String.length s) as k eqn:Hk.
  revert s Hk. induction (lt_wf k) as [k _ IH]. intros s ->.
  destruct s as [|c r]; [constructor|].
  destruct (pat (String c r)) as [[g len]|] eqn:Hm.
  - apply pat_spec in Hm as (rest & Hs & Hg & _). rewrite Hs.
    rewrite re_sub_placeholder by done.
    assert (String.length rest < String.length (String c r)) as Hlt.
    { rewrite Hs, !app_length. simpl. lia. }
    unfold env_get. destruct (env !! g) as [v|] eqn:Eg; simpl.
    + apply pass_known; [done..|]. by eapply IH.
    + apply pass_unknown; [done..|]. by eapply IH.
  - rewrite re_sub_copy by done. apply pass_character.
    + intros n rest Hn Hs.
      assert (pat (String c r) = Some (n, String.length opening
                                          + String.length n + 1)) as Hm'.
      { apply pat_spec. by exists rest. }
      by rewrite Hm in Hm'.
    + eapply IH; [|reflexivity]. simpl. lia.
Qed.

(** A pass gives what the scan of [re.sub] gives. *)
Lemma pass_re_sub (s out : string) :
  pass opening is_name env s out → out = re_sub pat (env_get env) s.
Proof.
  induction 1 as [|n v rest out Hn Hv _ IH|n rest out Hn Hv _ IH
                  |c r out Hno _ IH].
  - done.
  - rewrite re_sub_placeholder by done. unfold env_get. rewrite Hv. simpl.
    by rewrite IH.
  - rewrite re_sub_placeholder by done. unfold env_get. rewrite Hv. simpl.
    by rewrite IH.
  - rewrite re_sub_copy; [by rewrite IH|].
    destruct (pat (String c r)) as [[g len]|] eqn:Hm; [|done].
    apply pat_spec in Hm as (rest & Hs & Hg & _). by destruct (Hno g rest).
Qed.

Lemma pass_iff (s out : string) :
  pass opening is_name env s out ↔ out = re_sub pat (env_get env) s.
Proof. split; [apply pass_re_sub|]. intros ->. apply re_sub_pass. Qed.

End Pass.

(** The [str] branch of [_expand] does the two passes, and nothing else
    does. *)
Lemma expand_str_expands (env : Env) (s out : string) :
  expands_to env s out ↔ out = expand_str s env.
Proof.
  unfold expands_to, expand_str. split.
  - intros (s1 & H1 & H2).
    apply (pass_iff _DOLLAR) in H1; [|done|apply _DOLLAR_spec].
    apply (pass_iff _BRACES) in H2; [|done|apply _BRACES_spec].
    by subst.
  - intros ->. exists (re_sub _DOLLAR (env_get env) s). split.
    + apply (pass_iff _DOLLAR); [done|apply _DOLLAR_spec|done].
    + apply (pass_iff _BRACES); [done|apply _BRACES_spec|done].
Qed.

End SubstitutionFacts.

(** ** Two runs of one configuration under ["continue"] *)

Module LockstepFacts.
Import Py Dag Run Flow Lockstep DagFacts RunFacts FlowFacts.

Lemma same_progress_refl (j : Job) : same_progress j j.
Proof. done. Qed.

Lemma get_ready_agree (js1 js2 : list Job) (stg : string)
    (completed : gset string) :
  Forall2 same_progress js1 js2 →
  Forall2 same_progress (get_ready_jobs js1 stg completed)
    (get_ready_jobs js2 stg completed).
Proof.
  rewrite !get_ready_jobs_filter.
  induction 1 as [|j1 j2 js1 js2 (Hn & Hs & Hd & Hp) _ IH]; [constructor|].
  rewrite !filter_cons.
  destruct (decide _) as [(H1 & H2 & H3)|Hno1], (decide _) as [(H4 & H5 & H6)|Hno2].
  - by constructor.
  - destruct Hno2. split_and!; [congruence|by apply Hp|by rewrite <- Hd].
  - destruct Hno1. split_and!; [congruence|by apply Hp|by rewrite Hd].
  - done.
Qed.

Lemma update_agree (n : string) (f1 f2 : Job → Job) (js1 js2 : list Job) :
  static_fun f1 → static_fun f2 →
  (∀ j, status (f1 j) ≠ pending) → (∀ j, status (f2 j) ≠ pending) →
  Forall2 same_progress js1 js2 →
  Forall2 same_progress (update_job n f1 js1) (update_job n f2 js2).
Proof.
  intros Hf1 Hf2 Hs1 Hs2. unfold update_job.
  induction 1 as [|j1 j2 js1 js2 (Hn & Hs & Hd & Hp) _ IH]; [constructor|].
  simpl. constructor; [|done]. rewrite <- Hn.
  case_bool_decide; [|done].
  destruct (Hf1 j1) as (E1 & E2 & E3), (Hf2 j2) as (E4 & E5 & E6).
  unfold same_progress. rewrite E1, E2, E3, E4, E5, E6.
  split_and!; [done..|]. split; intros Hpend.
  - by destruct (Hs1 j1).
  - by destruct (Hs2 j2).
Qed.

Section Pair.
Context {P1 P2 : Plugins}.
Variable policy : string.
Hypothesis policy_continue : is_continue policy = true.

(** One turn of the driver loop on the same job in both runs: whatever the
    job does in either, neither turn raises and the runs still agree. *)
Lemma run_ready_job_agree (stg : string) (job1 job2 : Job)
    (s1 : @State P1) (s2 : @State P2) (r1 r2 : result unit)
    (s1' : @State P1) (s2' : @State P2) :
  name job1 = name job2 → agree s1 s2 →
  run_ready_job policy stg job1 s1 = (r1, s1') →
  run_ready_job policy stg job2 s2 = (r2, s2') →
  r1 = Ok () ∧ r2 = Ok () ∧ agree s1' s2'.
Proof.
  intros Hn (Hj & Hc & Hd) H1 H2.
  apply run_ready_job_spec in H1 as (o1 & f1 & Hf1 & Hst1 & Hj1 & Hc1 & Ht1 & ->).
  apply run_ready_job_spec in H2 as (o2 & f2 & Hf2 & Hst2 & Hj2 & Hc2 & Ht2 & ->).
  assert (∀ o, result_of policy o = Ok ()) as Hres
    by (intros []; simpl; by rewrite ?policy_continue).
  assert (∀ o, completes policy o = true) as Hcomp
    by (intros []; simpl; by rewrite ?policy_continue).
  assert (∀ o s, final_status policy o s ≠ pending) as Hfin
    by (intros [] s; simpl; by rewrite ?policy_continue).
  split; [done|]. split; [done|]. split_and!.
  - rewrite Hj1, Hj2, Hn. apply update_agree; [done..| | |done].
    + intros j. rewrite Hst1. apply Hfin.
    + intros j. rewrite Hst2. apply Hfin.
  - by rewrite Hc1, Hc2, !Hcomp, Hc, Hn.
  - by rewrite Ht1, Ht2, !dispatched_app, !dispatched_events_of, Hd, Hn.
Qed.

Lemma for_ready_jobs_agree (stg : string) (ready1 ready2 : list Job)
    (s1 : @State P1) (s2 : @State P2) (r1 r2 : result unit)
    (s1' : @State P1) (s2' : @State P2) :
  Forall2 same_progress ready1 ready2 → agree s1 s2 →
  for_ready_jobs policy stg ready1 s1 = (r1, s1') →
  for_ready_jobs policy stg ready2 s2 = (r2, s2') →
  r1 = Ok () ∧ r2 = Ok () ∧ agree s1' s2'.
Proof.
  intros Hready. revert s1 s2.
  induction Hready as [|j1 j2 ready1 ready2 (Hn & _) _ IH];
    intros s1 s2 Hag; simpl.
  { by intros [= <- <-] [= <- <-]. }
  intros H1 H2.
  apply bind_inv in H1 as [([] & t1 & H1 & H1')|(e & H1 & _)];
  apply bind_inv in H2 as [([] & t2 & H2 & H2')|(e' & H2 & _)].
  - destruct (run_ready_job_agree _ _ _ _ _ _ _ _ _ Hn Hag H1 H2)
      as (_ & _ & Hag'). by eapply IH.
  - by destruct (run_ready_job_agree _ _ _ _ _ _ _ _ _ Hn Hag H1 H2)
      as (_ & ? & _).
  - by destruct (run_ready_job_agree _ _ _ _ _ _ _ _ _ Hn Hag H1 H2)
      as (? & _ & _).
  - by destruct (run_ready_job_agree _ _ _ _ _ _ _ _ _ Hn Hag H1 H2)
      as (? & _ & _).
Qed.

Lemma polled_agree (stg : string) (s1 : @State P1) (s2 : @State P2) :
  agree s1 s2 → agree (polled stg s1) (polled stg s2).
Proof.
  intros (Hj & Hc & Hd). unfold polled, agree. rewrite !emit_eq.
  cbn [snd jobs completed_jobs trace].
  split_and!; [done..|]. by rewrite !dispatched_app, Hd.
Qed.

(** The loop of one stage in both runs. *)
Lemma while_ready_agree (fuel : nat) (stg : string)
    (s1 : @State P1) (s2 : @State P2) (r1 r2 : result unit)
    (s1' : @State P1) (s2' : @State P2) :
  agree s1 s2 →
  while_ready fuel policy stg s1 = Some (r1, s1') →
  while_ready fuel policy stg s2 = Some (r2, s2') →
  r1 = Ok () ∧ r2 = Ok () ∧ agree s1' s2'.
Proof.
  revert s1 s2. induction fuel as [|fuel IH]; intros s1 s2 Hag;
    rewrite !while_ready_unfold;
    pose proof (get_ready_agree _ _ stg (completed_jobs s1) (proj1 Hag))
      as Hready;
    rewrite (proj1 (proj2 Hag)) in Hready at 2;
    destruct Hready as [|j1 j2 ready1 ready2 Hj Hready].
  - intros [= <- <-] [= <- <-]. split_and!; [done..|]. by apply polled_agree.
  - done.
  - intros [= <- <-] [= <- <-]. split_and!; [done..|]. by apply polled_agree.
  - destruct (for_ready_jobs policy stg (j1 :: ready1) (polled stg s1))
      as [q1 t1] eqn:H1.
    destruct (for_ready_jobs policy stg (j2 :: ready2) (polled stg s2))
      as [q2 t2] eqn:H2.
    destruct (for_ready_jobs_agree stg (j1 :: ready1) (j2 :: ready2)
                _ _ _ _ _ _ ltac:(by constructor)
                (polled_agree stg _ _ Hag) H1 H2) as (-> & -> & Hag').
    by apply IH.
Qed.

(** The loop over the stages in both runs. *)
Lemma for_stages_agree (fuel : nat) (stages : list string)
    (s1 : @State P1) (s2 : @State P2) (r1 r2 : result unit)
    (s1' : @State P1) (s2' : @State P2) :
  agree s1 s2 →
  for_stages fuel policy stages s1 = Some (r1, s1') →
  for_stages fuel policy stages s2 = Some (r2, s2') →
  r1 = Ok () ∧ r2 = Ok () ∧ agree s1' s2'.
Proof.
  revert s1 s2. induction stages as [|stg stages IH]; intros s1 s2 Hag; simpl.
  { by intros [= <- <-] [= <- <-]. }
  assert (filter (λ j, stage j = stg) (jobs s1) = []
          ↔ filter (λ j, stage j = stg) (jobs s2) = []) as Hsame.
  { destruct Hag as (Hj & _). clear -Hj.
    induction Hj as [|j1 j2 js1 js2 (_ & Hs & _) _ IHj]; [done|].
    rewrite !filter_cons, Hs. destruct (decide _); [done|]. exact IHj. }
  destruct (filter _ (jobs s1)) as [|a1 l1], (filter _ (jobs s2)) as [|a2 l2].
  - by apply IH.
  - discriminate (proj1 Hsame eq_refl).
  - discriminate (proj2 Hsame eq_refl).
  - destruct (while_ready fuel policy stg s1) as [[q1 t1]|] eqn:H1; [|done].
    destruct (while_ready fuel policy stg s2) as [[q2 t2]|] eqn:H2;
      [|by destruct q1].
    destruct (while_ready_agree _ _ _ _ _ _ _ _ Hag H1 H2) as (-> & -> & Hag').
    by apply IH.
Qed.

End Pair.

(** Two runs of one configuration under ["continue"] that both get past
    the opening of the database agree at their end. *)
Lemma orchestrator_agree {P1 P2 : Plugins} (fuel : nat) (cfg : PipelineConfig)
    (w1 : @World P1) (w2 : @World P2)
    (x1 x2 : option Engine * option Handle)
    (s1 : @State P1) (s2 : @State P2) (r1 r2 : result unit)
    (st1 : @State P1) (st2 : @State P2) :
  on_error cfg = "continue" →
  open_database cfg (initial_state w1) = (Ok x1, s1) →
  open_database cfg (initial_state w2) = (Ok x2, s2) →
  orchestrator fuel cfg w1 = Some (r1, st1) →
  orchestrator fuel cfg w2 = Some (r2, st2) →
  agree st1 st2.
Proof.
  intros Hpol Ho1 Ho2 H1 H2.
  assert (is_continue (on_error cfg) = true) as Hcont
    by (by apply bool_decide_eq_true_2).
  assert (Hquiet : ∀ db_engine duckdb_con,
            dispatched match cleanup_action db_engine duckdb_con with
                       | CloseThroughEngine eng h => [EvEngineClose eng h]
                       | CloseQuietly h => [EvLegacyClose h]
                       | NoCleanup => []
                       end = []).
  { intros eng con. by destruct (cleanup_action eng con). }
  assert (Hstart : ∀ (P : Plugins) (w : @World P) x s,
            open_database cfg (initial_state w) = (Ok x, s) →
            jobs s = [] ∧ completed_jobs s = ∅ ∧ dispatched (trace s) = []).
  { intros P w [eng con] s Ho.
    apply open_database_spec in Ho as (Hj & Hc & Ht).
    split; [done|]. split; [done|]. destruct (warehouse cfg).
    - by destruct Ht as (e0 & _ & ->).
    - by destruct Ht as (_ & _ & ->). }
  apply orchestrator_spec in H1
    as [(e & Ho & _)|(eng1 & con1 & t1 & q1 & u1 & rc1 & Ho & Hr1 & Hc1 & _)];
    rewrite Ho1 in Ho; [done|]. injection Ho as -> <-.
  apply orchestrator_spec in H2
    as [(e & Ho & _)|(eng2 & con2 & t2 & q2 & u2 & rc2 & Ho & Hr2 & Hc2 & _)];
    rewrite Ho2 in Ho; [done|]. injection Ho as -> <-.
  apply Hstart in Ho1 as (Hj1 & Hcs1 & Hd1).
  apply Hstart in Ho2 as (Hj2 & Hcs2 & Hd2).
  apply cleanup_spec in Hc1 as (Hcj1 & Hcc1 & Hct1).
  apply cleanup_spec in Hc2 as (Hcj2 & Hcc2 & Hct2).
  unfold agree.
  rewrite Hcj1, Hcj2, Hcc1, Hcc2, Hct1, Hct2, !dispatched_app, !Hquiet,
    !List.app_nil_r.
  apply run_pipeline_spec in Hr1
    as [(Hjc & _ & ->)
       |[(Hjc & e & Hg & _ & ->)
        |(Hjc & g & v1 & Hg & Hfor1 & -> & -> & ->)]];
  apply run_pipeline_spec in Hr2
    as [(Hjc' & _ & ->)
       |[(Hjc' & e' & Hg' & _ & ->)
        |(Hjc' & g' & v2 & Hg' & Hfor2 & -> & -> & ->)]];
    try done; try congruence.
  - by rewrite Hj1, Hj2, Hcs1, Hcs2, Hd1, Hd2.
  - by rewrite Hj1, Hj2, Hcs1, Hcs2, Hd1, Hd2.
  - eapply (for_stages_agree (on_error cfg) Hcont);
      [|exact Hfor1|exact Hfor2].
    split_and!; simpl; [|done|by rewrite Hd1, Hd2].
    apply Forall_Forall2_diag, Forall_forall. intros j _.
    apply same_progress_refl.
Qed.

End LockstepFacts.

(** ** The dependents of a failed job *)

Module DependentsFacts.
Import Py Dag Run Sched DagFacts RunFacts SchedFacts.

Section Dependents.
Context `{P : Plugins}.

(** In a schedulable pipeline every job of a run that returns normally was
    taken up by the driver, and none is left [pending] or [running]. *)
Lemma every_job_taken_up (fuel : nat) (cfg : PipelineConfig) (w : World)
    (st : State) (rank : string → nat) (j : Job) :
  NoDup (map fst (jobs_config cfg)) →
  schedulable (stages_list cfg) (create_jobs cfg) rank →
  orchestrator fuel cfg w = Some (Ok (), st) →
  j ∈ jobs st →
  EvDispatch (name j) ∈ trace st ∧ name j ∈ completed_jobs st
  ∧ (status j = success ∨ status j = failed).
Proof.
  intros Hnd Hsch H Hj.
  pose proof (orchestrator_live _ _ _ _ _ Hnd Hsch H) as (_ & Hlive).
  destruct (Hlive j Hj) as (Hc & Hst).
  apply orchestrator_books in H as (_ & Hbooks & _); [|done].
  split_and!; [|done|].
  - destruct (Hbooks j Hj) as [(_ & _ & Hfresh)|(o & Hab & _)]; [done|].
    assert (EvDispatch (name j) ∈ about (name j) (trace st)) as Hin.
    { rewrite Hab. destruct o; apply list_elem_of_here. }
    by apply elem_of_about in Hin as [_ ?].
  - destruct Hst as [[? _]|(_ & ? & _)]; [by left|by right].
Qed.

End Dependents.

End DependentsFacts.

(** * The specification's claims *)

Module Claims.
Import Text Py Expand Dag Run Examples.
Import Sched Flow Tables Substitution Lockstep Reopening TwoRuns.
Import TextFacts ExpandFacts DagFacts RunFacts.
Import TablesFacts SubstitutionFacts LockstepFacts DependentsFacts.

(** C1, as amended.  For every configuration value and every
    environment, expansion raises no error, keeps the nesting of the value,
    its keys and its scalars other than text, and rewrites every string
    scalar in two passes.  The first pass reads the text from the left and
    replaces each [${NAME}], [NAME] a non-empty run of characters other
    than the closing brace, by the environment's value of [NAME] when
    [NAME] is a key of the environment and by the empty text when it is
    not; the second pass does the same with each [{NAME}], [NAME] a
    non-empty run of letters, digits and underscores, of the text the first
    pass returned, so that a [{NAME}] brought in by a substituted value is
    replaced as well; every other character is kept.  In particular, in a
    string made of literal text without dollar sign and opening brace and
    of placeholders, where the values of the dollar placeholders hold no
    opening brace, each placeholder is replaced by the value of its name,
    or by the empty text when its name is not a key. *)
Theorem expand_substitutes_placeholders (env : Env) (obj : pyobj) :
  skeleton (_expand obj env) = skeleton obj
  ∧ Forall2 (λ s out, ∀ out', out' = out ↔ expands_to env s out')
      (scalars obj) (scalars (_expand obj env))
  ∧ ∀ ts : list (list segment),
      scalars obj = map render ts →
      Forall (λ t, forallb (seg_ok env) t = true) ts →
      scalars (_expand obj env) = map (substituted env) ts.
Proof.
  split; [apply skeleton_expand|]. split.
  - rewrite scalars_expand. apply Forall2_fmap_r, Forall_Forall2_diag.
    apply Forall_forall. intros s _ out'. symmetry. apply expand_str_expands.
  - intros ts Hsc Hok.
    rewrite scalars_expand, Hsc, map_map. clear Hsc.
    induction Hok as [|t ts Ht _ IH]; [done|]. simpl.
    rewrite expand_str_template by done. by rewrite IH.
Qed.

Lemma expand_substitutes_placeholders_witness :
  scalars (_expand sample_config home_env)
  = map (substituted home_env) sample_templates.
Proof.
  apply (proj2 (proj2 (expand_substitutes_placeholders home_env sample_config))).
  - reflexivity.
  - repeat constructor.
Defined.

(** C1 as stated fails: a placeholder whose name is not a key of the
    environment is replaced by the empty text, not left in place; and a
    dollar placeholder whose value is itself a brace placeholder does not
    end as that value, which the second pass replaces in turn. *)
Lemma unknown_placeholder_erased :
  (∅ : Env) !! "NAME" = None
  ∧ _expand (PStr "a{NAME}b${NAME}c") ∅ = PStr "abc"
  ∧ _expand (PStr "a{NAME}b${NAME}c") ∅ ≠ PStr "a{NAME}b${NAME}c"
  ∧ chained_env !! "A" = Some "{B}"
  ∧ _expand (PStr "${A}") chained_env = PStr "x"
  ∧ _expand (PStr "${A}") chained_env ≠ PStr "{B}".
Proof. split_and!; [reflexivity|reflexivity|discriminate|reflexivity|reflexivity|discriminate]. Qed.

(** C2.  [get_ready_jobs] returns exactly the jobs of the job dictionary,
    in its order, whose stage is the argument, whose status is pending and
    whose dependencies are all in the completed-set; the stage of a
    dependency plays no part. *)
Theorem get_ready_jobs_exact (jobs : list Job) (stg : string)
    (completed : gset string) :
  get_ready_jobs jobs stg completed
  = filter (λ job, stage job = stg ∧ status job = pending
                   ∧ Forall (λ dep, dep ∈ completed) (depends_on job)) jobs
  ∧ ∀ job, job ∈ get_ready_jobs jobs stg completed ↔
           job ∈ jobs ∧ stage job = stg ∧ status job = pending
           ∧ ∀ dep, dep ∈ depends_on job → dep ∈ completed.
Proof.
  split; [apply get_ready_jobs_filter|]. intros job. apply get_ready_jobs_elem.
Qed.

(** C6, as amended.  Expanding an expanded configuration again gives the
    same configuration whenever the expanded configuration holds no
    placeholder any more. *)
Theorem expand_idempotent_when_resolved (obj : pyobj) (env : Env) :
  cfg_placeholder_free (_expand obj env) = true →
  _expand (_expand obj env) env = _expand obj env.
Proof. apply expand_fixed. Qed.

Lemma expand_idempotent_when_resolved_witness :
  _expand (_expand sample_config home_env) home_env
  = _expand sample_config home_env.
Proof. apply expand_idempotent_when_resolved. reflexivity. Defined.

(** C6 as stated fails: a value that is itself a placeholder is
    substituted by the second expansion. *)
Lemma expand_twice_differs :
  _expand (PStr "{A}") chained_env = PStr "{B}"
  ∧ _expand (_expand (PStr "{A}") chained_env) chained_env = PStr "x"
  ∧ _expand (_expand (PStr "{A}") chained_env) chained_env
    ≠ _expand (PStr "{A}") chained_env.
Proof. split; [reflexivity|]. split; [reflexivity|]. discriminate. Qed.

Section Pipeline.
Context `{P : Plugins}.

(** C4.  Building the dependency graph raises exactly when some job
    depends on a name that is not a key of the job set; the error is the
    [ValueError] that names the job and the unknown dependency; when every
    dependency is known the graph is built; and in the driver the failure
    comes out of the try block with the state untouched, before any job is
    taken up. *)
Theorem graph_construction (jobs : list Job) :
  ((∃ e, _build_graph jobs = Raise e) ↔
   ∃ job dep, job ∈ jobs ∧ dep ∈ depends_on job ∧ dep ∉ job_names jobs)
  ∧ (∀ e, _build_graph jobs = Raise e →
       ∃ job dep, job ∈ jobs ∧ dep ∈ depends_on job ∧ (dep ∉ job_names jobs)
         ∧ e = ValueError ("Job '" +:+ name job +:+ "' depends on unknown job '"
                           +:+ dep +:+ "'"))
  ∧ (Forall (λ job, Forall (λ dep, dep ∈ job_names jobs) (depends_on job)) jobs →
     ∃ graph, _build_graph jobs = Ok graph)
  ∧ (∀ fuel cfg duckdb_con st e,
       create_jobs cfg = jobs → jobs_config cfg ≠ [] →
       _build_graph jobs = Raise e →
       run_pipeline fuel cfg duckdb_con st = Some (Raise e, st)).
Proof.
  unfold _build_graph. split_and!.
  - split.
    + intros [e He]. apply build_from_raise in He as (job & dep & ? & ? & ? & _).
      by exists job, dep.
    + intros (job & dep & Hj & Hd & Hn).
      destruct (build_from (job_names jobs) jobs ∅) as [g|e] eqn:Hb;
        [|by exists e].
      apply build_from_ok_inv in Hb. rewrite Forall_forall in Hb.
      specialize (Hb job Hj). rewrite Forall_forall in Hb.
      destruct Hn. by apply Hb.
  - intros e He. by apply build_from_raise in He.
  - apply build_from_ok.
  - intros fuel cfg duckdb_con st e <- Hne He. unfold run_pipeline.
    destruct (jobs_config cfg); [done|].
    unfold _build_graph. by rewrite He.
Qed.


(** C10.  At the cleanup block a connection handle always comes with an
    engine, so the cleanup goes through the engine's [close]; the branch
    that calls the undefined [close_quietly] is never taken, in no run. *)
Theorem legacy_close_unreachable (fuel : nat) (cfg : PipelineConfig) (w : World) :
  (∀ st db_engine duckdb_con st',
     open_database cfg st = (Ok (db_engine, duckdb_con), st') →
     (duckdb_con ≠ None → db_engine ≠ None)
     ∧ ∀ h, cleanup_action db_engine duckdb_con ≠ CloseQuietly h)
  ∧ ∀ r st, orchestrator fuel cfg w = Some (r, st) →
      ∀ h, EvLegacyClose h ∉ trace st.
Proof.
  split.
  - intros st db_engine duckdb_con st' Ho.
    apply open_database_spec in Ho as (_ & _ & Hs).
    destruct (warehouse cfg).
    + destruct Hs as (eng & -> & _). split; [done|].
      intros h. by destruct duckdb_con.
    + by destruct Hs as (-> & -> & _).
  - intros r st Hrun h Hin.
    assert (EvLegacyClose h ∈ List.filter is_close (trace st)) as Hc.
    { apply list_elem_of_In, List.filter_In. split; [by apply list_elem_of_In|done]. }
    apply orchestrator_closes in Hrun
      as [[Hno _]|(eng' & h' & st0' & pre & _ & Ht & Hpre)].
    + rewrite Hno in Hc. by inversion Hc.
    + rewrite Ht, List.filter_app, Hpre in Hc. simpl in Hc.
      apply list_elem_of_singleton in Hc. done.
Qed.

(** C3, as amended.  When the exception of a job reaches the driver:
    under a policy other than ["continue"] (["stop"], ["skip"], anything
    else) the try block ends with that exception and nothing happens after
    the failure, so no later job is taken up, and the run ends with an
    exception after at most the closing of the connection.  Under
    ["continue"] the job ends as [failed] and is in the completed-set; the
    inner loop of a stage never raises, and it ends only when every pending
    job of the stage still has a dependency outside the completed-set; the
    failure holds no job back: two runs of the configuration that got past
    the opening of the database, whatever their collaborators do and
    whichever jobs raise in either, take up the same jobs in the same
    order, end with the same completed-set and leave the same jobs
    pending, so that a job depending on the failed job is executed exactly
    when it would be, had that job succeeded; and when every dependency of
    every job is a job of the same or of an earlier stage and the
    dependencies form no cycle, every job depending on the failed job has
    been executed when the run returns. *)
Theorem error_policy (fuel : nat) (cfg : PipelineConfig) :
  (on_error cfg ≠ "continue" →
   (∀ duckdb_con st0 r st pre n e post,
      List.filter is_failure (trace st0) = [] →
      run_pipeline fuel cfg duckdb_con st0 = Some (r, st) →
      trace st = pre ++ EvFailed n e :: post →
      r = Raise e ∧ post = [])
   ∧ (∀ w r st pre n e post,
        orchestrator fuel cfg w = Some (r, st) →
        trace st = pre ++ EvFailed n e :: post →
        is_raise r = true
        ∧ Forall (λ ev, is_close ev = true) post
        ∧ (post = [] → r = Raise e)))
  ∧ (on_error cfg = "continue" →
     (∀ w r st n e,
        NoDup (map fst (jobs_config cfg)) →
        orchestrator fuel cfg w = Some (r, st) →
        EvFailed n e ∈ trace st →
        n ∈ completed_jobs st
        ∧ ∃ j, j ∈ jobs st ∧ name j = n ∧ status j = failed)
     ∧ (∀ stg st r st',
          while_ready fuel (on_error cfg) stg st = Some (r, st') →
          r = Ok ()
          ∧ ∀ j, j ∈ jobs st' → stage j = stg → status j = pending →
                 ∃ dep, dep ∈ depends_on j ∧ dep ∉ completed_jobs st')
     ∧ (∀ (P' : Plugins) (w : @World P) (w' : @World P') x x'
          (st0 : @State P) (st0' : @State P') r r'
          (st : @State P) (st' : @State P'),
          @open_database P cfg (@initial_state P w) = (Ok x, st0) →
          @open_database P' cfg (@initial_state P' w') = (Ok x', st0') →
          @orchestrator P fuel cfg w = Some (r, st) →
          @orchestrator P' fuel cfg w' = Some (r', st') →
          dispatched (trace st) = dispatched (trace st')
          ∧ completed_jobs st = completed_jobs st'
          ∧ Forall2 same_progress (jobs st) (jobs st'))
     ∧ (∀ w st rank n e,
          NoDup (map fst (jobs_config cfg)) →
          schedulable (stages_list cfg) (create_jobs cfg) rank →
          orchestrator fuel cfg w = Some (Ok (), st) →
          EvFailed n e ∈ trace st →
          ∀ j, j ∈ jobs st → n ∈ depends_on j →
               EvDispatch (name j) ∈ trace st
               ∧ name j ∈ completed_jobs st
               ∧ (status j = success ∨ status j = failed))).
Proof.
  split.
  - intros Hpol.
    assert (is_continue (on_error cfg) = false) as Hc
      by (by apply bool_decide_eq_false_2).
    split.
    + intros. by eapply run_pipeline_failure.
    + intros. by eapply orchestrator_failure.
  - intros Hpol. split_and!.
    + intros. by eapply continue_marks_failed.
    + intros stg st r st' Hw.
      destruct (while_ready_drains _ _ _ _ _ _ Hw) as [Hok Hdrain].
      assert (r = Ok ()) as -> by (apply Hok; by rewrite Hpol).
      split; [done|]. by apply Hdrain.
    + intros P' w w' x x' st0 st0' r r' st st' Ho Ho' Hrun Hrun'.
      destruct (orchestrator_agree fuel cfg w w' x x' st0 st0' r r' st st'
                  Hpol Ho Ho' Hrun Hrun') as (Hj & Hc & Hd).
      done.
    + intros w st rank n e Hnd Hsch Hrun _ j Hj _.
      by eapply every_job_taken_up.
Qed.


(** C5.  When a stage is made of two jobs that depend on each other, the
    topological sort of that stage raises the circular-dependency error,
    whereas the readiness loop does not: as long as neither job has been
    taken up, [get_ready_jobs] returns the empty list for the stage and the
    stage's inner loop ends at once without raising; the run ends; every
    poll of the stage in the run came back empty; and both jobs are still
    pending at the end. *)
Theorem mutual_dependency_stalls (fuel : nat) (cfg : PipelineConfig)
    (stg : string) (a b : Job) :
  NoDup (map fst (jobs_config cfg)) →
  filter (λ j, stage j = stg) (create_jobs cfg) = [a; b] →
  name b ∈ depends_on a → name a ∈ depends_on b →
  length (jobs_config cfg) < fuel →
  (∀ fuel', topological_sort_within_stage fuel' (create_jobs cfg) stg
            = Some (Raise (ValueError ("Circular dependency detected in stage '"
                                       +:+ stg +:+ "'"))))
  ∧ (∀ st fuel' policy,
       blocked_pair stg a b st →
       get_ready_jobs (jobs st) stg (completed_jobs st) = []
       ∧ while_ready fuel' policy stg st = Some (Ok (), polled stg st))
  ∧ (∀ duckdb_con st0 g,
       _build_graph (create_jobs cfg) = Ok g →
       polls_empty stg (trace st0) →
       ∃ r st, run_pipeline fuel cfg duckdb_con st0 = Some (r, st)
               ∧ blocked_pair stg a b st ∧ polls_empty stg (trace st))
  ∧ (∀ w, ∃ r st,
       orchestrator fuel cfg w = Some (r, st)
       ∧ polls_empty stg (trace st)
       ∧ ∀ j, j ∈ jobs st → stage j = stg → status j = pending).
Proof.
  intros Hnd Hf Hab Hba Hfuel. split_and!.
  - intros fuel'. apply (two_cycle_no_order fuel' _ stg a b); [|done..].
    by rewrite job_names_create.
  - intros st fuel' policy Hb. by apply (blocked_loop stg a b).
  - intros duckdb_con st0 g Hg Hp.
    destruct (run_pipeline_terminates fuel cfg duckdb_con st0 Hfuel)
      as (r & st & Hrun).
    exists r, st. split; [done|]. by eapply blocked_run.
  - intros w. destruct (orchestrator_terminates fuel cfg w Hfuel)
      as (r & st & Hrun).
    exists r, st. split; [done|]. by eapply blocked_orchestrator.
Qed.

End Pipeline.

Lemma graph_construction_witness :
  @run_pipeline quiet_plugins 5 unknown_dep_config (Some 1)
    (@initial_state quiet_plugins ())
  = Some (Raise (ValueError "Job 'A' depends on unknown job 'nowhere'"),
          @initial_state quiet_plugins ()).
Proof.
  apply (proj2 (proj2 (proj2
           (graph_construction (P := quiet_plugins)
              (create_jobs unknown_dep_config))))).
  - reflexivity.
  - discriminate.
  - reflexivity.
Defined.


(** C9 fails on a pipeline whose transform job is run by [dbt_runner].
    The driver opens connection 1; the runner closes it and opens
    connection 2, which the executor keeps; the [finally] block then calls
    the engine's [close] on connection 1, the one the driver still holds.
    At the end of the run connection 1 has been closed twice, once of them
    past the engine, and connection 2 is open. *)
Theorem reopened_connection_left_open :
  ∃ st, @orchestrator dbt_plugins 5 dbt_config [] = Some (Ok (), st)
        ∧ world st = [Opened 1; Closed 1; Opened 2; Closed 1]
        ∧ exec_con st = Some 2
        ∧ map (λ j, (name j, status j)) (jobs st) = [("models", success)]
        ∧ trace st = [EvConnect "duckdb" (Some 1);
                      EvReady "transform" ["models"];
                      EvDispatch "models";
                      EvStatus "models" running;
                      EvStatus "models" success;
                      EvCompleted "models";
                      EvReady "transform" [];
                      EvEngineClose "duckdb" 1].
Proof. eexists. split; [vm_compute; reflexivity|]. by split_and!. Qed.

(** C3 as stated fails: under ["continue"] the extract job [F] raises, ends
    as [failed] and enters the completed-set, yet [B], which depends on it,
    is never taken up and stays pending.  The failure is not what holds [B]
    back: its stage is worked off before the stage of [F], and [B] is left
    pending in the same way in the run where [F] succeeds. *)
Lemma dependent_of_failed_job_not_run :
  summary (@orchestrator failing_plugins 5 stall_config ())
  = Some (Ok (),
          [("B", ["F"], pending); ("F", [], failed)],
          ["F"],
          [EvConnect "duckdb" (Some 1);
           EvReady "first" [];
           EvReady "second" ["F"];
           EvDispatch "F";
           EvStatus "F" running;
           EvStatus "F" failed;
           EvFailed "F" (PluginError 1);
           EvStatus "F" failed;
           EvCompleted "F";
           EvReady "second" [];
           EvEngineClose "duckdb" 1])
  ∧ summary (@orchestrator quiet_plugins 5 stall_config ())
    = Some (Ok (),
            [("B", ["F"], pending); ("F", [], success)],
            ["F"],
            [EvConnect "duckdb" (Some 1);
             EvReady "first" [];
             EvReady "second" ["F"];
             EvDispatch "F";
             EvStatus "F" running;
             EvStatus "F" success;
             EvCompleted "F";
             EvReady "second" [];
             EvEngineClose "duckdb" 1]).
Proof. split; vm_compute; reflexivity. Qed.

Lemma error_policy_witness :
  (is_raise stop_result = true
   ∧ Forall (λ ev, is_close ev = true) [EvEngineClose "duckdb" 1]
   ∧ ([EvEngineClose "duckdb" 1] = [] → stop_result = Raise unrouted_error))
  ∧ (dispatched (trace failing_run) = dispatched (trace quiet_run)
     ∧ completed_jobs failing_run = completed_jobs quiet_run
     ∧ Forall2 same_progress (jobs failing_run) (jobs quiet_run)).
Proof.
  split.
  - apply (proj2 (proj1 (error_policy (P := quiet_plugins) 5 stop_config)
                    ltac:(discriminate))
             () stop_result stop_state
             [EvConnect "duckdb" (Some 1); EvReady "extract" ["A"];
              EvDispatch "A"; EvStatus "A" running; EvStatus "A" success;
              EvCompleted "A"; EvReady "extract" []; EvReady "s2" ["F"; "G"];
              EvDispatch "F"]
             "F" unrouted_error [EvEngineClose "duckdb" 1]).
    + vm_compute. reflexivity.
    + vm_compute. reflexivity.
  - eapply (proj1 (proj2 (proj2
              (proj2 (error_policy (P := failing_plugins) 5 stall_config)
                 eq_refl))) quiet_plugins () () _ _ _ _ (Ok ()) (Ok ())).
    + reflexivity.
    + reflexivity.
    + vm_compute. reflexivity.
    + vm_compute. reflexivity.
Defined.



Lemma mutual_dependency_stalls_witness :
  ∃ r st,
    @orchestrator quiet_plugins 5 cycle_config () = Some (r, st)
    ∧ polls_empty "extract" (trace st)
    ∧ ∀ j, j ∈ jobs st → stage j = "extract" → status j = pending.
Proof.
  apply (mutual_dependency_stalls (P := quiet_plugins) 5 cycle_config "extract"
           (new_job "A" "extract" "r" "" ["B"] [] None)
           (new_job "B" "extract" "r" "" ["A"] [] None)).
  - exact (@bool_decide_unpack
             (NoDup (map fst (jobs_config cycle_config))) _ I).
  - reflexivity.
  - simpl. apply list_elem_of_singleton. reflexivity.
  - simpl. apply list_elem_of_singleton. reflexivity.
  - simpl. lia.
Defined.

End Claims.

(** * Further properties of the code *)

Module Extras.
Import Text Py Expand Dag Run Sched Topo Vars Examples Samples.
Import DagFacts RunFacts SchedFacts TopoFacts VarsFacts.

Section Driver.
Context `{P : Plugins}.

(** X1.  In every run, a job is taken up by the driver only after each of
    the jobs it depends on has been added to the completed-set: in the
    trace, the completion of every dependency comes before the dispatch of
    the job. *)
Theorem dependencies_complete_first (fuel : nat) (cfg : PipelineConfig)
    (w : World) (r : result unit) (st : State) :
  NoDup (map fst (jobs_config cfg)) →
  orchestrator fuel cfg w = Some (r, st) →
  ∀ pre n post, trace st = pre ++ EvDispatch n :: post →
    ∀ j dep, j ∈ create_jobs cfg → name j = n → dep ∈ depends_on j →
             EvCompleted dep ∈ pre.
Proof.
  intros Hnd H. by apply (deps_before_orchestrator fuel cfg w r st).
Qed.

(** X2.  When every job belongs to a declared stage and the dependencies
    form no cycle and never point to a later stage, a run that returns
    normally has worked off every job: each job is in the completed-set and
    ended as [success], or, under ["continue"], as [failed] with its
    failure in the trace; no job is left pending. *)
Theorem every_job_runs (fuel : nat) (cfg : PipelineConfig) (w : World)
    (st : State) (rank : string → nat) :
  NoDup (map fst (jobs_config cfg)) →
  schedulable (stages_list cfg) (create_jobs cfg) rank →
  orchestrator fuel cfg w = Some (Ok (), st) →
  job_names (jobs st) = map fst (jobs_config cfg)
  ∧ ∀ j, j ∈ jobs st →
      name j ∈ completed_jobs st
      ∧ ((status j = success ∧ ∀ e, EvFailed (name j) e ∉ trace st)
         ∨ (on_error cfg = "continue" ∧ status j = failed
            ∧ ∃ e, EvFailed (name j) e ∈ trace st)).
Proof. apply orchestrator_live. Qed.

(** X3.  An exception that leaves [orchestrator] is the one raised while
    the database was opened, or the one of the graph construction, or one
    raised by the engine's [close], or, under a policy other than
    ["continue"], the exception of a job whose failure the trace shows.
    The report never makes a run fail, and under ["continue"] no job
    does. *)
Theorem exceptions_of_a_run (fuel : nat) (cfg : PipelineConfig) (w : World)
    (e : exn) (st : State) :
  orchestrator fuel cfg w = Some (Raise e, st) →
  (∃ st0, open_database cfg (initial_state w) = (Raise e, st0))
  ∨ _build_graph (create_jobs cfg) = Raise e
  ∨ (∃ eng h w0 w1, engine_close eng h w0 = (Raise e, w1))
  ∨ (on_error cfg ≠ "continue" ∧ ∃ n, EvFailed n e ∈ trace st).
Proof. apply run_exceptions. Qed.

(** X7.  The processors of a job are applied from left to right: running
    the list [ps ++ qs] on a table is running [ps] and then [qs] on the
    table that [ps] returned; a table dropped or an exception raised in
    [ps] ends the chain; and a table that comes out has the name and the
    meta data of the table that went in. *)
Theorem processors_compose (table : Table) (ps qs : list proc_desc)
    (st : State) :
  _apply_processors table (ps ++ qs) st
  = match _apply_processors table ps st with
    | (Ok (Some t), st1) => _apply_processors t qs st1
    | (Ok None, st1) => (Ok None, st1)
    | (Raise e, st1) => (Raise e, st1)
    end
  ∧ ∀ t st1, _apply_processors table ps st = (Ok (Some t), st1) →
             t_name t = t_name table ∧ t_meta t = t_meta table.
Proof.
  split; [apply apply_processors_app|]. intros t st1.
  apply apply_processors_keeps.
Qed.

End Driver.

Lemma dependencies_complete_first_witness :
  EvCompleted "B"
  ∈ [EvConnect "duckdb" (Some 1); EvReady "first" ["A"];
     EvDispatch "A"; EvStatus "A" running; EvStatus "A" success;
     EvCompleted "A"; EvReady "first" ["B"];
     EvDispatch "B"; EvStatus "B" running; EvStatus "B" success;
     EvCompleted "B"; EvReady "first" []; EvReady "second" ["C"]].
Proof.
  apply (dependencies_complete_first (P := quiet_plugins) 5 diamond_config ()
           diamond_result diamond_state)
    with (n := "C")
         (post := [EvStatus "C" running; EvStatus "C" success;
                   EvCompleted "C"; EvReady "second" [];
                   EvEngineClose "duckdb" 1])
         (j := new_job "C" "second" "r" "reader" ["A"; "B"] [] None).
  - exact (@bool_decide_unpack
             (NoDup (map fst (jobs_config diamond_config))) _ I).
  - vm_compute. reflexivity.
  - vm_compute. reflexivity.
  - vm_compute. do 2 apply list_elem_of_further. apply list_elem_of_here.
  - reflexivity.
  - simpl. apply list_elem_of_further, list_elem_of_here.
Defined.

Lemma diamond_schedulable :
  schedulable (stages_list diamond_config) (create_jobs diamond_config)
    diamond_rank.
Proof.
  assert (Hidx1 : stage_index ["first"; "second"] "first" = Some 0)
    by reflexivity.
  assert (Hidx2 : stage_index ["first"; "second"] "second" = Some 1)
    by reflexivity.
  intros j Hj. vm_compute in Hj.
  repeat (apply elem_of_cons in Hj as [->|Hj]); [| | |by inversion Hj]; simpl.
  - split; [set_solver|]. intros dep ->%list_elem_of_singleton.
    exists (new_job "A" "first" "r" "reader" [] [] None).
    split_and!; [vm_compute; set_solver|done|vm_compute; lia|].
    exists 0, 0. by split_and!.
  - split; [set_solver|]. by intros dep ?%elem_of_nil.
  - split; [set_solver|]. intros dep Hd.
    repeat (apply elem_of_cons in Hd as [->|Hd]); [| |by inversion Hd].
    + exists (new_job "A" "first" "r" "reader" [] [] None).
      split_and!; [vm_compute; set_solver|done|vm_compute; lia|].
      exists 0, 1. split_and!; [done|done|lia].
    + exists (new_job "B" "first" "r" "reader" ["A"] [] None).
      split_and!; [vm_compute; set_solver|done|vm_compute; lia|].
      exists 0, 1. split_and!; [done|done|lia].
Qed.

Lemma every_job_runs_witness :
  job_names (jobs diamond_state) = ["B"; "A"; "C"]
  ∧ ∀ j, j ∈ jobs diamond_state →
      name j ∈ completed_jobs diamond_state
      ∧ ((status j = success
          ∧ ∀ e, EvFailed (name j) e ∉ trace diamond_state)
         ∨ (on_error diamond_config = "continue" ∧ status j = failed
            ∧ ∃ e, EvFailed (name j) e ∈ trace diamond_state)).
Proof.
  apply (every_job_runs (P := quiet_plugins) 5 diamond_config ()
           diamond_state diamond_rank).
  - exact (@bool_decide_unpack
             (NoDup (map fst (jobs_config diamond_config))) _ I).
  - exact diamond_schedulable.
  - vm_compute. reflexivity.
Defined.

Lemma exceptions_of_a_run_witness :
  (∃ st0, @open_database quiet_plugins stop_config
            (@initial_state quiet_plugins ()) = (Raise unrouted_error, st0))
  ∨ _build_graph (create_jobs stop_config) = Raise unrouted_error
  ∨ (∃ eng h w0 w1,
       @engine_close quiet_plugins eng h w0 = (Raise unrouted_error, w1))
  ∨ (on_error stop_config ≠ "continue"
     ∧ ∃ n, EvFailed n unrouted_error ∈ trace stop_state).
Proof.
  apply (exceptions_of_a_run (P := quiet_plugins) 5 stop_config ()).
  vm_compute. reflexivity.
Defined.

(** X4.  When the graph is built, [graph[dep]] holds exactly the names of
    the jobs that list [dep] among their dependencies, and the graph has a
    key for exactly the names that some job depends on. *)
Theorem graph_holds_dependents (jobs : list Job)
    (graph : gmap string (gset string)) :
  _build_graph jobs = Ok graph →
  ∀ dep, (∀ n, n ∈ dependents graph dep ↔
               ∃ job, job ∈ jobs ∧ name job = n ∧ dep ∈ depends_on job)
         ∧ (is_Some (graph !! dep) ↔
            ∃ job, job ∈ jobs ∧ dep ∈ depends_on job).
Proof. apply build_graph_content. Qed.

Lemma graph_holds_dependents_witness :
  (∀ n, n ∈ dependents diamond_graph "A" ↔
        ∃ job, job ∈ create_jobs diamond_config ∧ name job = n
               ∧ "A" ∈ depends_on job)
  ∧ (is_Some (diamond_graph !! "A") ↔
     ∃ job, job ∈ create_jobs diamond_config ∧ "A" ∈ depends_on job).
Proof.
  apply (graph_holds_dependents (create_jobs diamond_config) diamond_graph).
  vm_compute. reflexivity.
Defined.

(** X5.  When the topological sort of a stage returns an order, that order
    lists every job of the stage exactly once, and every job comes after
    each of its dependencies that belong to the stage. *)
Theorem topological_order_sound (fuel : nat) (jobs : list Job) (stg : string)
    (order : list string) :
  NoDup (job_names jobs) →
  topological_sort_within_stage fuel jobs stg = Some (Ok order) →
  order ≡ₚ stage_job_names jobs stg
  ∧ ∀ pre n post, order = pre ++ n :: post →
      ∀ job dep, job ∈ jobs → name job = n → dep ∈ depends_on job →
                 dep ∈ stage_job_names jobs stg → dep ∈ pre.
Proof. intros Hnd. by apply topo_sound. Qed.

Lemma topological_order_sound_witness :
  ["A"; "B"] ≡ₚ stage_job_names (create_jobs diamond_config) "first"
  ∧ ∀ pre n post, ["A"; "B"] = pre ++ n :: post →
      ∀ job dep, job ∈ create_jobs diamond_config → name job = n →
                 dep ∈ depends_on job →
                 dep ∈ stage_job_names (create_jobs diamond_config) "first" →
                 dep ∈ pre.
Proof.
  apply (topological_order_sound 5).
  - exact (@bool_decide_unpack
             (NoDup (job_names (create_jobs diamond_config))) _ I).
  - vm_compute. reflexivity.
Defined.

(** X6.  With as much fuel as the stage has jobs, the topological sort
    returns; it returns an order exactly when the dependencies between the
    jobs of the stage form no cycle, and raises the circular-dependency
    error exactly when they form one. *)
Theorem topological_sort_detects_cycles (fuel : nat) (jobs : list Job)
    (stg : string) :
  NoDup (job_names jobs) →
  length (stage_job_names jobs stg) ≤ fuel →
  (∃ r, topological_sort_within_stage fuel jobs stg = Some r)
  ∧ ((∃ order, topological_sort_within_stage fuel jobs stg = Some (Ok order))
     ↔ stage_acyclic jobs stg)
  ∧ (topological_sort_within_stage fuel jobs stg
     = Some (Raise (ValueError ("Circular dependency detected in stage '"
                                +:+ stg +:+ "'")))
     ↔ ¬ stage_acyclic jobs stg).
Proof.
  intros Hnd Hfuel.
  destruct (topo_terminates jobs stg Hnd fuel Hfuel) as (r & Hr & He).
  split_and!.
  - by exists r.
  - split.
    + intros [order Ho]. by eapply topo_order_acyclic.
    + by apply topo_acyclic.
  - split.
    + intros Hraise Hac.
      destruct (topo_acyclic jobs stg Hnd fuel Hfuel Hac) as [order Ho].
      congruence.
    + intros Hcyc. rewrite Hr. destruct r as [order|e].
      * destruct Hcyc. eapply topo_order_acyclic; [done|]. by rewrite Hr.
      * by rewrite (He e eq_refl).
Qed.

Lemma topological_sort_detects_cycles_witness :
  (∃ r, topological_sort_within_stage 2 (create_jobs cycle_config) "extract"
        = Some r)
  ∧ ((∃ order, topological_sort_within_stage 2 (create_jobs cycle_config)
                 "extract" = Some (Ok order))
     ↔ stage_acyclic (create_jobs cycle_config) "extract")
  ∧ (topological_sort_within_stage 2 (create_jobs cycle_config) "extract"
     = Some (Raise (ValueError ("Circular dependency detected in stage '"
                                +:+ "extract" +:+ "'")))
     ↔ ¬ stage_acyclic (create_jobs cycle_config) "extract").
Proof.
  apply topological_sort_detects_cycles.
  - exact (@bool_decide_unpack
             (NoDup (job_names (create_jobs cycle_config))) _ I).
  - vm_compute. lia.
Defined.

(** X8.  The environment of a run is the process environment overwritten
    by the pipeline variables: a name that is no pipeline variable keeps
    the value of the process environment, and a pipeline variable gets its
    value expanded against the process environment and the variables
    listed before it, so that variables listed after it are not seen. *)
Theorem environment_is_built_in_order (vars : list (string * var_value))
    (env : Env) :
  NoDup (map fst vars) →
  (∀ k, k ∉ map fst vars → build_env vars env !! k = env !! k)
  ∧ ∀ pre k value post, vars = pre ++ (k, value) :: post →
      build_env vars env !! k = Some (var_entry value (build_env pre env)).
Proof.
  intros Hnd. split; [intros k; apply build_env_other|].
  intros pre k value post ->. by apply build_env_entry.
Qed.

Lemma environment_is_built_in_order_witness :
  build_env sample_vars home_env !! "HOME" = Some "/root"
  ∧ build_env sample_vars home_env !! "BASE" = Some "/root/data"
  ∧ build_env sample_vars home_env !! "OUT" = Some "/root/data/out/".
Proof.
  destruct (environment_is_built_in_order sample_vars home_env) as [Ho He].
  - exact (@bool_decide_unpack (NoDup (map fst sample_vars)) _ I).
  - split_and!.
    + rewrite Ho; [reflexivity|]. vm_compute. set_solver.
    + apply (He [] "BASE" (VText "${HOME}/data")
               [("OUT", VText "{BASE}/out/{LATER}"); ("LATER", VOther "3")]).
      reflexivity.
    + apply (He [("BASE", VText "${HOME}/data")] "OUT"
               (VText "{BASE}/out/{LATER}") [("LATER", VOther "3")]).
      reflexivity.
Defined.

Import Str Dict Engines Cli Flow Reopening.
Import StrFacts EnginesFacts CliFacts FlowFacts.

(** X9.  With the two built-in engines registered, DuckDB first, the
    registry never raises for a configuration whose [type] is missing,
    [None] or a text: it returns the SQLite engine when the type, stripped
    and in lower case, is [sqlite] or [sqlite3], and the DuckDB engine for
    every other type, known or not. *)
Theorem builtin_engine_choice (config : DbConfig) :
  pick_database_engine builtin_engines config
  = Ok (if bool_decide (py_lower (strip (type_or_default config))
                        ∈ ["sqlite"; "sqlite3"])
        then SQLiteEngine else DuckDBEngine).
Proof. apply pick_builtin. Qed.

(** X10.  Whatever is registered: the engine returned is a registered one;
    an engine registered under the normalised type is returned without
    asking any [can_handle]; a class that has just been registered is
    returned for a configuration that names it; with an engine registered
    as [duckdb] the choice never raises; and when it raises, it raises the
    [ValueError] that shows the configuration, no engine is registered as
    [duckdb] and no registered engine accepts the configuration. *)
Theorem engine_choice (reg : list (string * EngineClass)) (config : DbConfig) :
  (∀ cls, pick_database_engine reg config = Ok cls → cls ∈ map snd reg)
  ∧ (∀ cls, dict_get reg (py_lower (strip (type_or_default config))) = Some cls →
            pick_database_engine reg config = Ok cls)
  ∧ (∀ cls, py_lower (strip (type_or_default config)) = ec_name cls →
            pick_database_engine (register_database_engine cls reg) config
            = Ok cls)
  ∧ (is_Some (dict_get reg "duckdb") →
     ∃ cls, pick_database_engine reg config = Ok cls)
  ∧ (∀ e, pick_database_engine reg config = Raise e →
          e = ValueError ("No database engine found for config: "
                          +:+ cfg_repr config)
          ∧ dict_get reg "duckdb" = None
          ∧ ∀ cls, cls ∈ map snd reg → ec_can_handle cls config ≠ Ok true).
Proof.
  split_and!.
  - apply pick_registered.
  - apply pick_by_name.
  - intros cls. apply pick_after_register.
  - apply pick_with_duckdb.
  - apply pick_raise.
Qed.

Lemma engine_choice_witness :
  pick_database_engine builtin_engines sqlite_db = Ok SQLiteEngine
  ∧ ∃ cls, pick_database_engine builtin_engines unknown_db = Ok cls.
Proof.
  destruct (engine_choice builtin_engines sqlite_db) as (_ & Hname & _).
  destruct (engine_choice builtin_engines unknown_db) as (_ & _ & _ & Hd & _).
  split.
  - apply Hname. reflexivity.
  - apply Hd. eexists. reflexivity.
Defined.

(** X11.  [_sanitize_name] returns a valid SQL identifier for every name:
    not empty, made of letters, digits and underscores, not starting with
    a digit.  A name that is such an identifier is returned unchanged, so
    sanitising twice is sanitising once. *)
Theorem sanitized_name_is_identifier (name : string) :
  identifier (_sanitize_name name) = true
  ∧ (identifier name = true → _sanitize_name name = name)
  ∧ _sanitize_name (_sanitize_name name) = _sanitize_name name.
Proof.
  split_and!;
    [apply sanitize_identifier|apply sanitize_fixed|apply sanitize_idempotent].
Qed.

Lemma sanitized_name_is_identifier_witness :
  identifier (_sanitize_name "2024 sales!") = true
  ∧ _sanitize_name "my_table" = "my_table".
Proof.
  destruct (sanitized_name_is_identifier "2024 sales!") as (H1 & _).
  destruct (sanitized_name_is_identifier "my_table") as (_ & H2 & _).
  split; [exact H1|]. apply H2. vm_compute. reflexivity.
Defined.

(** X12.  The name under which [register_table] stages a table: without a
    schema it is an identifier on every engine; on an engine without
    schemas it is an identifier whenever the schema is one, the schema
    being joined by an underscore; on an engine with schemas and a schema
    given it is the schema, a dot, and an identifier. *)
Theorem staged_table_name (schema table_name : string) :
  (∀ supports_schemas,
     identifier (full_table supports_schemas "" table_name) = true)
  ∧ (identifier schema = true →
     identifier (full_table false schema table_name) = true)
  ∧ (nonempty schema = true →
     ∃ table, identifier table = true
              ∧ full_table true schema table_name = schema +:+ "." +:+ table).
Proof.
  split_and!.
  - intros b. apply full_table_plain.
  - apply full_table_prefixed.
  - apply full_table_qualified.
Qed.

Lemma staged_table_name_witness :
  identifier (full_table false "staging" "2024 sales!") = true
  ∧ ∃ table, identifier table = true
             ∧ full_table true "staging" " my-table "
               = "staging" +:+ "." +:+ table.
Proof.
  destruct (staged_table_name "staging" "2024 sales!") as (_ & H1 & _).
  destruct (staged_table_name "staging" " my-table ") as (_ & _ & H2).
  split; [apply H1|apply H2]; vm_compute; reflexivity.
Defined.

(** X13.  A [--set] override: after [_set_dotted], the value parsed from
    the text stands at the path that the dotted key spells, whatever was
    there before; a path that leaves the key's path at some part finds
    what it found before; at the top level no key is lost and the order is
    kept, the first part of the key being added last when it is new; and
    the parts of a key, joined by dots, give the key back. *)
Theorem override_sets_the_path (yaml_load : string → option pyobj)
    (config : list (string * pyobj)) (dotted_key value : string) :
  get_path (split_on "." dotted_key)
    (_set_dotted yaml_load config dotted_key value)
  = Some (default (PStr value) (yaml_load value))
  ∧ (∀ common a b p q,
       split_on "." dotted_key = common ++ a :: p → a ≠ b →
       get_path (common ++ b :: q)
         (_set_dotted yaml_load config dotted_key value)
       = get_path (common ++ b :: q) config)
  ∧ (∃ first rest,
       split_on "." dotted_key = first :: rest
       ∧ map fst (_set_dotted yaml_load config dotted_key value)
         = if bool_decide (first ∈ map fst config) then map fst config
           else map fst config ++ [first])
  ∧ join "." (split_on "." dotted_key) = dotted_key.
Proof.
  unfold _set_dotted. split_and!.
  - apply get_set_path, split_on_nonempty.
  - intros common a b p q -> Hab. by apply set_path_frame.
  - destruct (split_on_cons "." dotted_key) as (first & rest & Hs).
    exists first, rest. split; [done|]. by rewrite Hs, set_path_keys.
  - apply join_split.
Qed.

Lemma override_sets_the_path_witness :
  get_path ["execution"; "parallel_jobs"]
    (_set_dotted (λ _, None) override_config "execution.parallel_jobs" "false")
  = Some (PStr "false")
  ∧ get_path ["execution"; "on_error"]
      (_set_dotted (λ _, None) override_config "execution.parallel_jobs"
         "false")
    = Some (PStr "stop").
Proof.
  destruct (override_sets_the_path (λ _, None) override_config
              "execution.parallel_jobs" "false") as (H1 & H2 & _).
  split; [exact H1|].
  apply (H2 ["execution"] "parallel_jobs" "on_error" [] []); done.
Defined.

(** X14.  The dry-run validation accepts a configuration exactly when the
    three sections are there, stages and jobs are not empty, every job has
    a stage that is listed and a runner that is defined, and every
    dependency names a job; otherwise it raises. *)
Theorem validation_accepts (config : RawConfig) :
  _validate_pipeline config = Ok () ↔ well_formed config.
Proof. apply validate_ok. Qed.

(** X15.  What the dry-run validation accepts, the driver can start: for
    a configuration that both have read, there are jobs, the graph of
    their dependencies is built without error, every job belongs to a
    listed stage and has a defined runner, and a run gets to the loop over
    the stages. *)
Theorem validated_config_starts (raw : RawConfig) (cfg : PipelineConfig) :
  same_file raw cfg → _validate_pipeline raw = Ok () →
  jobs_config cfg ≠ []
  ∧ (∃ graph, _build_graph (create_jobs cfg) = Ok graph)
  ∧ (∀ job, job ∈ create_jobs cfg →
       stage job ∈ stages_list cfg
       ∧ is_Some (runner_types cfg !! runner job))
  ∧ ∀ `{P : Plugins} fuel duckdb_con (st : State) r st',
      run_pipeline fuel cfg duckdb_con st = Some (r, st') →
      ∃ st2, for_stages fuel (on_error cfg) (stages_list cfg)
               (mkState (create_jobs cfg) ∅ ∅ duckdb_con (world st) (trace st))
             = Some (r, st2).
Proof.
  intros Hsame Hv.
  destruct (validated_jobs raw cfg Hsame Hv) as [Hne Hall].
  assert (∃ graph, _build_graph (create_jobs cfg) = Ok graph) as [graph Hg].
  { apply build_from_ok. apply Forall_forall. intros job Hjob.
    by destruct (Hall job Hjob) as (_ & _ & ?). }
  split_and!; [done|by exists graph| |].
  - intros job Hjob. by destruct (Hall job Hjob) as (? & ? & _).
  - intros P fuel con st r st' Hrun.
    apply run_pipeline_spec in Hrun
      as [(? & _)|[(_ & e & He & _)|(_ & g & st2 & _ & Hfor & _)]];
      [done|congruence|by exists st2].
Qed.

Lemma validated_config_starts_witness :
  jobs_config diamond_config ≠ []
  ∧ (∃ graph, _build_graph (create_jobs diamond_config) = Ok graph)
  ∧ (∀ job, job ∈ create_jobs diamond_config →
       stage job ∈ stages_list diamond_config
       ∧ is_Some (runner_types diamond_config !! runner job))
  ∧ ∀ `{P : Plugins} fuel duckdb_con (st : State) r st',
      run_pipeline fuel diamond_config duckdb_con st = Some (r, st') →
      ∃ st2, for_stages fuel (on_error diamond_config)
               (stages_list diamond_config)
               (mkState (create_jobs diamond_config) ∅ ∅ duckdb_con
                  (world st) (trace st))
             = Some (r, st2).
Proof.
  apply (validated_config_starts diamond_raw diamond_config).
  - split_and!.
    + by intros stages [= <-].
    + intros jobs [= <-]. repeat constructor; simpl; congruence.
    + intros runners [= <-] r Hr. apply list_elem_of_singleton in Hr as ->.
      vm_compute. eauto.
  - reflexivity.
Defined.

Section Frames.
Context `{P : Plugins}.

(** X16.  A pipeline without a warehouse has no connection, and in its
    run no job of the transform or the load executor succeeds: at the end
    each of them is still pending, or has failed with the [ValueError] by
    which its executor asks for the connection, whatever the collaborators
    do and whatever the error policy. *)
Theorem no_warehouse_no_transform (fuel : nat) (cfg : PipelineConfig)
    (w : World) (r : result unit) (st : State) :
  NoDup (map fst (jobs_config cfg)) → warehouse cfg = None →
  orchestrator fuel cfg w = Some (r, st) →
  ∀ j, j ∈ jobs st → needs_connection j → status j = pending ∨ starved j.
Proof. apply no_connection_orchestrator. Qed.

(** X17.  At the end of every run, each table in the cache stands under
    the declared output name of an extract job that ended as [success]:
    the stage, transform and load executors never write to the cache, and
    an extract job that fails leaves it as it was. *)
Theorem cache_holds_extract_outputs (fuel : nat) (cfg : PipelineConfig)
    (w : World) (r : result unit) (st : State) :
  NoDup (map fst (jobs_config cfg)) →
  orchestrator fuel cfg w = Some (r, st) →
  ∀ k, is_Some (in_memory_tables st !! k) →
    ∃ j, j ∈ jobs st ∧ route (stage j) j = Some KExtract
         ∧ output_table_name j = Some k ∧ status j = success.
Proof. apply cache_orchestrator. Qed.

(** X20.  When a run returns normally, the summary accounts for every
    job: the jobs are those of the configuration, each of them is counted
    as successful, failed or skipped (still pending), so that the three
    counts add up to the number of jobs; and under a policy other than
    ["continue"] the count of failed jobs is zero. *)
Theorem summary_accounts_for_every_job (fuel : nat) (cfg : PipelineConfig)
    (w : World) (st : State) :
  NoDup (map fst (jobs_config cfg)) →
  orchestrator fuel cfg w = Some (Ok (), st) →
  job_names (jobs st) = map fst (jobs_config cfg)
  ∧ count_status success (jobs st) + count_status failed (jobs st)
    + count_status pending (jobs st) = length (jobs st)
  ∧ (on_error cfg ≠ "continue" → count_status failed (jobs st) = 0).
Proof. apply summary_orchestrator. Qed.

(** X18.  The stages run in the order in which they are listed: the jobs
    that a run takes up come in blocks, one block for each stage that the
    run has reached, in the order of the list of stages, and the jobs of a
    block are jobs of its stage. *)
Theorem stages_run_in_order (fuel : nat) (cfg : PipelineConfig) (w : World)
    (r : result unit) (st : State) :
  NoDup (map fst (jobs_config cfg)) →
  orchestrator fuel cfg w = Some (r, st) →
  ∃ blocks,
    dispatched (trace st) = concat blocks
    ∧ by_stage (create_jobs cfg) blocks
        (take (length blocks) (stages_list cfg)).
Proof. apply stages_orchestrator. Qed.

(** X19.  A run always ends: every round of the loop of a stage takes at
    least one job out of the pending ones, so that with more fuel than
    there are jobs the driver returns, with a result or an exception,
    whatever the collaborators do, the dependencies and the error
    policy. *)
Theorem run_always_ends (fuel : nat) (cfg : PipelineConfig) (w : World) :
  length (jobs_config cfg) < fuel →
  ∃ r st, orchestrator fuel cfg w = Some (r, st).
Proof. apply orchestrator_terminates. Qed.

End Frames.

Lemma stages_run_in_order_witness :
  ∃ blocks,
    dispatched (trace diamond_state) = concat blocks
    ∧ by_stage (create_jobs diamond_config) blocks
        (take (length blocks) (stages_list diamond_config)).
Proof.
  apply (stages_run_in_order (P := quiet_plugins) 5 diamond_config ()
           diamond_result diamond_state).
  - exact (@bool_decide_unpack
             (NoDup (map fst (jobs_config diamond_config))) _ I).
  - vm_compute. reflexivity.
Defined.

Lemma run_always_ends_witness :
  ∃ r st, @orchestrator failing_plugins 5 stall_config () = Some (r, st).
Proof.
  apply (run_always_ends (P := failing_plugins) 5 stall_config ()).
  vm_compute. lia.
Defined.

Lemma summary_accounts_for_every_job_witness :
  job_names (jobs sheets_state) = ["read_sheets"; "publish"]
  ∧ count_status success (jobs sheets_state)
    + count_status failed (jobs sheets_state)
    + count_status pending (jobs sheets_state) = length (jobs sheets_state)
  ∧ (on_error sheets_config ≠ "continue" →
     count_status failed (jobs sheets_state) = 0).
Proof.
  apply (summary_accounts_for_every_job (P := sample_plugins) 5 sheets_config
           () sheets_state).
  - exact (@bool_decide_unpack
             (NoDup (map fst (jobs_config sheets_config))) _ I).
  - vm_compute. reflexivity.
Defined.

Lemma no_warehouse_no_transform_witness :
  status publish_job = pending ∨ starved publish_job.
Proof.
  apply (no_warehouse_no_transform (P := sample_plugins) 5 sheets_config ()
           sheets_result sheets_state).
  - exact (@bool_decide_unpack
             (NoDup (map fst (jobs_config sheets_config))) _ I).
  - reflexivity.
  - vm_compute. reflexivity.
  - vm_compute. apply list_elem_of_further, list_elem_of_here.
  - left. vm_compute. reflexivity.
Defined.

Lemma cache_holds_extract_outputs_witness :
  ∃ j, j ∈ jobs sheets_state ∧ route (stage j) j = Some KExtract
       ∧ output_table_name j = Some "sheets" ∧ status j = success.
Proof.
  apply (cache_holds_extract_outputs (P := sample_plugins) 5 sheets_config ()
           sheets_result sheets_state).
  - exact (@bool_decide_unpack
             (NoDup (map fst (jobs_config sheets_config))) _ I).
  - vm_compute. reflexivity.
  - vm_compute. eauto.
Defined.

Section Closing.
Context `{P : Plugins}.

(** X21.  When the driver has opened a warehouse connection and the [try]
    block is reached, the [try] block ends, the driver closes nothing
    during it, and the run is the [try] block followed by one call of the
    engine's [close] on the handle the driver opened: the world at the end
    is the one that call leaves, the result is the exception of that call
    when it raises and the result of the [try] block otherwise, and
    everything else is as the [try] block left it.  What the collaborators
    do to connections in between is theirs. *)
Theorem driver_closes_its_handle (fuel : nat) (cfg : PipelineConfig)
    (w : World) (eng : Engine) (h : Handle) (st0 : State) :
  open_database cfg (initial_state w) = (Ok (Some eng, Some h), st0) →
  length (jobs_config cfg) < fuel →
  ∃ r1 st1 rc w',
    run_pipeline fuel cfg (Some h) st0 = Some (r1, st1)
    ∧ List.filter is_close (trace st1) = []
    ∧ engine_close eng h (world st1) = (rc, w')
    ∧ orchestrator fuel cfg w
      = Some (match rc with Ok _ => r1 | Raise e => Raise e end,
              mkState (jobs st1) (completed_jobs st1) (in_memory_tables st1)
                (exec_con st1) w' (trace st1 ++ [EvEngineClose eng h])).
Proof.
  intros Hopen Hfuel.
  destruct (run_pipeline_terminates fuel cfg (Some h) st0 Hfuel)
    as (r1 & st1 & Hrun).
  destruct (engine_close eng h (world st1)) as [rc w'] eqn:Hclose.
  exists r1, st1, rc, w'. split; [done|]. split.
  { rewrite (run_pipeline_closes _ _ _ _ _ _ Hrun).
    apply open_database_spec in Hopen as (_ & _ & Ht).
    destruct (warehouse cfg).
    - by destruct Ht as (e & _ & ->).
    - by destruct Ht as (_ & _ & ->). }
  split; [done|].
  unfold orchestrator. rewrite Hopen, Hrun.
  unfold cleanup. cbn [cleanup_action].
  unfold mbind, M_bind. rewrite emit_eq. unfold call. cbn [world].
  rewrite Hclose. by destruct rc as [[]|e].
Qed.

End Closing.

Lemma driver_closes_its_handle_witness :
  ∃ r1 st1 rc w',
    @run_pipeline dbt_plugins 5 dbt_config (Some 1)
      (@mkState dbt_plugins [] ∅ ∅ None [Opened 1] [EvConnect "duckdb" (Some 1)])
    = Some (r1, st1)
    ∧ List.filter is_close (trace st1) = []
    ∧ @engine_close dbt_plugins "duckdb" 1 (world st1) = (rc, w')
    ∧ @orchestrator dbt_plugins 5 dbt_config []
      = Some (match rc with Ok _ => r1 | Raise e => Raise e end,
              mkState (jobs st1) (completed_jobs st1) (in_memory_tables st1)
                (exec_con st1) w' (trace st1 ++ [EvEngineClose "duckdb" 1])).
Proof.
  apply (driver_closes_its_handle (P := dbt_plugins) 5 dbt_config []
           "duckdb" 1).
  - reflexivity.
  - simpl. lia.
Defined.

End Extras.
